(** * Earley / Leo / GLL parsers of [final_parser]: a shallow embedding

    The development follows [final_parser/Earley.py] and
    [final_parser/GLL.py].  Python dictionaries are association lists
    with distinct keys, Python sets are lists read through membership,
    objects that the code mutates in place (columns, choice records,
    GSS and SPPF nodes) live in explicit stores that are threaded
    through the functions, and Python exceptions are the [Raise] branch
    of [result]. *)

From Stdlib Require Import List String Ascii Bool Arith ZArith Lia.
Import ListNotations.
Open Scope string_scope.
Open Scope list_scope.
Open Scope nat_scope.

(** ** Exceptions and results *)

(** What a [SyntaxError] message is built from: ["at " + repr(text[cursor:])]
    in [recognize_on], ["at " + repr(cursor)] in [SimpleExtractor]. *)
Inductive error_position : Type :=
| AtSuffix (suffix : string)
| AtIndex (cursor : Z).

Inductive exn : Type :=
| KeyError
| IndexError
| AssertionError
| RecursionError
| AttributeError
| SyntaxError (at_ : error_position).

Inductive result (A : Type) : Type :=
| Ok (a : A)
| Raise (e : exn).

Arguments Ok {A} a.
Arguments Raise {A} e.

Definition bind {A B : Type} (r : result A) (k : A -> result B) : result B :=
  match r with
  | Ok a => k a
  | Raise e => Raise e
  end.

Notation "x <- c1 ;; c2" := (bind c1 (fun x => c2))
  (at level 61, c1 at next level, right associativity).

Definition is_ok {A : Type} (r : result A) : bool :=
  match r with Ok _ => true | Raise _ => false end.

(** ** Symbols and grammars *)

Definition symbol := string.
Definition alternative := list symbol.
Definition grammar := list (symbol * list alternative).

Definition sym_in (x : symbol) (l : list symbol) : bool :=
  existsb (String.eqb x) l.

Definition keys (g : grammar) : list symbol := map fst g.

(** [g[k]]; [None] stands for Python's [KeyError]. *)
Fixpoint lookup (g : grammar) (k : symbol) : option (list alternative) :=
  match g with
  | [] => None
  | (k', alts) :: g' => if String.eqb k k' then Some alts else lookup g' k
  end.

(** [k in g] *)
Definition in_grammar (g : grammar) (k : symbol) : bool :=
  match lookup g k with Some _ => true | None => false end.

Definition alt_eqb (a b : alternative) : bool :=
  if list_eq_dec string_dec a b then true else false.

Definition alt_in (a : alternative) (alts : list alternative) : bool :=
  existsb (alt_eqb a) alts.

(** [is_nt(k)]: [(k[0], k[-1]) == ('<', '>')]; indexing the empty string
    raises [IndexError]. *)
Definition first_char (k : string) : option ascii :=
  match k with
  | EmptyString => None
  | String c _ => Some c
  end.

Fixpoint last_char (k : string) : option ascii :=
  match k with
  | EmptyString => None
  | String c EmptyString => Some c
  | String _ k' => last_char k'
  end.

Definition is_nt (k : string) : result bool :=
  match first_char k, last_char k with
  | Some a, Some b => Ok (Ascii.eqb a "<"%char && Ascii.eqb b ">"%char)
  | _, _ => Raise IndexError
  end.

(** ** Nullable nonterminals ([rem_terminals], [nullable]) *)

(** [ts = [t for t in alt if not is_nt(t)]] followed by [if not ts]:
    the comprehension calls [is_nt] on every symbol of the alternative. *)
Fixpoint no_terminals (alt : alternative) : result bool :=
  match alt with
  | [] => Ok true
  | t :: alt' =>
      b <- is_nt t ;;
      r <- no_terminals alt' ;;
      Ok (b && r)
  end.

Fixpoint keep_nt_alts (alts : list alternative) : result (list alternative) :=
  match alts with
  | [] => Ok []
  | alt :: alts' =>
      b <- no_terminals alt ;;
      r <- keep_nt_alts alts' ;;
      Ok (if b then alt :: r else r)
  end.

Fixpoint rem_terminals (g : grammar) : result grammar :=
  match g with
  | [] => Ok []
  | (k, alts) :: g' =>
      alts' <- keep_nt_alts alts ;;
      r <- rem_terminals g' ;;
      Ok (match alts' with [] => r | _ => (k, alts') :: r end)
  end.

(** The inner [for alt in g_cur[k]] loop of [nullable]: the symbol [nxt]
    is dropped from each alternative; the loop breaks at the first
    alternative that becomes empty (second component [true]). *)
Fixpoint strip_alts (nxt : symbol) (alts g_alts : list alternative)
  : list alternative * bool :=
  match alts with
  | [] => (g_alts, false)
  | alt :: alts' =>
      match filter (fun t => negb (String.eqb t nxt)) alt with
      | [] => (g_alts, true)
      | alt_ => strip_alts nxt alts' (g_alts ++ [alt_])
      end
  end.

Definition set_add (k : symbol) (s : list symbol) : list symbol :=
  if sym_in k s then s else s ++ [k].

(** One pass of [for k in g_cur] : returns [g_nxt] and the updated
    [nullable_keys] and [unprocessed]. *)
Fixpoint nullable_pass (nxt : symbol) (g_cur : grammar)
    (nullable_keys unprocessed : list symbol)
  : grammar * list symbol * list symbol :=
  match g_cur with
  | [] => ([], nullable_keys, unprocessed)
  | (k, alts) :: g' =>
      let '(g_alts, emptied) := strip_alts nxt alts [] in
      let nk := if emptied then set_add k nullable_keys else nullable_keys in
      let un := if emptied then unprocessed ++ [k] else unprocessed in
      let '(g_nxt, nk', un') := nullable_pass nxt g' nk un in
      (match g_alts with [] => g_nxt | _ => (k, g_alts) :: g_nxt end, nk', un')
  end.

(** [while unprocessed: ...]; [None] when the step budget runs out. *)
Fixpoint nullable_loop (fuel : nat) (g_cur : grammar)
    (nullable_keys unprocessed : list symbol) : option (list symbol) :=
  match fuel with
  | O => None
  | S fuel' =>
      match unprocessed with
      | [] => Some nullable_keys
      | nxt :: unprocessed' =>
          let '(g_nxt, nk, un) :=
            nullable_pass nxt g_cur nullable_keys unprocessed' in
          nullable_loop fuel' g_nxt nk un
      end
  end.

Definition has_empty_alt (alts : list alternative) : bool :=
  alt_in [] alts.

(** [{k for k in g if [] in g[k]}] *)
Definition direct_nullable (g : grammar) : list symbol :=
  map fst (filter (fun e => has_empty_alt (snd e)) g).

Definition count_alts (g : grammar) : nat :=
  list_sum (map (fun e => List.length (snd e)) g).

Definition nullable_fuel (g : grammar) : nat :=
  S (List.length g + count_alts g).

(** [nullable(g)].  The loop is run with [nullable_fuel g] steps, which
    is always enough (lemma [nullable_loop_terminates] below). *)
Definition nullable (g : grammar) : result (list symbol) :=
  g_cur <- rem_terminals g ;;
  let nullable_keys := direct_nullable g in
  match nullable_loop (nullable_fuel g) g_cur nullable_keys nullable_keys with
  | Some r => Ok r
  | None => Ok nullable_keys
  end.

(** ** Earley items and columns *)

(** [State] (and its subclass [TState], flagged by [tstate]).  [s_col]
    and [e_col] are the indices of the columns the Python object points
    to; [e_col] is [None] until [Column.add] sets it. *)
Record State : Type := mkState {
  name : symbol;
  expr : alternative;
  dot : nat;
  s_col : nat;
  e_col : option nat;
  tstate : bool
}.

Definition finished (s : State) : bool := List.length (expr s) <=? dot s.

Definition at_dot (s : State) : option symbol := nth_error (expr s) (dot s).

Definition advance (s : State) : State :=
  mkState (name s) (expr s) (dot s + 1) (s_col s) None false.

(** [_t()], the identity of an item, and [__eq__]. *)
Definition State_t (s : State) : symbol * alternative * nat * nat :=
  (name s, expr s, dot s, s_col s).

Definition State_eqb (a b : State) : bool :=
  String.eqb (name a) (name b) && alt_eqb (expr a) (expr b)
  && Nat.eqb (dot a) (dot b) && Nat.eqb (s_col a) (s_col b).

(** [Column]: the dictionary [_unique] holds exactly the items of
    [states] under their identity, so membership in it is membership in
    [states] up to [State_eqb]. *)
Record Column : Type := mkColumn {
  index : nat;
  letter : option string;
  states : list State;
  transitives : list (symbol * State)
}.

Definition set_e_col (s : State) (i : nat) : State :=
  mkState (name s) (expr s) (dot s) (s_col s) (Some i) (tstate s).

Definition Column_add (c : Column) (s : State) : Column :=
  if existsb (State_eqb s) (states c) then c
  else mkColumn (index c) (letter c) (states c ++ [set_e_col s (index c)])
                (transitives c).

Definition chart := list Column.

(** In-place update of the column object at position [i]. *)
Fixpoint upd_col (ch : chart) (i : nat) (f : Column -> Column) : chart :=
  match ch, i with
  | [], _ => []
  | c :: ch', O => f c :: ch'
  | c :: ch', S i' => c :: upd_col ch' i' f
  end.

Definition col_states (ch : chart) (i : nat) : list State :=
  match nth_error ch i with
  | Some c => states c
  | None => []
  end.

(** ** The Earley recognizer *)

Section EarleyParser.

Variable g : grammar.            (* self._grammar *)
Variable epsilon : list symbol.  (* self.epsilon *)

Definition create_state (sym : symbol) (alt : alternative) (num col : nat)
  : State := mkState sym alt num col None false.

Definition predict (c : Column) (sym : symbol) (st : State) : Column :=
  let alts := match lookup g sym with Some a => a | None => [] end in
  let c1 := fold_left
              (fun c' alt => Column_add c' (create_state sym alt 0 (index c')))
              alts c in
  if sym_in sym epsilon then Column_add c1 (advance st) else c1.

Definition scan (c : Column) (st : State) (ltr : symbol) : Column :=
  match letter c with
  | Some l => if String.eqb ltr l then Column_add c (advance st) else c
  | None => c
  end.

Definition at_dot_is (nm : symbol) (st : State) : bool :=
  match at_dot st with
  | Some x => String.eqb x nm
  | None => false
  end.

(** [complete] (kept as [earley_complete] for the Leo parser). *)
Definition earley_complete (ch : chart) (i : nat) (st : State) : chart :=
  let parent_states := filter (at_dot_is (name st)) (col_states ch (s_col st)) in
  upd_col ch i (fun c => fold_left (fun c' p => Column_add c' (advance p))
                                   parent_states c).

Definition complete := earley_complete.

(** The body of the inner loop of [fill_chart] for the item [st] of
    column [i]. *)
Definition fill_step (ch : chart) (i : nat) (st : State) : chart :=
  if finished st then complete ch i st
  else
    match at_dot st with
    | None => ch
    | Some sym =>
        if in_grammar g sym then upd_col ch i (fun c => predict c sym st)
        else if List.length ch <=? i + 1 then ch
        else upd_col ch (i + 1) (fun c => scan c st sym)
    end.

(** [for state in col.states]: the list grows while it is traversed;
    [j] is the position of the iterator. *)
Fixpoint fill_column (fuel : nat) (ch : chart) (i j : nat) : option chart :=
  match fuel with
  | O => None
  | S fuel' =>
      match nth_error (col_states ch i) j with
      | None => Some ch
      | Some st => fill_column fuel' (fill_step ch i st) i (S j)
      end
  end.

Definition grammar_size : nat :=
  list_sum (map (fun e => list_sum (map (fun a => S (List.length a)) (snd e))) g).

Definition column_fuel (i : nat) : nat := S (S i * grammar_size).

(** [for i, col in enumerate(chart)] over the [n] remaining columns. *)
Fixpoint fill_columns (n : nat) (ch : chart) (i : nat) : option chart :=
  match n with
  | O => Some ch
  | S n' =>
      match fill_column (column_fuel i) ch i 0 with
      | Some ch' => fill_columns n' ch' (S i)
      | None => None
      end
  end.

Definition fill_chart_opt (ch : chart) : option chart :=
  fill_columns (List.length ch) ch 0.

Definition fill_chart (ch : chart) : chart :=
  match fill_chart_opt ch with
  | Some ch' => ch'
  | None => ch
  end.

(** [enumerate([None, *tokens])] for a Python string [text]: one
    one-character token per character. *)
Fixpoint tokens_of (text : string) : list string :=
  match text with
  | EmptyString => []
  | String c text' => String c EmptyString :: tokens_of text'
  end.

Fixpoint columns_from (i : nat) (toks : list (option string)) : chart :=
  match toks with
  | [] => []
  | t :: toks' => mkColumn i t [] [] :: columns_from (S i) toks'
  end.

Definition seed_chart (text : string) (start : symbol)
    (alts : list alternative) : chart :=
  let ch := columns_from 0 (None :: map Some (tokens_of text)) in
  upd_col ch 0 (fun c => fold_left
                           (fun c' alt => Column_add c' (create_state start alt 0 0))
                           alts c).

Definition chart_parse (text : string) (start : symbol)
    (alts : list alternative) : chart :=
  fill_chart (seed_chart text start alts).

(** [parse_prefix]: the scan [for col in reversed(self.table)]. *)
Definition start_states (start : symbol) (alts : list alternative)
    (c : Column) : list State :=
  filter (fun st => String.eqb (name st) start && alt_in (expr st) alts
                    && Nat.eqb (s_col st) 0) (states c).

Fixpoint latest_start (start : symbol) (alts : list alternative)
    (rev_table : list Column) : Z * list State :=
  match rev_table with
  | [] => ((-1)%Z, [])
  | c :: rest =>
      match start_states start alts c with
      | [] => latest_start start alts rest
      | sts => (Z.of_nat (index c), sts)
      end
  end.

Definition parse_prefix (text : string) (start : symbol)
  : result (chart * (Z * list State)) :=
  match lookup g start with
  | None => Raise KeyError
  | Some alts =>
      let table := chart_parse text start alts in
      Ok (table, latest_start start alts (rev table))
  end.

(** [text[cursor:]] for [cursor >= -1]. *)
Fixpoint string_drop (n : nat) (s : string) : string :=
  match n, s with
  | O, _ => s
  | S n', String _ s' => string_drop n' s'
  | S _, EmptyString => EmptyString
  end.

Definition slice_from (text : string) (cursor : Z) : string :=
  if (cursor <? 0)%Z
  then string_drop (String.length text - Z.to_nat (- cursor)) text
  else string_drop (Z.to_nat cursor) text.

Variable parse_exceptions : bool.

Definition recognize_on (text : string) (start : symbol)
  : result (chart * list State) :=
  r <- parse_prefix text start ;;
  let '(table, (cursor, sts)) := r in
  let starts := filter finished sts in
  if parse_exceptions
     && ((cursor <? Z.of_nat (String.length text))%Z
         || match starts with [] => true | _ => false end)
  then Raise (SyntaxError (AtSuffix (slice_from text cursor)))
  else Ok (table, starts).

End EarleyParser.

(** [EarleyParser(grammar, parse_exceptions=...)]: the constructor
    computes [self.epsilon = nullable(grammar)]. *)
Record Parser : Type := mkParser {
  p_grammar : grammar;
  p_epsilon : list symbol;
  p_parse_exceptions : bool
}.

Definition EarleyParser (g : grammar) (parse_exceptions : bool)
  : result Parser :=
  eps <- nullable g ;;
  Ok (mkParser g eps parse_exceptions).

(** ** Parse forests and derivation trees (Earley) *)

(** An element [(v, k)] of a parse path: [(var, 't')] for a scanned
    terminal, [(state, 'n')] for a completed item. *)
Inductive pnode : Type :=
| PT (var : symbol)
| PN (s : State).

(** A forest node [(name, paths)]; every path element also carries the
    chart, which is the same object throughout and is passed alongside. *)
Definition forest_node : Type := symbol * list (list pnode).

(** Derivation trees [(symbol, [child, ...])]. *)
#[warnings="-register-all"]
Inductive tree : Type :=
| Node (key : symbol) (children : list tree).

Definition letter_at (ch : chart) (i : nat) : option string :=
  match nth_error ch i with
  | Some c => letter c
  | None => None
  end.

Definition letter_is (ch : chart) (i : nat) (var : symbol) : bool :=
  match letter_at ch i with
  | Some l => String.eqb l var
  | None => false
  end.

Section Forest.

Variable g : grammar.

(** [parse_paths], by recursion on the reversed expression: [var] is the
    last symbol of [named_expr] and [rest] is [expr] reversed ([*expr,
    var = named_expr]).  The function is only called on non-empty
    expressions and with column indices of the chart.  It gives the
    paths that [parse_paths] returns: the recursion, one call per symbol
    of the expression, is followed without a bound, so a
    [RecursionError] raised there is outside the model, and what is
    proved about forests concerns the runs in which [parse_paths]
    returns. *)
Fixpoint parse_paths_rev (rexpr : list symbol) (ch : chart) (frm til : nat)
  : list (list pnode) :=
  match rexpr with
  | [] => []
  | var :: rest =>
      let starts : list (pnode * nat) :=
        if in_grammar g var
        then map (fun s => (PN s, s_col s))
                 (filter (fun s => finished s && String.eqb (name s) var)
                         (col_states ch til))
        else if (0 <? til) && letter_is ch til var
             then [(PT var, til - String.length var)]
             else [] in
      flat_map
        (fun sk =>
           match rest with
           | [] => if Nat.eqb (snd sk) frm then [[fst sk]] else []
           | _ => map (cons (fst sk)) (parse_paths_rev rest ch frm (snd sk))
           end)
        starts
  end.

Definition parse_paths (named_expr : list symbol) (ch : chart) (frm til : nat)
  : list (list pnode) :=
  parse_paths_rev (rev named_expr) ch frm til.

(** [_parse_forest]; an item that was never added to a column has no
    [e_col] (Python: attribute access on [None]). *)
Definition parse_forest_state (ch : chart) (st : State)
  : result forest_node :=
  match expr st with
  | [] => Ok (name st, [])
  | _ =>
      match e_col st with
      | None => Raise AttributeError
      | Some til =>
          Ok (name st,
              map (fun p => rev p) (parse_paths (expr st) ch (s_col st) til))
      end
  end.

Fixpoint dedup (l : list symbol) : list symbol :=
  match l with
  | [] => []
  | x :: l' => if sym_in x l' then dedup l' else x :: dedup l'
  end.

Fixpoint map_result {A B : Type} (f : A -> result B) (l : list A)
  : result (list B) :=
  match l with
  | [] => Ok []
  | a :: l' =>
      b <- f a ;;
      r <- map_result f l' ;;
      Ok (b :: r)
  end.

Definition parse_forest (ch : chart) (sts : list State) : result forest_node :=
  match dedup (map name sts) with
  | [nm] =>
      forest <- map_result (parse_forest_state ch) sts ;;
      Ok (nm, List.concat (map snd forest))
  | _ => Raise AssertionError
  end.

Definition forest (ch : chart) (p : pnode) : result forest_node :=
  match p with
  | PN s => parse_forest ch [s]
  | PT v => Ok (v, [])
  end.

(** [itertools.product] over the pools *)
Fixpoint product {A : Type} (pools : list (list A)) : list (list A) :=
  match pools with
  | [] => [[]]
  | p :: ps => flat_map (fun x => map (cons x) (product ps)) p
  end.

(** A generator that was run to its end: the values it yielded and the
    exception that ended it, if any. *)
Definition yields (A : Type) : Type := list A * option exn.

(** [tuple(pool)] for each generator of [ptrees], in order; the first
    exception stops the product before it yields anything. *)
Fixpoint exhaust_pools {A : Type} (gens : list (yields A))
  : result (list (list A)) :=
  match gens with
  | [] => Ok []
  | (ys, Some e) :: _ => Raise e
  | (ys, None) :: gens' =>
      r <- exhaust_pools gens' ;;
      Ok (ys :: r)
  end.

(** The trees of one path of [extract_trees]: [ptrees] holds one
    generator per path element (the forests are built first), the
    product exhausts them in order, and every tuple of the product gives
    a tree. *)
Definition path_trees (rec : forest_node -> yields tree) (ch : chart)
    (nm : symbol) (path : list pnode) : result (list tree) :=
  fs <- map_result (forest ch) path ;;
  pools <- exhaust_pools (map rec fs) ;;
  Ok (map (Node nm) (product pools)).

(** [for path in paths]: the trees yielded so far and the exception
    that stops the loop, if any. *)
Fixpoint over_paths (rec : forest_node -> yields tree) (ch : chart)
    (nm : symbol) (paths : list (list pnode)) : yields tree :=
  match paths with
  | [] => ([], None)
  | path :: paths' =>
      match path_trees rec ch nm path with
      | Raise e => ([], Some e)
      | Ok ts =>
          let '(ys, e) := over_paths rec ch nm paths' in
          (ts ++ ys, e)
      end
  end.

(** [extract_trees] (the version with [itertools.product]); [depth]
    bounds the nesting of generator frames: Python raises
    [RecursionError] beyond its recursion limit. *)
Fixpoint extract_trees (depth : nat) (ch : chart) (fn : forest_node)
  : yields tree :=
  match depth with
  | O => ([], Some RecursionError)
  | S depth' =>
      let '(nm, paths) := fn in
      match paths with
      | [] => ([Node nm []], None)
      | _ => over_paths (extract_trees depth' ch) ch nm paths
      end
  end.

End Forest.

(** [parse_on] of [EarleyParser]: the trees the generator yields and how
    it ends. *)
Definition parse_on (p : Parser) (depth : nat) (text : string)
    (start : symbol) : yields tree :=
  match recognize_on (p_grammar p) (p_epsilon p) (p_parse_exceptions p)
                     text start with
  | Raise e => ([], Some e)
  | Ok (table, starts) =>
      match parse_forest (p_grammar p) table starts with
      | Raise e => ([], Some e)
      | Ok f => extract_trees (p_grammar p) depth table f
      end
  end.

(** [tree_to_str]: the work list [to_expand] and the output [expanded]. *)
Fixpoint tree_size (t : tree) : nat :=
  match t with
  | Node _ cs => S (list_sum (map tree_size cs))
  end.

Fixpoint expand_loop (fuel : nat) (to_expand : list tree)
    (expanded : list string) : result (list string) :=
  match to_expand with
  | [] => Ok expanded
  | Node key children :: rest =>
      match fuel with
      | O => Ok expanded
      | S fuel' =>
          b <- is_nt key ;;
          if b then expand_loop fuel' (children ++ rest) expanded
          else match children with
               | [] => expand_loop fuel' rest (expanded ++ [key])
               | _ => Raise AssertionError
               end
      end
  end.

Definition tree_to_str (t : tree) : result string :=
  l <- expand_loop (tree_size t) [t] [] ;;
  Ok (String.concat "" l).

(** ** Choice records ([ChoiceNode])

    The records form a linked list that the extractor mutates; they
    live in a store and are referred to by their position in it. *)
Record ChoiceNode : Type := mkChoice {
  c_p : option nat;
  c_chosen : nat;
  c_total : nat;
  c_next : option nat
}.

Definition cstore := list ChoiceNode.

Fixpoint list_set {A : Type} (l : list A) (i : nat) (a : A) : list A :=
  match l, i with
  | [], _ => []
  | _ :: l', O => a :: l'
  | x :: l', S i' => x :: list_set l' i' a
  end.

Definition c_finished (c : ChoiceNode) : bool := c_total c <=? c_chosen c.

(** [increment]: follows the parent links; a parent is always allocated
    before its children, so [List.length cs] links are enough. *)
Fixpoint increment_loop (fuel : nat) (cs : cstore) (i : nat) : cstore :=
  match fuel with
  | O => cs
  | S fuel' =>
      match nth_error cs i with
      | None => cs
      | Some c =>
          let c' := mkChoice (c_p c) (c_chosen c + 1) (c_total c) None in
          let cs' := list_set cs i c' in
          if c_finished c'
          then match c_p c with
               | None => cs'
               | Some p => increment_loop fuel' cs' p
               end
          else cs'
      end
  end.

Definition increment (cs : cstore) (i : nat) : cstore :=
  increment_loop (List.length cs) cs i.

(** [choose_path(arr, choices)]; [checked] tells whether [chosen()]
    asserts that the record is not finished (it does in [Earley.py] and
    does not in [GLL.py]).  The first component is [None] when the
    recorded choice is exhausted. *)
Definition choose_path {A : Type} (checked : bool) (arr : list A)
    (cs : cstore) (choices : nat) : result (option A * nat * cstore) :=
  match nth_error cs choices with
  | None => Raise AttributeError
  | Some c =>
      let pick (n : nat) (cs' : cstore) : result (option A * nat * cstore) :=
        match nth_error cs' n with
        | None => Raise AttributeError
        | Some cn =>
            if checked && c_finished cn then Raise AssertionError
            else match nth_error arr (c_chosen cn) with
                 | Some x => Ok (Some x, n, cs')
                 | None => Raise IndexError
                 end
        end in
      match c_next c with
      | Some n =>
          match nth_error cs n with
          | None => Raise AttributeError
          | Some cn => if c_finished cn then Ok (None, n, cs) else pick n cs
          end
      | None =>
          let n := List.length cs in
          let cs' := list_set cs choices
                       (mkChoice (c_p c) (c_chosen c) (c_total c) (Some n))
                     ++ [mkChoice (Some choices) 0 (List.length arr) None] in
          pick n cs'
      end
  end.

(** ** [EnhancedExtractor] over the Earley forest *)

Module EarleyExtractor.

Definition nid : Type := symbol * nat * nat.

Definition nid_eqb (a b : nid) : bool :=
  let '(n1, s1, e1) := a in
  let '(n2, s2, e2) := b in
  String.eqb n1 n2 && Nat.eqb s1 s2 && Nat.eqb e1 e2.

Section Extractor.

Variable g : grammar.
Variable ch : chart.

(** [extract_a_node(forest_node, seen, choices)]; the result is the
    tree (or [None]), the choice record reached and the store. *)
Fixpoint extract_a_node (depth : nat) (cs : cstore) (fn : forest_node)
    (seen : list nid) (choices : nat) : result (option tree * nat * cstore) :=
  match depth with
  | O => Raise RecursionError
  | S depth' =>
      let '(nm, paths) := fn in
      match paths with
      | [] => Ok (Some (Node nm []), choices, cs)
      | _ =>
          r <- choose_path true paths cs choices ;;
          let '(cur_path, new_choices, cs1) := r in
          match cur_path with
          | None => Ok (None, new_choices, cs1)
          | Some path =>
              (fix over_path (ps : list pnode) (child_nodes : list tree)
                   (new_choices : nat) (cs : cstore)
                 : result (option tree * nat * cstore) :=
                 match ps with
                 | [] => Ok (Some (Node nm child_nodes), new_choices, cs)
                 | PT s :: ps' =>
                     over_path ps' (child_nodes ++ [Node s []]) new_choices cs
                 | PN s :: ps' =>
                     match e_col s with
                     | None => Raise AttributeError
                     | Some e =>
                         let id := (name s, s_col s, e) in
                         if existsb (nid_eqb id) seen
                         then Ok (None, new_choices, cs)
                         else
                           f <- forest g ch (PN s) ;;
                           r' <- extract_a_node depth' cs f (id :: seen)
                                                new_choices ;;
                           let '(ntree, newer_choices, cs') := r' in
                           match ntree with
                           | None => Ok (None, newer_choices, cs')
                           | Some t =>
                               over_path ps' (child_nodes ++ [t])
                                         newer_choices cs'
                           end
                     end
                 end) path [] new_choices cs1
          end
      end
  end.

(** [extract_a_tree]: [cs] is the state of the extractor ([self.choices]
    is the record at position 0); [None] when the loop budget [fuel] is
    used up. *)
Fixpoint extract_a_tree (fuel depth : nat) (my_forest : forest_node)
    (cs : cstore) : option (result (option tree * cstore)) :=
  match fuel with
  | O => None
  | S fuel' =>
      match nth_error cs 0 with
      | None => Some (Raise AttributeError)
      | Some root =>
          if c_finished root then Some (Ok (None, cs))
          else
            match extract_a_node depth cs my_forest [] 0 with
            | Raise e => Some (Raise e)
            | Ok (parse_tree, choices, cs1) =>
                let cs2 := increment cs1 choices in
                match parse_tree with
                | Some t => Some (Ok (Some t, cs2))
                | None => extract_a_tree fuel' depth my_forest cs2
                end
            end
      end
  end.

End Extractor.

(** [EnhancedExtractor(parser, text, start_symbol)]: the constructor of
    [SimpleExtractor] followed by [self.choices = ChoiceNode(None, 1)]. *)
Definition new_extractor (p : Parser) (text : string) (start : symbol)
  : result (chart * forest_node * cstore) :=
  r <- parse_prefix (p_grammar p) (p_epsilon p) text start ;;
  let '(table, (cursor, sts)) := r in
  let starts := filter finished sts in
  if (cursor <? Z.of_nat (String.length text))%Z
     || match starts with [] => true | _ => false end
  then Raise (SyntaxError (AtIndex cursor))
  else
    f <- parse_forest (p_grammar p) table starts ;;
    Ok (table, f, [mkChoice None 0 1 None]).

End EarleyExtractor.

(** ** [SimpleExtractor] over the Earley forest

    [random.randrange] draws from a stream of numbers [rnd]; every
    index below the bound can be drawn. *)

Module SimpleExtractor.

Definition randrange (l : nat) (rnd : list nat) : nat * list nat :=
  match rnd with
  | [] => (0, [])
  | r :: rnd' => (r mod l, rnd')
  end.

Section Extractor.

Variable g : grammar.
Variable ch : chart.

(** [choose_path(arr)] *)
Definition choose_path {A : Type} (arr : list A) (rnd : list nat)
  : result (A * list nat) :=
  let '(i, rnd') := randrange (List.length arr) rnd in
  match nth_error arr i with
  | Some x => Ok (x, rnd')
  | None => Raise IndexError
  end.

(** [extract_a_node(forest_node)]: the second component of its result,
    the tree; the first one, the tree of the positions chosen, is
    dropped by [extract_a_tree].  [depth] bounds the depth of the
    recursion. *)
Fixpoint extract_a_node (depth : nat) (fn : forest_node) (rnd : list nat)
  : result (tree * list nat) :=
  match depth with
  | O => Raise RecursionError
  | S depth' =>
      let '(nm, paths) := fn in
      match paths with
      | [] => Ok (Node nm [], rnd)
      | _ =>
          r <- choose_path paths rnd ;;
          (fix over_path (ps : list pnode) (child_nodes : list tree)
               (rnd : list nat) : result (tree * list nat) :=
             match ps with
             | [] => Ok (Node nm child_nodes, rnd)
             | nd :: ps' =>
                 f <- forest g ch nd ;;
                 r' <- extract_a_node depth' f rnd ;;
                 over_path ps' (child_nodes ++ [fst r']) (snd r')
             end) (fst r) [] (snd r)
      end
  end.

Definition extract_a_tree (depth : nat) (my_forest : forest_node)
    (rnd : list nat) : result (tree * list nat) :=
  extract_a_node depth my_forest rnd.

End Extractor.

(** [SimpleExtractor(parser, text, start_symbol)]: the chart of the
    parser and [self.my_forest]. *)
Definition new_extractor (p : Parser) (text : string) (start : symbol)
  : result (chart * forest_node) :=
  r <- parse_prefix (p_grammar p) (p_epsilon p) text start ;;
  let '(table, (cursor, sts)) := r in
  let starts := filter finished sts in
  if (cursor <? Z.of_nat (String.length text))%Z
     || match starts with [] => true | _ => false end
  then Raise (SyntaxError (AtIndex cursor))
  else
    f <- parse_forest (p_grammar p) table starts ;;
    Ok (table, f).

End SimpleExtractor.

(** ** The Leo parser ([LeoParser]) *)

Module Leo.

(** [self._postdots], keyed by item identity. *)
Definition postdots : Type := list ((symbol * alternative * nat * nat) * State).

Definition t_eqb (a b : symbol * alternative * nat * nat) : bool :=
  let '(n1, e1, d1, s1) := a in
  let '(n2, e2, d2, s2) := b in
  String.eqb n1 n2 && alt_eqb e1 e2 && Nat.eqb d1 d2 && Nat.eqb s1 s2.

Fixpoint postdots_set (pd : postdots) (k : symbol * alternative * nat * nat)
    (v : State) : postdots :=
  match pd with
  | [] => [(k, v)]
  | (k', v') :: pd' =>
      if t_eqb k k' then (k, v) :: pd' else (k', v') :: postdots_set pd' k v
  end.

Fixpoint transitive_get (tr : list (symbol * State)) (k : symbol)
  : option State :=
  match tr with
  | [] => None
  | (k', v) :: tr' => if String.eqb k k' then Some v else transitive_get tr' k
  end.

Definition col_transitives (ch : chart) (i : nat) : list (symbol * State) :=
  match nth_error ch i with
  | Some c => transitives c
  | None => []
  end.

(** [create_tstate] *)
Definition create_tstate (s : State) : State :=
  mkState (name s) (expr s) (dot s) (s_col s) (e_col s) true.

(** [TState.copy] *)
Definition copy (s : State) : State :=
  mkState (name s) (expr s) (dot s) (s_col s) (e_col s) true.

(** [Column.add_transitive] without its assertion, which [get_top]
    below checks first. *)
Definition add_transitive (c : Column) (key : symbol) (s : State) : Column :=
  mkColumn (index c) (letter c) (states c)
           (transitives c ++ [(key, create_tstate s)]).

Definition nonempty_expr (s : State) : bool :=
  match expr s with [] => false | _ => true end.

(** [uniq_postdot] (the final version, which records the link in
    [_postdots]). *)
Definition uniq_postdot (ch : chart) (pd : postdots) (st_A : State)
  : option State * postdots :=
  let parent_states :=
    filter (fun s => nonempty_expr s && at_dot_is (name st_A) s)
           (col_states ch (s_col st_A)) in
  if 1 <? List.length parent_states then (None, pd)
  else
    match filter (fun s => dot s =? List.length (expr s) - 1) parent_states with
    | b :: _ => (Some b, postdots_set pd (State_t b) st_A)
    | [] => (None, pd)
    end.

(** [get_top]; [depth] bounds the recursion (Python raises
    [RecursionError] beyond its limit). *)
Fixpoint get_top (depth : nat) (ch : chart) (pd : postdots) (state_A : State)
  : result (option State * chart * postdots) :=
  match depth with
  | O => Raise RecursionError
  | S depth' =>
      let '(b, pd1) := uniq_postdot ch pd state_A in
      match b with
      | None => Ok (None, ch, pd1)
      | Some st_B_inc =>
          match e_col st_B_inc with
          | None => Raise AttributeError
          | Some e =>
              let t_name := name st_B_inc in
              match transitive_get (col_transitives ch e) t_name with
              | Some t => Ok (Some t, ch, pd1)
              | None =>
                  let st_B := advance st_B_inc in
                  r <- get_top depth' ch pd1 st_B ;;
                  let '(top0, ch1, pd2) := r in
                  let top := match top0 with Some t => t | None => st_B end in
                  match transitive_get (col_transitives ch1 e) t_name with
                  | Some _ => Raise AssertionError
                  | None =>
                      Ok (Some (create_tstate top),
                          upd_col ch1 e (fun c => add_transitive c t_name top),
                          pd2)
                  end
              end
          end
      end
  end.

Definition deterministic_reduction := get_top.

Section LeoParser.

Variable g : grammar.
Variable epsilon : list symbol.
Variable depth : nat.

(** [leo_complete(col, state)] for the column at position [i]. *)
Definition leo_complete (ch : chart) (pd : postdots) (i : nat) (st : State)
  : result (chart * postdots) :=
  r <- deterministic_reduction depth ch pd st ;;
  let '(detred, ch1, pd1) := r in
  match detred with
  | Some d => Ok (upd_col ch1 i (fun c => Column_add c (copy d)), pd1)
  | None => Ok (earley_complete ch1 i st, pd1)
  end.

Definition fill_step (ch : chart) (pd : postdots) (i : nat) (st : State)
  : result (chart * postdots) :=
  if finished st then leo_complete ch pd i st
  else
    match at_dot st with
    | None => Ok (ch, pd)
    | Some sym =>
        if in_grammar g sym
        then Ok (upd_col ch i (fun c => predict g epsilon c sym st), pd)
        else if List.length ch <=? i + 1 then Ok (ch, pd)
        else Ok (upd_col ch (i + 1) (fun c => scan c st sym), pd)
    end.

(** The loops of [fill_chart]; [None] when the step budget runs out. *)
Fixpoint fill_column (fuel : nat) (ch : chart) (pd : postdots) (i j : nat)
  : option (result (chart * postdots)) :=
  match fuel with
  | O => None
  | S fuel' =>
      match nth_error (col_states ch i) j with
      | None => Some (Ok (ch, pd))
      | Some st =>
          match fill_step ch pd i st with
          | Raise e => Some (Raise e)
          | Ok (ch', pd') => fill_column fuel' ch' pd' i (S j)
          end
      end
  end.

Fixpoint fill_columns (fuel n : nat) (ch : chart) (pd : postdots) (i : nat)
  : option (result (chart * postdots)) :=
  match n with
  | O => Some (Ok (ch, pd))
  | S n' =>
      match fill_column fuel ch pd i 0 with
      | Some (Ok (ch', pd')) => fill_columns fuel n' ch' pd' (S i)
      | other => other
      end
  end.

Definition chart_parse (fuel : nat) (text : string) (start : symbol)
    (alts : list alternative) : option (result (chart * postdots)) :=
  let ch := seed_chart text start alts in
  fill_columns fuel (List.length ch) ch [] 0.

Definition parse_prefix (fuel : nat) (text : string) (start : symbol)
  : option (result (chart * (Z * list State))) :=
  match lookup g start with
  | None => Some (Raise KeyError)
  | Some alts =>
      match chart_parse fuel text start alts with
      | None => None
      | Some (Raise e) => Some (Raise e)
      | Some (Ok (table, _)) =>
          Some (Ok (table, latest_start start alts (rev table)))
      end
  end.

Variable parse_exceptions : bool.

Definition recognize_on (fuel : nat) (text : string) (start : symbol)
  : option (result (chart * list State)) :=
  match parse_prefix fuel text start with
  | None => None
  | Some (Raise e) => Some (Raise e)
  | Some (Ok (table, (cursor, sts))) =>
      let starts := filter finished sts in
      if parse_exceptions
         && ((cursor <? Z.of_nat (String.length text))%Z
             || match starts with [] => true | _ => false end)
      then Some (Raise (SyntaxError (AtSuffix (slice_from text cursor))))
      else Some (Ok (table, starts))
  end.

End LeoParser.

End Leo.

(** ** The GLL parser ([GLLStructuredStackP] and the compiled driver) *)

Module GLL.

(** Values of the variable [L] of the driver: a string (['L0'], ['L_']
    or the name of a nonterminal) or a grammar slot [(X, n_alt, dot)]. *)
Inductive label : Type :=
| LStr (s : string)
| LSlot (X : symbol) (nalt dot : nat).

Definition label_eqb (a b : label) : bool :=
  match a, b with
  | LStr s, LStr s' => String.eqb s s'
  | LSlot X n d, LSlot X' n' d' =>
      String.eqb X X' && Nat.eqb n n' && Nat.eqb d d'
  | _, _ => false
  end.

(** Labels of GSS nodes: [(L, index)]. *)
Definition gss_label : Type := label * nat.

Definition gss_label_eqb (a b : gss_label) : bool :=
  label_eqb (fst a) (fst b) && Nat.eqb (snd a) (snd b).

(** First component of the keys of [SPPF_nodes]: [None], a string, a
    slot, or [('P', slot, k)] for packed nodes. *)
Inductive sppf_tag : Type :=
| TNone
| TStr (x : string)
| TSlot (X : symbol) (nalt dot : nat)
| TPacked (X : symbol) (nalt dot k : nat).

Definition sppf_tag_eqb (a b : sppf_tag) : bool :=
  match a, b with
  | TNone, TNone => true
  | TStr x, TStr y => String.eqb x y
  | TSlot X n d, TSlot X' n' d' =>
      String.eqb X X' && Nat.eqb n n' && Nat.eqb d d'
  | TPacked X n d k, TPacked X' n' d' k' =>
      String.eqb X X' && Nat.eqb n n' && Nat.eqb d d' && Nat.eqb k k'
  | _, _ => false
  end.

(** Keys of [SPPF_nodes]; a node object is referred to by its key.  The
    label of a symbol, intermediate or dummy node is its key [(t, j, i)];
    the label of the packed node stored under [(('P', slot, k), j, i)]
    is [(slot, k)]. *)
Definition sppf_key : Type := sppf_tag * nat * nat.

Definition sppf_key_eqb (a b : sppf_key) : bool :=
  let '(t, j, i) := a in
  let '(t', j', i') := b in
  sppf_tag_eqb t t' && Nat.eqb j j' && Nat.eqb i i'.

(** The class of a node is fixed by its key when it is created. *)
Inductive node_class : Type :=
| SPPF_dummy_node
| SPPF_symbol_node
| SPPF_intermediate_node
| SPPF_packed_node.

Definition class_of (k : sppf_key) : node_class :=
  match fst (fst k) with
  | TNone => SPPF_dummy_node
  | TStr x => if String.eqb x "$" then SPPF_dummy_node else SPPF_symbol_node
  | TSlot _ _ _ => SPPF_intermediate_node
  | TPacked _ _ _ _ => SPPF_packed_node
  end.

Record SPPFNode : Type := mkNode {
  nid : nat;
  children : list sppf_key
}.

Definition descriptor : Type := label * gss_label * nat * sppf_key.

Record GLLStructuredStackP : Type := mkP {
  I : string;
  m : nat;
  graph : list (gss_label * list (gss_label * sppf_key));
  P : list (gss_label * list sppf_key);
  threads : list descriptor;
  U : list (list (label * gss_label * sppf_key));
  SPPF_nodes : list (sppf_key * SPPFNode);
  N_ID : nat;
  p_gram : grammar;
  p_nullable : list symbol;
  root : option sppf_key
}.

Definition stack_bottom : gss_label := (LStr "L0", 0).

(** *** Nullable set of [get_first_and_follow]

    Modelled from the spec: [fuzzer.is_nonterminal] and
    [fuzzer.is_terminal] belong to the external module [simplefuzzer];
    the spec fixes the convention: a nonterminal is a symbol of the form
    [<...>], everything else is a terminal. *)
Definition is_nonterminal (t : symbol) : result bool := is_nt t.

Fixpoint rhs_nonterminals_alt (alt : alternative) : result (list symbol) :=
  match alt with
  | [] => Ok []
  | t :: alt' =>
      b <- is_nonterminal t ;;
      r <- rhs_nonterminals_alt alt' ;;
      Ok (if b then t :: r else r)
  end.

Fixpoint rhs_nonterminals_alts (alts : list alternative)
  : result (list symbol) :=
  match alts with
  | [] => Ok []
  | a :: alts' =>
      x <- rhs_nonterminals_alt a ;;
      r <- rhs_nonterminals_alts alts' ;;
      Ok (x ++ r)
  end.

(** Second component of [symbols(grammar)], without the sorting. *)
Fixpoint rhs_nonterminals (g : grammar) : result (list symbol) :=
  match g with
  | [] => Ok []
  | (_, alts) :: g' =>
      x <- rhs_nonterminals_alts alts ;;
      r <- rhs_nonterminals g' ;;
      Ok (x ++ r)
  end.

(** [productions = [(k, rule) for k in nonterminals for rule in grammar[k]]] *)
Fixpoint productions_of (g : grammar) (nts : list symbol)
  : result (list (symbol * alternative)) :=
  match nts with
  | [] => Ok []
  | k :: nts' =>
      match lookup g k with
      | None => Raise KeyError
      | Some alts =>
          r <- productions_of g nts' ;;
          Ok (map (pair k) alts ++ r)
      end
  end.

(** One pass of the [for k, rule in productions] loop, restricted to
    the set [nullable]: the sets [first] and [follow] never feed into
    it.  The boolean tells whether the pass added something. *)
Fixpoint nullable_pass (prods : list (symbol * alternative))
    (nl : list symbol) : list symbol * bool :=
  match prods with
  | [] => (nl, false)
  | (k, rule) :: prods' =>
      let can_be_empty := forallb (fun t => sym_in t nl) rule in
      let grew := can_be_empty && negb (sym_in k nl) in
      let nl1 := if grew then nl ++ [k] else nl in
      let '(nl2, added) := nullable_pass prods' nl1 in
      (nl2, grew || added)
  end.

Fixpoint nullable_iter (fuel : nat) (prods : list (symbol * alternative))
    (nl : list symbol) : list symbol :=
  match fuel with
  | O => nl
  | S fuel' =>
      let '(nl', added) := nullable_pass prods nl in
      if added then nullable_iter fuel' prods nl' else nl'
  end.

(** Third component of [get_first_and_follow(grammar)]: every pass that
    adds to [nullable] adds a new nonterminal, so one pass per
    nonterminal and a last one reach the fixed point. *)
Definition get_nullable (g : grammar) : result (list symbol) :=
  nts0 <- rhs_nonterminals g ;;
  let nts := dedup nts0 in
  prods <- productions_of g nts ;;
  Ok (nullable_iter (S (List.length nts)) prods []).

(** *** Book-keeping of the parser object *)

Definition initialize (input_str : string) : GLLStructuredStackP :=
  mkP (input_str ++ "$")%string (String.length input_str)
      [(stack_bottom, [])] [(stack_bottom, [])]
      [] (repeat [] (String.length input_str + 1)) [] 0 [] [] None.

Definition set_grammar (p : GLLStructuredStackP) (g : grammar)
  : result GLLStructuredStackP :=
  nl <- get_nullable g ;;
  Ok (mkP (I p) (m p) (graph p) (P p) (threads p) (U p) (SPPF_nodes p)
          (N_ID p) g nl (root p)).

Fixpoint assoc {K V : Type} (eqb : K -> K -> bool) (l : list (K * V)) (k : K)
  : option V :=
  match l with
  | [] => None
  | (k', v) :: l' => if eqb k k' then Some v else assoc eqb l' k
  end.

Fixpoint assoc_set {K V : Type} (eqb : K -> K -> bool) (l : list (K * V))
    (k : K) (v : V) : list (K * V) :=
  match l with
  | [] => [(k, v)]
  | (k', v') :: l' =>
      if eqb k k' then (k, v) :: l' else (k', v') :: assoc_set eqb l' k v
  end.

Definition with_gss (p : GLLStructuredStackP)
    (gr : list (gss_label * list (gss_label * sppf_key)))
    (pp : list (gss_label * list sppf_key)) : GLLStructuredStackP :=
  mkP (I p) (m p) gr pp (threads p) (U p) (SPPF_nodes p) (N_ID p)
      (p_gram p) (p_nullable p) (root p).

Definition with_threads (p : GLLStructuredStackP) (ts : list descriptor)
    (u : list (list (label * gss_label * sppf_key))) : GLLStructuredStackP :=
  mkP (I p) (m p) (graph p) (P p) ts u (SPPF_nodes p) (N_ID p)
      (p_gram p) (p_nullable p) (root p).

Definition with_sppf (p : GLLStructuredStackP)
    (ns : list (sppf_key * SPPFNode)) (n : nat) : GLLStructuredStackP :=
  mkP (I p) (m p) (graph p) (P p) (threads p) (U p) ns n
      (p_gram p) (p_nullable p) (root p).

Definition with_root (p : GLLStructuredStackP) (r : sppf_key)
  : GLLStructuredStackP :=
  mkP (I p) (m p) (graph p) (P p) (threads p) (U p) (SPPF_nodes p) (N_ID p)
      (p_gram p) (p_nullable p) (Some r).

(** [GSS.get] *)
Definition gss_get (p : GLLStructuredStackP) (l : gss_label)
  : GLLStructuredStackP :=
  match assoc gss_label_eqb (graph p) l with
  | Some _ => p
  | None => with_gss p (graph p ++ [(l, [])]) (P p ++ [(l, [])])
  end.

Definition gss_children (p : GLLStructuredStackP) (l : gss_label)
  : list (gss_label * sppf_key) :=
  match assoc gss_label_eqb (graph p) l with
  | Some cs => cs
  | None => []
  end.

(** [GSS.parsed_indexes] *)
Definition parsed_indexes (p : GLLStructuredStackP) (l : gss_label)
  : list sppf_key :=
  match assoc gss_label_eqb (P p) l with
  | Some zs => zs
  | None => []
  end.

(** [GSS.add_parsed_index] *)
Definition add_parsed_index (p : GLLStructuredStackP) (l : gss_label)
    (z : sppf_key) : GLLStructuredStackP :=
  with_gss p (graph p)
           (assoc_set gss_label_eqb (P p) l (parsed_indexes p l ++ [z])).

Definition triple_eqb (a b : label * gss_label * sppf_key) : bool :=
  let '(l, u, w) := a in
  let '(l', u', w') := b in
  label_eqb l l' && gss_label_eqb u u' && sppf_key_eqb w w'.

(** [add_thread]; [self.U[cur_idx]] raises [IndexError] past the end. *)
Definition add_thread (p : GLLStructuredStackP) (L : label)
    (stack_top : gss_label) (cur_idx : nat) (sppf_w : sppf_key)
  : result GLLStructuredStackP :=
  match nth_error (U p) cur_idx with
  | None => Raise IndexError
  | Some u =>
      if existsb (triple_eqb (L, stack_top, sppf_w)) u then Ok p
      else Ok (with_threads p
                 (threads p ++ [(L, stack_top, cur_idx, sppf_w)])
                 (list_set (U p) cur_idx (u ++ [(L, stack_top, sppf_w)])))
  end.

(** [sppf_find_or_create]: the node is referred to by its key. *)
Definition sppf_find_or_create (p : GLLStructuredStackP) (k : sppf_key)
  : GLLStructuredStackP :=
  match assoc sppf_key_eqb (SPPF_nodes p) k with
  | Some _ => p
  | None =>
      with_sppf p (SPPF_nodes p ++ [(k, mkNode (N_ID p + 1) [])]) (N_ID p + 1)
  end.

(** [getNodeT(x, i)]; [x = None] is epsilon. *)
Definition getNodeT (p : GLLStructuredStackP) (x : option string) (i : nat)
  : sppf_key * GLLStructuredStackP :=
  let k := match x with
           | None => (TNone, i, i)
           | Some c => (TStr c, i, i + 1)
           end in
  (k, sppf_find_or_create p k).

(** [not_dummy] with its two assertions on the class of the node. *)
Definition not_dummy (w : sppf_key) : result bool :=
  match fst (fst w) with
  | TStr x =>
      if String.eqb x "$" then Ok false else Ok true
  | TNone => Raise AssertionError
  | _ => Ok true
  end.

Definition is_non_nullable_alpha (p : GLLStructuredStackP)
    (alpha : list symbol) : result bool :=
  match alpha with
  | [a] =>
      nt <- is_nonterminal a ;;
      if negb nt then Ok true
      else if sym_in a (p_nullable p) then Ok false else Ok true
  | _ => Ok false
  end.

Definition child_has_label (X : symbol) (nalt dot k : nat) (c : sppf_key)
  : bool :=
  sppf_tag_eqb (fst (fst c)) (TPacked X nalt dot k).

Definition node_children (p : GLLStructuredStackP) (k : sppf_key)
  : list sppf_key :=
  match assoc sppf_key_eqb (SPPF_nodes p) k with
  | Some n => children n
  | None => []
  end.

Definition add_child (p : GLLStructuredStackP) (k c : sppf_key)
  : GLLStructuredStackP :=
  match assoc sppf_key_eqb (SPPF_nodes p) k with
  | Some n =>
      with_sppf p (assoc_set sppf_key_eqb (SPPF_nodes p) k
                             (mkNode (nid n) (children n ++ [c])))
                (N_ID p)
  | None => p
  end.

(** [getNodeP(X_rule_pos, sppf_w, sppf_z)] *)
Definition getNodeP (p : GLLStructuredStackP) (X : symbol) (nalt dot : nat)
    (sppf_w sppf_z : sppf_key) : result (sppf_key * GLLStructuredStackP) :=
  match lookup (p_gram p) X with
  | None => Raise KeyError
  | Some alts =>
      match nth_error alts nalt with
      | None => Raise IndexError
      | Some rule =>
          let alpha := firstn dot rule in
          let beta := skipn dot rule in
          nn <- is_non_nullable_alpha p alpha ;;
          if nn && match beta with [] => false | _ => true end
          then Ok (sppf_z, p)
          else
            let t := match beta with
                     | [] => TStr X
                     | _ => TSlot X nalt dot
                     end in
            let '(_, k, i) := sppf_z in
            nd <- not_dummy sppf_w ;;
            let j := if nd then snd (fst sppf_w) else k in
            let chs := if nd then [sppf_w; sppf_z] else [sppf_z] in
            let y := (t, j, i) in
            let p1 := sppf_find_or_create p y in
            if existsb (child_has_label X nalt dot k) (node_children p1 y)
            then Ok (y, p1)
            else
              let key := (TPacked X nalt dot k, j, i) in
              match assoc sppf_key_eqb (SPPF_nodes p1) key with
              | Some _ => Raise AssertionError
              | None =>
                  let p2 := with_sppf p1
                              (SPPF_nodes p1 ++ [(key, mkNode (N_ID p1 + 1) chs)])
                              (N_ID p1 + 1) in
                  Ok (y, add_child p2 y key)
              end
      end
  end.

(** [fn_return] (pop); only slot labels are ever registered as return
    labels. *)
Definition fn_return (p : GLLStructuredStackP) (stack_top : gss_label)
    (cur_idx : nat) (sppf_z : sppf_key) : result GLLStructuredStackP :=
  if gss_label_eqb stack_top stack_bottom then Ok p
  else
    match fst stack_top with
    | LStr _ => Raise AssertionError
    | LSlot X nalt dot =>
        let p1 := add_parsed_index p stack_top sppf_z in
        fold_left
          (fun (acc : result GLLStructuredStackP) (e : gss_label * sppf_key) =>
             q <- acc ;;
             r <- getNodeP q X nalt dot (snd e) sppf_z ;;
             add_thread (snd r) (LSlot X nalt dot) (fst e) cur_idx (fst r))
          (gss_children p1 stack_top) (Ok p1)
    end.

(** [register_return] (create) *)
Definition register_return (p : GLLStructuredStackP) (X : symbol)
    (nalt dot : nat) (stack_top : gss_label) (cur_idx : nat)
    (sppf_w : sppf_key) : result (gss_label * GLLStructuredStackP) :=
  let v := (LSlot X nalt dot, cur_idx) in
  let p1 := gss_get p v in
  if existsb (fun e => gss_label_eqb (fst e) stack_top
                       && sppf_key_eqb (snd e) sppf_w)
             (gss_children p1 v)
  then Ok (v, p1)
  else
    let p2 := with_gss p1
                (assoc_set gss_label_eqb (graph p1) v
                           (gss_children p1 v ++ [(stack_top, sppf_w)]))
                (P p1) in
    r <- fold_left
           (fun (acc : result GLLStructuredStackP) (sppf_z : sppf_key) =>
              q <- acc ;;
              r <- getNodeP q X nalt dot sppf_w sppf_z ;;
              add_thread (snd r) (LSlot X nalt dot) stack_top
                         (snd sppf_z) (fst r))
           (parsed_indexes p2 v) (Ok p2) ;;
    Ok (v, r).

(** *** The source text that [compile_grammar] generates

    [compile_def], [compile_rule], [compile_epsilon],
    [compile_terminal] and [compile_nonterminal] paste the keys and the
    tokens of the grammar as they are (['%s']) into the generated
    source, and [compile_grammar] hands that text to [exec]: a key
    stands between single quotes ([compile_def], [compile_nonterminal],
    the branch of the end of a rule) and between double quotes
    ([compile_epsilon], [compile_terminal]); a token that
    [fuzzer.is_nonterminal] accepts stands between double quotes
    ([L = "%s"]), any other token between single quotes
    ([parser.I[cur_idx] == '%s']); key and tokens are repeated in the
    comment of every branch ([show_dot]).  Only the token ['] is
    escaped ([compile_terminal]).  A quote, a backslash or a line break
    in a symbol ends or alters its literal or its comment, and [exec]
    then raises [SyntaxError] or defines a function that compares other
    strings.

    [exec] also compiles the chain of branches by a recursion, one
    level per [elif], that the interpreter bounds (it raises
    [RecursionError] during compilation beyond its bound).

    [source_ok g] tells that [exec] defines the function meant, which
    reads every key and token of [g] back as it is written in [g]: the
    symbols are made of printable ASCII characters, without the
    backslash and without the quotes that would end their literals, and
    the chain has at most [max_branches] branches, a number that the
    interpreters compile from a stack that is not deep already. *)
Definition printable (c : ascii) : bool :=
  (32 <=? nat_of_ascii c) && (nat_of_ascii c <=? 126).

Definition is_char (n : nat) (c : ascii) : bool := Nat.eqb (nat_of_ascii c) n.

(** Between single and between double quotes: neither quote (39, 34),
    no backslash (92). *)
Definition key_char_ok (c : ascii) : bool :=
  printable c && negb (is_char 39 c) && negb (is_char 34 c)
  && negb (is_char 92 c).

(** Between single quotes. *)
Definition terminal_char_ok (c : ascii) : bool :=
  printable c && negb (is_char 39 c) && negb (is_char 92 c).

Definition key_ok (k : symbol) : bool :=
  forallb key_char_ok (list_ascii_of_string k).

(** Between single quotes; [compile_terminal] escapes the token made
    of one single quote. *)
Definition terminal_ok (t : symbol) : bool :=
  String.eqb t "'" || forallb terminal_char_ok (list_ascii_of_string t).

Definition token_ok (t : symbol) : bool :=
  match is_nonterminal t with
  | Ok true => key_ok t
  | Ok false => terminal_ok t
  | Raise _ => false
  end.

(** The branches of the generated chain: ['L0'] and ['L_'], one per
    key ([compile_def]), and for every alternative one per symbol and
    one for its end, or the one of [compile_epsilon]
    ([compile_rule]). *)
Definition rule_branches (rule : alternative) : nat :=
  match rule with
  | [] => 1
  | _ => List.length rule + 1
  end.

Definition branches (g : grammar) : nat :=
  2 + list_sum (map (fun e => 1 + list_sum (map rule_branches (snd e))) g).

Definition max_branches : nat := 400.

Definition source_ok (g : grammar) : bool :=
  forallb (fun e => key_ok (fst e) && forallb (forallb token_ok) (snd e)) g
  && (branches g <=? max_branches).

(** *** The driver generated by [compile_grammar]

    The generated function is one [while True] loop over an [if/elif]
    chain on [L], with one branch per key and one per slot of the
    grammar; [step] is one turn of that loop, read off the templates of
    the branches for the keys and tokens as they are written in [g]
    (see [source_ok]). *)
Record config : Type := mkConfig {
  cL : label;
  c_stack_top : gss_label;
  c_cur_idx : nat;
  c_cur_sppf_node : sppf_key;
  c_parser : GLLStructuredStackP
}.

(** What [recognize_on] returns: the parser object (with [root] set) or
    the empty list. *)
Inductive outcome : Type :=
| ReturnParser (p : GLLStructuredStackP)
| ReturnEmptyList.

Definition end_rule : sppf_key := (TStr "$", 0, 0).

Fixpoint add_alt_threads (p : GLLStructuredStackP) (key : symbol)
    (n_alt : nat) (alts : list alternative) (stack_top : gss_label)
    (cur_idx : nat) : result GLLStructuredStackP :=
  match alts with
  | [] => Ok p
  | _ :: alts' =>
      p1 <- add_thread p (LSlot key n_alt 0) stack_top cur_idx end_rule ;;
      add_alt_threads p1 key (S n_alt) alts' stack_top cur_idx
  end.

Definition input_at (p : GLLStructuredStackP) (i : nat) : option string :=
  match String.get i (I p) with
  | Some c => Some (String c EmptyString)
  | None => None
  end.

Definition step (g : grammar) (start_symbol : symbol) (c : config)
  : result (config + outcome) :=
  let p := c_parser c in
  match cL c with
  | LStr s =>
      if String.eqb s "L0" then
        match threads p with
        | (L, u, i, w) :: ts =>
            Ok (inl (mkConfig L u i w (with_threads p ts (U p))))
        | [] =>
            let r := (TStr start_symbol, 0, m p) in
            match assoc sppf_key_eqb (SPPF_nodes p) r with
            | Some _ => Ok (inr (ReturnParser (with_root p r)))
            | None => Ok (inr ReturnEmptyList)
            end
        end
      else if String.eqb s "L_" then
        p1 <- fn_return p (c_stack_top c) (c_cur_idx c) (c_cur_sppf_node c) ;;
        Ok (inl (mkConfig (LStr "L0") (c_stack_top c) (c_cur_idx c)
                          (c_cur_sppf_node c) p1))
      else
        match lookup g s with
        | Some alts =>
            p1 <- add_alt_threads p s 0 alts (c_stack_top c) (c_cur_idx c) ;;
            Ok (inl (mkConfig (LStr "L0") (c_stack_top c) (c_cur_idx c)
                              (c_cur_sppf_node c) p1))
        | None => Raise AssertionError
        end
  | LSlot X n_alt pos =>
      match lookup g X with
      | None => Raise AssertionError
      | Some alts =>
          match nth_error alts n_alt with
          | None => Raise AssertionError
          | Some rule =>
              match rule, pos with
              | [], O =>
                  let '(right_sppf_child, p1) := getNodeT p None (c_cur_idx c) in
                  r <- getNodeP p1 X n_alt pos (c_cur_sppf_node c)
                         right_sppf_child ;;
                  Ok (inl (mkConfig (LStr "L_") (c_stack_top c) (c_cur_idx c)
                                    (fst r) (snd r)))
              | [], S _ => Raise AssertionError
              | _ :: _, _ =>
                  match nth_error rule pos with
                  | Some t =>
                      nt <- is_nonterminal t ;;
                      if nt then
                        r <- register_return p X n_alt (pos + 1)
                               (c_stack_top c) (c_cur_idx c)
                               (c_cur_sppf_node c) ;;
                        Ok (inl (mkConfig (LStr t) (fst r) (c_cur_idx c)
                                          (c_cur_sppf_node c) (snd r)))
                      else
                        match input_at p (c_cur_idx c) with
                        | None => Raise IndexError
                        | Some ch =>
                            if String.eqb ch t then
                              let '(right_sppf_child, p1) :=
                                getNodeT p (Some ch) (c_cur_idx c) in
                              r <- getNodeP p1 X n_alt (pos + 1)
                                     (c_cur_sppf_node c) right_sppf_child ;;
                              Ok (inl (mkConfig (LSlot X n_alt (pos + 1))
                                                (c_stack_top c)
                                                (c_cur_idx c + 1)
                                                (fst r) (snd r)))
                            else
                              Ok (inl (mkConfig (LStr "L0") (c_stack_top c)
                                                (c_cur_idx c)
                                                (c_cur_sppf_node c) p))
                        end
                  | None =>
                      if Nat.eqb pos (List.length rule)
                      then Ok (inl (mkConfig (LStr "L_") (c_stack_top c)
                                             (c_cur_idx c)
                                             (c_cur_sppf_node c) p))
                      else Raise AssertionError
                  end
              end
          end
      end
  end.

(** The [while True] loop; [None] when the step budget runs out. *)
Fixpoint run (fuel : nat) (g : grammar) (start_symbol : symbol) (c : config)
  : option (result outcome) :=
  match fuel with
  | O => None
  | S fuel' =>
      match step g start_symbol c with
      | Raise e => Some (Raise e)
      | Ok (inr o) => Some (Ok o)
      | Ok (inl c') => run fuel' g start_symbol c'
      end
  end.

Definition initial_config (g : grammar) (text : string) (start_symbol : symbol)
  : result config :=
  p <- set_grammar (initialize text) g ;;
  let p1 := sppf_find_or_create p end_rule in
  Ok (mkConfig (LStr start_symbol) stack_bottom 0 end_rule p1).

(** The function that the generated source defines: the statements
    before the loop, then the loop. *)
Definition generated_recognize_on (fuel : nat) (g : grammar) (text : string)
    (start_symbol : symbol) : option (result outcome) :=
  match initial_config g text start_symbol with
  | Raise e => Some (Raise e)
  | Ok c => run fuel g start_symbol c
  end.

(** [recognize_on] of the parser returned by [compile_grammar(g)].  The
    parser has the function above as its [recognize_on] when the
    generated source reads the grammar back as written; for the other
    grammars [exec] raises or defines another function, which is not
    modelled: no result ([None], as when the step budget runs out). *)
Definition recognize_on (fuel : nat) (g : grammar) (text : string)
    (start_symbol : symbol) : option (result outcome) :=
  if source_ok g
  then generated_recognize_on fuel g text start_symbol
  else None.

End GLL.

(** ** Packed children of the SPPF nodes

    A child of a node is referred to by its key; the label [(slot, k)]
    of a packed node is the first component of its key. *)
Definition packed_label (c : GLL.sppf_key) : option (symbol * nat * nat * nat) :=
  match fst (fst c) with
  | GLL.TPacked X nalt dot k => Some (X, nalt, dot, k)
  | _ => None
  end.

Fixpoint packed_labels (cs : list GLL.sppf_key)
  : list (symbol * nat * nat * nat) :=
  match cs with
  | [] => []
  | c :: cs' =>
      match packed_label c with
      | Some l => l :: packed_labels cs'
      | None => packed_labels cs'
      end
  end.

(** No node of the store other than a packed node has two packed
    children with the same label. *)
Definition packed_unique_store (ns : list (GLL.sppf_key * GLL.SPPFNode))
  : Prop :=
  forall key node,
    GLL.assoc GLL.sppf_key_eqb ns key = Some node ->
    GLL.class_of key <> GLL.SPPF_packed_node ->
    NoDup (packed_labels (GLL.children node)).

Definition packed_unique (p : GLL.GLLStructuredStackP) : Prop :=
  packed_unique_store (GLL.SPPF_nodes p).

(** The configuration after [n] turns of the loop of the driver, if the
    loop is still running then. *)
Fixpoint steps (n : nat) (g : grammar) (start_symbol : symbol)
    (c : GLL.config) : option GLL.config :=
  match n with
  | O => Some c
  | S n' =>
      match GLL.step g start_symbol c with
      | Ok (inl c') => steps n' g start_symbol c'
      | _ => None
      end
  end.

Definition config_after (n : nat) (g : grammar) (text : string)
    (start_symbol : symbol) : option GLL.config :=
  match GLL.initial_config g text start_symbol with
  | Ok c => steps n g start_symbol c
  | Raise _ => None
  end.

(** Whatever [r] returns satisfies [Q]. *)
Definition ensures {A : Type} (r : result A) (Q : A -> Prop) : Prop :=
  forall a, r = Ok a -> Q a.

(** ** [EnhancedExtractor] over the SPPF ([GLL.py]) *)

Module GLLExtractor.

Import GLL.

Definition node_nid (p : GLLStructuredStackP) (k : sppf_key) : option nat :=
  match assoc sppf_key_eqb (SPPF_nodes p) k with
  | Some n => Some (nid n)
  | None => None
  end.

(** What [extract_a_node] returns for a node: [(key, children)] where
    [key] is [None] for packed and intermediate nodes. *)
Definition partial : Type := option symbol * list tree.

Definition symbol_of (k : sppf_key) : symbol :=
  match fst (fst k) with
  | TStr x => x
  | _ => EmptyString
  end.

Section Extractor.

Variable p : GLLStructuredStackP.

Fixpoint extract_a_node (depth : nat) (cs : cstore) (forest_node : sppf_key)
    (seen : list nat) (choices : nat)
  : result (option partial * nat * cstore) :=
  match depth with
  | O => Raise RecursionError
  | S depth' =>
      let descend (cur : sppf_key) (new_choices : nat) (cs1 : cstore)
                  (k : partial -> result partial)
        : result (option partial * nat * cstore) :=
        match node_nid p cur with
        | None => Raise KeyError
        | Some id =>
            if existsb (Nat.eqb id) seen then Ok (None, new_choices, cs1)
            else
              r <- extract_a_node depth' cs1 cur (id :: seen) new_choices ;;
              let '(v, newer_choices, cs2) := r in
              match v with
              | None => Ok (None, newer_choices, cs2)
              | Some n =>
                  n' <- k n ;;
                  Ok (Some n', newer_choices, cs2)
              end
        end in
      match class_of forest_node with
      | SPPF_dummy_node => Ok (Some (Some EmptyString, []), choices, cs)
      | SPPF_packed_node =>
          (fix over_children (ns : list sppf_key) (ret : list tree)
               (choices : nat) (cs : cstore)
             : result (option partial * nat * cstore) :=
             match ns with
             | [] => Ok (Some (None, ret), choices, cs)
             | n :: ns' =>
                 r <- extract_a_node depth' cs n seen choices ;;
                 let '(v, new_choices, cs') := r in
                 match v with
                 | None => Ok (None, new_choices, cs')
                 | Some (key, chs) =>
                     match class_of n, key with
                     | SPPF_symbol_node, Some x =>
                         over_children ns' (ret ++ [Node x chs]) new_choices cs'
                     | SPPF_symbol_node, None => Raise AssertionError
                     | _, None =>
                         over_children ns' (ret ++ chs) new_choices cs'
                     | _, Some _ => Raise AssertionError
                     end
                 end
             end) (node_children p forest_node) [] choices cs
      | SPPF_intermediate_node =>
          match node_children p forest_node with
          | [] => Ok (Some (None, []), choices, cs)
          | chs =>
              r <- choose_path false chs cs choices ;;
              let '(cur_path, new_choices, cs1) := r in
              match cur_path with
              | None => Raise AssertionError
              | Some cur =>
                  descend cur new_choices cs1 (fun v => Ok (None, snd v))
              end
          end
      | SPPF_symbol_node =>
          match node_children p forest_node with
          | [] => Ok (Some (Some (symbol_of forest_node), []), choices, cs)
          | chs =>
              r <- choose_path false chs cs choices ;;
              let '(cur_path, new_choices, cs1) := r in
              match cur_path with
              | None => Ok (None, new_choices, cs1)
              | Some cur =>
                  descend cur new_choices cs1
                    (fun v => match fst v with
                              | None => Ok (Some (symbol_of forest_node), snd v)
                              | Some _ => Raise AssertionError
                              end)
              end
          end
      end
  end.

(** [extract_a_tree]; [cs] is the state of the extractor, with
    [self.choices] at position 0. *)
Fixpoint extract_a_tree (fuel depth : nat) (cs : cstore)
  : option (result (option partial * cstore)) :=
  match fuel with
  | O => None
  | S fuel' =>
      match nth_error cs 0 with
      | None => Some (Raise AttributeError)
      | Some rt =>
          if c_finished rt then Some (Ok (None, cs))
          else
            match root p with
            | None => Some (Raise AttributeError)
            | Some r =>
                match extract_a_node depth cs r [] 0 with
                | Raise e => Some (Raise e)
                | Ok (parse_tree, choices, cs1) =>
                    let cs2 := increment cs1 choices in
                    match parse_tree with
                    | Some t => Some (Ok (Some t, cs2))
                    | None => extract_a_tree fuel' depth cs2
                    end
                end
            end
      end
  end.

End Extractor.

(** [EnhancedExtractor(forest)] *)
Definition new_extractor : cstore := [mkChoice None 0 1 None].

End GLLExtractor.

(** ** [to_tree] and [parse_on] ([GLL.py])

    [random.choice] draws from a stream of numbers [rnd]: the number
    drawn picks the element, and every element can be picked. *)

Module GLLTree.

Import GLL.

Definition choice {A : Type} (arr : list A) (rnd : list nat)
  : option A * list nat :=
  match rnd with
  | [] => (nth_error arr 0, [])
  | r :: rnd' => (nth_error arr (r mod List.length arr), rnd')
  end.

(** [raise NotImplemented] ends with a [TypeError], since
    [NotImplemented] is not an exception. *)
Inductive error : Type :=
| Exn (e : exn)
| TypeError.

Section ToTree.

Variable p : GLLStructuredStackP.

(** [to_tree_] of [SPPF_symbol_node], and of [SPPFNode] for the other
    classes; [depth] bounds the depth of the recursion. *)
Fixpoint to_tree_ (depth : nat) (key : sppf_key) (rnd : list nat)
  : result (list tree * list nat) :=
  match depth with
  | O => Raise RecursionError
  | S depth' =>
      match class_of key with
      | SPPF_symbol_node =>
          match node_children p key with
          | [] => Ok ([Node (GLLExtractor.symbol_of key) []], rnd)
          | chs =>
              match choice chs rnd with
              | (Some n, rnd1) =>
                  r <- to_tree_ depth' n rnd1 ;;
                  Ok ([Node (GLLExtractor.symbol_of key) (fst r)], snd r)
              | (None, _) => Raise IndexError
              end
          end
      | _ =>
          fold_left
            (fun (acc : result (list tree * list nat)) (n : sppf_key) =>
               a <- acc ;;
               v <- to_tree_ depth' n (snd a) ;;
               Ok (fst a ++ fst v, snd v))
            (node_children p key) (Ok ([], rnd))
      end
  end.

(** [GLLStructuredStackP.to_tree] *)
Definition to_tree (depth : nat) (rnd : list nat)
  : (tree * list nat) + error :=
  match root p with
  | None => inr (Exn AttributeError)
  | Some r =>
      match assoc sppf_key_eqb (SPPF_nodes p) r with
      | None => inr (Exn KeyError)
      | Some _ =>
          match class_of r with
          | SPPF_symbol_node =>
              match to_tree_ depth r rnd with
              | Ok (t :: _, rnd') => inl (t, rnd')
              | Ok ([], _) => inr (Exn IndexError)
              | Raise e => inr (Exn e)
              end
          | _ => inr TypeError
          end
      end
  end.

End ToTree.

(** [parse_on] of the parser returned by [compile_grammar(g)]: the
    empty list that [recognize_on] returns for a text that it rejects
    has no method [to_tree]. *)
Definition parse_on (fuel depth : nat) (g : grammar) (text : string)
    (start_symbol : symbol) (rnd : list nat)
  : option ((list tree * list nat) + error) :=
  match recognize_on fuel g text start_symbol with
  | None => None
  | Some (Raise e) => Some (inr (Exn e))
  | Some (Ok ReturnEmptyList) => Some (inr (Exn AttributeError))
  | Some (Ok (ReturnParser p)) =>
      match to_tree p depth rnd with
      | inl (t, rnd') => Some (inl ([t], rnd'))
      | inr e => Some (inr e)
      end
  end.

End GLLTree.

(** ** Methods called on a constructed parser *)

Definition Parser_parse_prefix (p : Parser) (text : string) (start : symbol)
  : result (chart * (Z * list State)) :=
  parse_prefix (p_grammar p) (p_epsilon p) text start.

Definition Parser_recognize_on (p : Parser) (text : string) (start : symbol)
  : result (chart * list State) :=
  recognize_on (p_grammar p) (p_epsilon p) (p_parse_exceptions p) text start.

(** ** The deterministic reduction path of the Leo optimisation

    After the definition quoted in [Earley.py] (Leo 1991) and the
    description of [uniq_postdot]: the parent of a completed item
    [A -> gamma .] that starts in column [s] is the item [B -> alpha . A]
    of column [s], provided it is the only item of that column with the
    dot in front of [A] and its dot is at the last position; the item
    above is that parent advanced, and the topmost item is the last one
    reached that way. *)
Definition unique_parent (ch : chart) (st_A : State) : option State :=
  match filter (at_dot_is (name st_A)) (col_states ch (s_col st_A)) with
  | [b] => if dot b =? List.length (expr b) - 1 then Some b else None
  | _ => None
  end.

Inductive topmost_item (ch : chart) : State -> State -> Prop :=
| topmost_here : forall st_A b,
    unique_parent ch st_A = Some b ->
    unique_parent ch (advance b) = None ->
    topmost_item ch st_A (advance b)
| topmost_above : forall st_A b t,
    unique_parent ch st_A = Some b ->
    topmost_item ch (advance b) t ->
    topmost_item ch st_A t.

(** ** Grammars and inputs used in the examples below *)

(** [<S> -> epsilon | $ $] *)
Definition dollar_grammar : grammar := [("<S>", [[]; ["$"; "$"]])].



(** [<S> -> a | a] (a duplicated alternative) *)
Definition dup_grammar : grammar := [("<S>", [["a"]; ["a"]])].

(** One alternative with three symbols: [<S> -> a <B> c;  <B> -> b] *)
Definition abc_grammar : grammar :=
  [("<S>", [["a"; "<B>"; "c"]]); ("<B>", [["b"]])].

(** [<S> -> <A> | a;  <A> -> (empty)] *)
Definition eps_grammar : grammar := [("<S>", [["<A>"]; ["a"]]); ("<A>", [[]])].

(** [<S> -> <E>;  <E> -> <E> + <E> | 1] *)
Definition sum_grammar : grammar :=
  [("<S>", [["<E>"]]); ("<E>", [["<E>"; "+"; "<E>"]; ["1"]])].

(** The cyclic example of the specification:
    [<A> -> <B> | a;  <B> -> <A>] *)
Definition cyclic_grammar : grammar :=
  [("<A>", [["<B>"]; ["a"]]); ("<B>", [["<A>"]])].

(** [<S> -> x <B> | <D>;  <D> -> <B> q;  <B> -> x x <A> | x <C>;
     <A> -> a;  <C> -> a] *)
Definition memo_grammar : grammar :=
  [("<S>", [["x"; "<B>"]; ["<D>"]]);
   ("<D>", [["<B>"; "q"]]);
   ("<B>", [["x"; "x"; "<A>"]; ["x"; "<C>"]]);
   ("<A>", [["a"]]);
   ("<C>", [["a"]])].

(** The chart of [LeoParser] for [memo_grammar] on ["xxa"] at the moment
    the completer reaches the second item of column 3, [<C> -> a .]:
    columns 0 to 2 are filled and the first item of column 3,
    [<A> -> a .], has been completed. *)
Definition memo_chart_and_postdots : chart * Leo.postdots :=
  Eval vm_compute in
    match lookup memo_grammar "<S>" with
    | Some alts =>
        match Leo.fill_columns memo_grammar [] 10 20 3
                (seed_chart "xxa" "<S>" alts) [] 0 with
        | Some (Ok (ch, pd)) =>
            match nth_error (col_states ch 3) 0 with
            | Some st =>
                match Leo.fill_step memo_grammar [] 10 ch pd 3 st with
                | Ok r => r
                | Raise _ => ([], [])
                end
            | None => ([], [])
            end
        | _ => ([], [])
        end
    | None => ([], [])
    end.

Definition memo_chart : chart := fst memo_chart_and_postdots.
Definition memo_postdots : Leo.postdots := snd memo_chart_and_postdots.

(** The items of the cyclic example that [get_top] visits. *)
Definition item_A_a : State := mkState "<A>" ["a"] 1 0 (Some 1) false.
Definition item_B_A : State := mkState "<B>" ["<A>"] 1 0 None false.
Definition item_A_B : State := mkState "<A>" ["<B>"] 1 0 None false.

(** The chart of the cyclic example for the input ["a"] once column 0
    is filled. *)
Definition cyclic_chart : chart :=
  [mkColumn 0 None
     [mkState "<A>" ["<B>"] 0 0 (Some 0) false;
      mkState "<A>" ["a"] 0 0 (Some 0) false;
      mkState "<B>" ["<A>"] 0 0 (Some 0) false] [];
   mkColumn 1 (Some "a") [item_A_a] []].

(** Items of the [memo_grammar] example. *)
Definition item_C_a : State := mkState "<C>" ["a"] 1 2 (Some 3) false.
Definition item_B_xC : State := mkState "<B>" ["x"; "<C>"] 1 1 (Some 2) false.
Definition item_S_xB : State := mkState "<S>" ["x"; "<B>"] 2 0 None false.
Definition item_B_xxA : State :=
  mkState "<B>" ["x"; "x"; "<A>"] 3 0 None true.

(** ** Specification-level notions used in the statements *)

(** A nonterminal derives the empty string: one of its alternatives
    consists of nonterminals that derive the empty string. *)
Inductive Nullable (g : grammar) : symbol -> Prop :=
| Nullable_rule : forall k alts alt,
    lookup g k = Some alts ->
    In alt alts ->
    (forall t, In t alt -> Nullable g t) ->
    Nullable g k.

(** The grammar contract of the specification: a dictionary (distinct
    keys) whose keys, the nonterminals, have the form [<...>]. *)
Definition wf_grammar (g : grammar) : Prop :=
  NoDup (keys g) /\ forall k, In k (keys g) -> is_nt k = Ok true.

(** Items that may occur in column [i] of a chart for the grammar [g]. *)
Definition valid_item (g : grammar) (i : nat) (st : State) : Prop :=
  (exists alts, lookup g (name st) = Some alts /\ In (expr st) alts) /\
  dot st <= List.length (expr st) /\
  s_col st <= i /\
  e_col st = Some i /\
  (dot st = 0 -> s_col st = i).

Definition valid_chart (g : grammar) (ch : chart) : Prop :=
  (forall i c, nth_error ch i = Some c -> index c = i) /\
  (forall i st, In st (col_states ch i) -> valid_item g i st) /\
  (forall i, NoDup (map State_t (col_states ch i))).

(** A column that grew: same index and letter, more items at the end. *)
Definition col_ext (c c' : Column) : Prop :=
  index c = index c' /\ letter c = letter c' /\
  exists extra, states c' = states c ++ extra.

Definition chart_ext (ch ch' : chart) : Prop := Forall2 col_ext ch ch'.

(** The item with identity [k] is in column [i]. *)
Definition has_item (ch : chart) (i : nat)
    (k : symbol * alternative * nat * nat) : Prop :=
  exists st, In st (col_states ch i) /\ State_t st = k.

(** [col.add] of several items in a row. *)
Definition add_all (c : Column) (l : list State) : Column :=
  fold_left Column_add l c.

(** An alternative made of symbols of the form [<...>] only. *)
Definition all_nt (a : alternative) : Prop :=
  forall t, In t a -> is_nt t = Ok true.

(** An alternative without the symbols of [P]. *)
Definition drop_syms (P : list symbol) (a : alternative) : alternative :=
  filter (fun t => negb (sym_in t P)) a.

(** The loop invariant of [nullable]; [P] is the set of symbols taken
    out of [unprocessed] so far. *)
Definition nullable_inv (g : grammar) (P : list symbol) (g_cur : grammar)
    (N W : list symbol) : Prop :=
  (forall k, In k N -> Nullable g k) /\
  (forall k, In k P -> In k N) /\
  (forall k, In k W -> In k N) /\
  (forall k, In k N -> In k P \/ In k W) /\
  (forall k alts a, In (k, alts) g -> In a alts -> all_nt a ->
      In k N \/ exists alts_c, In (k, alts_c) g_cur /\ In (drop_syms P a) alts_c) /\
  (forall k alts_c a', In (k, alts_c) g_cur -> In a' alts_c ->
      exists alts a, In (k, alts) g /\ In a alts /\ a' = drop_syms P a) /\
  (forall k alts_c a', In (k, alts_c) g_cur -> In a' alts_c ->
      a' <> [] \/ In k N).

(** The items that one turn of the loop of [fill_chart], on the item
    [st] of column [i], may add to column [j]. *)
Inductive new_item (g : grammar) (eps : list symbol) (ch : chart) (i : nat)
    (st : State) : nat -> State -> Prop :=
| new_completed : forall p,
    finished st = true ->
    In p (col_states ch (s_col st)) ->
    at_dot p = Some (name st) ->
    new_item g eps ch i st i (set_e_col (advance p) i)
| new_predicted : forall sym alts alt,
    finished st = false ->
    at_dot st = Some sym ->
    lookup g sym = Some alts ->
    In alt alts ->
    new_item g eps ch i st i (set_e_col (create_state sym alt 0 i) i)
| new_skipped : forall sym alts,
    finished st = false ->
    at_dot st = Some sym ->
    lookup g sym = Some alts ->
    sym_in sym eps = true ->
    new_item g eps ch i st i (set_e_col (advance st) i)
| new_scanned : forall sym,
    finished st = false ->
    at_dot st = Some sym ->
    lookup g sym = None ->
    letter_at ch (i + 1) = Some sym ->
    new_item g eps ch i st (i + 1) (set_e_col (advance st) (i + 1)).

(** What processing an unfinished item in front of a nonterminal
    leaves in its column: the predicted items and, for a nullable
    nonterminal, the item advanced over it. *)
Definition predicted (g : grammar) (eps : list symbol) (ch : chart) (i : nat)
    (st : State) : Prop :=
  forall sym alts,
    finished st = false -> at_dot st = Some sym -> lookup g sym = Some alts ->
    (forall alt, In alt alts -> has_item ch i (sym, alt, 0, i)) /\
    (sym_in sym eps = true ->
     has_item ch i (name st, expr st, dot st + 1, s_col st)).

(** Items of column 0 have only nullable symbols before the dot. *)
Definition nullable_prefixes (g : grammar) (ch : chart) : Prop :=
  forall st, In st (col_states ch 0) ->
  forall t, In t (firstn (dot st) (expr st)) -> Nullable g t.

(** ** How an item with the dot past a symbol came about *)

(** The item rests on a scanned terminal or on a completed item of its
    own column. *)
Definition justified (g : grammar) (ch : chart) (j : nat) (st : State) : Prop :=
  dot st = 0 \/
  exists sym,
    0 < dot st /\ nth_error (expr st) (dot st - 1) = Some sym /\
    ((lookup g sym = None /\ 0 < j /\ letter_at ch j = Some sym /\
      has_item ch (j - 1) (name st, expr st, dot st - 1, s_col st))
     \/
     (in_grammar g sym = true /\
      exists child,
        In child (col_states ch j) /\ finished child = true /\
        name child = sym /\
        has_item ch (s_col child) (name st, expr st, dot st - 1, s_col st))).

(** The item was advanced over a nullable nonterminal by [predict]. *)
Definition pending (g : grammar) (eps : list symbol) (ch : chart) (j : nat)
    (st : State) : Prop :=
  0 < dot st /\
  exists sym alts,
    nth_error (expr st) (dot st - 1) = Some sym /\
    lookup g sym = Some alts /\ sym_in sym eps = true /\
    has_item ch j (name st, expr st, dot st - 1, s_col st).

Definition accounted (g : grammar) (eps : list symbol) (ch : chart) : Prop :=
  forall j st, In st (col_states ch j) ->
               justified g ch j st \/ pending g eps ch j st.

(** ** Leaves of a derivation tree and segments of the input *)

(** The tokens [toks[a:b]]. *)
Definition seg (toks : list string) (a b : nat) : list string :=
  firstn (b - a) (skipn a toks).

(** The keys that [tree_to_str] appends, in order. *)
Fixpoint leaves (t : tree) : list string :=
  match t with
  | Node key cs =>
      match is_nt key with
      | Ok true =>
          (fix go (l : list tree) : list string :=
             match l with
             | [] => []
             | c :: l' => leaves c ++ go l'
             end) cs
      | _ => [key]
      end
  end.

(** Trees on which [tree_to_str] raises nothing: inner nodes carry
    symbols of the form [<...>], the other symbols are leaves. *)
Fixpoint tree_ok (t : tree) : Prop :=
  match t with
  | Node key cs =>
      match is_nt key with
      | Ok true =>
          (fix all (l : list tree) : Prop :=
             match l with
             | [] => True
             | c :: l' => tree_ok c /\ all l'
             end) cs
      | Ok false => cs = []
      | Raise _ => False
      end
  end.

Section PathSpans.

Variable ch : chart.
Variable toks : list string.

(** The path element [nd] accounts for the tokens [a..b]. *)
Definition node_ok (nd : pnode) (a b : nat) : Prop :=
  match nd with
  | PT v => b = a + 1 /\ nth_error toks a = Some v /\ is_nt v = Ok false
  | PN s => In s (col_states ch b) /\ finished s = true /\ s_col s = a /\ a <= b
  end.

(** A path as [parse_paths] builds it (last symbol first) accounts for
    the tokens [frm..til]. *)
Fixpoint rpath_ok (rp : list pnode) (frm til : nat) : Prop :=
  match rp with
  | [] => False
  | nd :: rest =>
      exists start,
        node_ok nd start til /\ frm <= start /\
        match rest with
        | [] => start = frm
        | _ => rpath_ok rest frm start
        end
  end.

(** The same for a path in the order of the symbols. *)
Fixpoint lpath_ok (p : list pnode) (frm til : nat) : Prop :=
  match p with
  | [] => frm = til
  | nd :: rest => exists mid, node_ok nd frm mid /\ lpath_ok rest mid til
  end.

(** A forest node whose paths account for the tokens [frm..til]. *)
Definition fnode_ok (fn : forest_node) (frm til : nat) : Prop :=
  is_nt (fst fn) = Ok true /\ frm <= til /\
  (snd fn = [] -> frm = til) /\
  forall p, In p (snd fn) -> rpath_ok (rev p) frm til.

End PathSpans.

(** ** Termination of [fill_chart]: the items of a column *)

(** All item identities a column [i] can hold. *)
Definition alt_universe (i : nat) (k : symbol) (a : alternative)
  : list (symbol * alternative * nat * nat) :=
  flat_map (fun d => map (fun o => (k, a, d, o)) (seq 0 (S i)))
           (seq 0 (S (List.length a))).

Definition item_universe (g : grammar) (i : nat)
  : list (symbol * alternative * nat * nat) :=
  flat_map (fun e => flat_map (alt_universe i (fst e)) (snd e)) g.

(** ** The language of a grammar

    The input is a list of one-character tokens; a symbol that is not a
    key of the grammar is a terminal and stands for itself. *)
Inductive derives (g : grammar) : list symbol -> list string -> Prop :=
| derives_nil : derives g [] []
| derives_terminal : forall t rest w,
    lookup g t = None ->
    derives g rest w ->
    derives g (t :: rest) (t :: w)
| derives_rule : forall X alts alt rest w1 w2,
    lookup g X = Some alts ->
    In alt alts ->
    derives g alt w1 ->
    derives g rest w2 ->
    derives g (X :: rest) (w1 ++ w2).

(** The text is a sentence of the nonterminal [start]. *)
Definition generates (g : grammar) (start : symbol) (w : list string) : Prop :=
  exists alts alt, lookup g start = Some alts /\ In alt alts /\ derives g alt w.

(** Every item of the chart stands for a derivation: the symbols before
    its dot derive the tokens between its start column and its column.
    The letters of the columns are the tokens. *)
Definition sound_chart (g : grammar) (toks : list string) (ch : chart) : Prop :=
  valid_chart g ch /\
  List.length ch = S (List.length toks) /\
  (forall j, letter_at ch j =
             match j with O => None | S j' => nth_error toks j' end) /\
  forall j st, In st (col_states ch j) ->
    derives g (firstn (dot st) (expr st)) (seg toks (s_col st) j).

(** What processing an unfinished item in front of a terminal leaves in
    the next column. *)
Definition scanned (g : grammar) (ch : chart) (i : nat) (st : State) : Prop :=
  forall sym,
    finished st = false -> at_dot st = Some sym -> lookup g sym = None ->
    letter_at ch (i + 1) = Some sym ->
    has_item ch (i + 1) (name st, expr st, dot st + 1, s_col st).

(** What processing a finished item that starts in an earlier column
    leaves in its column. *)
Definition completed (ch : chart) (i : nat) (st : State) : Prop :=
  finished st = true -> s_col st < i ->
  forall p, In p (col_states ch (s_col st)) -> at_dot p = Some (name st) ->
    has_item ch i (name p, expr p, dot p + 1, s_col p).

Definition closed (g : grammar) (eps : list symbol) (ch : chart) (i : nat)
    (st : State) : Prop :=
  predicted g eps ch i st /\ scanned g ch i st /\ completed ch i st.

(** ** Derivation trees of a grammar *)

Definition tree_root (t : tree) : symbol :=
  match t with Node key _ => key end.

(** Every node labelled with a key of the grammar has the symbols of one
    alternative of the key as the labels of its children, in order; the
    other nodes are leaves. *)
Fixpoint tree_derivation (g : grammar) (t : tree) : Prop :=
  match t with
  | Node key cs =>
      match lookup g key with
      | Some alts =>
          In (map tree_root cs) alts /\
          (fix all (l : list tree) : Prop :=
             match l with
             | [] => True
             | c :: l' => tree_derivation g c /\ all l'
             end) cs
      | None => cs = []
      end
  end.

(** The symbol a path element stands for. *)
Definition node_sym (nd : pnode) : symbol :=
  match nd with
  | PT v => v
  | PN s => name s
  end.

(** The paths of a forest node spell alternatives of its symbol. *)
Definition fnode_rule (g : grammar) (fn : forest_node) : Prop :=
  exists alts,
    lookup g (fst fn) = Some alts /\
    (snd fn = [] -> In [] alts) /\
    forall p, In p (snd fn) -> In (map node_sym p) alts.

(** The path element [nd] of the chart [ch] stands for the tree [c]: a
    scanned terminal for a leaf, a completed item for a node whose
    children spell the expression of the item and cover the tokens
    between the start column of the item and its column. *)
Definition node_tree (g : grammar) (ch : chart) (toks : list string)
    (nd : pnode) (c : tree) : Prop :=
  match nd with
  | PT v => c = Node v []
  | PN s =>
      exists b cs,
        c = Node (name s) cs /\ In s (col_states ch b) /\
        finished s = true /\ expr s = map tree_root cs /\
        Forall (tree_derivation g) cs /\ Forall tree_ok cs /\
        flat_map leaves cs = seg toks (s_col s) b
  end.

(** ** What the GSS, the descriptors and the SPPF of the GLL parser mean

    [inp] is the list of the characters of [parser.I], the input
    followed by the end marker. *)
Section GLLMeaning.

Variable g : grammar.
Variable start : symbol.
Variable inp : list string.

(** The alternative [g[X][n]]. *)
Definition rule_at (X : symbol) (n : nat) : option alternative :=
  match lookup g X with
  | Some alts => nth_error alts n
  | None => None
  end.

(** No alternative uses the end marker as a symbol. *)
Definition dollar_free : Prop :=
  forall X n rule, rule_at X n = Some rule -> ~ In "$" rule.

(** The node [w] is neither the dummy node nor an epsilon node, has the
    extents [(j, i)], and [alpha] derives the input between them. *)
Definition good (w : GLL.sppf_key) (alpha : list symbol) (j i : nat) : Prop :=
  fst (fst w) <> GLL.TNone /\ fst (fst w) <> GLL.TStr "$" /\
  snd (fst w) = j /\ snd w = i /\
  j <= i /\ i <= List.length inp /\
  derives g alpha (seg inp j i).

(** The left sibling at the dot position [d] of [rule]: the dummy node
    at position 0, a node for the symbols before the dot otherwise. *)
Definition left_ok (w : GLL.sppf_key) (d : nat) (rule : alternative)
    (j k : nat) : Prop :=
  (d = 0 /\ w = GLL.end_rule /\ j = k /\ k <= List.length inp) \/
  (0 < d /\ good w (firstn d rule) j k).

(** The GSS node [u] is the return address of a call of [X]: the bottom
    of the stack for the start symbol, or a slot with the dot right
    after an occurrence of [X]. *)
Definition called_from (X : symbol) (u : GLL.gss_label) : Prop :=
  (u = GLL.stack_bottom /\ X = start) \/
  (exists X' n' d' rule',
      fst u = GLL.LSlot X' n' d' /\ rule_at X' n' = Some rule' /\
      0 < d' /\ nth_error rule' (d' - 1) = Some X).

(** The descriptor [((X, n, d), u, i, w)]. *)
Definition desc_ok (X : symbol) (n d : nat) (u : GLL.gss_label) (i : nat)
    (w : GLL.sppf_key) : Prop :=
  exists rule,
    rule_at X n = Some rule /\ d <= List.length rule /\
    called_from X u /\ left_ok w d rule (snd u) i.

(** The edge from the GSS node [v] to [u2], labelled [w]. *)
Definition edge_ok (v u2 : GLL.gss_label) (w : GLL.sppf_key) : Prop :=
  exists X' n' d' rule',
    fst v = GLL.LSlot X' n' d' /\ rule_at X' n' = Some rule' /\
    0 < d' /\ d' <= List.length rule' /\
    called_from X' u2 /\ left_ok w (d' - 1) rule' (snd u2) (snd v).

(** The node [z] recorded in [P] for the GSS node [v]. *)
Definition popped_ok (v : GLL.gss_label) (z : GLL.sppf_key) : Prop :=
  exists X' n' d' rule' Y,
    fst v = GLL.LSlot X' n' d' /\ rule_at X' n' = Some rule' /\
    0 < d' /\ nth_error rule' (d' - 1) = Some Y /\
    good z [Y] (snd v) (snd z).

(** Symbol nodes of the SPPF stand for derivations. *)
Definition store_ok (ns : list (GLL.sppf_key * GLL.SPPFNode)) : Prop :=
  forall x j i node,
    GLL.assoc GLL.sppf_key_eqb ns (GLL.TStr x, j, i) = Some node ->
    x <> "$" ->
    i <= List.length inp /\ derives g [x] (seg inp j i).

Definition gll_inv (text : string) (p : GLL.GLLStructuredStackP) : Prop :=
  GLL.p_gram p = g /\
  GLL.I p = (text ++ "$")%string /\
  GLL.m p = String.length text /\
  store_ok (GLL.SPPF_nodes p) /\
  (forall L u i w, In (L, u, i, w) (GLL.threads p) ->
     exists X n d, L = GLL.LSlot X n d /\ desc_ok X n d u i w) /\
  (forall v es u2 w,
     GLL.assoc GLL.gss_label_eqb (GLL.graph p) v = Some es ->
     In (u2, w) es -> edge_ok v u2 w) /\
  (forall v zs z,
     GLL.assoc GLL.gss_label_eqb (GLL.P p) v = Some zs ->
     In z zs -> popped_ok v z).

(** The variables [L], [stack_top], [cur_idx] and [cur_sppf_node] of the
    driver at the head of its loop. *)
Definition config_ok (c : GLL.config) : Prop :=
  match GLL.cL c with
  | GLL.LSlot X n d =>
      desc_ok X n d (GLL.c_stack_top c) (GLL.c_cur_idx c)
              (GLL.c_cur_sppf_node c)
  | GLL.LStr s =>
      if String.eqb s "L0" then True
      else if String.eqb s "L_" then
        GLL.c_stack_top c = GLL.stack_bottom \/
        exists X, called_from X (GLL.c_stack_top c) /\
                  good (GLL.c_cur_sppf_node c) [X]
                       (snd (GLL.c_stack_top c)) (GLL.c_cur_idx c)
      else
        called_from s (GLL.c_stack_top c) /\
        GLL.c_cur_idx c = snd (GLL.c_stack_top c) /\
        GLL.c_cur_idx c <= List.length inp
  end.

End GLLMeaning.

(** ** Termination of the GLL driver

    What the descriptors, the GSS and the SPPF range over for a grammar
    [g] and an input [text], and a bound on the number of turns of the
    loop that are left. *)

(** [r] returns, with a value that satisfies [Q]. *)
Definition returns {A : Type} (r : result A) (Q : A -> Prop) : Prop :=
  match r with
  | Ok a => Q a
  | Raise _ => False
  end.

(** Every symbol of an alternative is a non-empty string, and the ones
    of the form [<...>] are keys of the grammar. *)
Definition symbols_ok (g : grammar) : Prop :=
  forall X alts alt t, In (X, alts) g -> In alt alts -> In t alt ->
    t <> "" /\ (is_nt t = Ok true -> lookup g t <> None).

Definition all_symbols (g : grammar) : list symbol :=
  "$" :: keys g ++ flat_map (fun e => List.concat (snd e)) g.

(** The grammar slots [(X, n, d)]: alternative [n] of [X], dot at [d]. *)
Definition slots (g : grammar) : list (symbol * nat * nat) :=
  flat_map
    (fun e =>
       flat_map
         (fun n => map (fun d => (fst e, n, d))
                       (seq 0 (S (List.length (nth n (snd e) [])))))
         (seq 0 (List.length (snd e))))
    g.

Definition slot_labels (g : grammar) : list GLL.label :=
  map (fun s => GLL.LSlot (fst (fst s)) (snd (fst s)) (snd s)) (slots g).

Definition max_rule (g : grammar) : nat :=
  list_max (map (@List.length symbol) (flat_map snd g)).

Section GLLRange.

Variable g : grammar.
Variable text : string.

#[warnings="-notation-for-abbreviation"]
Local Notation m := (String.length text).

Definition slot_ok (X : symbol) (n d : nat) : Prop :=
  exists rule, rule_at g X n = Some rule /\ d <= List.length rule.

Definition gss_in (u : GLL.gss_label) : Prop :=
  u = GLL.stack_bottom \/
  exists X n d, fst u = GLL.LSlot X n d /\ slot_ok X n d /\ snd u <= m.

Definition tag_in (t : GLL.sppf_tag) : Prop :=
  match t with
  | GLL.TStr x => In x (all_symbols g)
  | GLL.TSlot X n d => slot_ok X n d
  | _ => False
  end.

Definition node_in (w : GLL.sppf_key) : Prop :=
  tag_in (fst (fst w)) /\ snd (fst w) <= m /\ snd w <= m.

Definition desc_in (e : GLL.label * GLL.gss_label * GLL.sppf_key) : Prop :=
  (exists X n d, fst (fst e) = GLL.LSlot X n d /\ slot_ok X n d) /\
  gss_in (snd (fst e)) /\ node_in (snd e).

Definition gss_universe : list GLL.gss_label :=
  GLL.stack_bottom :: list_prod (slot_labels g) (seq 0 (S m)).

Definition tag_universe : list GLL.sppf_tag :=
  map GLL.TStr (all_symbols g) ++
  map (fun s => GLL.TSlot (fst (fst s)) (snd (fst s)) (snd s)) (slots g).

Definition node_universe : list GLL.sppf_key :=
  list_prod (list_prod tag_universe (seq 0 (S m))) (seq 0 (S m)).

Definition desc_universe
  : list (GLL.label * GLL.gss_label * GLL.sppf_key) :=
  list_prod (list_prod (slot_labels g) gss_universe) node_universe.

(** The number of descriptors that the sets [U[i]] can still take. *)
Definition room (p : GLL.GLLStructuredStackP) : nat :=
  list_sum (map (fun us => List.length desc_universe - List.length us)
                (GLL.U p)).

Definition weight (p : GLL.GLLStructuredStackP) : nat :=
  room p + List.length (GLL.threads p).

(** Turns of the loop from the label [L] to the next visit of ['L0']. *)
Definition local_steps (L : GLL.label) : nat :=
  match L with
  | GLL.LStr s => if String.eqb s "L0" then 0 else 1
  | GLL.LSlot X n d =>
      match rule_at g X n with
      | Some rule => List.length rule - d + 2
      | None => 0
      end
  end.

Definition turns_left (c : GLL.config) : nat :=
  (max_rule g + 3) * weight (GLL.c_parser c) + local_steps (GLL.cL c).

(** The label of the node that holds the packed nodes of the slot
    [(X, n, d)]: [t = X if beta == [] else X_rule_pos] in [getNodeP]. *)
Definition slot_tag (X : symbol) (n d : nat) : GLL.sppf_tag :=
  match rule_at g X n with
  | Some rule =>
      match skipn d rule with
      | [] => GLL.TStr X
      | _ :: _ => GLL.TSlot X n d
      end
  | None => GLL.TSlot X n d
  end.

(** The key of a node that is not a packed node. *)
Definition not_packed (k : GLL.sppf_key) : Prop :=
  forall X n d kk, fst (fst k) <> GLL.TPacked X n d kk.

(** Every packed node of the store is a child of the node it was
    created for. *)
Definition packed_parents (ns : list (GLL.sppf_key * GLL.SPPFNode)) : Prop :=
  forall X n d k j i node,
    GLL.assoc GLL.sppf_key_eqb ns (GLL.TPacked X n d k, j, i) = Some node ->
    exists y,
      GLL.assoc GLL.sppf_key_eqb ns (slot_tag X n d, j, i) = Some y /\
      In (GLL.TPacked X n d k, j, i) (GLL.children y).

Definition safe (p : GLL.GLLStructuredStackP) : Prop :=
  GLL.p_gram p = g /\
  GLL.I p = (text ++ "$")%string /\
  GLL.m p = m /\
  List.length (GLL.U p) = m + 1 /\
  (forall i us, nth_error (GLL.U p) i = Some us ->
     NoDup us /\ forall e, In e us -> desc_in e) /\
  (forall L u i w, In (L, u, i, w) (GLL.threads p) ->
     i <= m /\ desc_in (L, u, w)) /\
  (forall v es u2 w,
     GLL.assoc GLL.gss_label_eqb (GLL.graph p) v = Some es ->
     In (u2, w) es -> gss_in u2 /\ node_in w) /\
  (forall v zs z,
     GLL.assoc GLL.gss_label_eqb (GLL.P p) v = Some zs ->
     In z zs -> node_in z) /\
  packed_parents (GLL.SPPF_nodes p).

Definition config_safe (c : GLL.config) : Prop :=
  safe (GLL.c_parser c) /\
  GLL.c_cur_idx c <= m /\
  gss_in (GLL.c_stack_top c) /\
  node_in (GLL.c_cur_sppf_node c) /\
  match GLL.cL c with
  | GLL.LSlot X n d => slot_ok X n d
  | GLL.LStr s =>
      String.eqb s "L0" = true \/ String.eqb s "L_" = true \/
      lookup g s <> None
  end.

End GLLRange.

(** Turns of the loop of the driver that are enough for [text]. *)
Definition gll_budget (g : grammar) (text : string) : nat :=
  S ((max_rule g + 3) *
     ((String.length text + 1) * List.length (desc_universe g text)) + 1).

(** ** Completeness of the GLL driver

    The SPPF node of a descriptor is fixed by its slot, its GSS node and
    its index; [nl] is the set [parser.nullable]. *)

(** [is_non_nullable_alpha], as a function of [parser.nullable]. *)
Definition nn_alpha (nl : list symbol) (alpha : list symbol) : result bool :=
  match alpha with
  | [a] =>
      nt <- GLL.is_nonterminal a ;;
      if negb nt then Ok true
      else if sym_in a nl then Ok false else Ok true
  | _ => Ok false
  end.

Definition in_store (p : GLL.GLLStructuredStackP) (k : GLL.sppf_key) : Prop :=
  GLL.assoc GLL.sppf_key_eqb (GLL.SPPF_nodes p) k <> None.

Section GLLClosure.

Variable g : grammar.
Variable start : symbol.
Variable text : string.
Variable nl : list symbol.

#[warnings="-notation-for-abbreviation"]
Local Notation inp := (tokens_of (text ++ "$")).

(** The node that [getNodeP] returns for the slot [(X, n, d)], with
    left extent [j] and right extent [i]: the right child itself after
    one non-nullable symbol that is not the last one, the node labelled
    with the slot (or with [X], at the end) otherwise; the dummy node
    in front of the first symbol. *)
Definition canon (X : symbol) (n d j i : nat) : GLL.sppf_key :=
  match d with
  | 0 => GLL.end_rule
  | S _ =>
      match rule_at g X n with
      | Some rule =>
          match nn_alpha nl (firstn d rule), skipn d rule with
          | Ok true, _ :: _ => (GLL.TStr (nth 0 rule ""), j, i)
          | _, _ => (slot_tag g X n d, j, i)
          end
      | None => GLL.end_rule
      end
  end.

(** The descriptor [((X, n, d), u, i, w)] is in [U[i]]. *)
Definition in_U (p : GLL.GLLStructuredStackP) (X : symbol) (n d : nat)
    (u : GLL.gss_label) (i : nat) : Prop :=
  exists us, nth_error (GLL.U p) i = Some us /\
             In (GLL.LSlot X n d, u, canon X n d (snd u) i) us.

(** From the dot position [d0] at index [i0], the driver reaches the
    dot position [d] at index [i] by matching terminals, without going
    through ['L0']. *)
Inductive scans (X : symbol) (n : nat) : nat -> nat -> nat -> nat -> Prop :=
| scans_refl : forall d i, scans X n d i d i
| scans_step : forall d0 i0 d i rule t,
    scans X n d0 i0 d i ->
    rule_at g X n = Some rule ->
    nth_error rule d = Some t ->
    is_nt t = Ok false ->
    nth_error inp i = Some t ->
    scans X n d0 i0 (S d) (S i).

(** The driver gets to the slot [(X, n, d)] with the GSS node [u] at
    the index [i]. *)
Definition visited (p : GLL.GLLStructuredStackP) (X : symbol) (n d : nat)
    (u : GLL.gss_label) (i : nat) : Prop :=
  exists d0 i0, in_U p X n d0 u i0 /\ scans X n d0 i0 d i.

(** ... later, from a descriptor that waits in [threads]. *)
Definition waiting (p : GLL.GLLStructuredStackP) (X : symbol) (n d : nat)
    (u : GLL.gss_label) (i : nat) : Prop :=
  exists d0 i0,
    In (GLL.LSlot X n d0, u, i0, canon X n d0 (snd u) i0) (GLL.threads p) /\
    scans X n d0 i0 d i.

(** ... from the label that the driver is at. *)
Definition current (c : GLL.config) (X : symbol) (n d : nat)
    (u : GLL.gss_label) (i : nat) : Prop :=
  match GLL.cL c with
  | GLL.LSlot X' n' d' =>
      X' = X /\ n' = n /\ GLL.c_stack_top c = u /\
      scans X n d' (GLL.c_cur_idx c) d i
  | GLL.LStr s =>
      s = "L_" /\ GLL.c_stack_top c = u /\ GLL.c_cur_idx c = i /\
      GLL.c_cur_sppf_node c = (GLL.TStr X, snd u, i) /\
      exists rule, rule_at g X n = Some rule /\ d = List.length rule
  end.

(** What the driver leaves behind at the slot [(X, n, d)]: at the end
    of the alternative the node of [X] is in the SPPF and in [P]; in
    front of a nonterminal the GSS has the edge of the call. *)
Definition handled (p : GLL.GLLStructuredStackP) (X : symbol) (n d : nat)
    (u : GLL.gss_label) (i : nat) : Prop :=
  forall rule, rule_at g X n = Some rule ->
    (d = List.length rule ->
       in_store p (GLL.TStr X, snd u, i) /\
       (u <> GLL.stack_bottom ->
        In (GLL.TStr X, snd u, i) (GLL.parsed_indexes p u))) /\
    (forall Y, nth_error rule d = Some Y -> is_nt Y = Ok true ->
       In (u, canon X n d (snd u) i)
          (GLL.gss_children p (GLL.LSlot X n (d + 1), i))).

Definition kdesc (p : GLL.GLLStructuredStackP) (L : GLL.label)
    (u : GLL.gss_label) (i : nat) (w : GLL.sppf_key) : Prop :=
  exists X n d rule,
    L = GLL.LSlot X n d /\ rule_at g X n = Some rule /\
    d <= List.length rule /\ called_from g start X u /\
    w = canon X n d (snd u) i /\ (d = 0 -> i = snd u) /\
    (d = List.length rule -> 0 < d -> in_store p w).

Definition kedge (v u : GLL.gss_label) (w : GLL.sppf_key) : Prop :=
  exists X n d rule,
    fst v = GLL.LSlot X n d /\ rule_at g X n = Some rule /\
    0 < d /\ d <= List.length rule /\ called_from g start X u /\
    w = canon X n (d - 1) (snd u) (snd v) /\ (d = 1 -> snd v = snd u).

Definition kpop (v : GLL.gss_label) (z : GLL.sppf_key) : Prop :=
  exists X n d rule Y,
    fst v = GLL.LSlot X n d /\ rule_at g X n = Some rule /\
    0 < d /\ nth_error rule (d - 1) = Some Y /\
    z = (GLL.TStr Y, snd v, snd z).

(** The descriptors, the edges of the GSS and the entries of [P] have
    the nodes that their slots fix. *)
Definition kcore (p : GLL.GLLStructuredStackP) : Prop :=
  GLL.p_gram p = g /\
  GLL.I p = (text ++ "$")%string /\
  GLL.m p = String.length text /\
  GLL.p_nullable p = nl /\
  (forall i us L u w, nth_error (GLL.U p) i = Some us -> In (L, u, w) us ->
     kdesc p L u i w) /\
  (forall L u i w, In (L, u, i, w) (GLL.threads p) ->
     exists us, nth_error (GLL.U p) i = Some us /\ In (L, u, w) us) /\
  (forall v u w, In (u, w) (GLL.gss_children p v) -> kedge v u w) /\
  (forall v z, In z (GLL.parsed_indexes p v) -> kpop v z).

(** Every edge of a GSS node has been combined with every entry of [P]
    for that node. *)
Definition returns_done (p : GLL.GLLStructuredStackP) : Prop :=
  forall v u w z X n d,
    In (u, w) (GLL.gss_children p v) -> In z (GLL.parsed_indexes p v) ->
    fst v = GLL.LSlot X n d -> in_U p X n d u (snd z).

Definition kconf (c : GLL.config) : Prop :=
  match GLL.cL c with
  | GLL.LSlot X n d =>
      kdesc (GLL.c_parser c) (GLL.LSlot X n d) (GLL.c_stack_top c)
            (GLL.c_cur_idx c) (GLL.c_cur_sppf_node c)
  | GLL.LStr s =>
      if String.eqb s "L0" then True
      else if String.eqb s "L_" then
        exists Y, called_from g start Y (GLL.c_stack_top c) /\
                  GLL.c_cur_sppf_node c
                  = (GLL.TStr Y, snd (GLL.c_stack_top c), GLL.c_cur_idx c) /\
                  in_store (GLL.c_parser c) (GLL.c_cur_sppf_node c)
      else
        called_from g start s (GLL.c_stack_top c) /\
        GLL.c_cur_idx c = snd (GLL.c_stack_top c)
  end.

(** The alternatives of a nonterminal that has been called from the GSS
    node [v] are in [U], unless the driver is at the label of the call. *)
Definition calls_done (c : GLL.config) : Prop :=
  forall Y v alts k,
    called_from g start Y v ->
    (v = GLL.stack_bottom \/ GLL.gss_children (GLL.c_parser c) v <> []) ->
    lookup g Y = Some alts -> k < List.length alts ->
    (GLL.cL c = GLL.LStr Y /\ GLL.c_stack_top c = v) \/
    in_U (GLL.c_parser c) Y k 0 v (snd v).

Definition all_handled (c : GLL.config) : Prop :=
  forall X n d u i,
    visited (GLL.c_parser c) X n d u i ->
    waiting (GLL.c_parser c) X n d u i \/ current c X n d u i \/
    handled (GLL.c_parser c) X n d u i.

Definition cinv (c : GLL.config) : Prop :=
  kcore (GLL.c_parser c) /\ returns_done (GLL.c_parser c) /\ kconf c /\
  calls_done c /\ all_handled c.

(** The parser object has grown: nothing is taken out of [U], the GSS,
    [P] or the SPPF, and what is new in [U] waits in [threads]. *)
Definition grown (p p' : GLL.GLLStructuredStackP) : Prop :=
  (forall i us, nth_error (GLL.U p) i = Some us ->
     exists us', nth_error (GLL.U p') i = Some us' /\ incl us us') /\
  incl (GLL.threads p) (GLL.threads p') /\
  (forall v, incl (GLL.gss_children p v) (GLL.gss_children p' v)) /\
  (forall v, incl (GLL.parsed_indexes p v) (GLL.parsed_indexes p' v)) /\
  (forall k, in_store p k -> in_store p' k) /\
  (forall i us' e, nth_error (GLL.U p') i = Some us' -> In e us' ->
     (exists us, nth_error (GLL.U p) i = Some us /\ In e us) \/
     In (fst (fst e), snd (fst e), i, snd e) (GLL.threads p')).

End GLLClosure.

(** ** The shape of the SPPF

    What [getNodeT] and [getNodeP] leave in [SPPF_nodes]: the children
    of every node, by the key of the node. *)
Section GLLShape.

Variable g : grammar.
Variable nl : list symbol.
Variable inp : list string.

(** The child [c] is a packed node of the node [(t, j, i)]. *)
Definition packed_child (p : GLL.GLLStructuredStackP) (t : GLL.sppf_tag)
    (j i : nat) (c : GLL.sppf_key) : Prop :=
  exists X n d k,
    c = (GLL.TPacked X n d k, j, i) /\ slot_tag g X n d = t /\ in_store p c.

(** The children [chs] of the packed node [((X, n, d), k)] below a node
    with the extents [(j, i)]: the epsilon node for an empty
    alternative; otherwise the node of the symbol in front of the dot,
    from [k] to [i], after the node of the symbols before it, from [j]
    to [k], when there are any. *)
Definition packed_children (p : GLL.GLLStructuredStackP) (X : symbol)
    (n d k j i : nat) (chs : list GLL.sppf_key) : Prop :=
  exists rule,
    rule_at g X n = Some rule /\ d <= List.length rule /\
    ((d = 0 /\ rule = [] /\ k = i /\ j = i /\
      in_store p (GLL.TNone, i, i) /\ chs = [(GLL.TNone, i, i)]) \/
     (exists Y,
         0 < d /\ nth_error rule (d - 1) = Some Y /\ Y <> "$" /\
         in_store p (GLL.TStr Y, k, i) /\ k <= i /\
         ((d = 1 /\ j = k /\ chs = [(GLL.TStr Y, k, i)]) \/
          (1 < d /\ j <= k /\ in_store p (canon g nl X n (d - 1) j k) /\
           chs = [canon g nl X n (d - 1) j k; (GLL.TStr Y, k, i)])))).

Definition node_shape (p : GLL.GLLStructuredStackP) (key : GLL.sppf_key)
    (chs : list GLL.sppf_key) : Prop :=
  let '(t, j, i) := key in
  j <= i /\
  match t with
  | GLL.TNone => chs = []
  | GLL.TStr x =>
      (x = "$" /\ chs = []) \/
      (is_nt x = Ok false /\ chs = [] /\
       nth_error inp j = Some x /\ i = j + 1) \/
      (is_nt x = Ok true /\ chs <> [] /\ NoDup chs /\
       Forall (packed_child p (GLL.TStr x) j i) chs)
  | GLL.TSlot X n d =>
      chs <> [] /\ NoDup chs /\
      Forall (packed_child p (GLL.TSlot X n d) j i) chs
  | GLL.TPacked X n d k => packed_children p X n d k j i chs
  end.

Definition sppf_shape (p : GLL.GLLStructuredStackP) : Prop :=
  forall key node,
    GLL.assoc GLL.sppf_key_eqb (GLL.SPPF_nodes p) key = Some node ->
    node_shape p key (GLL.children node).

(** The nodes of the descriptors, of the edges of the GSS and of [P]
    are in [SPPF_nodes], and so is the dummy node. *)
Definition refs_stored (p : GLL.GLLStructuredStackP) : Prop :=
  in_store p GLL.end_rule /\
  (forall i us L u w, nth_error (GLL.U p) i = Some us -> In (L, u, w) us ->
     in_store p w) /\
  (forall L u i w, In (L, u, i, w) (GLL.threads p) -> in_store p w) /\
  (forall v u w, In (u, w) (GLL.gss_children p v) -> in_store p w) /\
  (forall v z, In z (GLL.parsed_indexes p v) -> in_store p z).

Definition sppf_ok (p : GLL.GLLStructuredStackP) : Prop :=
  GLL.p_gram p = g /\ GLL.p_nullable p = nl /\
  sppf_shape p /\ refs_stored p.

Definition config_sppf_ok (c : GLL.config) : Prop :=
  sppf_ok (GLL.c_parser c) /\
  in_store (GLL.c_parser c) (GLL.c_cur_sppf_node c).

(** No node labelled with a key of the grammar is without children. *)
Fixpoint inner_nonempty (t : tree) : Prop :=
  match t with
  | Node key cs =>
      (lookup g key <> None -> cs <> []) /\
      (fix all (l : list tree) : Prop :=
         match l with
         | [] => True
         | c :: l' => inner_nonempty c /\ all l'
         end) cs
  end.

(** The trees [ts] are derivation trees of the symbols [alpha], in
    order, and their leaves are the input from [j] to [i]. *)
Definition trees_cover (ts : list tree) (alpha : list symbol) (j i : nat)
  : Prop :=
  map tree_root ts = alpha /\
  Forall (tree_derivation g) ts /\ Forall tree_ok ts /\
  Forall inner_nonempty ts /\
  flat_map leaves ts = seg inp j i.

(** What [extract_a_node] returns for the node [key]: the key [''] for
    a dummy node, a tree of the symbol for a symbol node, the trees of
    the symbols before the dot for an intermediate or a packed node; the
    node spans at least one character of the input. *)
Definition extracted (key : GLL.sppf_key) (v : option symbol * list tree)
  : Prop :=
  let '(t, j, i) := key in
  match t with
  | GLL.TNone => fst v = Some ""
  | GLL.TStr x =>
      (x = "$" /\ fst v = Some "") \/
      (x <> "$" /\ fst v = Some x /\ j < i /\
       trees_cover [Node x (snd v)] [x] j i)
  | GLL.TSlot X n d | GLL.TPacked X n d _ =>
      fst v = None /\
      exists rule, rule_at g X n = Some rule /\
                   0 < d /\ d <= List.length rule /\ j < i /\
                   trees_cover (snd v) (firstn d rule) j i
  end.

(** No intermediate node has two packed nodes. *)
Definition single_packed (p : GLL.GLLStructuredStackP) : Prop :=
  forall X n d j i node,
    GLL.assoc GLL.sppf_key_eqb (GLL.SPPF_nodes p) (GLL.TSlot X n d, j, i)
    = Some node ->
    List.length (GLL.children node) <= 1.

(** The trees [ts] are derivation trees of the symbols [alpha], in
    order, and their leaves are the input from [j] to [i]; empty
    alternatives are allowed. *)
Definition trees_span (ts : list tree) (alpha : list symbol) (j i : nat)
  : Prop :=
  map tree_root ts = alpha /\
  Forall (tree_derivation g) ts /\ Forall tree_ok ts /\
  flat_map leaves ts = seg inp j i.

(** What [to_tree_] returns for the node [key]. *)
Definition tree_listed (key : GLL.sppf_key) (ts : list tree) : Prop :=
  let '(t, j, i) := key in
  match t with
  | GLL.TNone => ts = []
  | GLL.TStr x => (x = "$" /\ ts = []) \/ (x <> "$" /\ trees_span ts [x] j i)
  | GLL.TSlot X n d | GLL.TPacked X n d _ =>
      exists rule, rule_at g X n = Some rule /\
                   trees_span ts (firstn d rule) j i
  end.

End GLLShape.

(** ** Proof automation *)

(** Case analysis on every [match] of a hypothesis. *)
Ltac break_match_hyp H :=
  repeat match type of H with
         | context [match ?x with _ => _ end] =>
             let E := fresh "E" in destruct x eqn:E; simpl in H;
                                   try discriminate H
         end.

(** * Part II: properties *)

(** ** Generic facts about the driver loops *)

Lemma gll_run_more_fuel (g : grammar) (start : symbol) :
  forall fuel c r, GLL.run fuel g start c = Some r ->
  forall k, GLL.run (fuel + k) g start c = Some r.
Proof.
  induction fuel as [|fuel IH]; intros c r H k; simpl in *.
  - discriminate.
  - destruct (GLL.step g start c) as [[c' | o] | e]; auto.
Qed.

Lemma gll_recognize_more_fuel (g : grammar) (text : string) (start : symbol) :
  forall fuel r, GLL.recognize_on fuel g text start = Some r ->
  forall fuel', fuel <= fuel' -> GLL.recognize_on fuel' g text start = Some r.
Proof.
  intros fuel r H fuel' Hle. unfold GLL.recognize_on in *.
  destruct (GLL.source_ok g); [|discriminate].
  unfold GLL.generated_recognize_on in *.
  destruct (GLL.initial_config g text start) as [c | e]; auto.
  replace fuel' with (fuel + (fuel' - fuel)) by lia.
  now apply gll_run_more_fuel.
Qed.

(** [recognize_on] gives a result only for a grammar that [exec]
    compiles as meant, and it is then the generated function. *)
Lemma gll_recognize_on_source g fuel text start r :
  GLL.recognize_on fuel g text start = Some r ->
  GLL.source_ok g = true /\
  GLL.generated_recognize_on fuel g text start = Some r.
Proof.
  unfold GLL.recognize_on. destruct (GLL.source_ok g); [auto | discriminate].
Qed.

Lemma gll_recognize_on_generated g fuel text start :
  GLL.source_ok g = true ->
  GLL.recognize_on fuel g text start
  = GLL.generated_recognize_on fuel g text start.
Proof. unfold GLL.recognize_on. now intros ->. Qed.

(** ** C1: the two engines on a grammar that uses the character [$] *)

(** C1 (code defect).  For the grammar [<S> -> epsilon | $ $] and the empty
    input, the Earley recognizer succeeds (it returns the completed item
    [<S> -> .] of column 0) while the compiled GLL recognizer stops with
    an [IndexError]: the end marker [$] that [initialize] appends to the
    input is scanned as the terminal [$], and the next slot reads
    [parser.I] past its end.  So the engines do not agree on every
    grammar. *)
Theorem engines_disagree_on_end_marker :
  (exists p table,
      EarleyParser dollar_grammar true = Ok p /\
      recognize_on (p_grammar p) (p_epsilon p) (p_parse_exceptions p)
                   "" "<S>"
      = Ok (table, [mkState "<S>" [] 0 0 (Some 0) false])) /\
  (forall fuel, 9 <= fuel ->
      GLL.recognize_on fuel dollar_grammar "" "<S>" = Some (Raise IndexError)).
Proof.
  split.
  - eexists; eexists; split; vm_compute; reflexivity.
  - intros fuel Hle.
    apply gll_recognize_more_fuel with (fuel := 9); [vm_compute; reflexivity | exact Hle].
Qed.

(** ** C4: what [parse_prefix] returns *)

Lemma latest_start_spec (start : symbol) (alts : list alternative) :
  forall rt cursor sts,
    latest_start start alts rt = (cursor, sts) ->
    (cursor = (-1)%Z /\ sts = [] /\
     forall c, In c rt -> start_states start alts c = [])
    \/
    (exists pre c post,
        rt = pre ++ c :: post /\
        (forall c', In c' pre -> start_states start alts c' = []) /\
        sts = start_states start alts c /\ sts <> [] /\
        cursor = Z.of_nat (index c)).
Proof.
  induction rt as [|c rt IH]; intros cursor sts H; simpl in H.
  - inversion H; subst. left. repeat split; auto. intros c [].
  - destruct (start_states start alts c) as [|s0 ss] eqn:E.
    + destruct (IH _ _ H) as [(Hc & Hs & Hall) | (pre & c0 & post & Hrt & Hpre & Hs & Hne & Hc)].
      * left. repeat split; auto. intros c' [<- | Hin]; auto.
      * right. exists (c :: pre), c0, post. subst rt. repeat split; auto.
        intros c' [<- | Hin]; auto.
    + inversion H; subst. right. exists [], c, rt. simpl.
      repeat split; auto; try congruence. intros c' [].
Qed.

Lemma start_states_In (start : symbol) (alts : list alternative) (c : Column) :
  forall st, In st (start_states start alts c) ->
    In st (states c) /\ name st = start /\ In (expr st) alts /\ s_col st = 0.
Proof.
  intros st H. unfold start_states in H. apply filter_In in H.
  destruct H as [Hin Hb].
  apply andb_prop in Hb. destruct Hb as [Hb H3].
  apply andb_prop in Hb. destruct Hb as [H1 H2].
  split; [exact Hin|]. split; [now apply String.eqb_eq|]. split.
  - unfold alt_in in H2. apply existsb_exists in H2.
    destruct H2 as [a [Ha Hab]]. unfold alt_eqb in Hab.
    destruct (list_eq_dec string_dec (expr st) a); [subst; auto | discriminate].
  - now apply Nat.eqb_eq.
Qed.




(** ** C10: [parse_exceptions = False] *)

(** What a parser built with [parse_exceptions = False] does: its
    [recognize_on] never raises a syntax error; for a start symbol of
    the grammar it returns the finished items among those that
    [parse_prefix] returned, possibly none; and when it returns none,
    [parse_on] hands the empty list to [parse_forest], whose assertion
    [len(names) == 1] fails. *)
Lemma recognize_on_without_parse_exceptions
    (g : grammar) (p : Parser) (text : string) (start : symbol) :
  EarleyParser g false = Ok p ->
  (forall at_, Parser_recognize_on p text start <> Raise (SyntaxError at_)) /\
  (forall alts, lookup g start = Some alts ->
      exists table cursor sts,
        Parser_parse_prefix p text start = Ok (table, (cursor, sts)) /\
        Parser_recognize_on p text start = Ok (table, filter finished sts)) /\
  (forall table depth,
      Parser_recognize_on p text start = Ok (table, []) ->
      parse_on p depth text start = ([], Some AssertionError)).
Proof.
  unfold EarleyParser. intros H.
  destruct (nullable g) as [eps|e] eqn:Hn; simpl in H; [|discriminate].
  inversion H; subst p; clear H.
  unfold Parser_recognize_on, Parser_parse_prefix, recognize_on, parse_prefix.
  simpl. repeat split.
  - intros at_. destruct (lookup g start); simpl; [|discriminate].
    destruct (latest_start _ _ _); discriminate.
  - intros alts Hl. rewrite Hl. simpl.
    destruct (latest_start start alts _) as [cursor sts] eqn:E.
    eexists; eexists; eexists. split; reflexivity.
  - intros table depth Hr. unfold parse_on, recognize_on, parse_prefix. simpl.
    destruct (lookup g start); simpl in *; [|discriminate].
    destruct (latest_start _ _ _) as [cursor sts].
    inversion Hr as [[Ht Hf]]. rewrite Hf. reflexivity.
Qed.

(** C10 (code defect).  For the grammar [<S> -> <E>; <E> -> <E> + <E> |
    1] and the unparseable input ["+"], a parser built with
    [parse_exceptions = False] returns the empty list of finished start
    items from [recognize_on], without a syntax error, as the claim
    says; but [parse_on] then does not yield an empty sequence of
    trees: it hands the empty list to [parse_forest], where the code's
    own assertion [len(names) == 1] fails, and ends with
    [AssertionError] at every recursion limit. *)
Theorem parse_on_empty_starts_asserts :
  exists p,
    EarleyParser sum_grammar false = Ok p /\
    (exists table, Parser_recognize_on p "+" "<S>" = Ok (table, [])) /\
    forall depth,
      parse_on p depth "+" "<S>" = ([], Some AssertionError) /\
      parse_on p depth "+" "<S>" <> ([], None).
Proof.
  eexists. split; [vm_compute; reflexivity|]. split.
  - eexists. vm_compute. reflexivity.
  - intros depth. split; [|discriminate].
    unfold parse_on. vm_compute. reflexivity.
Qed.

(** ** C5: how the two recognizers report a rejected input

    The amended statement is proved below, with the completeness of the
    GLL recognizer. *)

Lemma recognize_on_cases g eps text start :
  recognize_on g eps true text start =
  match parse_prefix g eps text start with
  | Raise e => Raise e
  | Ok (table, (cursor, sts)) =>
      if (cursor <? Z.of_nat (String.length text))%Z
         || match filter finished sts with [] => true | _ => false end
      then Raise (SyntaxError (AtSuffix (slice_from text cursor)))
      else Ok (table, filter finished sts)
  end.
Proof.
  unfold recognize_on.
  destruct (parse_prefix g eps text start) as [[table [cursor sts]]|e];
    reflexivity.
Qed.


(** ** C3: the cyclic unit productions [<A> -> <B> | a; <B> -> <A>] *)

(** In the chart of the cyclic example, the recursion of [get_top]
    alternates between [<B> -> <A> .] and [<A> -> <B> .]: the transitive
    item is stored only after the recursive call returns, so the memo
    table never stops it. *)
Lemma get_top_cycle :
  forall depth pd,
    Leo.get_top depth cyclic_chart pd item_B_A = Raise RecursionError /\
    Leo.get_top depth cyclic_chart pd item_A_B = Raise RecursionError.
Proof.
  induction depth as [|depth IH]; intros pd; [split; reflexivity|].
  split.
  - change (Leo.get_top (S depth) cyclic_chart pd item_B_A)
      with (bind (Leo.get_top depth cyclic_chart
                    (Leo.postdots_set pd ("<A>", ["<B>"], 0, 0) item_B_A)
                    item_A_B)
              (fun r => let '(top0, ch1, pd2) := r in
                 let top := match top0 with Some t => t | None => item_A_B end in
                 match Leo.transitive_get (Leo.col_transitives ch1 0) "<A>" with
                 | Some _ => Raise AssertionError
                 | None =>
                     Ok (Some (Leo.create_tstate top),
                         upd_col ch1 0 (fun c => Leo.add_transitive c "<A>" top),
                         pd2)
                 end)).
    rewrite (proj2 (IH _)). reflexivity.
  - change (Leo.get_top (S depth) cyclic_chart pd item_A_B)
      with (bind (Leo.get_top depth cyclic_chart
                    (Leo.postdots_set pd ("<B>", ["<A>"], 0, 0) item_A_B)
                    item_B_A)
              (fun r => let '(top0, ch1, pd2) := r in
                 let top := match top0 with Some t => t | None => item_B_A end in
                 match Leo.transitive_get (Leo.col_transitives ch1 0) "<B>" with
                 | Some _ => Raise AssertionError
                 | None =>
                     Ok (Some (Leo.create_tstate top),
                         upd_col ch1 0 (fun c => Leo.add_transitive c "<B>" top),
                         pd2)
                 end)).
    rewrite (proj1 (IH _)). reflexivity.
Qed.

Lemma get_top_cycle_first :
  forall depth pd,
    Leo.get_top depth cyclic_chart pd item_A_a = Raise RecursionError.
Proof.
  intros [|depth] pd; [reflexivity|].
  change (Leo.get_top (S depth) cyclic_chart pd item_A_a)
    with (bind (Leo.get_top depth cyclic_chart
                  (Leo.postdots_set pd ("<B>", ["<A>"], 0, 0) item_A_a)
                  item_B_A)
            (fun r => let '(top0, ch1, pd2) := r in
               let top := match top0 with Some t => t | None => item_B_A end in
               match Leo.transitive_get (Leo.col_transitives ch1 0) "<B>" with
               | Some _ => Raise AssertionError
               | None =>
                   Ok (Some (Leo.create_tstate top),
                       upd_col ch1 0 (fun c => Leo.add_transitive c "<B>" top),
                       pd2)
               end)).
  rewrite (proj1 (get_top_cycle depth _)). reflexivity.
Qed.

(** C3 (code defect).  On the cyclic grammar of the specification,
    [<A> -> <B> | a; <B> -> <A>], and the input ["a"], recognition by
    [LeoParser] does not terminate normally: whatever the recursion
    limit [depth], completing [<A> -> a .] in column 1 sends [get_top]
    into a recursion that exceeds it ([RecursionError]).  The plain
    Earley recognizer accepts the same input. *)
Theorem leo_recognition_diverges_on_cycle :
  nullable cyclic_grammar = Ok [] /\
  (forall depth pe fuel, 4 <= fuel ->
     Leo.recognize_on cyclic_grammar [] depth pe fuel "a" "<A>"
     = Some (Raise RecursionError)) /\
  (exists table,
     recognize_on cyclic_grammar [] true "a" "<A>"
     = Ok (table, [item_A_a; mkState "<A>" ["<B>"] 1 0 (Some 1) false])).
Proof.
  split; [vm_compute; reflexivity|]. split.
  - intros depth pe fuel Hle.
    unfold Leo.recognize_on, Leo.parse_prefix, Leo.chart_parse.
    change (lookup cyclic_grammar "<A>") with (Some [["<B>"]; ["a"]]).
    cbv iota beta.
    assert (Hcol0 : forall f, 4 <= f ->
              Leo.fill_column cyclic_grammar [] depth f
                (seed_chart "a" "<A>" [["<B>"]; ["a"]]) [] 0 0
              = Some (Ok (cyclic_chart, []))).
    { intros f Hf. do 4 (destruct f as [|f]; [lia|]). vm_compute. reflexivity. }
    assert (Hcol1 : forall f, 1 <= f ->
              Leo.fill_column cyclic_grammar [] depth f cyclic_chart [] 1 0
              = Some (Raise RecursionError)).
    { intros f Hf. destruct f as [|f]; [lia|].
      change (Leo.fill_column cyclic_grammar [] depth (S f) cyclic_chart [] 1 0)
        with (match Leo.fill_step cyclic_grammar [] depth cyclic_chart [] 1 item_A_a with
              | Raise e => Some (Raise e)
              | Ok (ch', pd') =>
                  Leo.fill_column cyclic_grammar [] depth f ch' pd' 1 1
              end).
      change (Leo.fill_step cyclic_grammar [] depth cyclic_chart [] 1 item_A_a)
        with (bind (Leo.get_top depth cyclic_chart [] item_A_a)
                (fun r => let '(detred, ch1, pd1) := r in
                   match detred with
                   | Some d => Ok (upd_col ch1 1 (fun c => Column_add c (Leo.copy d)), pd1)
                   | None => Ok (earley_complete ch1 1 item_A_a, pd1)
                   end)).
      rewrite get_top_cycle_first. reflexivity. }
    change (List.length (seed_chart "a" "<A>" [["<B>"]; ["a"]])) with 2.
    simpl Leo.fill_columns.
    rewrite (Hcol0 fuel Hle). rewrite (Hcol1 fuel); [reflexivity | lia].
  - eexists. vm_compute. reflexivity.
Qed.

(** ** C6: the item that [leo_complete] adds *)

(** C6 (code defect).  [LeoParser] on [memo_grammar] and ["xxa"], at the
    moment the completer processes [<C> -> a .] spanning (2, 3): column
    2 holds exactly one item with the dot in front of [<C>], namely
    [<B> -> x . <C>] (from column 1), and its dot is at the last
    position; the topmost item of the deterministic reduction path above
    [<C> -> a .] is [<S> -> x <B> .] (from column 0).  [get_top] instead
    returns the transitive item that was stored in column 2 under the
    name [<B>] while [<A> -> a .] was completed, [<B> -> x x <A> .], and
    [leo_complete] adds a copy of that one (already present, so the
    chart does not change) and skips the standard completion.  As a
    result [LeoParser] rejects ["xxa"], which the plain Earley
    recognizer accepts. *)
Theorem leo_complete_adds_item_of_other_chain :
  nth_error (col_states memo_chart 3) 1 = Some item_C_a /\
  filter (at_dot_is "<C>") (col_states memo_chart 2) = [item_B_xC] /\
  dot item_B_xC = List.length (expr item_B_xC) - 1 /\
  topmost_item memo_chart item_C_a item_S_xB /\
  (forall t, topmost_item memo_chart item_C_a t -> t = item_S_xB) /\
  (forall depth, 1 <= depth ->
     exists pd',
       Leo.get_top depth memo_chart memo_postdots item_C_a
       = Ok (Some item_B_xxA, memo_chart, pd') /\
       Leo.leo_complete depth memo_chart memo_postdots 3 item_C_a
       = Ok (memo_chart, pd')) /\
  State_eqb item_B_xxA item_S_xB = false /\
  (forall depth fuel, 3 <= depth -> 8 <= fuel ->
     Leo.recognize_on memo_grammar [] depth true fuel "xxa" "<S>"
     = Some (Raise (SyntaxError (AtSuffix "xa")))) /\
  (exists table,
     recognize_on memo_grammar [] true "xxa" "<S>"
     = Ok (table, [mkState "<S>" ["x"; "<B>"] 2 0 (Some 3) false])).
Proof.
  split; [reflexivity|]. split; [reflexivity|]. split; [reflexivity|].
  assert (Hp1 : unique_parent memo_chart item_C_a = Some item_B_xC)
    by reflexivity.
  assert (Hp2 : unique_parent memo_chart (advance item_B_xC)
                = Some (mkState "<S>" ["x"; "<B>"] 1 0 (Some 1) false))
    by reflexivity.
  assert (Hp3 : unique_parent memo_chart item_S_xB = None) by reflexivity.
  split.
  { eapply topmost_above; [exact Hp1|].
    change item_S_xB
      with (advance (mkState "<S>" ["x"; "<B>"] 1 0 (Some 1) false)).
    eapply topmost_here; [exact Hp2 | exact Hp3]. }
  split.
  { intros t Ht. inversion Ht as [sA b Hb Hn | sA b t' Hb Ht']; subst.
    - rewrite Hp1 in Hb. inversion Hb; subst. rewrite Hp2 in Hn. discriminate.
    - rewrite Hp1 in Hb. inversion Hb; subst.
      inversion Ht' as [sA b' Hb' Hn' | sA b' t'' Hb' Ht'']; subst.
      + rewrite Hp2 in Hb'. inversion Hb'; subst. reflexivity.
      + rewrite Hp2 in Hb'. inversion Hb'; subst.
        inversion Ht'' as [sA b'' Hb'' Hn'' | sA b'' t3 Hb'' Ht3]; subst.
        * change (advance (mkState "<S>" ["x"; "<B>"] 1 0 (Some 1) false))
            with item_S_xB in Hb''.
          rewrite Hp3 in Hb''. discriminate.
        * change (advance (mkState "<S>" ["x"; "<B>"] 1 0 (Some 1) false))
            with item_S_xB in Hb''.
          rewrite Hp3 in Hb''. discriminate. }
  split.
  { intros depth Hd. destruct depth as [|depth]; [lia|].
    eexists. split; vm_compute; reflexivity. }
  split; [reflexivity|]. split.
  { intros depth fuel Hd Hf.
    do 3 (destruct depth as [|depth]; [lia|]).
    do 8 (destruct fuel as [|fuel]; [lia|]).
    vm_compute. reflexivity. }
  eexists. vm_compute. reflexivity.
Qed.

(** ** C7: trees returned by successive calls of [extract_a_tree] *)

(** Once the root choice record is exhausted, [extract_a_tree] returns
    [None] (both extractors). *)
Lemma earley_extract_a_tree_exhausted g ch fuel depth f root cs :
  c_finished root = true ->
  EarleyExtractor.extract_a_tree g ch (S fuel) depth f (root :: cs)
  = Some (Ok (None, root :: cs)).
Proof. intros H. simpl. rewrite H. reflexivity. Qed.

Lemma gll_extract_a_tree_exhausted p fuel depth root cs :
  c_finished root = true ->
  GLLExtractor.extract_a_tree p (S fuel) depth (root :: cs)
  = Some (Ok (None, root :: cs)).
Proof. intros H. simpl. rewrite H. reflexivity. Qed.

(** C7 (code defect).  For the grammar [<S> -> a | a], whose start
    symbol has the same alternative twice, and the input ["a"], the
    SPPF built by the GLL parser has two packed nodes under the root
    (one per slot), and the first two calls of [extract_a_tree] of the
    GLL [EnhancedExtractor] both return the tree [(<S>, [(a, [])])]; the
    third call finds the root record exhausted and returns [None]. *)
Theorem gll_extractor_returns_same_tree_twice :
  exists p cs1 cs2 cs3 root,
    GLL.recognize_on 20 dup_grammar "a" "<S>"
    = Some (Ok (GLL.ReturnParser p)) /\
    GLLExtractor.extract_a_tree p 5 5 GLLExtractor.new_extractor
    = Some (Ok (Some (Some "<S>", [Node "a" []]), cs1)) /\
    GLLExtractor.extract_a_tree p 5 5 cs1
    = Some (Ok (Some (Some "<S>", [Node "a" []]), cs2)) /\
    nth_error cs2 0 = Some root /\ c_finished root = true /\
    GLLExtractor.extract_a_tree p 5 5 cs2 = Some (Ok (None, cs3)).
Proof.
  do 5 eexists.
  split; [vm_compute; reflexivity|].
  split; [vm_compute; reflexivity|].
  split; [vm_compute; reflexivity|].
  split; [vm_compute; reflexivity|].
  split; vm_compute; reflexivity.
Qed.


(** ** Basic facts: equality tests, columns, chart updates *)

Lemma alt_eqb_eq (a b : alternative) : alt_eqb a b = true <-> a = b.
Proof.
  unfold alt_eqb. destruct (list_eq_dec string_dec a b); split; congruence.
Qed.

Lemma sym_in_In (x : symbol) (l : list symbol) : sym_in x l = true <-> In x l.
Proof.
  unfold sym_in. rewrite existsb_exists. split.
  - intros [y [Hin Heq]]. apply String.eqb_eq in Heq. now subst.
  - intros H. exists x. split; [exact H | apply String.eqb_refl].
Qed.

Lemma State_eqb_t (a b : State) : State_eqb a b = true <-> State_t a = State_t b.
Proof.
  unfold State_eqb, State_t. split.
  - intros H.
    apply andb_prop in H. destruct H as [H H4].
    apply andb_prop in H. destruct H as [H H3].
    apply andb_prop in H. destruct H as [H1 H2].
    apply String.eqb_eq in H1. apply alt_eqb_eq in H2.
    apply Nat.eqb_eq in H3. apply Nat.eqb_eq in H4. congruence.
  - intros H. inversion H.
    rewrite String.eqb_refl, Nat.eqb_refl, Nat.eqb_refl.
    rewrite (proj2 (alt_eqb_eq _ _) eq_refl). reflexivity.
Qed.

Lemma existsb_State_eqb (s : State) (l : list State) :
  existsb (State_eqb s) l = true <-> In (State_t s) (map State_t l).
Proof.
  rewrite existsb_exists, in_map_iff. split.
  - intros [x [Hin Heq]]. exists x. apply State_eqb_t in Heq. split; congruence.
  - intros [x [Heq Hin]]. exists x. split; [exact Hin|]. apply State_eqb_t. congruence.
Qed.

Lemma State_t_set_e_col s i : State_t (set_e_col s i) = State_t s.
Proof. reflexivity. Qed.

Lemma lookup_In (g : grammar) (k : symbol) (alts : list alternative) :
  lookup g k = Some alts -> In (k, alts) g.
Proof.
  induction g as [|[k' a'] g IH]; simpl; [discriminate|].
  destruct (String.eqb k k') eqn:E.
  - apply String.eqb_eq in E. intros H. inversion H; subst. now left.
  - intros H. right. auto.
Qed.

Lemma In_lookup (g : grammar) (k : symbol) (alts : list alternative) :
  NoDup (keys g) -> In (k, alts) g -> lookup g k = Some alts.
Proof.
  induction g as [|[k' a'] g IH]; simpl; intros Hnd Hin; [destruct Hin|].
  inversion Hnd as [|x l Hnotin Hnd']; subst.
  destruct Hin as [Heq | Hin].
  - inversion Heq; subst. now rewrite String.eqb_refl.
  - destruct (String.eqb k k') eqn:E.
    + apply String.eqb_eq in E. subst. exfalso. apply Hnotin.
      unfold keys. apply in_map_iff. exists (k', alts). split; auto.
    + now apply IH.
Qed.

Lemma in_grammar_lookup (g : grammar) (k : symbol) :
  in_grammar g k = true <-> exists alts, lookup g k = Some alts.
Proof.
  unfold in_grammar. destruct (lookup g k); split; intros H; eauto; try discriminate.
  destruct H as [a H]; discriminate.
Qed.

(** *** [col_ext] and [chart_ext] *)

Lemma col_ext_refl c : col_ext c c.
Proof. repeat split. exists []. now rewrite app_nil_r. Qed.

Lemma col_ext_trans c1 c2 c3 : col_ext c1 c2 -> col_ext c2 c3 -> col_ext c1 c3.
Proof.
  intros (Hi & Hl & e1 & H1) (Hi' & Hl' & e2 & H2).
  repeat split; try congruence. exists (e1 ++ e2).
  rewrite H2, H1. now rewrite app_assoc.
Qed.

Lemma chart_ext_refl ch : chart_ext ch ch.
Proof. induction ch; constructor; auto using col_ext_refl. Qed.

Lemma chart_ext_trans ch1 ch2 ch3 :
  chart_ext ch1 ch2 -> chart_ext ch2 ch3 -> chart_ext ch1 ch3.
Proof.
  intros H. revert ch3. induction H; intros ch3 H'; inversion H'; subst.
  - constructor.
  - constructor; [eapply col_ext_trans; eauto | apply IHForall2; assumption].
Qed.

Lemma chart_ext_length ch ch' : chart_ext ch ch' -> List.length ch = List.length ch'.
Proof. induction 1; simpl; congruence. Qed.

Lemma chart_ext_nth ch ch' i c :
  chart_ext ch ch' -> nth_error ch i = Some c ->
  exists c', nth_error ch' i = Some c' /\ col_ext c c'.
Proof.
  intros H. revert i. induction H; intros i Hn.
  - destruct i; discriminate.
  - destruct i; simpl in *.
    + inversion Hn; subst. eauto.
    + eauto.
Qed.

Lemma chart_ext_nth_rev ch ch' i c' :
  chart_ext ch ch' -> nth_error ch' i = Some c' ->
  exists c, nth_error ch i = Some c /\ col_ext c c'.
Proof.
  intros H. revert i. induction H; intros i Hn.
  - destruct i; discriminate.
  - destruct i; simpl in *.
    + inversion Hn; subst. eauto.
    + eauto.
Qed.

Lemma chart_ext_states ch ch' i :
  chart_ext ch ch' -> exists extra, col_states ch' i = col_states ch i ++ extra.
Proof.
  intros H. unfold col_states.
  destruct (nth_error ch i) as [c|] eqn:E.
  - destruct (chart_ext_nth _ _ _ _ H E) as [c' [E' (_ & _ & ex & Hx)]].
    rewrite E'. eauto.
  - destruct (nth_error ch' i) as [c'|] eqn:E'.
    + destruct (chart_ext_nth_rev _ _ _ _ H E') as [c [Ec _]]. congruence.
    + exists []. reflexivity.
Qed.

Lemma chart_ext_In ch ch' i st :
  chart_ext ch ch' -> In st (col_states ch i) -> In st (col_states ch' i).
Proof.
  intros H Hin. destruct (chart_ext_states ch ch' i H) as [ex Hx].
  rewrite Hx. apply in_or_app. now left.
Qed.

Lemma chart_ext_has_item ch ch' i k :
  chart_ext ch ch' -> has_item ch i k -> has_item ch' i k.
Proof.
  intros H [st [Hin Hk]]. exists st. split; [eapply chart_ext_In; eauto | exact Hk].
Qed.

Lemma chart_ext_letter ch ch' i :
  chart_ext ch ch' -> letter_at ch' i = letter_at ch i.
Proof.
  intros H. unfold letter_at.
  destruct (nth_error ch i) as [c|] eqn:E.
  - destruct (chart_ext_nth _ _ _ _ H E) as [c' [E' (_ & Hl & _)]].
    rewrite E'. congruence.
  - destruct (nth_error ch' i) as [c'|] eqn:E'; [|reflexivity].
    destruct (chart_ext_nth_rev _ _ _ _ H E') as [c [Ec _]]. congruence.
Qed.

Lemma chart_ext_nth_error_states ch ch' i j st :
  chart_ext ch ch' -> nth_error (col_states ch i) j = Some st ->
  nth_error (col_states ch' i) j = Some st.
Proof.
  intros H Hn. destruct (chart_ext_states ch ch' i H) as [ex Hx].
  rewrite Hx. rewrite nth_error_app1; [exact Hn|].
  apply nth_error_Some. congruence.
Qed.

(** *** [Column_add] and [upd_col] *)

Lemma Column_add_ext c s : col_ext c (Column_add c s).
Proof.
  unfold Column_add. destruct (existsb _ _).
  - apply col_ext_refl.
  - repeat split. eexists. reflexivity.
Qed.

Lemma Column_add_index c s : index (Column_add c s) = index c.
Proof. unfold Column_add. destruct (existsb _ _); reflexivity. Qed.

Lemma Column_add_states c s :
  states (Column_add c s) = states c \/
  (~ In (State_t s) (map State_t (states c)) /\
   states (Column_add c s) = states c ++ [set_e_col s (index c)]).
Proof.
  unfold Column_add. destruct (existsb (State_eqb s) (states c)) eqn:E.
  - now left.
  - right. split; [|reflexivity]. intros Hin.
    apply existsb_State_eqb in Hin. congruence.
Qed.

Lemma Column_add_has c s :
  In (State_t s) (map State_t (states (Column_add c s))).
Proof.
  unfold Column_add. destruct (existsb (State_eqb s) (states c)) eqn:E.
  - now apply existsb_State_eqb.
  - simpl. rewrite map_app. apply in_or_app. right. simpl. now left.
Qed.

Lemma fold_add_ext {A : Type} (f : Column -> A -> State) (l : list A) :
  forall c, col_ext c (fold_left (fun c' x => Column_add c' (f c' x)) l c).
Proof.
  induction l as [|x l IH]; intros c; simpl.
  - apply col_ext_refl.
  - eapply col_ext_trans; [apply Column_add_ext | apply IH].
Qed.

Lemma upd_col_length ch i f : List.length (upd_col ch i f) = List.length ch.
Proof.
  revert i. induction ch as [|c ch IH]; intros i; simpl; [reflexivity|].
  destruct i; simpl; auto.
Qed.

Lemma upd_col_nth_same ch i f c :
  nth_error ch i = Some c -> nth_error (upd_col ch i f) i = Some (f c).
Proof.
  revert i. induction ch as [|c0 ch IH]; intros i H; destruct i; simpl in *;
    try discriminate.
  - inversion H; subst. reflexivity.
  - auto.
Qed.

Lemma upd_col_nth_other ch i j f :
  i <> j -> nth_error (upd_col ch i f) j = nth_error ch j.
Proof.
  revert i j. induction ch as [|c0 ch IH]; intros i j H; simpl.
  - reflexivity.
  - destruct i, j; simpl; try reflexivity; try congruence.
    apply IH. congruence.
Qed.

Lemma upd_col_none ch i f : nth_error ch i = None -> upd_col ch i f = ch.
Proof.
  revert i. induction ch as [|c0 ch IH]; intros i H; simpl; [reflexivity|].
  destruct i; simpl in *; [discriminate|]. f_equal. auto.
Qed.

Lemma upd_col_ext ch i f :
  (forall c, col_ext c (f c)) -> chart_ext ch (upd_col ch i f).
Proof.
  intros Hf. revert i. induction ch as [|c ch IH]; intros i; simpl.
  - constructor.
  - destruct i; constructor.
    + apply Hf.
    + apply chart_ext_refl.
    + apply col_ext_refl.
    + apply IH.
Qed.

Lemma col_states_upd_same ch i f c :
  nth_error ch i = Some c -> col_states (upd_col ch i f) i = states (f c).
Proof.
  intros H. unfold col_states. now rewrite (upd_col_nth_same _ _ _ _ H).
Qed.

Lemma col_states_upd_other ch i j f :
  i <> j -> col_states (upd_col ch i f) j = col_states ch j.
Proof.
  intros H. unfold col_states. now rewrite upd_col_nth_other.
Qed.

(** *** Several [col.add] in a row *)

Lemma add_all_ext l : forall c, col_ext c (add_all c l).
Proof.
  unfold add_all. induction l as [|x l IH]; intros c; simpl.
  - apply col_ext_refl.
  - eapply col_ext_trans; [apply Column_add_ext | apply IH].
Qed.

Lemma add_all_index l c : index (add_all c l) = index c.
Proof. destruct (add_all_ext l c) as (H & _). congruence. Qed.

Lemma add_all_letter l c : letter (add_all c l) = letter c.
Proof. destruct (add_all_ext l c) as (_ & H & _). congruence. Qed.

Lemma add_all_In l : forall c st,
  In st (states (add_all c l)) ->
  In st (states c) \/ exists x, In x l /\ st = set_e_col x (index c).
Proof.
  unfold add_all. induction l as [|x l IH]; intros c st H; simpl in H.
  - now left.
  - apply IH in H. destruct H as [H | [y [Hy Hst]]].
    + destruct (Column_add_states c x) as [E | [_ E]]; rewrite E in H.
      * now left.
      * apply in_app_or in H. destruct H as [H | [H | []]]; [now left|].
        right. exists x. split; [now left | now symmetry].
    + right. exists y. split; [now right|]. now rewrite Column_add_index in Hst.
Qed.

Lemma add_all_has l : forall c x,
  In x l -> In (State_t x) (map State_t (states (add_all c l))).
Proof.
  unfold add_all. induction l as [|y l IH]; intros c x Hin; [destruct Hin|].
  simpl. destruct Hin as [-> | Hin].
  - pose proof (Column_add_has c x) as H.
    destruct (add_all_ext l (Column_add c x)) as (_ & _ & ex & Hex).
    unfold add_all in Hex. rewrite Hex, map_app. apply in_or_app. now left.
  - now apply IH.
Qed.

Lemma add_all_NoDup l : forall c,
  NoDup (map State_t (states c)) ->
  NoDup (map State_t (states (add_all c l))).
Proof.
  unfold add_all. induction l as [|x l IH]; intros c H; simpl; [exact H|].
  apply IH. destruct (Column_add_states c x) as [E | [Hn E]]; rewrite E.
  - exact H.
  - rewrite map_app. simpl. apply NoDup_app; [exact H | | ].
    + repeat constructor. intros [].
    + intros a Ha [Hb | []]. subst a. now apply Hn.
Qed.

Lemma add_all_app c l1 l2 : add_all c (l1 ++ l2) = add_all (add_all c l1) l2.
Proof. unfold add_all. apply fold_left_app. Qed.

Lemma upd_col_fun_eq ch i f f' :
  (forall c, f c = f' c) -> upd_col ch i f = upd_col ch i f'.
Proof.
  intros H. revert i. induction ch as [|c ch IH]; intros i; simpl; auto.
  destruct i; [now rewrite H | now rewrite IH].
Qed.

(** *** The three cases of the body of [fill_chart] *)

Lemma predict_add_all g eps c sym st alts :
  lookup g sym = Some alts ->
  predict g eps c sym st =
  add_all c (map (fun alt => create_state sym alt 0 (index c)) alts
             ++ (if sym_in sym eps then [advance st] else [])).
Proof.
  intros Hl. unfold predict. rewrite Hl. rewrite add_all_app.
  assert (H : forall l c0, index c0 = index c ->
             fold_left (fun c' alt => Column_add c' (create_state sym alt 0 (index c')))
                       l c0
             = add_all c0 (map (fun alt => create_state sym alt 0 (index c)) l)).
  { induction l as [|a l IH]; intros c0 Hi; simpl; [reflexivity|].
    rewrite Hi. unfold add_all in *. simpl. apply IH.
    now rewrite Column_add_index. }
  rewrite (H alts c eq_refl).
  destruct (sym_in sym eps); reflexivity.
Qed.

Lemma fill_step_complete g eps ch i st :
  finished st = true ->
  fill_step g eps ch i st =
  upd_col ch i (fun c => add_all c
     (map advance (filter (at_dot_is (name st)) (col_states ch (s_col st))))).
Proof.
  intros Hf. unfold fill_step, complete, earley_complete. rewrite Hf.
  apply upd_col_fun_eq. unfold add_all.
  generalize (filter (at_dot_is (name st)) (col_states ch (s_col st))).
  induction l as [|a l IH]; intros c; simpl; auto.
Qed.

Lemma fill_step_predict g eps ch i st sym alts :
  finished st = false -> at_dot st = Some sym -> lookup g sym = Some alts ->
  fill_step g eps ch i st =
  upd_col ch i (fun c => add_all c
     (map (fun alt => create_state sym alt 0 (index c)) alts
      ++ (if sym_in sym eps then [advance st] else []))).
Proof.
  intros Hf Hd Hl. unfold fill_step. rewrite Hf, Hd.
  unfold in_grammar. rewrite Hl.
  apply upd_col_fun_eq. intros c. now apply predict_add_all.
Qed.

Lemma fill_step_scan g eps ch i st sym :
  finished st = false -> at_dot st = Some sym -> lookup g sym = None ->
  fill_step g eps ch i st =
  if List.length ch <=? i + 1 then ch
  else upd_col ch (i + 1)
         (fun c => add_all c (if match letter c with
                                 | Some l => String.eqb sym l
                                 | None => false
                                 end
                              then [advance st] else [])).
Proof.
  intros Hf Hd Hl. unfold fill_step. rewrite Hf, Hd.
  unfold in_grammar. rewrite Hl.
  destruct (List.length ch <=? i + 1); [reflexivity|].
  apply upd_col_fun_eq. intros c. unfold scan.
  destruct (letter c) as [l|]; [|reflexivity].
  destruct (String.eqb sym l); reflexivity.
Qed.

Lemma finished_false_at_dot st :
  finished st = false -> exists sym, at_dot st = Some sym.
Proof.
  unfold finished, at_dot. intros H. apply Nat.leb_gt in H.
  destruct (nth_error (expr st) (dot st)) eqn:E; eauto.
  apply nth_error_None in E. lia.
Qed.

Lemma at_dot_Some_lt st sym : at_dot st = Some sym -> dot st < List.length (expr st).
Proof. unfold at_dot. intros H. apply nth_error_Some. congruence. Qed.

(** Every turn of the loop only grows the chart. *)
Lemma fill_step_ext g eps ch i st : chart_ext ch (fill_step g eps ch i st).
Proof.
  destruct (finished st) eqn:Hf.
  - rewrite fill_step_complete by exact Hf. apply upd_col_ext.
    intros c. apply add_all_ext.
  - destruct (finished_false_at_dot _ Hf) as [sym Hd].
    destruct (lookup g sym) as [alts|] eqn:Hl.
    + rewrite (fill_step_predict g eps ch i st sym alts Hf Hd Hl).
      apply upd_col_ext. intros c. apply add_all_ext.
    + rewrite (fill_step_scan g eps ch i st sym Hf Hd Hl).
      destruct (List.length ch <=? i + 1); [apply chart_ext_refl|].
      apply upd_col_ext. intros c. apply add_all_ext.
Qed.

(** Columns before [i] are not touched when column [i] is processed. *)
Lemma fill_step_before g eps ch i st j :
  j < i -> nth_error (fill_step g eps ch i st) j = nth_error ch j.
Proof.
  intros Hj.
  destruct (finished st) eqn:Hf.
  - rewrite fill_step_complete by exact Hf. apply upd_col_nth_other. lia.
  - destruct (finished_false_at_dot _ Hf) as [sym Hd].
    destruct (lookup g sym) as [alts|] eqn:Hl.
    + rewrite (fill_step_predict g eps ch i st sym alts Hf Hd Hl).
      apply upd_col_nth_other. lia.
    + rewrite (fill_step_scan g eps ch i st sym Hf Hd Hl).
      destruct (List.length ch <=? i + 1); [reflexivity|].
      apply upd_col_nth_other. lia.
Qed.


(** ** Well-formed charts: [valid_chart] is an invariant of [fill_chart] *)

Lemma upd_add_all_valid g ch t (its : Column -> list State) :
  valid_chart g ch ->
  (forall c x, nth_error ch t = Some c -> In x (its c) ->
               valid_item g t (set_e_col x t)) ->
  valid_chart g (upd_col ch t (fun c => add_all c (its c))).
Proof.
  intros (V1 & V2 & V3) Hits.
  destruct (nth_error ch t) as [c|] eqn:Ec.
  2:{ rewrite upd_col_none by exact Ec. exact (conj V1 (conj V2 V3)). }
  split; [|split].
  - intros i c' Hn. destruct (Nat.eq_dec t i) as [<-|Hne].
    + rewrite (upd_col_nth_same _ _ _ _ Ec) in Hn. inversion Hn; subst.
      rewrite add_all_index. auto.
    + rewrite upd_col_nth_other in Hn by exact Hne. auto.
  - intros i st Hin. destruct (Nat.eq_dec t i) as [<-|Hne].
    + rewrite (col_states_upd_same _ _ _ _ Ec) in Hin.
      apply add_all_In in Hin. destruct Hin as [Hin | [x [Hx Hst]]].
      * apply V2. unfold col_states. now rewrite Ec.
      * subst st. rewrite (V1 _ _ Ec). eapply Hits; eauto.
    + rewrite col_states_upd_other in Hin by exact Hne. auto.
  - intros i. destruct (Nat.eq_dec t i) as [<-|Hne].
    + rewrite (col_states_upd_same _ _ _ _ Ec). apply add_all_NoDup.
      specialize (V3 t). unfold col_states in V3. now rewrite Ec in V3.
    + rewrite col_states_upd_other by exact Hne. auto.
Qed.

Lemma at_dot_is_Some nm st : at_dot_is nm st = true <-> at_dot st = Some nm.
Proof.
  unfold at_dot_is. destruct (at_dot st) as [x|]; split; intros H; try discriminate.
  - apply String.eqb_eq in H. now subst.
  - inversion H. apply String.eqb_refl.
Qed.

Lemma valid_item_advance g i j st sym :
  valid_item g i st -> at_dot st = Some sym -> i <= j ->
  valid_item g j (set_e_col (advance st) j).
Proof.
  intros (Hp & Hd & Hs & He & H0) Hat Hij.
  apply at_dot_Some_lt in Hat.
  unfold valid_item; simpl. repeat split; auto; lia.
Qed.

Lemma fill_step_valid g eps ch i st :
  valid_chart g ch -> In st (col_states ch i) ->
  valid_chart g (fill_step g eps ch i st).
Proof.
  intros V Hin. pose proof V as (V1 & V2 & V3).
  pose proof (V2 _ _ Hin) as Vst.
  destruct (finished st) eqn:Hf.
  - rewrite fill_step_complete by exact Hf. apply upd_add_all_valid; [exact V|].
    intros c x Hc Hx. apply in_map_iff in Hx. destruct Hx as [p [<- Hp]].
    apply filter_In in Hp. destruct Hp as [Hp Hat].
    apply at_dot_is_Some in Hat.
    eapply valid_item_advance; eauto.
    destruct Vst as (_ & _ & Hs & _). exact Hs.
  - destruct (finished_false_at_dot _ Hf) as [sym Hd].
    destruct (lookup g sym) as [alts|] eqn:Hl.
    + rewrite (fill_step_predict g eps ch i st sym alts Hf Hd Hl).
      apply upd_add_all_valid; [exact V|].
      intros c x Hc Hx. apply in_app_or in Hx. destruct Hx as [Hx | Hx].
      * apply in_map_iff in Hx. destruct Hx as [alt [<- Halt]].
        rewrite (V1 _ _ Hc).
        unfold valid_item; simpl. repeat split; eauto; lia.
      * destruct (sym_in sym eps); [|destruct Hx].
        destruct Hx as [<- | []]. eapply valid_item_advance; eauto.
    + rewrite (fill_step_scan g eps ch i st sym Hf Hd Hl).
      destruct (List.length ch <=? i + 1); [exact V|].
      apply upd_add_all_valid; [exact V|].
      intros c x Hc Hx.
      destruct (match letter c with Some l => String.eqb sym l | None => false end);
        [|destruct Hx].
      destruct Hx as [<- | []]. eapply valid_item_advance; eauto. lia.
Qed.

Lemma columns_from_nth toks : forall i0 i c,
  nth_error (columns_from i0 toks) i = Some c ->
  index c = i0 + i /\ states c = [] /\ nth_error toks i = Some (letter c).
Proof.
  induction toks as [|t toks IH]; intros i0 i c H; simpl in H.
  - destruct i; discriminate.
  - destruct i; simpl in H.
    + inversion H; subst. simpl. repeat split; auto; lia.
    + apply IH in H. destruct H as (H1 & H2 & H3). repeat split; auto; lia.
Qed.

Lemma columns_from_length toks : forall i0,
  List.length (columns_from i0 toks) = List.length toks.
Proof. induction toks; intros; simpl; auto. Qed.

Lemma columns_from_valid g toks : valid_chart g (columns_from 0 toks).
Proof.
  split; [|split].
  - intros i c H. apply columns_from_nth in H. simpl in H. tauto.
  - intros i st H. unfold col_states in H.
    destruct (nth_error _ i) as [c|] eqn:E; [|destruct H].
    apply columns_from_nth in E. destruct E as (_ & E & _).
    rewrite E in H. destruct H.
  - intros i. unfold col_states.
    destruct (nth_error _ i) as [c|] eqn:E; [|constructor].
    apply columns_from_nth in E. destruct E as (_ & E & _).
    rewrite E. constructor.
Qed.

Lemma seed_chart_add_all text start alts :
  seed_chart text start alts =
  upd_col (columns_from 0 (None :: map Some (tokens_of text))) 0
          (fun c => add_all c (map (fun alt => create_state start alt 0 0) alts)).
Proof.
  unfold seed_chart. apply upd_col_fun_eq. intros c. unfold add_all.
  revert c. induction alts as [|a alts IH]; intros c; simpl; auto.
Qed.

Lemma seed_chart_valid g text start alts :
  lookup g start = Some alts -> valid_chart g (seed_chart text start alts).
Proof.
  intros Hl. rewrite seed_chart_add_all. apply upd_add_all_valid.
  - apply columns_from_valid.
  - intros c x Hc Hx. apply in_map_iff in Hx. destruct Hx as [alt [<- Halt]].
    unfold valid_item; simpl. repeat split; eauto; lia.
Qed.

(** ** Termination of [fill_chart] *)

Lemma flat_map_const_length {A B : Type} (f : A -> list B) (n : nat) (l : list A) :
  (forall a, In a l -> List.length (f a) = n) ->
  List.length (flat_map f l) = List.length l * n.
Proof.
  induction l as [|a l IH]; intros H; simpl; [reflexivity|].
  rewrite length_app, IH, H; simpl; auto.
  intros; apply H; now right.
Qed.

Lemma alt_universe_length i k a :
  List.length (alt_universe i k a) = S (List.length a) * S i.
Proof.
  unfold alt_universe. rewrite (flat_map_const_length _ (S i)).
  - now rewrite length_seq.
  - intros d _. now rewrite length_map, length_seq.
Qed.

Lemma alts_universe_length i k alts :
  List.length (flat_map (alt_universe i k) alts)
  = S i * list_sum (map (fun a => S (List.length a)) alts).
Proof.
  induction alts as [|a alts IHa].
  - simpl. lia.
  - cbn [flat_map map list_sum].
    rewrite length_app, alt_universe_length, IHa.
    unfold list_sum; simpl fold_right; fold (list_sum (map (fun a0 : list symbol => S (List.length a0)) alts)). nia.
Qed.

Lemma item_universe_length g i :
  List.length (item_universe g i) = S i * grammar_size g.
Proof.
  unfold item_universe, grammar_size.
  induction g as [|[k alts] g IH].
  - simpl. lia.
  - cbn [flat_map map list_sum fst snd].
    rewrite length_app, IH, alts_universe_length.
    unfold list_sum; simpl fold_right. nia.
Qed.

Lemma valid_item_in_universe g i st :
  valid_item g i st -> In (State_t st) (item_universe g i).
Proof.
  intros ((alts & Hl & Ha) & Hd & Hs & _).
  unfold item_universe. apply in_flat_map.
  exists (name st, alts). split; [now apply lookup_In|]. simpl.
  apply in_flat_map. exists (expr st). split; [exact Ha|].
  unfold alt_universe. apply in_flat_map. exists (dot st). split.
  - apply in_seq. lia.
  - apply in_map_iff. exists (s_col st). split; [reflexivity|].
    apply in_seq. lia.
Qed.

Lemma valid_chart_column_bound g ch i :
  valid_chart g ch -> List.length (col_states ch i) <= S i * grammar_size g.
Proof.
  intros (V1 & V2 & V3).
  rewrite <- item_universe_length, <- (length_map State_t).
  apply NoDup_incl_length; [apply V3|].
  intros k Hk. apply in_map_iff in Hk. destruct Hk as [st [<- Hin]].
  apply valid_item_in_universe. auto.
Qed.

Lemma fill_column_terminates g eps i :
  forall fuel ch j,
    valid_chart g ch ->
    j <= List.length (col_states ch i) ->
    S i * grammar_size g < fuel + j ->
    exists ch', fill_column g eps fuel ch i j = Some ch'.
Proof.
  induction fuel as [|fuel IH]; intros ch j V Hj Hf.
  - pose proof (valid_chart_column_bound g ch i V). lia.
  - simpl. destruct (nth_error (col_states ch i) j) as [st|] eqn:E; [|eauto].
    assert (Hin : In st (col_states ch i)) by (eapply nth_error_In; eauto).
    apply IH.
    + now apply fill_step_valid.
    + assert (Hlt : j < List.length (col_states ch i))
        by (apply nth_error_Some; congruence).
      destruct (chart_ext_states ch (fill_step g eps ch i st) i
                  (fill_step_ext g eps ch i st)) as [ex Hex].
      rewrite Hex, length_app. lia.
    + lia.
Qed.

(** ** Invariants of [fill_chart]

    [P] is an invariant of the chart that every turn of the loop
    preserves; [Q ch i st] is what processing the item [st] of column
    [i] establishes, and it survives the growth of the chart.  At the
    end, [P] holds and [Q] holds of every item of every column. *)
Section FillInvariant.

Variable g : grammar.
Variable eps : list symbol.
Variable P : chart -> Prop.
Variable Q : chart -> nat -> State -> Prop.

Hypothesis P_valid : forall ch, P ch -> valid_chart g ch.
Hypothesis P_step : forall ch i st,
  P ch -> In st (col_states ch i) -> P (fill_step g eps ch i st).
Hypothesis Q_step : forall ch i st,
  P ch -> In st (col_states ch i) -> Q (fill_step g eps ch i st) i st.
Hypothesis Q_mono : forall ch ch' i st,
  Q ch i st -> chart_ext ch ch' -> Q ch' i st.

Lemma fill_column_inv i :
  forall fuel ch j,
    P ch ->
    j <= List.length (col_states ch i) ->
    S i * grammar_size g < fuel + j ->
    (forall k st, k < j -> nth_error (col_states ch i) k = Some st -> Q ch i st) ->
    exists ch',
      fill_column g eps fuel ch i j = Some ch' /\
      P ch' /\ chart_ext ch ch' /\
      (forall st, In st (col_states ch' i) -> Q ch' i st) /\
      (forall i', i' < i -> nth_error ch' i' = nth_error ch i').
Proof.
  induction fuel as [|fuel IH]; intros ch j HP Hj Hf HQ.
  - pose proof (valid_chart_column_bound g ch i (P_valid _ HP)). lia.
  - simpl. destruct (nth_error (col_states ch i) j) as [st|] eqn:E.
    + assert (Hin : In st (col_states ch i)) by (eapply nth_error_In; eauto).
      assert (Hlt : j < List.length (col_states ch i))
        by (apply nth_error_Some; congruence).
      pose proof (fill_step_ext g eps ch i st) as Hext.
      destruct (chart_ext_states ch _ i Hext) as [ex Hex].
      destruct (IH (fill_step g eps ch i st) (S j)) as (ch' & Hr & HP' & He & HQ' & Hb).
      * now apply P_step.
      * rewrite Hex, length_app. lia.
      * lia.
      * intros k st' Hk Hn.
        assert (Hn' : nth_error (col_states ch i) k = Some st').
        { rewrite Hex in Hn. rewrite nth_error_app1 in Hn by lia. exact Hn. }
        destruct (Nat.eq_dec k j) as [->|Hne].
        -- rewrite E in Hn'. inversion Hn'; subst. now apply Q_step.
        -- eapply Q_mono; [|exact Hext]. apply (HQ k); [lia | exact Hn'].
      * exists ch'. repeat split; auto.
        -- eapply chart_ext_trans; eauto.
        -- intros i' Hi'. rewrite Hb by exact Hi'. now apply fill_step_before.
    + exists ch. repeat split; auto using chart_ext_refl.
      intros st Hin. apply In_nth_error in Hin. destruct Hin as [k Hk].
      apply (HQ k); [|exact Hk].
      assert (k < List.length (col_states ch i)) by (apply nth_error_Some; congruence).
      apply nth_error_None in E. lia.
Qed.

Lemma col_states_eq_nth ch ch' i :
  nth_error ch' i = nth_error ch i -> col_states ch' i = col_states ch i.
Proof. unfold col_states. now intros ->. Qed.

Lemma fill_columns_inv :
  forall n ch i,
    P ch ->
    (forall i' st, i' < i -> In st (col_states ch i') -> Q ch i' st) ->
    exists ch',
      fill_columns g eps n ch i = Some ch' /\
      P ch' /\ chart_ext ch ch' /\
      (forall i' st, i' < i + n -> In st (col_states ch' i') -> Q ch' i' st).
Proof.
  induction n as [|n IH]; intros ch i HP HQ.
  - exists ch. repeat split; auto using chart_ext_refl.
    intros i' st Hi'. apply HQ. lia.
  - cbn [fill_columns].
    destruct (fill_column_inv i (column_fuel g i) ch 0 HP) as (ch1 & Hr & HP1 & He1 & HQ1 & Hb1).
    + lia.
    + unfold column_fuel. lia.
    + intros k st Hk. lia.
    + rewrite Hr.
      destruct (IH ch1 (S i) HP1) as (ch' & Hr' & HP' & He' & HQ').
      * intros i' st Hi' Hin. destruct (Nat.eq_dec i' i) as [->|Hne].
        -- now apply HQ1.
        -- eapply Q_mono; [|exact He1]. apply HQ; [lia|].
           rewrite <- (col_states_eq_nth ch ch1 i'); [exact Hin|].
           apply Hb1. lia.
      * exists ch'. repeat split; auto.
        -- eapply chart_ext_trans; eauto.
        -- intros i' st Hi'. apply HQ'. lia.
Qed.

Lemma fill_chart_inv ch :
  P ch ->
  fill_chart_opt g eps ch = Some (fill_chart g eps ch) /\
  P (fill_chart g eps ch) /\ chart_ext ch (fill_chart g eps ch) /\
  (forall i st, In st (col_states (fill_chart g eps ch) i) ->
                Q (fill_chart g eps ch) i st).
Proof.
  intros HP. unfold fill_chart, fill_chart_opt.
  destruct (fill_columns_inv (List.length ch) ch 0 HP) as (ch' & Hr & HP' & He & HQ).
  - intros i' st Hi'. lia.
  - rewrite Hr. repeat split; auto.
    intros i st Hin. apply HQ; [|exact Hin].
    destruct (nth_error ch' i) as [c|] eqn:E.
    + assert (i < List.length ch') by (apply nth_error_Some; congruence).
      rewrite (chart_ext_length _ _ He). simpl. lia.
    + unfold col_states in Hin. rewrite E in Hin. destruct Hin.
Qed.

End FillInvariant.

(** [fill_chart] always terminates within its step budget and returns a
    well-formed chart that extends the seeded one. *)
Lemma fill_chart_terminates g eps ch :
  valid_chart g ch ->
  fill_chart_opt g eps ch = Some (fill_chart g eps ch) /\
  valid_chart g (fill_chart g eps ch) /\
  chart_ext ch (fill_chart g eps ch).
Proof.
  intros V.
  destruct (fill_chart_inv g eps (valid_chart g) (fun _ _ _ => True)) with (ch := ch)
    as (H1 & H2 & H3 & _); auto.
  intros. now apply fill_step_valid.
Qed.


(** ** Correctness of [nullable] *)

Lemma no_terminals_spec a b :
  no_terminals a = Ok b -> (b = true <-> all_nt a).
Proof.
  revert b. induction a as [|t a IH]; intros b H; simpl in H.
  - inversion H. split; auto. intros _ t [].
  - destruct (is_nt t) as [bt|] eqn:Et; simpl in H; [|discriminate].
    destruct (no_terminals a) as [ba|] eqn:Ea; simpl in H; [|discriminate].
    inversion H; subst. specialize (IH ba eq_refl). split.
    + intros Hb. apply andb_prop in Hb. destruct Hb as [-> Hba].
      intros t' [<- | Hin]; [exact Et | now apply IH].
    + intros Hall. apply andb_true_intro. split.
      * specialize (Hall t (or_introl eq_refl)). congruence.
      * apply IH. intros t' Hin. apply Hall. now right.
Qed.

Lemma keep_nt_alts_spec alts : forall alts',
  keep_nt_alts alts = Ok alts' ->
  (forall a, In a alts' <-> In a alts /\ all_nt a) /\
  List.length alts' <= List.length alts.
Proof.
  induction alts as [|a0 alts IH]; intros alts' H; simpl in H.
  - inversion H. split; [|auto]. intros a; split; [intros [] | intros [[] _]].
  - destruct (no_terminals a0) as [b|] eqn:Eb; simpl in H; [|discriminate].
    destruct (keep_nt_alts alts) as [r|] eqn:Er; simpl in H; [|discriminate].
    inversion H; subst. destruct (IH r eq_refl) as [IH1 IH2].
    pose proof (no_terminals_spec _ _ Eb) as Hb.
    destruct b; simpl.
    + split; [|lia]. intros a; split.
      * intros [<- | Hin]; [split; [now left | now apply Hb] |].
        apply IH1 in Hin. destruct Hin; split; auto.
      * intros [[<- | Hin] Hall]; [now left | right; apply IH1; auto].
    + split; [|lia]. intros a; split.
      * intros Hin. apply IH1 in Hin. destruct Hin; split; auto.
      * intros [[<- | Hin] Hall]; [|apply IH1; auto].
        apply Hb in Hall. discriminate.
Qed.

Lemma rem_terminals_spec g : forall g0,
  rem_terminals g = Ok g0 ->
  (forall k alts' a, In (k, alts') g0 -> In a alts' ->
      exists alts, In (k, alts) g /\ In a alts /\ all_nt a) /\
  (forall k alts a, In (k, alts) g -> In a alts -> all_nt a ->
      exists alts', In (k, alts') g0 /\ In a alts') /\
  count_alts g0 <= count_alts g.
Proof.
  induction g as [|[k0 alts0] g IH]; intros g0 H; simpl in H.
  - inversion H. repeat split; auto; intros; contradiction.
  - destruct (keep_nt_alts alts0) as [alts0'|] eqn:Ek; simpl in H; [|discriminate].
    destruct (rem_terminals g) as [r|] eqn:Er; simpl in H; [|discriminate].
    destruct (IH r eq_refl) as (IH1 & IH2 & IH3).
    destruct (keep_nt_alts_spec _ _ Ek) as [K1 K2].
    assert (Hg0 : forall k alts' a, In (k, alts') g0 -> In a alts' ->
              (k = k0 /\ In a alts0') \/ In (k, alts') r).
    { intros k alts' a Hin Ha. inversion H; subst.
      destruct alts0'; [now right|].
      destruct Hin as [Heq | Hin]; [left | now right].
      inversion Heq; subst. auto. }
    split; [|split].
    + intros k alts' a Hin Ha.
      destruct (Hg0 _ _ _ Hin Ha) as [[-> Ha0] | Hr].
      * apply K1 in Ha0. exists alts0. destruct Ha0. repeat split; auto. now left.
      * destruct (IH1 _ _ _ Hr Ha) as (alts & H1 & H2 & H3).
        exists alts. repeat split; auto. now right.
    + intros k alts a [Heq | Hin] Ha Hall.
      * inversion Heq; subst. assert (Ha' : In a alts0') by (apply K1; auto).
        exists alts0'. split; [|exact Ha'].
        inversion H; subst. destruct alts0'; [destruct Ha' | now left].
      * destruct (IH2 _ _ _ Hin Ha Hall) as (alts' & H1 & H2).
        exists alts'. split; [|exact H2].
        inversion H; subst. destruct alts0'; [exact H1 | now right].
    + inversion H; subst. unfold count_alts in *.
      destruct alts0'; simpl in *; lia.
Qed.

Lemma drop_syms_cons nxt P a :
  filter (fun t => negb (String.eqb t nxt)) (drop_syms P a)
  = drop_syms (nxt :: P) a.
Proof.
  unfold drop_syms. induction a as [|t a IH]; simpl; [reflexivity|].
  destruct (sym_in t P) eqn:E1; simpl.
  - rewrite orb_true_r. simpl. exact IH.
  - destruct (String.eqb t nxt) eqn:E2; simpl; rewrite ?IH; reflexivity.
Qed.

Lemma drop_syms_nil_In P a : drop_syms P a = [] -> forall t, In t a -> In t P.
Proof.
  unfold drop_syms. intros H t Hin.
  destruct (sym_in t P) eqn:E; [now apply sym_in_In|].
  assert (Hf : In t (filter (fun t => negb (sym_in t P)) a)).
  { apply filter_In. split; auto. now rewrite E. }
  rewrite H in Hf. destruct Hf.
Qed.

Lemma drop_syms_all_In P a : (forall t, In t a -> In t P) -> drop_syms P a = [].
Proof.
  unfold drop_syms. induction a as [|t a IH]; intros H; simpl; [reflexivity|].
  rewrite (proj2 (sym_in_In t P)) by (apply H; now left). simpl.
  apply IH. intros; apply H; now right.
Qed.

Lemma drop_syms_empty a : drop_syms [] a = a.
Proof.
  unfold drop_syms. induction a as [|t a IH]; simpl; [reflexivity|].
  f_equal. exact IH.
Qed.

(** The inner loop over the alternatives of one key. *)
Lemma strip_alts_spec nxt : forall alts acc g_alts emptied,
  strip_alts nxt alts acc = (g_alts, emptied) ->
  (forall a', In a' g_alts ->
      In a' acc \/
      (a' <> [] /\ exists a, In a alts /\
                             a' = filter (fun t => negb (String.eqb t nxt)) a)) /\
  (emptied = true ->
      (exists a, In a alts /\ filter (fun t => negb (String.eqb t nxt)) a = []) /\
      List.length g_alts < List.length acc + List.length alts) /\
  (emptied = false ->
      (forall a, In a alts ->
                 In (filter (fun t => negb (String.eqb t nxt)) a) g_alts) /\
      List.length g_alts = List.length acc + List.length alts) /\
  (forall a', In a' acc -> In a' g_alts).
Proof.
  induction alts as [|a alts IH]; intros acc g_alts emptied H; simpl in H.
  - inversion H; subst. split; [|split; [|split]]; auto.
    + discriminate.
    + intros _. split; [intros a [] | simpl; lia].
  - destruct (filter (fun t => negb (String.eqb t nxt)) a) as [|x l] eqn:E.
    + inversion H; subst. split; [|split; [|split]]; auto.
      * intros _. split; [|simpl; lia].
        exists a. split; [now left | exact E].
      * discriminate.
    + destruct (IH _ _ _ H) as (H1 & H2 & H3 & H4).
      split; [|split; [|split]].
      * intros a' Hin. destruct (H1 a' Hin) as [Hacc | (Hne & a0 & Ha0 & Heq)].
        -- apply in_app_or in Hacc. destruct Hacc as [Hacc | [<- | []]]; [now left|].
           right. split; [discriminate|]. exists a. split; [now left | now symmetry].
        -- right. split; [exact Hne|]. exists a0. split; [now right | exact Heq].
      * intros He. destruct (H2 He) as [(a0 & Ha0 & Hf) Hlen]. split.
        -- exists a0. split; [now right | exact Hf].
        -- rewrite length_app in Hlen. simpl in *. lia.
      * intros He. destruct (H3 He) as [Hall Hlen]. split.
        -- intros a0 [<- | Hin]; [|now apply Hall].
           rewrite E. apply H4. apply in_or_app. right. now left.
        -- rewrite length_app in Hlen. simpl in *. lia.
      * intros a' Hin. apply H4. apply in_or_app. now left.
Qed.

Lemma set_add_In k N x : In x (set_add k N) <-> x = k \/ In x N.
Proof.
  unfold set_add. destruct (sym_in k N) eqn:E.
  - apply sym_in_In in E. split; [now right|]. intros [-> | H]; auto.
  - rewrite in_app_iff. simpl. split; [intros [H | [H | []]]; auto | intros [-> | H]; auto].
Qed.

(** One pass over [g_cur]. *)
Lemma nullable_pass_spec nxt : forall g_cur N W g_nxt N' W',
  nullable_pass nxt g_cur N W = (g_nxt, N', W') ->
  exists added,
    W' = W ++ added /\
    (forall x, In x N' <-> In x N \/ In x added) /\
    (forall k, In k added ->
        exists alts_c a', In (k, alts_c) g_cur /\ In a' alts_c /\
                          filter (fun t => negb (String.eqb t nxt)) a' = []) /\
    (forall k alts_c a', In (k, alts_c) g_cur -> In a' alts_c ->
        In k added \/
        exists g_alts, In (k, g_alts) g_nxt /\
          In (filter (fun t => negb (String.eqb t nxt)) a') g_alts) /\
    (forall k g_alts a'', In (k, g_alts) g_nxt -> In a'' g_alts ->
        a'' <> [] /\
        exists alts_c a', In (k, alts_c) g_cur /\ In a' alts_c /\
                          a'' = filter (fun t => negb (String.eqb t nxt)) a') /\
    List.length added + count_alts g_nxt <= count_alts g_cur.
Proof.
  induction g_cur as [|[k alts] g_cur IH]; intros N W g_nxt N' W' H; simpl in H.
  - inversion H; subst. exists []. rewrite app_nil_r.
    split; [reflexivity|]. split.
    { intros x. simpl. split; [intros Hx; now left | intros [Hx | []]; exact Hx]. }
    split; [intros k []|]. split; [intros k ac a' []|].
    split; [intros k ga a'' []|]. simpl. lia.
  - destruct (strip_alts nxt alts []) as [g_alts emptied] eqn:Es.
    destruct (nullable_pass nxt g_cur
                (if emptied then set_add k N else N)
                (if emptied then W ++ [k] else W)) as [[g_nxt0 N0] W0] eqn:Ep.
    inversion H; subst. clear H.
    destruct (IH _ _ _ _ _ Ep) as (added & HW & HN & Hadd & Hcur & Hnxt & Hlen).
    destruct (strip_alts_spec nxt _ _ _ _ Es) as (S1 & S2 & S3 & _).
    destruct emptied.
    + destruct (S2 eq_refl) as [(a0 & Ha0 & Hf0) Hl0].
      exists (k :: added). split; [|split; [|split; [|split; [|split]]]].
      * rewrite HW. rewrite <- app_assoc. reflexivity.
      * intros x. rewrite HN, set_add_In. simpl.
        split; [intros [[Hx | Hx] | Hx] | intros [Hx | [Hx | Hx]]]; auto.
      * intros k' [<- | Hin].
        -- exists alts, a0. repeat split; auto. now left.
        -- destruct (Hadd _ Hin) as (ac & a' & H1 & H2 & H3).
           exists ac, a'. repeat split; auto. now right.
      * intros k' ac a' [Heq | Hin] Ha'.
        -- inversion Heq; subst. left. now left.
        -- destruct (Hcur _ _ _ Hin Ha') as [Ha | (ga & H1 & H2)].
           ++ left. now right.
           ++ right. exists ga. split; [|exact H2].
              destruct g_alts; [exact H1 | now right].
      * intros k' ga a'' Hin Ha''.
        assert (Hcase : (k' = k /\ In a'' g_alts) \/ In (k', ga) g_nxt0).
        { destruct g_alts; [now right|]. destruct Hin as [Heq | Hin]; [|now right].
          inversion Heq; subst. now left. }
        destruct Hcase as [[-> Hga] | Hin0].
        -- destruct (S1 _ Hga) as [[] | (Hne & a1 & Ha1 & Heq)].
           split; [exact Hne|]. exists alts, a1. repeat split; auto. now left.
        -- destruct (Hnxt _ _ _ Hin0 Ha'') as (Hne & ac & a' & H1 & H2 & H3).
           split; [exact Hne|]. exists ac, a'. repeat split; auto. now right.
      * unfold count_alts in *. simpl in *.
        destruct g_alts; simpl in *; lia.
    + destruct (S3 eq_refl) as [Hall Hl0].
      exists added. split; [|split; [|split; [|split; [|split]]]].
      * exact HW.
      * exact HN.
      * intros k' Hin. destruct (Hadd _ Hin) as (ac & a' & H1 & H2 & H3).
        exists ac, a'. repeat split; auto. now right.
      * intros k' ac a' [Heq | Hin] Ha'.
        -- inversion Heq; subst.
           right. exists g_alts. split; [|now apply Hall].
           destruct g_alts as [|x l]; [|now left].
           destruct ac; [destruct Ha' | simpl in Hl0; discriminate].
        -- destruct (Hcur _ _ _ Hin Ha') as [Ha | (ga & H1 & H2)]; [now left|].
           right. exists ga. split; [|exact H2].
           destruct g_alts; [exact H1 | now right].
      * intros k' ga a'' Hin Ha''.
        assert (Hcase : (k' = k /\ In a'' g_alts) \/ In (k', ga) g_nxt0).
        { destruct g_alts; [now right|]. destruct Hin as [Heq | Hin]; [|now right].
          inversion Heq; subst. now left. }
        destruct Hcase as [[-> Hga] | Hin0].
        -- destruct (S1 _ Hga) as [[] | (Hne & a1 & Ha1 & Heq)].
           split; [exact Hne|]. exists alts, a1. repeat split; auto. now left.
        -- destruct (Hnxt _ _ _ Hin0 Ha'') as (Hne & ac & a' & H1 & H2 & H3).
           split; [exact Hne|]. exists ac, a'. repeat split; auto. now right.
      * unfold count_alts in *. simpl in *.
        destruct g_alts; simpl in *; lia.
Qed.

Lemma Nullable_key g k : Nullable g k -> In k (keys g).
Proof.
  intros H. inversion H as [k' alts alt Hl _ _]; subst.
  apply lookup_In in Hl. unfold keys. apply in_map_iff.
  exists (k, alts). auto.
Qed.

Lemma nullable_pass_inv g P g_cur N W nxt g_nxt N' W' :
  NoDup (keys g) ->
  nullable_inv g P g_cur N (nxt :: W) ->
  nullable_pass nxt g_cur N W = (g_nxt, N', W') ->
  nullable_inv g (nxt :: P) g_nxt N' W' /\
  List.length W' + count_alts g_nxt <= List.length W + count_alts g_cur.
Proof.
  intros Hnd (I1 & I2a & I2b & I2c & I3 & I4 & I5) Hp.
  destruct (nullable_pass_spec nxt _ _ _ _ _ _ Hp)
    as (added & HW & HN & Hadd & Hcur & Hnxt & Hlen).
  assert (Hnxt_N : In nxt N) by (apply I2b; now left).
  split.
  2:{ rewrite HW, length_app. lia. }
  unfold nullable_inv. split; [|split; [|split; [|split; [|split; [|split]]]]].
  - intros k Hk. apply HN in Hk. destruct Hk as [Hk | Hk]; [now apply I1|].
    destruct (Hadd _ Hk) as (ac & a' & H1 & H2 & H3).
    destruct (I4 _ _ _ H1 H2) as (alts & a & Hg & Ha & Heq).
    subst a'. rewrite drop_syms_cons in H3.
    apply Nullable_rule with (alts := alts) (alt := a).
    + now apply In_lookup.
    + exact Ha.
    + intros t Ht. apply I1.
      destruct (drop_syms_nil_In _ _ H3 t Ht) as [<- | HtP]; auto.
  - intros k [<- | Hk]; apply HN; left; auto.
  - intros k Hk. rewrite HW in Hk. apply in_app_or in Hk. apply HN.
    destruct Hk as [Hk | Hk]; [left; apply I2b; now right | now right].
  - intros k Hk. apply HN in Hk. destruct Hk as [Hk | Hk].
    + destruct (I2c _ Hk) as [HkP | [<- | HkW]].
      * left. now right.
      * left. now left.
      * right. rewrite HW. apply in_or_app. now left.
    + right. rewrite HW. apply in_or_app. now right.
  - intros k alts a Hg Ha Hall.
    destruct (I3 _ _ _ Hg Ha Hall) as [Hk | (ac & H1 & H2)].
    + left. apply HN. now left.
    + destruct (Hcur _ _ _ H1 H2) as [Hk | (ga & G1 & G2)].
      * left. apply HN. now right.
      * right. exists ga. split; [exact G1|]. now rewrite <- drop_syms_cons.
  - intros k ga a'' Hg Ha''.
    destruct (Hnxt _ _ _ Hg Ha'') as (_ & ac & a' & H1 & H2 & H3).
    destruct (I4 _ _ _ H1 H2) as (alts & a & G1 & G2 & G3).
    exists alts, a. repeat split; auto. subst. apply drop_syms_cons.
  - intros k ga a'' Hg Ha''.
    destruct (Hnxt _ _ _ Hg Ha'') as (Hne & _). now left.
Qed.

Lemma nullable_loop_inv g :
  NoDup (keys g) ->
  forall fuel P g_cur N W,
    nullable_inv g P g_cur N W ->
    List.length W + count_alts g_cur < fuel ->
    exists r P' g',
      nullable_loop fuel g_cur N W = Some r /\ nullable_inv g P' g' r [].
Proof.
  intros Hnd. induction fuel as [|fuel IH]; intros P g_cur N W Hinv Hf; [lia|].
  simpl. destruct W as [|nxt W].
  - exists N, P, g_cur. auto.
  - destruct (nullable_pass nxt g_cur N W) as [[g_nxt N'] W'] eqn:Ep.
    destruct (nullable_pass_inv _ _ _ _ _ _ _ _ _ Hnd Hinv Ep) as [Hinv' Hlen].
    apply (IH _ _ _ _ Hinv'). simpl in Hf. lia.
Qed.

Lemma direct_nullable_In g k :
  In k (direct_nullable g) <-> exists alts, In (k, alts) g /\ In [] alts.
Proof.
  unfold direct_nullable. rewrite in_map_iff. split.
  - intros [[k' alts] [Heq Hin]]. simpl in Heq. subst k'.
    apply filter_In in Hin. destruct Hin as [Hin Hb]. simpl in Hb.
    exists alts. split; [exact Hin|].
    unfold has_empty_alt, alt_in in Hb. apply existsb_exists in Hb.
    destruct Hb as [a [Ha Hab]]. apply alt_eqb_eq in Hab. now subst.
  - intros [alts [Hin He]]. exists (k, alts). split; [reflexivity|].
    apply filter_In. split; [exact Hin|]. simpl.
    unfold has_empty_alt, alt_in. apply existsb_exists.
    exists []. split; [exact He | now apply alt_eqb_eq].
Qed.

Lemma direct_nullable_length g : List.length (direct_nullable g) <= List.length g.
Proof.
  unfold direct_nullable. rewrite length_map. apply filter_length_le.
Qed.

Lemma nullable_initial_inv g g0 :
  NoDup (keys g) -> rem_terminals g = Ok g0 ->
  nullable_inv g [] g0 (direct_nullable g) (direct_nullable g).
Proof.
  intros Hnd Hr. destruct (rem_terminals_spec g g0 Hr) as (R1 & R2 & R3).
  unfold nullable_inv. split; [|split; [|split; [|split; [|split; [|split]]]]].
  - intros k Hk. apply direct_nullable_In in Hk. destruct Hk as [alts [Hg He]].
    apply Nullable_rule with (alts := alts) (alt := []).
    + now apply In_lookup.
    + exact He.
    + intros t [].
  - intros k [].
  - auto.
  - auto.
  - intros k alts a Hg Ha Hall. right.
    destruct (R2 _ _ _ Hg Ha Hall) as (alts' & H1 & H2).
    exists alts'. split; [exact H1|]. now rewrite drop_syms_empty.
  - intros k ac a' Hg Ha'.
    destruct (R1 _ _ _ Hg Ha') as (alts & H1 & H2 & H3).
    exists alts, a'. repeat split; auto. now rewrite drop_syms_empty.
  - intros k ac a' Hg Ha'. destruct a' as [|t a']; [|left; discriminate].
    right. destruct (R1 _ _ _ Hg Ha') as (alts & H1 & H2 & H3).
    apply direct_nullable_In. eauto.
Qed.

(** [nullable(g)] computes the nonterminals that derive the empty
    string, and its loop never exhausts its step budget. *)
Theorem nullable_correct (g : grammar) (eps : list symbol) :
  wf_grammar g -> nullable g = Ok eps ->
  forall k, In k eps <-> Nullable g k.
Proof.
  intros [Hnd Hnt] Hn. unfold nullable in Hn.
  destruct (rem_terminals g) as [g0|] eqn:Hr; cbn [bind] in Hn; [|discriminate].
  pose proof (nullable_initial_inv g g0 Hnd Hr) as Hinv.
  destruct (rem_terminals_spec g g0 Hr) as (_ & _ & R3).
  destruct (nullable_loop_inv g Hnd (nullable_fuel g) _ _ _ _ Hinv)
    as (r & P' & g' & Hl & (I1 & I2a & I2b & I2c & I3 & I4 & I5)).
  { unfold nullable_fuel. pose proof (direct_nullable_length g). lia. }
  rewrite Hl in Hn. inversion Hn; subst r. clear Hn.
  intros k. split; [apply I1|].
  induction 1 as [k alts a Hlk Ha Hsub IH].
  assert (Hall : all_nt a).
  { intros t Ht. apply Hnt. apply Nullable_key. auto. }
  destruct (I3 k alts a (lookup_In _ _ _ Hlk) Ha Hall) as [Hk | (ac & H1 & H2)];
    [exact Hk|].
  assert (Hd : drop_syms P' a = []).
  { apply drop_syms_all_In. intros t Ht.
    destruct (I2c t (IH t Ht)) as [HP | []]. exact HP. }
  rewrite Hd in H2. destruct (I5 _ _ _ H1 H2) as [Hne | Hk]; [congruence | exact Hk].
Qed.


(** ** The items added by one turn of the loop *)

Lemma col_states_In_nth ch i st :
  In st (col_states ch i) -> exists c, nth_error ch i = Some c /\ In st (states c).
Proof.
  unfold col_states. destruct (nth_error ch i) as [c|]; [eauto | intros []].
Qed.

Lemma upd_add_all_items ch t (its : Column -> list State) j st' :
  (forall c, nth_error ch t = Some c -> index c = t) ->
  In st' (col_states (upd_col ch t (fun c => add_all c (its c))) j) ->
  In st' (col_states ch j) \/
  (j = t /\ exists c x, nth_error ch t = Some c /\ In x (its c) /\
                        st' = set_e_col x t).
Proof.
  intros Hidx Hin. destruct (Nat.eq_dec t j) as [<-|Hne].
  - destruct (nth_error ch t) as [c|] eqn:Ec.
    + rewrite (col_states_upd_same _ _ _ _ Ec) in Hin.
      apply add_all_In in Hin. destruct Hin as [Hin | [x [Hx Hst]]].
      * left. unfold col_states. now rewrite Ec.
      * right. split; [reflexivity|]. exists c, x.
        rewrite (Hidx c eq_refl) in Hst. auto.
    + rewrite upd_col_none in Hin by exact Ec. now left.
  - rewrite col_states_upd_other in Hin by exact Hne. now left.
Qed.

Lemma fill_step_items g eps ch i st j st' :
  valid_chart g ch ->
  In st' (col_states (fill_step g eps ch i st) j) ->
  In st' (col_states ch j) \/ new_item g eps ch i st j st'.
Proof.
  intros (V1 & V2 & V3) Hin.
  destruct (finished st) eqn:Hf.
  - rewrite fill_step_complete in Hin by exact Hf.
    apply upd_add_all_items in Hin; [|apply V1].
    destruct Hin as [Hin | (-> & c & x & Hc & Hx & ->)]; [now left|].
    right. apply in_map_iff in Hx. destruct Hx as [p [<- Hp]].
    apply filter_In in Hp. destruct Hp as [Hp Hat].
    apply at_dot_is_Some in Hat. now apply new_completed.
  - destruct (finished_false_at_dot _ Hf) as [sym Hd].
    destruct (lookup g sym) as [alts|] eqn:Hl.
    + rewrite (fill_step_predict g eps ch i st sym alts Hf Hd Hl) in Hin.
      apply upd_add_all_items in Hin; [|apply V1].
      destruct Hin as [Hin | (-> & c & x & Hc & Hx & ->)]; [now left|].
      right. apply in_app_or in Hx. destruct Hx as [Hx | Hx].
      * apply in_map_iff in Hx. destruct Hx as [alt [<- Halt]].
        rewrite (V1 _ _ Hc). eapply new_predicted; eauto.
      * destruct (sym_in sym eps) eqn:Es; [|destruct Hx].
        destruct Hx as [<- | []]. eapply new_skipped; eauto.
    + rewrite (fill_step_scan g eps ch i st sym Hf Hd Hl) in Hin.
      destruct (List.length ch <=? i + 1); [now left|].
      apply upd_add_all_items in Hin; [|apply V1].
      destruct Hin as [Hin | (-> & c & x & Hc & Hx & ->)]; [now left|].
      right. destruct (letter c) as [l|] eqn:El; [|destruct Hx].
      destruct (String.eqb sym l) eqn:E; [|destruct Hx].
      apply String.eqb_eq in E. subst l.
      destruct Hx as [<- | []]. apply new_scanned with (sym := sym); auto.
      unfold letter_at. now rewrite Hc.
Qed.

(** Processing an item in front of a nonterminal leaves the predicted
    items in its column. *)
Lemma fill_step_predicted g eps ch i st :
  valid_chart g ch -> In st (col_states ch i) ->
  predicted g eps (fill_step g eps ch i st) i st.
Proof.
  intros (V1 & V2 & V3) Hin sym alts Hf Hd Hl.
  rewrite (fill_step_predict g eps ch i st sym alts Hf Hd Hl).
  destruct (col_states_In_nth _ _ _ Hin) as [c [Hc _]].
  assert (Hhas : forall x,
            In x (map (fun alt => create_state sym alt 0 (index c)) alts
                  ++ (if sym_in sym eps then [advance st] else [])) ->
            has_item (upd_col ch i
                        (fun c0 => add_all c0
                           (map (fun alt => create_state sym alt 0 (index c0)) alts
                            ++ (if sym_in sym eps then [advance st] else []))))
                     i (State_t x)).
  { intros x Hx. unfold has_item.
    rewrite (col_states_upd_same _ _ _ _ Hc).
    pose proof (add_all_has _ c x Hx) as H.
    apply in_map_iff in H. destruct H as [y [Hy Hiny]]. eauto. }
  split.
  - intros alt Halt.
    specialize (Hhas (create_state sym alt 0 (index c))).
    rewrite (V1 _ _ Hc) in Hhas. apply Hhas.
    apply in_or_app. left. apply in_map_iff. exists alt. split; auto.
  - intros Hs. specialize (Hhas (advance st)). apply Hhas.
    apply in_or_app. right. rewrite Hs. now left.
Qed.

Lemma predicted_mono g eps ch ch' i st :
  predicted g eps ch i st -> chart_ext ch ch' -> predicted g eps ch' i st.
Proof.
  intros H He sym alts Hf Hd Hl. destruct (H sym alts Hf Hd Hl) as [H1 H2].
  split.
  - intros alt Ha. eapply chart_ext_has_item; eauto.
  - intros Hs. eapply chart_ext_has_item; eauto.
Qed.

(** In a column whose items have all been processed, an item followed
    by nullable symbols only is there with the dot at the end. *)
Lemma nullable_closure g eps ch i :
  valid_chart g ch ->
  (forall k, In k eps <-> Nullable g k) ->
  (forall st, In st (col_states ch i) -> predicted g eps ch i st) ->
  forall m X alpha d o,
    has_item ch i (X, alpha, d, o) ->
    List.length alpha - d = m ->
    (forall t, In t (skipn d alpha) -> Nullable g t) ->
    has_item ch i (X, alpha, List.length alpha, o).
Proof.
  intros V Heps Hq. induction m as [|m IH]; intros X alpha d o Hh Hm Hnull.
  - destruct Hh as [st [Hin Hk]]. pose proof V as (_ & V2 & _).
    destruct (V2 _ _ Hin) as (_ & Hd & _).
    unfold State_t in Hk. inversion Hk; subst.
    exists st. split; [exact Hin|]. unfold State_t. f_equal. f_equal. lia.
  - destruct Hh as [st [Hin Hk]].
    unfold State_t in Hk. inversion Hk; subst. clear Hk.
    assert (Hlt : dot st < List.length (expr st)) by lia.
    destruct (nth_error (expr st) (dot st)) as [Y|] eqn:EY;
      [|apply nth_error_None in EY; lia].
    assert (HY : Nullable g Y).
    { apply Hnull. rewrite <- (firstn_skipn (dot st) (expr st)) in EY.
      rewrite nth_error_app2 in EY by (rewrite length_firstn; lia).
      rewrite length_firstn in EY.
      replace (dot st - Nat.min (dot st) (List.length (expr st))) with 0 in EY by lia.
      destruct (skipn (dot st) (expr st)); [discriminate|].
      simpl in EY. inversion EY. now left. }
    assert (Hl : exists alts, lookup g Y = Some alts).
    { inversion HY; eauto. }
    destruct Hl as [alts Hl].
    assert (Hf : finished st = false).
    { unfold finished. apply Nat.leb_gt. exact Hlt. }
    destruct (Hq st Hin Y alts Hf EY Hl) as [_ Hadv].
    assert (HinY : sym_in Y eps = true) by (apply sym_in_In; now apply Heps).
    apply (IH (name st) (expr st) (dot st + 1) (s_col st) (Hadv HinY)).
    + lia.
    + intros t Ht. apply Hnull.
      replace (dot st + 1) with (S (dot st)) in Ht by lia.
      rewrite <- (firstn_skipn 1 (skipn (dot st) (expr st))).
      apply in_or_app. right. rewrite skipn_skipn. simpl. exact Ht.
Qed.

(** ** The seeded chart *)

Lemma seed_chart_items text start alts j st :
  In st (col_states (seed_chart text start alts) j) ->
  j = 0 /\ exists alt, In alt alts /\ st = set_e_col (create_state start alt 0 0) 0.
Proof.
  rewrite seed_chart_add_all. intros Hin.
  apply upd_add_all_items in Hin.
  - destruct Hin as [Hin | (-> & c & x & Hc & Hx & ->)].
    + exfalso. apply col_states_In_nth in Hin. destruct Hin as [c [Hc Hin]].
      apply columns_from_nth in Hc. destruct Hc as (_ & Hs & _).
      rewrite Hs in Hin. destruct Hin.
    + split; [reflexivity|]. apply in_map_iff in Hx.
      destruct Hx as [alt [<- Ha]]. eauto.
  - intros c Hc. apply columns_from_nth in Hc. simpl in Hc. tauto.
Qed.

Lemma seed_chart_has text start alts alt :
  In alt alts -> has_item (seed_chart text start alts) 0 (start, alt, 0, 0).
Proof.
  intros Ha. rewrite seed_chart_add_all. unfold has_item.
  rewrite (col_states_upd_same _ 0 _ (mkColumn 0 None [] [])) by reflexivity.
  pose proof (add_all_has (map (fun alt => create_state start alt 0 0) alts)
                (mkColumn 0 None [] []) (create_state start alt 0 0)) as H.
  assert (Hin : In (create_state start alt 0 0)
                   (map (fun alt => create_state start alt 0 0) alts))
    by (apply in_map_iff; eauto).
  apply H in Hin. apply in_map_iff in Hin. destruct Hin as [y [Hy Hiny]]. eauto.
Qed.

Lemma tokens_of_length text : List.length (tokens_of text) = String.length text.
Proof. induction text; simpl; auto. Qed.

Lemma seed_chart_length text start alts :
  List.length (seed_chart text start alts) = S (String.length text).
Proof.
  unfold seed_chart. rewrite upd_col_length, columns_from_length.
  simpl. now rewrite length_map, tokens_of_length.
Qed.

(** ** C8: the empty input *)

Lemma firstn_succ_nth {A : Type} (l : list A) d x :
  nth_error l d = Some x -> firstn (d + 1) l = firstn d l ++ [x].
Proof.
  revert d. induction l as [|a l IH]; intros d H; destruct d; simpl in *;
    try discriminate.
  - now inversion H.
  - f_equal. now apply IH.
Qed.

Lemma finished_firstn st :
  finished st = true -> firstn (dot st) (expr st) = expr st.
Proof.
  unfold finished. intros H. apply Nat.leb_le in H. now apply firstn_all2.
Qed.

Lemma nullable_prefixes_step g eps ch i st :
  (forall k, In k eps -> Nullable g k) ->
  valid_chart g ch -> nullable_prefixes g ch ->
  In st (col_states ch i) ->
  nullable_prefixes g (fill_step g eps ch i st).
Proof.
  intros Heps V Hp Hst st' Hin t Ht. pose proof V as (V1 & V2 & V3).
  destruct (fill_step_items g eps ch i st 0 st' V Hin) as [Hold | Hnew].
  - exact (Hp st' Hold t Ht).
  - remember 0 as j eqn:Ej.
    destruct Hnew as [p Hf Hpin Hat | sym alts alt Hf Hat Hl Ha
                      | sym alts Hf Hat Hl Hs | sym Hf Hat Hl Hlet].
    + subst i. simpl in Ht.
      rewrite (firstn_succ_nth _ _ _ Hat) in Ht. apply in_app_or in Ht.
      destruct (V2 _ _ Hst) as ((alts & Hl & Ha) & _ & Hs & _).
      assert (Hs0 : s_col st = 0) by lia. rewrite Hs0 in Hpin.
      destruct Ht as [Ht | [<- | []]].
      * exact (Hp p Hpin t Ht).
      * apply Nullable_rule with (alts := alts) (alt := expr st); auto.
        intros t' Ht'. apply (Hp st Hst). now rewrite finished_firstn.
    + simpl in Ht. destruct Ht.
    + subst i. simpl in Ht.
      rewrite (firstn_succ_nth _ _ _ Hat) in Ht. apply in_app_or in Ht.
      destruct Ht as [Ht | [<- | []]].
      * exact (Hp st Hst t Ht).
      * apply Heps. now apply sym_in_In.
    + lia.
Qed.

Lemma start_state_in_column start alts c st :
  In st (states c) -> name st = start -> In (expr st) alts -> s_col st = 0 ->
  In st (start_states start alts c).
Proof.
  intros Hin Hn Ha Hs. unfold start_states. apply filter_In. split; [exact Hin|].
  rewrite Hn, String.eqb_refl, Hs. simpl. rewrite andb_true_r.
  unfold alt_in. apply existsb_exists. exists (expr st).
  split; [exact Ha | now apply alt_eqb_eq].
Qed.

(** C8.  For a grammar that follows the contract of the specification
    (a dictionary whose keys have the form [<...>]), the Earley
    recognizer accepts the empty input exactly when the start symbol
    belongs to [nullable(grammar)], that is, exactly when it derives the
    empty string. *)
Theorem empty_input_accepted_iff_nullable
    (g : grammar) (pe : bool) (p : Parser) (start : symbol) :
  wf_grammar g ->
  EarleyParser g pe = Ok p ->
  ((exists table starts,
       Parser_recognize_on p "" start = Ok (table, starts) /\ starts <> [])
   <-> In start (p_epsilon p)) /\
  (In start (p_epsilon p) <-> Nullable g start).
Proof.
  intros Hwf Hp. unfold EarleyParser in Hp.
  destruct (nullable g) as [eps|] eqn:Hn; simpl in Hp; [|discriminate].
  inversion Hp; subst p; clear Hp. simpl.
  pose proof (nullable_correct g eps Hwf Hn) as Heps.
  split; [|apply Heps].
  unfold Parser_recognize_on, recognize_on, parse_prefix. simpl.
  destruct (lookup g start) as [alts|] eqn:Hl.
  2:{ simpl. split.
      - intros (table & starts & H & _). discriminate.
      - intros Hin. apply Heps in Hin. inversion Hin; congruence. }
  simpl.
  set (seed := seed_chart "" start alts).
  assert (Vseed : valid_chart g seed) by (now apply seed_chart_valid).
  assert (Pseed : nullable_prefixes g seed).
  { intros st Hin t Ht. apply seed_chart_items in Hin.
    destruct Hin as (_ & alt & _ & ->). simpl in Ht. destruct Ht. }
  destruct (fill_chart_inv g eps
              (fun ch => valid_chart g ch /\ nullable_prefixes g ch)
              (predicted g eps)) with (ch := seed)
    as (Hopt & (Vf & Pf) & Hext & Hq).
  { intros ch [V _]. exact V. }
  { intros ch i st [V Hpre] Hin. split.
    - now apply fill_step_valid.
    - apply nullable_prefixes_step; auto. intros k Hk. now apply Heps. }
  { intros ch i st [V _] Hin. now apply fill_step_predicted. }
  { intros. eapply predicted_mono; eauto. }
  { split; assumption. }
  unfold chart_parse. fold seed.
  set (F := fill_chart g eps seed) in *.
  assert (Hlen : List.length F = 1).
  { rewrite <- (chart_ext_length _ _ Hext). unfold seed.
    now rewrite seed_chart_length. }
  destruct F as [|c0 [|c1 F']] eqn:EF; try discriminate. clear Hlen.
  simpl rev. unfold latest_start.
  assert (Hcol : col_states [c0] 0 = states c0) by reflexivity.
  assert (Hidx : index c0 = 0).
  { destruct Vf as (V1 & _). apply (V1 0 c0). reflexivity. }
  split.
  - intros (table & starts & H & Hne).
    destruct (start_states start alts c0) as [|s0 ss] eqn:Ess.
    + destruct (pe && _); inversion H; subst; simpl in Hne; congruence.
    + assert (Hst : exists st, In st (start_states start alts c0) /\ finished st = true).
      { destruct (filter finished (s0 :: ss)) as [|st l] eqn:Ef.
        - destruct (pe && _); inversion H; subst; congruence.
        - exists st. rewrite Ess.
          assert (Hin : In st (filter finished (s0 :: ss)))
            by (rewrite Ef; now left).
          apply filter_In in Hin. exact Hin. }
      destruct Hst as (st & Hin & Hfin).
      apply start_states_In in Hin. destruct Hin as (Hin & Hname & Halt & Hs).
      apply Heps. apply Nullable_rule with (alts := alts) (alt := expr st); auto.
      intros t Ht. apply (Pf st); [now rewrite Hcol|].
      now rewrite finished_firstn.
  - intros Hin. apply Heps in Hin.
    inversion Hin as [k alts' a Hl' Ha Hall]; subst.
    rewrite Hl in Hl'. inversion Hl'; subst alts'.
    assert (Hh : has_item [c0] 0 (start, a, List.length a, 0)).
    { apply (nullable_closure g eps [c0] 0 Vf Heps) with (m := List.length a) (d := 0).
      - intros st Hst. now apply Hq.
      - eapply chart_ext_has_item; [exact Hext|]. now apply seed_chart_has.
      - lia.
      - simpl. exact Hall. }
    destruct Hh as [st [Hst Hk]]. rewrite Hcol in Hst.
    unfold State_t in Hk. injection Hk as Hname Hexpr Hdot Hscol.
    assert (Hss : In st (start_states start alts c0)).
    { apply start_state_in_column; auto. now rewrite Hexpr. }
    assert (Hfin : finished st = true).
    { unfold finished. apply Nat.leb_le. rewrite Hdot, Hexpr. lia. }
    destruct (start_states start alts c0) as [|s0 ss] eqn:Ess; [destruct Hss|].
    assert (Hf : In st (filter finished (s0 :: ss)))
      by (apply filter_In; split; assumption).
    rewrite Hidx. simpl Z.of_nat.
    destruct (filter finished (s0 :: ss)) as [|f0 fs] eqn:Ef; [destruct Hf|].
    exists [c0], (f0 :: fs). split; [|discriminate].
    change (String.length "") with 0. simpl.
    rewrite andb_false_r. reflexivity.
Qed.

Lemma eps_grammar_wf : wf_grammar eps_grammar.
Proof.
  split.
  - simpl. constructor.
    + intros [H | []]. discriminate.
    + constructor; [intros [] | constructor].
  - intros k [<- | [<- | []]]; reflexivity.
Qed.

Lemma empty_input_accepted_iff_nullable_witness :
  ((exists table starts,
       Parser_recognize_on (mkParser eps_grammar ["<A>"; "<S>"] true) "" "<S>"
       = Ok (table, starts) /\ starts <> [])
   <-> In "<S>" ["<A>"; "<S>"]) /\
  (In "<S>" ["<A>"; "<S>"] <-> Nullable eps_grammar "<S>").
Proof.
  apply (empty_input_accepted_iff_nullable eps_grammar true
           (mkParser eps_grammar ["<A>"; "<S>"] true) "<S>").
  - exact eps_grammar_wf.
  - reflexivity.
Defined.


(** ** Every item of the final chart rests on the chart *)

Lemma justified_mono g ch ch' j st :
  justified g ch j st -> chart_ext ch ch' -> justified g ch' j st.
Proof.
  intros [H0 | (sym & Hd & Hn & H)] He; [now left|].
  right. exists sym. split; [exact Hd|]. split; [exact Hn|].
  destruct H as [(Hl & Hj & Hlet & Hh) | (Hg & child & Hin & Hf & Hnm & Hh)].
  - left. repeat split; auto.
    + now rewrite (chart_ext_letter _ _ _ He).
    + eapply chart_ext_has_item; eauto.
  - right. split; [exact Hg|]. exists child. repeat split; auto.
    + eapply chart_ext_In; eauto.
    + eapply chart_ext_has_item; eauto.
Qed.

Lemma pending_mono g eps ch ch' j st :
  pending g eps ch j st -> chart_ext ch ch' -> pending g eps ch' j st.
Proof.
  intros (Hd & sym & alts & Hn & Hl & Hs & Hh) He.
  split; [exact Hd|]. exists sym, alts. repeat split; auto.
  eapply chart_ext_has_item; eauto.
Qed.

Lemma has_item_self ch i st : In st (col_states ch i) -> has_item ch i (State_t st).
Proof. intros H. exists st. auto. Qed.

Lemma accounted_step g eps ch i st :
  valid_chart g ch -> accounted g eps ch -> In st (col_states ch i) ->
  accounted g eps (fill_step g eps ch i st).
Proof.
  intros V Hacc Hst j st' Hin. pose proof V as (V1 & V2 & V3).
  pose proof (fill_step_ext g eps ch i st) as Hext.
  destruct (fill_step_items g eps ch i st j st' V Hin) as [Hold | Hnew].
  - destruct (Hacc j st' Hold) as [H | H].
    + left. eapply justified_mono; eauto.
    + right. eapply pending_mono; eauto.
  - destruct Hnew as [p Hf Hpin Hat | sym alts alt Hf Hat Hl Ha
                      | sym alts Hf Hat Hl Hs | sym Hf Hat Hl Hlet].
    + left. right. exists (name st). simpl.
      replace (dot p + 1 - 1) with (dot p) by lia.
      split; [lia|]. split; [exact Hat|]. right. split.
      * destruct (V2 _ _ Hst) as ((alts & Hl & _) & _).
        unfold in_grammar. now rewrite Hl.
      * exists st. repeat split; auto.
        -- eapply chart_ext_In; eauto.
        -- eapply chart_ext_has_item; [exact Hext|]. now apply has_item_self.
    + left. left. reflexivity.
    + right. split; [simpl; lia|]. exists sym, alts. simpl.
      replace (dot st + 1 - 1) with (dot st) by lia.
      repeat split; auto.
      eapply chart_ext_has_item; [exact Hext|]. now apply has_item_self.
    + left. right. exists sym. simpl.
      replace (dot st + 1 - 1) with (dot st) by lia.
      split; [lia|]. split; [exact Hat|]. left.
      repeat split; auto; try lia.
      * now rewrite (chart_ext_letter _ _ _ Hext).
      * replace (i + 1 - 1) with i by lia.
        eapply chart_ext_has_item; [exact Hext|]. now apply has_item_self.
Qed.

(** The chart that [chart_parse] returns: it is well formed, it extends
    the seeded chart, and each of its items with the dot past a symbol
    rests on a scanned terminal or on a completed item. *)
Lemma chart_parse_justified g eps text start alts :
  wf_grammar g -> nullable g = Ok eps -> lookup g start = Some alts ->
  valid_chart g (chart_parse g eps text start alts) /\
  chart_ext (seed_chart text start alts) (chart_parse g eps text start alts) /\
  forall j st, In st (col_states (chart_parse g eps text start alts) j) ->
               justified g (chart_parse g eps text start alts) j st.
Proof.
  intros Hwf Hn Hl.
  pose proof (nullable_correct g eps Hwf Hn) as Heps.
  set (seed := seed_chart text start alts).
  assert (Vseed : valid_chart g seed) by (now apply seed_chart_valid).
  assert (Aseed : accounted g eps seed).
  { intros j st Hin. apply seed_chart_items in Hin.
    destruct Hin as (_ & alt & _ & ->). left. left. reflexivity. }
  destruct (fill_chart_inv g eps
              (fun ch => valid_chart g ch /\ accounted g eps ch)
              (predicted g eps)) with (ch := seed)
    as (Hopt & (Vf & Af) & Hext & Hq).
  { intros ch [V _]. exact V. }
  { intros ch i st [V Ha] Hin. split.
    - now apply fill_step_valid.
    - now apply accounted_step. }
  { intros ch i st [V _] Hin. now apply fill_step_predicted. }
  { intros. eapply predicted_mono; eauto. }
  { split; assumption. }
  unfold chart_parse. fold seed. set (F := fill_chart g eps seed) in *.
  split; [exact Vf|]. split; [exact Hext|].
  intros j st Hin. destruct (Af j st Hin) as [H | H]; [exact H|].
  destruct H as (Hd & sym & alts' & Hnth & Hl' & Hs & Hh).
  right. exists sym. split; [exact Hd|]. split; [exact Hnth|]. right.
  split; [unfold in_grammar; now rewrite Hl'|].
  assert (HN : Nullable g sym) by (apply Heps; now apply sym_in_In).
  inversion HN as [k alts0 a Hl0 Ha Hall]; subst.
  rewrite Hl' in Hl0. inversion Hl0; subst alts0.
  assert (Hpred : has_item F j (sym, a, 0, j)).
  { destruct Hh as [pst [Hpin Hk]].
    injection Hk as K1 K2 K3 K4.
    assert (Hpf : finished pst = false).
    { unfold finished. apply Nat.leb_gt. rewrite K3, K2.
      apply nth_error_Some. congruence. }
    assert (Hpat : at_dot pst = Some sym).
    { unfold at_dot. now rewrite K3, K2. }
    destruct (Hq j pst Hpin sym alts' Hpf Hpat Hl') as [Hall' _]. auto. }
  assert (Hfin : has_item F j (sym, a, List.length a, j)).
  { apply (nullable_closure g eps F j Vf Heps) with (m := List.length a) (d := 0).
    - intros st' Hst'. now apply Hq.
    - exact Hpred.
    - lia.
    - simpl. exact Hall. }
  destruct Hfin as [child [Hcin Hk]]. injection Hk as K1 K2 K3 K4.
  exists child. repeat split; auto.
  - unfold finished. apply Nat.leb_le. rewrite K3, K2. lia.
  - rewrite K4. exact Hh.
Qed.

(** ** Letters of the chart and tokens of the input *)

Lemma columns_from_letter toks : forall i0 j,
  letter_at (columns_from i0 toks) j =
  match nth_error toks j with Some x => x | None => None end.
Proof.
  unfold letter_at. induction toks as [|t toks IH]; intros i0 j; simpl.
  - destruct j; reflexivity.
  - destruct j; simpl; [reflexivity | apply IH].
Qed.

Lemma seed_chart_letter text start alts j :
  letter_at (seed_chart text start alts) j =
  match j with
  | O => None
  | S j' => nth_error (tokens_of text) j'
  end.
Proof.
  rewrite seed_chart_add_all.
  rewrite (chart_ext_letter (columns_from 0 (None :: map Some (tokens_of text)))).
  - rewrite columns_from_letter. destruct j; simpl; [reflexivity|].
    rewrite nth_error_map. destruct (nth_error (tokens_of text) j); reflexivity.
  - apply upd_col_ext. intros c. apply add_all_ext.
Qed.

Lemma tokens_of_single text i v :
  nth_error (tokens_of text) i = Some v -> exists c, v = String c EmptyString.
Proof.
  revert i. induction text as [|c text IH]; intros i H; simpl in H.
  - destruct i; discriminate.
  - destruct i; simpl in H; [inversion H; eauto | eauto].
Qed.

Lemma single_char_is_terminal c : is_nt (String c EmptyString) = Ok false.
Proof.
  unfold is_nt. simpl. f_equal.
  destruct (Ascii.eqb c "<") eqn:E1; [|reflexivity].
  apply Ascii.eqb_eq in E1. subst c. reflexivity.
Qed.

Lemma concat_tokens_of text : String.concat "" (tokens_of text) = text.
Proof.
  induction text as [|c text IH]; [reflexivity|].
  simpl tokens_of. destruct (tokens_of text) as [|t ts] eqn:E.
  - simpl. simpl in IH. now subst.
  - change (String.concat "" (String c "" :: t :: ts))
      with (String c "" ++ "" ++ String.concat "" (t :: ts))%string.
    rewrite IH. reflexivity.
Qed.

(** *** Segments *)

Lemma seg_same toks a : seg toks a a = [].
Proof. unfold seg. now rewrite Nat.sub_diag. Qed.

Lemma firstn_plus {A : Type} (n m : nat) (l : list A) :
  firstn (n + m) l = firstn n l ++ firstn m (skipn n l).
Proof.
  revert l. induction n as [|n IH]; intros l; simpl; [reflexivity|].
  destruct l as [|x l]; simpl.
  - now rewrite firstn_nil.
  - now rewrite IH.
Qed.

Lemma seg_app toks a b c :
  a <= b -> b <= c -> c <= List.length toks ->
  seg toks a b ++ seg toks b c = seg toks a c.
Proof.
  intros Hab Hbc Hc. unfold seg.
  replace (c - a) with ((b - a) + (c - b)) by lia.
  rewrite firstn_plus. f_equal.
  rewrite skipn_skipn. f_equal. f_equal. lia.
Qed.

Lemma seg_one toks a v :
  nth_error toks a = Some v -> seg toks a (a + 1) = [v].
Proof.
  intros H. unfold seg. replace (a + 1 - a) with 1 by lia.
  revert a H. induction toks as [|t toks IH]; intros a H.
  - destruct a; discriminate.
  - destruct a; simpl in *.
    + inversion H. reflexivity.
    + now apply IH.
Qed.

Lemma seg_all toks : seg toks 0 (List.length toks) = toks.
Proof. unfold seg. simpl. rewrite Nat.sub_0_r. apply firstn_all. Qed.

(** ** Parse paths of the final chart *)

Section FinalChart.

Variable g : grammar.
Variable eps : list symbol.
Variable text : string.
Variable start : symbol.
Variable alts : list alternative.

Hypothesis Hwf : wf_grammar g.
Hypothesis Heps : nullable g = Ok eps.
Hypothesis Hstart : lookup g start = Some alts.

#[warnings="-notation-for-abbreviation"]
Local Notation F := (chart_parse g eps text start alts).
#[warnings="-notation-for-abbreviation"]
Local Notation toks := (tokens_of text).

Lemma final_valid : valid_chart g F.
Proof. exact (proj1 (chart_parse_justified g eps text start alts Hwf Heps Hstart)). Qed.

Lemma final_justified j st : In st (col_states F j) -> justified g F j st.
Proof.
  exact (proj2 (proj2 (chart_parse_justified g eps text start alts Hwf Heps Hstart)) j st).
Qed.

Lemma final_letter j :
  letter_at F j = match j with O => None | S j' => nth_error toks j' end.
Proof.
  rewrite (chart_ext_letter (seed_chart text start alts)).
  - apply seed_chart_letter.
  - exact (proj1 (proj2 (chart_parse_justified g eps text start alts Hwf Heps Hstart))).
Qed.

Lemma final_length : List.length F = S (List.length toks).
Proof.
  rewrite <- (chart_ext_length (seed_chart text start alts)).
  - rewrite seed_chart_length. now rewrite tokens_of_length.
  - exact (proj1 (proj2 (chart_parse_justified g eps text start alts Hwf Heps Hstart))).
Qed.

Lemma final_item_bound j st : In st (col_states F j) -> j <= List.length toks.
Proof.
  intros Hin. apply col_states_In_nth in Hin. destruct Hin as [c [Hc _]].
  assert (j < List.length F) by (apply nth_error_Some; congruence).
  rewrite final_length in H. lia.
Qed.

Lemma final_letter_token j sym :
  letter_at F j = Some sym ->
  exists j', j = S j' /\ nth_error toks j' = Some sym /\
             String.length sym = 1 /\ is_nt sym = Ok false.
Proof.
  rewrite final_letter. destruct j as [|j']; [discriminate|].
  intros H. exists j'. split; [reflexivity|]. split; [exact H|].
  destruct (tokens_of_single _ _ _ H) as [c ->].
  split; [reflexivity | apply single_char_is_terminal].
Qed.

Lemma key_is_nt k alts0 : lookup g k = Some alts0 -> is_nt k = Ok true.
Proof.
  intros H. destruct Hwf as [_ Hk]. apply Hk.
  apply lookup_In in H. unfold keys. apply in_map_iff. exists (k, alts0). auto.
Qed.

Lemma flat_map_nonempty {A B : Type} (f : A -> list B) (l : list A) x :
  In x l -> f x <> [] -> flat_map f l <> [].
Proof.
  intros Hin Hf Hnil. apply Hf.
  destruct (f x) as [|b bs] eqn:E; [reflexivity|].
  assert (Hb : In b (flat_map f l)).
  { apply in_flat_map. exists x. split; [exact Hin|]. rewrite E. now left. }
  rewrite Hnil in Hb. destruct Hb.
Qed.

Lemma rev_firstn_succ (alpha : list symbol) d sym :
  nth_error alpha d = Some sym ->
  rev (firstn (S d) alpha) = sym :: rev (firstn d alpha).
Proof.
  intros H. replace (S d) with (d + 1) by lia.
  rewrite (firstn_succ_nth _ _ _ H). rewrite rev_app_distr. reflexivity.
Qed.

Lemma firstn_nil_dot (alpha : list symbol) d sym :
  nth_error alpha d = Some sym -> firstn d alpha = [] -> d = 0.
Proof.
  intros Hn Hf. destruct d; [reflexivity|].
  destruct alpha; [destruct d; discriminate | discriminate].
Qed.

(** Every item with the dot past a symbol has a parse path. *)
Lemma parse_paths_nonempty :
  forall d X alpha o j,
    has_item F j (X, alpha, d, o) -> 0 < d ->
    parse_paths_rev g (rev (firstn d alpha)) F o j <> [].
Proof.
  induction d as [|d IH]; intros X alpha o j Hh Hd; [lia|].
  destruct Hh as [st [Hin Hk]]. injection Hk as K1 K2 K3 K4.
  destruct (final_justified j st Hin) as [H0 | (sym & _ & Hn & Hcase)]; [lia|].
  rewrite K3, K2 in Hn. simpl in Hn. rewrite Nat.sub_0_r in Hn.
  rewrite (rev_firstn_succ _ _ _ Hn).
  rewrite K1, K2, K3, K4 in Hcase. simpl in Hcase. rewrite Nat.sub_0_r in Hcase.
  assert (Hparent : forall k,
            has_item F k (X, alpha, d, o) ->
            (match rev (firstn d alpha) with
             | [] => if Nat.eqb k o then [[PT sym]] else []
             | _ => map (cons (PT sym))
                        (parse_paths_rev g (rev (firstn d alpha)) F o k)
             end <> []) /\
            forall nd,
            (match rev (firstn d alpha) with
             | [] => if Nat.eqb k o then [[nd]] else []
             | _ => map (cons nd)
                        (parse_paths_rev g (rev (firstn d alpha)) F o k)
             end <> [])).
  { intros k Hp.
    assert (Hgen : forall nd : pnode,
              match rev (firstn d alpha) with
              | [] => if Nat.eqb k o then [[nd]] else []
              | _ => map (cons nd)
                         (parse_paths_rev g (rev (firstn d alpha)) F o k)
              end <> []).
    { intros nd. destruct (rev (firstn d alpha)) as [|r rs] eqn:Er.
      - assert (Hd0 : d = 0).
        { apply (firstn_nil_dot alpha d sym Hn).
          rewrite <- (rev_involutive (firstn d alpha)), Er. reflexivity. }
        destruct Hp as [pst [Hpin Hpk]]. injection Hpk as P1 P2 P3 P4.
        destruct final_valid as (_ & V2 & _).
        destruct (V2 _ _ Hpin) as (_ & _ & _ & _ & Hz).
        rewrite (proj2 (Nat.eqb_eq k o)); [discriminate|].
        rewrite <- P4. symmetry. apply Hz. lia.
      - assert (Hd0 : 0 < d).
        { destruct d; [simpl in Er; discriminate | lia]. }
        specialize (IH X alpha o k Hp Hd0). rewrite Er in IH.
        destruct (parse_paths_rev g (r :: rs) F o k); [congruence | discriminate]. }
    split; [apply Hgen | exact Hgen]. }
  cbn [parse_paths_rev].
  destruct Hcase as [(Hl & Hj & Hlet & Hp) | (Hg & child & Hcin & Hcf & Hcn & Hp)].
  - unfold in_grammar. rewrite Hl.
    destruct (final_letter_token j sym Hlet) as (j' & -> & Htok & Hlen & _).
    unfold letter_is. rewrite Hlet, String.eqb_refl. simpl.
    rewrite app_nil_r. rewrite Hlen.
    replace (S j' - 1) with j' in * by lia.
    rewrite Nat.sub_0_r.
    destruct (Hparent j' Hp) as [H1 _]. exact H1.
  - rewrite Hg.
    apply flat_map_nonempty with (x := (PN child, s_col child)).
    + apply in_map_iff. exists child. split; [reflexivity|].
      apply filter_In. split; [exact Hcin|].
      rewrite Hcf, Hcn, String.eqb_refl. reflexivity.
    + simpl. destruct (Hparent (s_col child) Hp) as [_ H2]. apply H2.
Qed.

Lemma rpath_ok_le rp : forall frm til,
  rpath_ok F toks rp frm til -> frm <= til.
Proof.
  destruct rp as [|nd rest]; intros frm til H; simpl in H; [destruct H|].
  destruct H as (s & Hn & Hle & _).
  destruct nd as [v | st]; simpl in Hn.
  - destruct Hn as (-> & _). lia.
  - destruct Hn as (_ & _ & _ & H). lia.
Qed.

(** Every path that [parse_paths] returns accounts for the tokens
    between its two ends. *)
Lemma parse_paths_rev_sound :
  forall rexpr frm til rp,
    In rp (parse_paths_rev g rexpr F frm til) ->
    rpath_ok F toks rp frm til.
Proof.
  induction rexpr as [|var rest IH]; intros frm til rp Hin; [destruct Hin|].
  cbn [parse_paths_rev] in Hin. apply in_flat_map in Hin.
  destruct Hin as [[nd s] [Hst Hrp]]. simpl in Hrp.
  assert (Hnode : node_ok F toks nd s til).
  { destruct (in_grammar g var) eqn:Eg.
    - apply in_map_iff in Hst. destruct Hst as [st [Heq Hf]].
      inversion Heq; subst. apply filter_In in Hf. destruct Hf as [Hf Hb].
      apply andb_prop in Hb. destruct Hb as [Hfin _].
      destruct final_valid as (_ & V2 & _).
      destruct (V2 _ _ Hf) as (_ & _ & Hs & _).
      simpl. repeat split; auto.
    - destruct ((0 <? til) && letter_is F til var) eqn:Eb; [|destruct Hst].
      destruct Hst as [Heq | []]. inversion Heq; subst.
      apply andb_prop in Eb. destruct Eb as [_ Hlet].
      unfold letter_is in Hlet.
      destruct (letter_at F til) as [l|] eqn:El; [|discriminate].
      apply String.eqb_eq in Hlet. subst l.
      destruct (final_letter_token til var El) as (j' & -> & Htok & Hlen & Hnt).
      rewrite Hlen. replace (S j' - 1) with j' by lia.
      simpl. repeat split; auto. lia. }
  destruct rest as [|r rs].
  - destruct (Nat.eqb s frm) eqn:E; [|destruct Hrp].
    apply Nat.eqb_eq in E. subst s. destruct Hrp as [<- | []].
    simpl. exists frm. repeat split; auto.
  - apply in_map_iff in Hrp. destruct Hrp as [rp' [<- Hrp']].
    specialize (IH frm s rp' Hrp').
    simpl. exists s. split; [exact Hnode|].
    split; [eapply rpath_ok_le; eauto|].
    destruct rp' as [|x xs]; [destruct IH | exact IH].
Qed.

Lemma lpath_ok_snoc p : forall frm mid til nd,
  lpath_ok F toks p frm mid -> node_ok F toks nd mid til ->
  lpath_ok F toks (p ++ [nd]) frm til.
Proof.
  induction p as [|x p IH]; intros frm mid til nd Hp Hn; simpl in *.
  - subst. exists til. split; [exact Hn | reflexivity].
  - destruct Hp as (m & Hx & Hp). exists m. split; [exact Hx|]. eauto.
Qed.

Lemma rpath_lpath rp : forall frm til,
  rpath_ok F toks rp frm til -> lpath_ok F toks (rev rp) frm til.
Proof.
  induction rp as [|nd rest IH]; intros frm til H; simpl in H; [destruct H|].
  destruct H as (s & Hn & Hle & Hrest). simpl.
  apply lpath_ok_snoc with (mid := s); [|exact Hn].
  destruct rest as [|r rs].
  - subst s. reflexivity.
  - now apply IH.
Qed.

Lemma lpath_ok_le p : forall frm til, lpath_ok F toks p frm til -> frm <= til.
Proof.
  induction p as [|nd p IH]; intros frm til H; simpl in H; [lia|].
  destruct H as (m & Hn & Hp). apply IH in Hp.
  destruct nd as [v | st]; simpl in Hn.
  - destruct Hn as (-> & _). lia.
  - destruct Hn as (_ & _ & _ & H). lia.
Qed.

(** *** Forest nodes *)

Lemma dedup_const (l : list symbol) nm :
  l <> [] -> (forall x, In x l -> x = nm) -> dedup l = [nm].
Proof.
  induction l as [|x l IH]; intros Hne Hall; [congruence|].
  simpl. destruct l as [|y l'].
  - simpl. f_equal. apply Hall. now left.
  - assert (Hx : x = nm) by (apply Hall; now left).
    assert (Hy : y = nm) by (apply Hall; right; now left).
    assert (Hs : sym_in x (y :: l') = true).
    { apply sym_in_In. left. congruence. }
    rewrite Hs. apply IH; [discriminate|].
    intros z Hz. apply Hall. now right.
Qed.

Lemma map_result_Forall2 {A B : Type} (f : A -> result B) (l : list A) :
  forall r, map_result f l = Ok r -> Forall2 (fun a b => f a = Ok b) l r.
Proof.
  induction l as [|a l IH]; intros r H; simpl in H.
  - inversion H. constructor.
  - destruct (f a) as [b|e] eqn:Ea; simpl in H; [|discriminate].
    destruct (map_result f l) as [r'|e] eqn:Er; simpl in H; [|discriminate].
    inversion H; subst. constructor; auto.
Qed.

Lemma parse_forest_state_ok b s f :
  In s (col_states F b) -> finished s = true ->
  parse_forest_state g F s = Ok f ->
  fst f = name s /\ fnode_ok F toks f (s_col s) b.
Proof.
  intros Hin Hfin Hf.
  destruct final_valid as (_ & V2 & _).
  destruct (V2 _ _ Hin) as ((al & Hl & Hal) & Hdot & Hs & He & Hz).
  assert (Hnt : is_nt (name s) = Ok true) by (eapply key_is_nt; eauto).
  unfold finished in Hfin. apply Nat.leb_le in Hfin.
  unfold parse_forest_state in Hf.
  destruct (expr s) as [|a l] eqn:E.
  - inversion Hf; subst f. split; [reflexivity|].
    unfold fnode_ok. simpl. split; [exact Hnt|]. split; [exact Hs|].
    split.
    + intros _. apply Hz. simpl in Hdot. lia.
    + intros p [].
  - rewrite He in Hf. inversion Hf; subst f. split; [reflexivity|].
    unfold fnode_ok. simpl. split; [exact Hnt|]. split; [exact Hs|].
    assert (Hd : dot s = List.length (a :: l)) by lia.
    split.
    + intros Hnil. exfalso.
      apply (parse_paths_nonempty (dot s) (name s) (a :: l) (s_col s) b).
      * exists s. split; [exact Hin|]. unfold State_t. now rewrite E.
      * rewrite Hd. simpl. lia.
      * rewrite Hd, firstn_all.
        unfold parse_paths in Hnil.
        destruct (parse_paths_rev g (rev (a :: l)) F (s_col s) b);
          [reflexivity | discriminate].
    + intros p Hp. apply in_map_iff in Hp. destruct Hp as [rp [<- Hrp]].
      rewrite rev_involutive. unfold parse_paths in Hrp.
      eapply parse_paths_rev_sound; eauto.
Qed.

Lemma parse_forest_ok a b nm sts fn :
  sts <> [] ->
  (forall s, In s sts ->
             In s (col_states F b) /\ finished s = true /\
             name s = nm /\ s_col s = a) ->
  parse_forest g F sts = Ok fn ->
  fst fn = nm /\ fnode_ok F toks fn a b.
Proof.
  intros Hne Hall Hf. unfold parse_forest in Hf.
  rewrite (dedup_const (map name sts) nm) in Hf.
  - destruct (map_result (parse_forest_state g F) sts) as [fo|e] eqn:Em;
      simpl in Hf; [|discriminate].
    inversion Hf; subst fn. split; [reflexivity|].
    apply map_result_Forall2 in Em.
    assert (Hok : Forall (fun f => fnode_ok F toks f a b) fo).
    { clear Hf Hne. induction Em as [|s f sts' fo' Hs Hrest IH]; constructor.
      - destruct (Hall s (or_introl eq_refl)) as (H1 & H2 & H3 & H4).
        destruct (parse_forest_state_ok b s f H1 H2 Hs) as [_ Hk].
        now rewrite H4 in Hk.
      - apply IH. intros s' Hs'. apply Hall. now right. }
    destruct Em as [|s f sts' fo' Hs Hrest]; [congruence|].
    inversion Hok as [|? ? Hf0 Hfo']; subst.
    destruct Hf0 as (_ & Hle & Hnil & _).
    destruct (Hall s (or_introl eq_refl)) as (H1 & H2 & H3 & H4).
    destruct final_valid as (_ & V2 & _).
    destruct (V2 _ _ H1) as ((al & Hl & Hal) & _).
    unfold fnode_ok. simpl fst. simpl snd.
    split; [rewrite <- H3; eapply key_is_nt; eauto|].
    split; [exact Hle|]. split.
    + intros Hc. apply Hnil. destruct (snd f); [reflexivity | discriminate].
    + intros p Hp.
      change (snd f ++ List.concat (map snd fo'))
        with (List.concat (map snd (f :: fo'))) in Hp.
      apply in_concat in Hp. destruct Hp as [ps [Hps Hp]].
      apply in_map_iff in Hps. destruct Hps as [f' [<- Hf']].
      rewrite Forall_forall in Hok.
      destruct (Hok f' Hf') as (_ & _ & _ & Hpaths). now apply Hpaths.
  - destruct sts; [congruence | discriminate].
  - intros x Hx. apply in_map_iff in Hx. destruct Hx as [s [<- Hs]].
    now destruct (Hall s Hs) as (_ & _ & H3 & _).
Qed.

(** *** Trees *)

Lemma leaves_node key cs :
  is_nt key = Ok true -> leaves (Node key cs) = flat_map leaves cs.
Proof.
  intros H. simpl. rewrite H.
  induction cs as [|c cs IH]; [reflexivity|]. simpl. now rewrite IH.
Qed.

Lemma tree_ok_node key cs :
  is_nt key = Ok true -> (tree_ok (Node key cs) <-> Forall tree_ok cs).
Proof.
  intros H. simpl. rewrite H.
  induction cs as [|c cs IH].
  - split; [constructor | auto].
  - split.
    + intros [H1 H2]. constructor; [exact H1 | now apply IH].
    + intros Hf. inversion Hf; subst. split; [assumption | now apply IH].
Qed.

Lemma over_paths_In rec nm paths t :
  In t (fst (over_paths g rec F nm paths)) ->
  exists p ts, In p paths /\ path_trees g rec F nm p = Ok ts /\ In t ts.
Proof.
  induction paths as [|p paths IH]; simpl; [intros []|].
  destruct (path_trees g rec F nm p) as [ts|e] eqn:E; simpl; [|intros []].
  destruct (over_paths g rec F nm paths) as [ys e] eqn:Eo. simpl.
  intros Hin. apply in_app_or in Hin. destruct Hin as [Hin | Hin].
  - exists p, ts. auto.
  - destruct (IH Hin) as (p' & ts' & H1 & H2 & H3).
    exists p', ts'. auto.
Qed.

Lemma product_children (rec : forest_node -> yields tree) :
  forall p frm til fs pools children,
    lpath_ok F toks p frm til -> til <= List.length toks ->
    (forall nd a b fn t,
        In nd p -> node_ok F toks nd a b -> forest g F nd = Ok fn ->
        In t (fst (rec fn)) -> tree_ok t /\ leaves t = seg toks a b) ->
    map_result (forest g F) p = Ok fs ->
    exhaust_pools (map rec fs) = Ok pools ->
    In children (product pools) ->
    Forall tree_ok children /\ flat_map leaves children = seg toks frm til.
Proof.
  induction p as [|nd p IH]; intros frm til fs pools children Hp Htil Hrec Hm He Hc.
  - simpl in Hm. inversion Hm; subst fs. simpl in He. inversion He; subst pools.
    simpl in Hc. destruct Hc as [<- | []]. simpl in Hp. subst til.
    split; [constructor | now rewrite seg_same].
  - simpl in Hm.
    destruct (forest g F nd) as [f|e] eqn:Ef; simpl in Hm; [|discriminate].
    destruct (map_result (forest g F) p) as [fs'|e] eqn:Em; simpl in Hm;
      [|discriminate].
    inversion Hm; subst fs. simpl in He.
    destruct (rec f) as [ys [e|]] eqn:Er; [discriminate|].
    destruct (exhaust_pools (map rec fs')) as [pools'|e] eqn:Ee; simpl in He;
      [|discriminate].
    inversion He; subst pools. simpl in Hc.
    apply in_flat_map in Hc. destruct Hc as [x [Hx Hc]].
    apply in_map_iff in Hc. destruct Hc as [cs [<- Hcs]].
    simpl in Hp. destruct Hp as (mid & Hn & Hp).
    assert (Hx' : tree_ok x /\ leaves x = seg toks frm mid).
    { apply (Hrec nd frm mid f x); auto; [now left | now rewrite Er]. }
    destruct (IH mid til fs' pools' cs Hp Htil) as [Hcs1 Hcs2]; auto.
    { intros nd' a b fn t Hin. apply Hrec. now right. }
    destruct Hx' as [Hx1 Hx2].
    split; [constructor; assumption|].
    simpl. rewrite Hx2, Hcs2. apply seg_app; auto.
    + destruct nd as [v | st]; simpl in Hn.
      * destruct Hn as (-> & _). lia.
      * destruct Hn as (_ & _ & _ & H). exact H.
    + eapply lpath_ok_le; eauto.
Qed.

(** Every tree extracted from a forest node flattens to the tokens the
    node accounts for. *)
Lemma extract_trees_sound :
  forall depth fn frm til t,
    fnode_ok F toks fn frm til -> til <= List.length toks ->
    In t (fst (extract_trees g depth F fn)) ->
    tree_ok t /\ leaves t = seg toks frm til.
Proof.
  induction depth as [|depth IH]; intros fn frm til t Hfn Htil Hin;
    [destruct Hin|].
  destruct fn as [nm paths]. destruct Hfn as (Hnt & Hle & Hnil & Hpaths).
  simpl in Hnt, Hnil, Hpaths. cbn [extract_trees] in Hin.
  destruct paths as [|p0 paths0] eqn:Ep.
  - destruct Hin as [<- | []].
    split; [apply tree_ok_node; [exact Hnt | constructor]|].
    rewrite leaves_node by exact Hnt. simpl.
    rewrite (Hnil eq_refl). now rewrite seg_same.
  - rewrite <- Ep in *. clear Ep p0 paths0.
    apply over_paths_In in Hin. destruct Hin as (p & ts & Hp & Hts & Ht).
    unfold path_trees in Hts.
    destruct (map_result (forest g F) p) as [fs|e] eqn:Em; simpl in Hts;
      [|discriminate].
    destruct (exhaust_pools (map (extract_trees g depth F) fs)) as [pools|e]
      eqn:Ee; simpl in Hts; [|discriminate].
    inversion Hts; subst ts. apply in_map_iff in Ht.
    destruct Ht as [children [<- Hch]].
    assert (Hlp : lpath_ok F toks p frm til).
    { rewrite <- (rev_involutive p). apply rpath_lpath. now apply Hpaths. }
    destruct (product_children (extract_trees g depth F) p frm til fs pools
                children Hlp Htil) as [H1 H2]; auto.
    + intros nd a b fn' t' _ Hn Hf Ht'.
      destruct nd as [v | s]; simpl in Hn, Hf.
      * inversion Hf; subst fn'. destruct Hn as (-> & Htok & Hv).
        destruct depth as [|depth']; [destruct Ht'|].
        simpl in Ht'. destruct Ht' as [<- | []].
        split; [simpl; now rewrite Hv|].
        simpl. rewrite Hv. symmetry. now apply seg_one.
      * destruct Hn as (Hs1 & Hs2 & Hs3 & Hs4).
        destruct (parse_forest_ok a b (name s) [s] fn') as [_ Hk];
          [discriminate | | exact Hf |].
        { intros s' [<- | []]. auto. }
        apply (IH fn' a b t' Hk); [|exact Ht'].
        eapply final_item_bound; eauto.
    + split; [now apply tree_ok_node|].
      now rewrite leaves_node.
Qed.

End FinalChart.


(** ** The chart of a prefix of the input

    The first [k] columns of the chart depend on the first [k - 1]
    tokens only: the chart of a prefix of the text is a prefix of the
    chart of the text. *)

Lemma upd_col_firstn ch : forall k i f,
  firstn k (upd_col ch i f) = upd_col (firstn k ch) i f.
Proof.
  induction ch as [|c ch IH]; intros k i f.
  - simpl. rewrite firstn_nil. reflexivity.
  - destruct k as [|k]; [reflexivity|].
    destruct i as [|i]; simpl; [reflexivity|]. now rewrite IH.
Qed.

Lemma upd_col_beyond ch : forall k i f,
  k <= i -> firstn k (upd_col ch i f) = firstn k ch.
Proof.
  induction ch as [|c ch IH]; intros k i f Hk; [reflexivity|].
  destruct k as [|k]; [reflexivity|].
  destruct i as [|i]; [lia|]. simpl. rewrite IH by lia. reflexivity.
Qed.

Lemma col_states_firstn ch k i :
  i < k -> col_states (firstn k ch) i = col_states ch i.
Proof.
  intros Hi. unfold col_states. rewrite nth_error_firstn.
  apply Nat.ltb_lt in Hi. now rewrite Hi.
Qed.

Lemma letter_at_firstn ch k i :
  i < k -> letter_at (firstn k ch) i = letter_at ch i.
Proof.
  intros Hi. unfold letter_at. rewrite nth_error_firstn.
  apply Nat.ltb_lt in Hi. now rewrite Hi.
Qed.

Lemma fill_step_length g eps ch i st :
  List.length (fill_step g eps ch i st) = List.length ch.
Proof. symmetry. apply chart_ext_length. apply fill_step_ext. Qed.

Lemma fill_step_firstn g eps ch k i st :
  i < k -> k <= List.length ch -> s_col st <= i ->
  fill_step g eps (firstn k ch) i st = firstn k (fill_step g eps ch i st).
Proof.
  intros Hi Hk Hs. unfold fill_step, complete, earley_complete.
  rewrite col_states_firstn by lia.
  destruct (finished st); [now rewrite upd_col_firstn|].
  destruct (at_dot st) as [sym|]; [|reflexivity].
  destruct (in_grammar g sym); [now rewrite upd_col_firstn|].
  rewrite length_firstn, Nat.min_l by exact Hk.
  destruct (k <=? i + 1) eqn:E1.
  - apply Nat.leb_le in E1.
    destruct (List.length ch <=? i + 1); [reflexivity|].
    rewrite upd_col_beyond by exact E1. reflexivity.
  - apply Nat.leb_gt in E1.
    assert (E2 : (List.length ch <=? i + 1) = false) by (apply Nat.leb_gt; lia).
    rewrite E2. now rewrite upd_col_firstn.
Qed.

Lemma fill_column_firstn g eps k i :
  forall fuel ch j,
    i < k -> k <= List.length ch -> valid_chart g ch ->
    fill_column g eps fuel (firstn k ch) i j =
    option_map (firstn k) (fill_column g eps fuel ch i j).
Proof.
  induction fuel as [|fuel IH]; intros ch j Hi Hk V; [reflexivity|].
  simpl. rewrite col_states_firstn by exact Hi.
  destruct (nth_error (col_states ch i) j) as [st|] eqn:E; [|reflexivity].
  assert (Hin : In st (col_states ch i)) by (eapply nth_error_In; eauto).
  pose proof V as (V1 & V2 & V3).
  destruct (V2 _ _ Hin) as (_ & _ & Hs & _).
  rewrite (fill_step_firstn g eps ch k i st Hi Hk Hs).
  apply IH; [exact Hi | now rewrite fill_step_length |].
  apply fill_step_valid; [exact V | exact Hin].
Qed.

Lemma firstn_nth_eq {A : Type} (k : nat) : forall (l l' : list A),
  List.length l = List.length l' ->
  (forall j, j < k -> nth_error l' j = nth_error l j) ->
  firstn k l' = firstn k l.
Proof.
  induction k as [|k IH]; intros l l' Hlen H; [reflexivity|].
  destruct l as [|x l], l' as [|x' l']; simpl in Hlen; try discriminate;
    [reflexivity|].
  simpl. pose proof (H 0 ltac:(lia)) as H0. simpl in H0. inversion H0; subst.
  f_equal. apply IH; [lia|]. intros j Hj. apply (H (S j)). lia.
Qed.

Lemma fill_column_later g eps k i :
  forall fuel ch j ch',
    k <= i -> fill_column g eps fuel ch i j = Some ch' ->
    firstn k ch' = firstn k ch /\ List.length ch' = List.length ch.
Proof.
  induction fuel as [|fuel IH]; intros ch j ch' Hk H; [discriminate|].
  simpl in H. destruct (nth_error (col_states ch i) j) as [st|] eqn:E.
  - destruct (IH _ _ _ Hk H) as [H1 H2]. rewrite H1, H2.
    split; [|apply fill_step_length].
    apply firstn_nth_eq; [now rewrite fill_step_length|].
    intros j' Hj'. apply fill_step_before. lia.
  - inversion H; subst. auto.
Qed.

Lemma fill_columns_later g eps k :
  forall n ch i ch',
    k <= i -> fill_columns g eps n ch i = Some ch' ->
    firstn k ch' = firstn k ch /\ List.length ch' = List.length ch.
Proof.
  induction n as [|n IH]; intros ch i ch' Hk H.
  - inversion H; subst. auto.
  - cbn [fill_columns] in H.
    destruct (fill_column g eps (column_fuel g i) ch i 0) as [ch1|] eqn:E;
      [|discriminate].
    destruct (fill_column_later g eps k i _ _ _ _ Hk E) as [H1 H2].
    destruct (IH ch1 (S i) ch' ltac:(lia) H) as [H3 H4].
    split; congruence.
Qed.

Lemma fill_column_valid g eps i ch :
  valid_chart g ch ->
  exists ch', fill_column g eps (column_fuel g i) ch i 0 = Some ch' /\
              valid_chart g ch' /\ List.length ch' = List.length ch.
Proof.
  intros V.
  destruct (fill_column_inv g eps (valid_chart g) (fun _ _ _ => True))
    with (i := i) (fuel := column_fuel g i) (ch := ch) (j := 0)
    as (ch' & H1 & H2 & H3 & _); auto.
  - intros. now apply fill_step_valid.
  - lia.
  - unfold column_fuel. lia.
  - exists ch'. split; [exact H1|]. split; [exact H2|].
    symmetry. now apply chart_ext_length.
Qed.

Lemma fill_columns_firstn g eps k :
  forall n ch i,
    i + n <= k -> k <= List.length ch -> valid_chart g ch ->
    fill_columns g eps n (firstn k ch) i =
    option_map (firstn k) (fill_columns g eps n ch i).
Proof.
  induction n as [|n IH]; intros ch i Hi Hk V; [reflexivity|].
  cbn [fill_columns].
  rewrite fill_column_firstn by (auto; lia).
  destruct (fill_column_valid g eps i ch V) as (ch1 & E & V1 & L1).
  rewrite E. simpl. apply IH; [lia | lia | exact V1].
Qed.

Lemma fill_columns_split g eps :
  forall n m ch i,
    fill_columns g eps (n + m) ch i =
    match fill_columns g eps n ch i with
    | Some ch' => fill_columns g eps m ch' (i + n)
    | None => None
    end.
Proof.
  induction n as [|n IH]; intros m ch i.
  - simpl. now rewrite Nat.add_0_r.
  - cbn [Nat.add fill_columns].
    destruct (fill_column g eps (column_fuel g i) ch i 0) as [ch1|];
      [|reflexivity].
    rewrite IH. replace (S i + n) with (i + S n) by lia. reflexivity.
Qed.

Lemma fill_chart_firstn g eps k ch :
  valid_chart g ch -> k <= List.length ch ->
  fill_chart g eps (firstn k ch) = firstn k (fill_chart g eps ch).
Proof.
  intros V Hk.
  destruct (fill_chart_terminates g eps ch V) as (Hfull & _ & _).
  unfold fill_chart_opt in Hfull.
  replace (List.length ch) with (k + (List.length ch - k)) in Hfull at 1 by lia.
  rewrite fill_columns_split in Hfull.
  destruct (fill_columns g eps k ch 0) as [mid|] eqn:Emid; [|discriminate].
  destruct (fill_columns_later g eps k (List.length ch - k) mid (0 + k) _
              (Nat.le_refl k) Hfull) as [Hl _].
  unfold fill_chart at 1. unfold fill_chart_opt.
  rewrite length_firstn, Nat.min_l by exact Hk.
  rewrite fill_columns_firstn by (auto; lia).
  rewrite Emid. simpl. now rewrite Hl.
Qed.

Lemma tokens_of_app t1 t2 :
  tokens_of (t1 ++ t2)%string = tokens_of t1 ++ tokens_of t2.
Proof. induction t1 as [|c t1 IH]; simpl; [reflexivity | now rewrite IH]. Qed.

Lemma columns_from_app l1 : forall i l2,
  columns_from i (l1 ++ l2) =
  columns_from i l1 ++ columns_from (i + List.length l1) l2.
Proof.
  induction l1 as [|x l1 IH]; intros i l2; simpl.
  - now rewrite Nat.add_0_r.
  - rewrite IH. replace (S i + List.length l1) with (i + S (List.length l1)) by lia.
    reflexivity.
Qed.

Lemma seed_chart_firstn t1 t2 start alts :
  seed_chart t1 start alts =
  firstn (S (String.length t1)) (seed_chart (t1 ++ t2) start alts).
Proof.
  unfold seed_chart. rewrite upd_col_firstn. f_equal.
  rewrite tokens_of_app, map_app.
  change (None :: map Some (tokens_of t1) ++ map Some (tokens_of t2))
    with ((None :: map Some (tokens_of t1)) ++ map Some (tokens_of t2)).
  rewrite columns_from_app.
  rewrite <- (tokens_of_length t1).
  replace (S (List.length (tokens_of t1)))
    with (List.length (columns_from 0 (None :: map Some (tokens_of t1))) + 0).
  - rewrite firstn_app_2. simpl. now rewrite app_nil_r.
  - rewrite columns_from_length. simpl. rewrite length_map. lia.
Qed.

(** The chart of a prefix is the prefix of the chart. *)
Lemma chart_parse_firstn g eps t1 t2 start alts :
  lookup g start = Some alts ->
  chart_parse g eps t1 start alts =
  firstn (S (String.length t1)) (chart_parse g eps (t1 ++ t2) start alts).
Proof.
  intros Hl. unfold chart_parse.
  rewrite (seed_chart_firstn t1 t2). apply fill_chart_firstn.
  - now apply seed_chart_valid.
  - rewrite seed_chart_length.
    rewrite <- !tokens_of_length, tokens_of_app, length_app. lia.
Qed.

(** ** Forests and trees read the columns up to their right end only *)

Lemma flat_map_ext_In {A B : Type} (f f' : A -> list B) (l : list A) :
  (forall a, In a l -> f a = f' a) -> flat_map f l = flat_map f' l.
Proof.
  induction l as [|x l IH]; intros H; [reflexivity|].
  simpl. rewrite (H x (or_introl eq_refl)). f_equal.
  apply IH. intros a Ha. apply H. now right.
Qed.

Lemma map_result_ext_In {A B : Type} (f f' : A -> result B) (l : list A) :
  (forall a, In a l -> f a = f' a) -> map_result f l = map_result f' l.
Proof.
  induction l as [|x l IH]; intros H; [reflexivity|].
  simpl. rewrite (H x (or_introl eq_refl)). rewrite IH; [reflexivity|].
  intros a Ha. apply H. now right.
Qed.

Lemma parse_paths_rev_firstn g ch k :
  (forall i st, In st (col_states ch i) -> s_col st <= i) ->
  forall rexpr frm til,
    til < k ->
    parse_paths_rev g rexpr (firstn k ch) frm til =
    parse_paths_rev g rexpr ch frm til.
Proof.
  intros Hs. induction rexpr as [|var rest IH]; intros frm til Htil;
    [reflexivity|].
  cbn [parse_paths_rev].
  rewrite col_states_firstn by exact Htil.
  unfold letter_is. rewrite letter_at_firstn by exact Htil.
  apply flat_map_ext_In. intros [nd s] Hin. simpl.
  destruct rest as [|r rs]; [reflexivity|].
  f_equal. apply IH.
  destruct (in_grammar g var).
  - apply in_map_iff in Hin. destruct Hin as [st [Heq Hf]].
    inversion Heq; subst. apply filter_In in Hf. destruct Hf as [Hf _].
    apply Hs in Hf. lia.
  - destruct ((0 <? til) &&
              match letter_at ch til with
              | Some l => String.eqb l var
              | None => false
              end); [|destruct Hin].
    destruct Hin as [Heq | []]. inversion Heq; subst. lia.
Qed.

Lemma parse_forest_state_firstn g ch k s :
  (forall i st, In st (col_states ch i) -> s_col st <= i) ->
  (forall b, e_col s = Some b -> b < k) ->
  parse_forest_state g (firstn k ch) s = parse_forest_state g ch s.
Proof.
  intros Hs He. unfold parse_forest_state.
  destruct (expr s) as [|a l]; [reflexivity|].
  destruct (e_col s) as [b|]; [|reflexivity].
  unfold parse_paths. rewrite parse_paths_rev_firstn; auto.
Qed.

Lemma parse_forest_firstn g ch k sts :
  (forall i st, In st (col_states ch i) -> s_col st <= i) ->
  (forall s b, In s sts -> e_col s = Some b -> b < k) ->
  parse_forest g (firstn k ch) sts = parse_forest g ch sts.
Proof.
  intros Hs He. unfold parse_forest.
  rewrite (map_result_ext_In (parse_forest_state g (firstn k ch))
                             (parse_forest_state g ch)); [reflexivity|].
  intros s Hin. apply parse_forest_state_firstn; eauto.
Qed.

Lemma over_paths_ext g rec1 rec2 ch1 ch2 nm paths :
  (forall p, In p paths ->
             path_trees g rec1 ch1 nm p = path_trees g rec2 ch2 nm p) ->
  over_paths g rec1 ch1 nm paths = over_paths g rec2 ch2 nm paths.
Proof.
  induction paths as [|p paths IH]; intros H; [reflexivity|].
  simpl. rewrite (H p (or_introl eq_refl)).
  rewrite IH; [reflexivity|]. intros q Hq. apply H. now right.
Qed.

Lemma lpath_ok_nodes ch toks p : forall frm til nd,
  lpath_ok ch toks p frm til -> In nd p ->
  exists a b, node_ok ch toks nd a b /\ frm <= a /\ b <= til.
Proof.
  assert (Hle : forall nd a b, node_ok ch toks nd a b -> a <= b).
  { intros [v | s] a b H; simpl in H.
    - destruct H as (-> & _). lia.
    - now destruct H as (_ & _ & _ & H). }
  assert (Hspan : forall q frm til, lpath_ok ch toks q frm til -> frm <= til).
  { induction q as [|x q IH]; intros frm til H; simpl in H; [lia|].
    destruct H as (m & Hn & Hq). apply Hle in Hn. apply IH in Hq. lia. }
  induction p as [|x p IH]; intros frm til nd Hp Hin; [destruct Hin|].
  simpl in Hp. destruct Hp as (m & Hn & Hp).
  destruct Hin as [<- | Hin].
  - exists frm, m. split; [exact Hn|]. split; [lia|]. eapply Hspan; eauto.
  - destruct (IH m til nd Hp Hin) as (a & b & H1 & H2 & H3).
    exists a, b. split; [exact H1|]. apply Hle in Hn. lia.
Qed.

Lemma map_result_In {A B : Type} (f : A -> result B) (l : list A) :
  forall r b, map_result f l = Ok r -> In b r -> exists a, In a l /\ f a = Ok b.
Proof.
  intros r b H Hb. apply map_result_Forall2 in H.
  induction H as [|a b' l' r' Hab Hrest IH]; [destruct Hb|].
  destruct Hb as [<- | Hb].
  - exists a. split; [now left | exact Hab].
  - destruct (IH Hb) as (a' & H1 & H2). exists a'. split; [now right | exact H2].
Qed.

Section PrefixChart.

Variable g : grammar.
Variable eps : list symbol.
Variable text : string.
Variable start : symbol.
Variable alts : list alternative.

Hypothesis Hwf : wf_grammar g.
Hypothesis Heps : nullable g = Ok eps.
Hypothesis Hstart : lookup g start = Some alts.

#[warnings="-notation-for-abbreviation"]
Local Notation F := (chart_parse g eps text start alts).
#[warnings="-notation-for-abbreviation"]
Local Notation toks := (tokens_of text).

Lemma final_s_col i st : In st (col_states F i) -> s_col st <= i.
Proof.
  intros Hin.
  destruct (final_valid g eps text start alts Hwf Heps Hstart) as (_ & V2 & _).
  now destruct (V2 _ _ Hin) as (_ & _ & Hs & _).
Qed.

Lemma final_e_col i st : In st (col_states F i) -> e_col st = Some i.
Proof.
  intros Hin.
  destruct (final_valid g eps text start alts Hwf Heps Hstart) as (_ & V2 & _).
  now destruct (V2 _ _ Hin) as (_ & _ & _ & He & _).
Qed.

Lemma forest_firstn k nd a b :
  node_ok F toks nd a b -> b < k ->
  forest g (firstn k F) nd = forest g F nd.
Proof.
  intros Hn Hb. destruct nd as [v | s]; [reflexivity|].
  simpl in Hn. destruct Hn as (Hin & _). simpl.
  apply parse_forest_firstn; [exact final_s_col|].
  intros s' b' [<- | []] He. rewrite (final_e_col b s Hin) in He.
  inversion He. lia.
Qed.

(** The trees of a forest node are the same on the chart cut after the
    right end of the node. *)
Lemma extract_trees_firstn k :
  forall depth fn frm til,
    fnode_ok F toks fn frm til -> til < k ->
    extract_trees g depth (firstn k F) fn = extract_trees g depth F fn.
Proof.
  induction depth as [|depth IH]; intros fn frm til Hfn Htil; [reflexivity|].
  destruct fn as [nm paths]. cbn [extract_trees].
  destruct paths as [|p0 paths0] eqn:Ep; [reflexivity|].
  rewrite <- Ep in *. clear Ep p0 paths0.
  destruct Hfn as (Hnt & Hle & Hnil & Hpaths). simpl in Hpaths.
  apply over_paths_ext. intros p Hp.
  assert (Hlp : lpath_ok F toks p frm til).
  { rewrite <- (rev_involutive p).
    apply (rpath_lpath g eps text start alts). now apply Hpaths. }
  unfold path_trees.
  rewrite (map_result_ext_In (forest g (firstn k F)) (forest g F)).
  - destruct (map_result (forest g F) p) as [fs|e] eqn:Em; [|reflexivity].
    simpl.
    assert (Hmap : map (extract_trees g depth (firstn k F)) fs =
                   map (extract_trees g depth F) fs).
    { apply map_ext_in. intros f Hf.
      destruct (map_result_In _ _ _ _ Em Hf) as (nd & Hnd & Hfnd).
      destruct (lpath_ok_nodes F toks p frm til nd Hlp Hnd)
        as (a & b & Hn & Ha & Hb).
      destruct nd as [v | s]; simpl in Hfnd.
      - inversion Hfnd; subst f. destruct depth; reflexivity.
      - simpl in Hn. destruct Hn as (Hs1 & Hs2 & Hs3 & Hs4).
        destruct (parse_forest_ok g eps text start alts Hwf Heps Hstart
                    a b (name s) [s] f) as [_ Hk];
          [discriminate | | exact Hfnd |].
        { intros s' [<- | []]. auto. }
        apply (IH f a b Hk). lia. }
    now rewrite Hmap.
  - intros nd Hnd.
    destruct (lpath_ok_nodes F toks p frm til nd Hlp Hnd)
      as (a & b & Hn & Ha & Hb).
    apply (forest_firstn k nd a b Hn). lia.
Qed.

End PrefixChart.

(** ** Flattening a tree *)

Lemma expand_loop_leaves :
  forall fuel ts acc,
    Forall tree_ok ts -> list_sum (map tree_size ts) <= fuel ->
    expand_loop fuel ts acc = Ok (acc ++ flat_map leaves ts).
Proof.
  induction fuel as [|fuel IH]; intros ts acc Hok Hf.
  - destruct ts as [|[key cs] rest]; [simpl; now rewrite app_nil_r|].
    simpl in Hf. lia.
  - destruct ts as [|[key cs] rest]; [simpl; now rewrite app_nil_r|].
    inversion Hok as [|? ? Ht Hrest]; subst.
    cbn [expand_loop]. cbn [map list_sum fold_right tree_size] in Hf.
    destruct (is_nt key) as [[|]|e] eqn:Ek.
    + cbn [bind]. rewrite IH.
      * rewrite flat_map_app. cbn [flat_map].
        rewrite (leaves_node key cs Ek). now rewrite app_assoc.
      * apply Forall_app. split; [|exact Hrest].
        now apply (tree_ok_node key cs Ek).
      * rewrite map_app, list_sum_app.
        change (list_sum (map tree_size rest))
          with (fold_right Nat.add 0 (map tree_size rest)) in *.
        unfold list_sum in *. lia.
    + cbn [bind]. simpl in Ht. rewrite Ek in Ht. subst cs.
      rewrite IH.
      * cbn [flat_map]. simpl leaves. rewrite Ek.
        now rewrite <- app_assoc.
      * exact Hrest.
      * simpl in Hf. unfold list_sum. lia.
    + simpl in Ht. rewrite Ek in Ht. destruct Ht.
Qed.

Lemma tree_to_str_leaves t :
  tree_ok t -> tree_to_str t = Ok (String.concat "" (leaves t)).
Proof.
  intros Hok. unfold tree_to_str.
  rewrite (expand_loop_leaves (tree_size t) [t] []).
  - simpl. now rewrite app_nil_r.
  - constructor; [exact Hok | constructor].
  - simpl. lia.
Qed.

Lemma split_text text : forall i,
  i <= String.length text ->
  exists t1 t2, text = (t1 ++ t2)%string /\ String.length t1 = i /\
                tokens_of t1 = firstn i (tokens_of text).
Proof.
  induction text as [|c text IH]; intros i Hi.
  - simpl in Hi. assert (i = 0) by lia. subst. exists "", "". auto.
  - destruct i as [|i].
    + exists "", (String c text). auto.
    + simpl in Hi. destruct (IH i ltac:(lia)) as (t1 & t2 & H1 & H2 & H3).
      exists (String c t1), t2. simpl. rewrite <- H1, H2, H3. auto.
Qed.

(** ** C2: round trip of parsing and flattening *)

Lemma recognize_on_Ok g eps pe text start table starts :
  recognize_on g eps pe text start = Ok (table, starts) ->
  exists alts cursor sts,
    lookup g start = Some alts /\
    table = chart_parse g eps text start alts /\
    latest_start start alts (rev table) = (cursor, sts) /\
    starts = filter finished sts /\
    pe && ((cursor <? Z.of_nat (String.length text))%Z
           || match starts with [] => true | _ => false end) = false.
Proof.
  unfold recognize_on, parse_prefix. intros H.
  destruct (lookup g start) as [alts|]; [|discriminate].
  cbn [bind] in H.
  destruct (latest_start start alts (rev (chart_parse g eps text start alts)))
    as [cursor sts] eqn:El.
  destruct (pe && ((cursor <? Z.of_nat (String.length text))%Z
                   || match filter finished sts with [] => true | _ => false end))
    eqn:Ec; [discriminate|].
  inversion H; subst. exists alts, cursor, sts. auto.
Qed.

(** C2.  Round trip of parsing and flattening.  For a grammar whose keys
    are distinct nonterminals [<...>], whatever the setting of
    [parse_exceptions], every tree [t] that [parse_on(text, start)]
    yields is flattened by [tree_to_str] without error, and
    [parse_on(tree_to_str(t), start)] yields [t] again.  (The flattening
    is the part of the text that the parse covers: the whole text when
    [parse_exceptions] is on.) *)
Theorem parse_on_round_trip
    (g : grammar) (pe : bool) (p : Parser) (depth : nat) (text : string)
    (start : symbol) (t : tree) :
  wf_grammar g ->
  EarleyParser g pe = Ok p ->
  In t (fst (parse_on p depth text start)) ->
  exists s, tree_to_str t = Ok s /\ In t (fst (parse_on p depth s start)).
Proof.
  intros Hwf Hp Hin.
  unfold EarleyParser in Hp.
  destruct (nullable g) as [eps|e] eqn:Heps; cbn [bind] in Hp; [|discriminate].
  inversion Hp; subst p. clear Hp.
  unfold parse_on in Hin |- *.
  cbn [p_grammar p_epsilon p_parse_exceptions] in *.
  destruct (recognize_on g eps pe text start) as [[table starts]|e] eqn:Er;
    [|destruct Hin].
  destruct (recognize_on_Ok _ _ _ _ _ _ _ Er)
    as (alts & cursor & sts & Hl & Ht & Hls & Hst & Hcond).
  destruct (parse_forest g table starts) as [f|e] eqn:Ef; [|destruct Hin].
  assert (Hne : starts <> []).
  { intros ->. unfold parse_forest in Ef. simpl in Ef. discriminate. }
  destruct (latest_start_spec start alts _ _ _ Hls)
    as [(_ & Hs & _) | (pre & c & post & Hrt & _ & Hs & Hsne & Hc)].
  { subst sts. simpl in Hst. contradiction. }
  assert (Htab : table = (rev post ++ [c]) ++ rev pre).
  { rewrite <- (rev_involutive table), Hrt, rev_app_distr. reflexivity. }
  set (i := List.length post).
  assert (Hlen : List.length (rev post ++ [c]) = S i).
  { rewrite length_app, length_rev. simpl. unfold i. lia. }
  assert (Hnth : nth_error table i = Some c).
  { rewrite Htab. rewrite nth_error_app1 by lia.
    rewrite nth_error_app2 by (rewrite length_rev; unfold i; lia).
    rewrite length_rev. unfold i. now rewrite Nat.sub_diag. }
  pose proof (final_valid g eps text start alts Hwf Heps Hl) as V.
  rewrite <- Ht in V. pose proof V as (V1 & V2 & V3).
  assert (Hidx : index c = i) by (now apply V1).
  assert (Hcol : col_states table i = states c).
  { unfold col_states. now rewrite Hnth. }
  assert (Hi : i <= String.length text).
  { assert (i < List.length table) by (apply nth_error_Some; congruence).
    rewrite Ht in H.
    rewrite (final_length g eps text start alts Hwf Heps Hl) in H.
    rewrite tokens_of_length in H. lia. }
  assert (Hstarts : forall s, In s starts ->
            In s (col_states table i) /\ finished s = true /\
            name s = start /\ s_col s = 0).
  { intros s Hin_s. rewrite Hst in Hin_s. apply filter_In in Hin_s.
    destruct Hin_s as [H1 H2]. rewrite Hs in H1.
    apply start_states_In in H1. destruct H1 as (H3 & H4 & _ & H5).
    rewrite Hcol. auto. }
  assert (Hfn : fnode_ok table (tokens_of text) f 0 i).
  { rewrite Ht.
    apply (parse_forest_ok g eps text start alts Hwf Heps Hl 0 i start starts f);
      [exact Hne | rewrite <- Ht; exact Hstarts | rewrite <- Ht; exact Ef]. }
  assert (Hsound : tree_ok t /\ leaves t = seg (tokens_of text) 0 i).
  { apply (extract_trees_sound g eps text start alts Hwf Heps Hl depth f 0 i t).
    - rewrite <- Ht. exact Hfn.
    - rewrite tokens_of_length. exact Hi.
    - rewrite <- Ht. exact Hin. }
  destruct Hsound as [Hok Hleaves].
  destruct (split_text text i Hi) as (t1 & t2 & Htext & Hlen1 & Htok1).
  exists t1. split.
  - rewrite (tree_to_str_leaves t Hok), Hleaves. f_equal.
    unfold seg. simpl skipn. rewrite Nat.sub_0_r, <- Htok1.
    apply concat_tokens_of.
  - assert (Hchart : chart_parse g eps t1 start alts = firstn (S i) table).
    { rewrite Ht, Htext, <- Hlen1. now apply chart_parse_firstn. }
    assert (Hrev : rev (firstn (S i) table) = c :: post).
    { rewrite Htab. rewrite <- Hlen.
      replace (List.length (rev post ++ [c]))
        with (List.length (rev post ++ [c]) + 0) by lia.
      rewrite firstn_app_2. simpl firstn. rewrite app_nil_r.
      rewrite rev_app_distr, rev_involutive. reflexivity. }
    assert (Er1 : recognize_on g eps pe t1 start = Ok (firstn (S i) table, starts)).
    { unfold recognize_on, parse_prefix. rewrite Hl. cbn [bind].
      rewrite Hchart, Hrev. cbn [latest_start]. rewrite <- Hs.
      destruct sts as [|s0 ss]; [congruence|].
      rewrite <- Hst.
      assert (Hz : (Z.of_nat (index c) <? Z.of_nat (String.length t1))%Z = false).
      { rewrite Hidx, Hlen1. apply Z.ltb_irrefl. }
      rewrite Hz.
      destruct starts as [|s1 ss1]; [congruence|].
      simpl. rewrite andb_false_r. reflexivity. }
    rewrite Er1.
    assert (Ef1 : parse_forest g (firstn (S i) table) starts = Ok f).
    { rewrite <- Ef. apply parse_forest_firstn.
      - intros j st Hj. now destruct (V2 _ _ Hj) as (_ & _ & H & _).
      - intros s b Hs_in Hb. destruct (Hstarts s Hs_in) as (H1 & _).
        destruct (V2 _ _ H1) as (_ & _ & _ & He & _).
        rewrite He in Hb. inversion Hb. lia. }
    rewrite Ef1.
    rewrite Ht.
    rewrite (extract_trees_firstn g eps text start alts Hwf Heps Hl (S i)
               depth f 0 i); [rewrite <- Ht; exact Hin | | lia].
    rewrite <- Ht. exact Hfn.
Qed.

Lemma sum_grammar_wf : wf_grammar sum_grammar.
Proof.
  split.
  - simpl. constructor.
    + intros [H | []]. discriminate.
    + constructor; [intros [] | constructor].
  - intros k [<- | [<- | []]]; reflexivity.
Qed.

Lemma parse_on_round_trip_witness :
  exists s,
    tree_to_str
      (Node "<S>" [Node "<E>" [Node "<E>" [Node "1" []]; Node "+" [];
                               Node "<E>" [Node "1" []]]]) = Ok s /\
    In (Node "<S>" [Node "<E>" [Node "<E>" [Node "1" []]; Node "+" [];
                                Node "<E>" [Node "1" []]]])
       (fst (parse_on (mkParser sum_grammar [] false) 6 s "<S>")).
Proof.
  apply (parse_on_round_trip sum_grammar false (mkParser sum_grammar [] false) 6
           "1+1+" "<S>").
  - exact sum_grammar_wf.
  - reflexivity.
  - vm_compute. left. reflexivity.
Defined.


(** ** C9: packed nodes of the SPPF are unique within their parent *)

Lemma bind_ensures {A B : Type} (r : result A) (k : A -> result B)
    (Q1 : A -> Prop) (Q2 : B -> Prop) :
  ensures r Q1 -> (forall a, Q1 a -> ensures (k a) Q2) ->
  ensures (bind r k) Q2.
Proof.
  intros H1 H2 b Hb. destruct r as [a|e]; [|discriminate].
  simpl in Hb. apply (H2 a); [|exact Hb]. apply H1. reflexivity.
Qed.

Lemma Ok_ensures {A : Type} (a : A) (Q : A -> Prop) : Q a -> ensures (Ok a) Q.
Proof. intros H b Hb. inversion Hb; subst. exact H. Qed.

Lemma Raise_ensures {A : Type} (e : exn) (Q : A -> Prop) : ensures (Raise e) Q.
Proof. intros b Hb. discriminate. Qed.

Lemma fold_ensures {A B : Type} (f : result A -> B -> result A)
    (Q : A -> Prop) :
  (forall e b, f (Raise e) b = Raise e) ->
  (forall a b, Q a -> ensures (f (Ok a) b) Q) ->
  forall l acc, ensures acc Q -> ensures (fold_left f l acc) Q.
Proof.
  intros Hraise Hok. induction l as [|b l IH]; intros acc Hacc; simpl; auto.
  apply IH. destruct acc as [a|e].
  - apply Hok. now apply Hacc.
  - rewrite Hraise. apply Raise_ensures.
Qed.

Lemma sppf_tag_eqb_eq a b : GLL.sppf_tag_eqb a b = true <-> a = b.
Proof.
  destruct a, b; simpl; split; intros H; try discriminate; try reflexivity.
  - apply String.eqb_eq in H. now subst.
  - inversion H. apply String.eqb_refl.
  - apply andb_prop in H. destruct H as [H H3].
    apply andb_prop in H. destruct H as [H1 H2].
    apply String.eqb_eq in H1. apply Nat.eqb_eq in H2. apply Nat.eqb_eq in H3.
    now subst.
  - inversion H. now rewrite String.eqb_refl, !Nat.eqb_refl.
  - apply andb_prop in H. destruct H as [H H4].
    apply andb_prop in H. destruct H as [H H3].
    apply andb_prop in H. destruct H as [H1 H2].
    apply String.eqb_eq in H1. apply Nat.eqb_eq in H2. apply Nat.eqb_eq in H3.
    apply Nat.eqb_eq in H4. now subst.
  - inversion H. now rewrite String.eqb_refl, !Nat.eqb_refl.
Qed.

Lemma sppf_key_eqb_eq a b : GLL.sppf_key_eqb a b = true <-> a = b.
Proof.
  destruct a as [[t j] i], b as [[t' j'] i']. simpl. split; intros H.
  - apply andb_prop in H. destruct H as [H H3].
    apply andb_prop in H. destruct H as [H1 H2].
    apply sppf_tag_eqb_eq in H1. apply Nat.eqb_eq in H2. apply Nat.eqb_eq in H3.
    now subst.
  - inversion H. rewrite !Nat.eqb_refl.
    rewrite (proj2 (sppf_tag_eqb_eq t' t') eq_refl). reflexivity.
Qed.

Lemma sppf_key_eqb_refl a : GLL.sppf_key_eqb a a = true.
Proof. now apply sppf_key_eqb_eq. Qed.

Lemma assoc_app_one {V : Type} (l : list (GLL.sppf_key * V)) k v k' :
  GLL.assoc GLL.sppf_key_eqb (l ++ [(k, v)]) k' =
  match GLL.assoc GLL.sppf_key_eqb l k' with
  | Some x => Some x
  | None => if GLL.sppf_key_eqb k' k then Some v else None
  end.
Proof.
  induction l as [|[k0 v0] l IH]; simpl; [reflexivity|].
  destruct (GLL.sppf_key_eqb k' k0); [reflexivity | exact IH].
Qed.

Lemma assoc_assoc_set {V : Type} (l : list (GLL.sppf_key * V)) k v k' :
  GLL.assoc GLL.sppf_key_eqb (GLL.assoc_set GLL.sppf_key_eqb l k v) k' =
  if GLL.sppf_key_eqb k' k then Some v
  else GLL.assoc GLL.sppf_key_eqb l k'.
Proof.
  induction l as [|[k0 v0] l IH]; simpl.
  - destruct (GLL.sppf_key_eqb k' k); reflexivity.
  - destruct (GLL.sppf_key_eqb k k0) eqn:E0; simpl.
    + apply sppf_key_eqb_eq in E0. subst k0.
      destruct (GLL.sppf_key_eqb k' k); reflexivity.
    + destruct (GLL.sppf_key_eqb k' k0) eqn:E1.
      * apply sppf_key_eqb_eq in E1. subst k0.
        destruct (GLL.sppf_key_eqb k' k) eqn:E2; [|reflexivity].
        apply sppf_key_eqb_eq in E2. subst k'.
        rewrite sppf_key_eqb_refl in E0. discriminate.
      * exact IH.
Qed.

Lemma packed_labels_app cs1 cs2 :
  packed_labels (cs1 ++ cs2) = packed_labels cs1 ++ packed_labels cs2.
Proof.
  induction cs1 as [|c cs1 IH]; simpl; [reflexivity|].
  destruct (packed_label c); simpl; now rewrite IH.
Qed.

Lemma packed_labels_absent X nalt dot k cs :
  existsb (GLL.child_has_label X nalt dot k) cs = false ->
  ~ In (X, nalt, dot, k) (packed_labels cs).
Proof.
  induction cs as [|c cs IH]; simpl; [auto|].
  intros H. apply orb_false_elim in H. destruct H as [Hc Hcs].
  unfold GLL.child_has_label in Hc. unfold packed_label.
  destruct (fst (fst c)) as [| x | X' n' d' | X' n' d' k'] eqn:Et; auto.
  intros [Heq | Hin]; [|now apply IH].
  inversion Heq; subst.
  rewrite (proj2 (sppf_tag_eqb_eq _ _) eq_refl) in Hc. discriminate.
Qed.

Lemma NoDup_snoc {A : Type} (l : list A) (x : A) :
  NoDup l -> ~ In x l -> NoDup (l ++ [x]).
Proof.
  induction l as [|a l IH]; intros Hn Hx; simpl.
  - constructor; [intros [] | constructor].
  - inversion Hn; subst. constructor.
    + intros Hin. apply in_app_or in Hin. destruct Hin as [Hin | [Heq | []]].
      * contradiction.
      * subst. apply Hx. now left.
    + apply IH; [assumption|]. intros Hin. apply Hx. now right.
Qed.

Lemma packed_unique_empty : packed_unique_store [].
Proof. intros key node H. discriminate. Qed.

Lemma find_or_create_unique p k :
  packed_unique p -> packed_unique (GLL.sppf_find_or_create p k).
Proof.
  intros Hp. unfold GLL.sppf_find_or_create.
  destruct (GLL.assoc GLL.sppf_key_eqb (GLL.SPPF_nodes p) k) eqn:E; [exact Hp|].
  intros key node Hk Hc. unfold packed_unique in Hp. simpl in Hk.
  rewrite assoc_app_one in Hk.
  destruct (GLL.assoc GLL.sppf_key_eqb (GLL.SPPF_nodes p) key) as [n|] eqn:E1.
  - inversion Hk; subst. now apply (Hp key).
  - destruct (GLL.sppf_key_eqb key k); [|discriminate].
    inversion Hk; subst. simpl. constructor.
Qed.

Lemma add_child_unique p y X nalt dot k j i :
  packed_unique p ->
  existsb (GLL.child_has_label X nalt dot k) (GLL.node_children p y) = false ->
  packed_unique (GLL.add_child p y (GLL.TPacked X nalt dot k, j, i)).
Proof.
  intros Hp Hex. unfold GLL.add_child.
  destruct (GLL.assoc GLL.sppf_key_eqb (GLL.SPPF_nodes p) y) as [n|] eqn:E;
    [|exact Hp].
  intros key node Hk Hc. simpl in Hk. rewrite assoc_assoc_set in Hk.
  destruct (GLL.sppf_key_eqb key y) eqn:Ey.
  - apply sppf_key_eqb_eq in Ey. subst key. inversion Hk; subst node.
    simpl. rewrite packed_labels_app. simpl.
    apply NoDup_snoc.
    + now apply (Hp y n).
    + apply packed_labels_absent.
      unfold GLL.node_children in Hex. now rewrite E in Hex.
  - now apply (Hp key).
Qed.

Lemma getNodeP_unique p X nalt dot w z :
  packed_unique p ->
  ensures (GLL.getNodeP p X nalt dot w z) (fun r => packed_unique (snd r)).
Proof.
  intros Hp. unfold GLL.getNodeP.
  destruct (lookup (GLL.p_gram p) X) as [alts|]; [|apply Raise_ensures].
  destruct (nth_error alts nalt) as [rule|]; [|apply Raise_ensures].
  apply bind_ensures with (Q1 := fun _ => True); [intros a _; exact I|].
  intros nn _.
  destruct (nn && _); [apply Ok_ensures; exact Hp|].
  destruct z as [[tg k] i].
  apply bind_ensures with (Q1 := fun _ => True); [intros a _; exact I|].
  intros nd _.
  set (y := (match skipn dot rule with
             | [] => GLL.TStr X
             | _ :: _ => GLL.TSlot X nalt dot
             end, if nd then snd (fst w) else k, i)).
  pose proof (find_or_create_unique p y Hp) as Hp1.
  destruct (existsb (GLL.child_has_label X nalt dot k)
                    (GLL.node_children (GLL.sppf_find_or_create p y) y)) eqn:Ex;
    [apply Ok_ensures; exact Hp1|].
  destruct (GLL.assoc GLL.sppf_key_eqb
              (GLL.SPPF_nodes (GLL.sppf_find_or_create p y))
              (GLL.TPacked X nalt dot k, if nd then snd (fst w) else k, i))
    eqn:Ea; [apply Raise_ensures|].
  apply Ok_ensures. simpl snd.
  apply add_child_unique.
  - intros key node Hk Hc. simpl in Hk. rewrite assoc_app_one in Hk.
    destruct (GLL.assoc GLL.sppf_key_eqb
                (GLL.SPPF_nodes (GLL.sppf_find_or_create p y)) key)
      as [n|] eqn:E1.
    + inversion Hk; subst. now apply (Hp1 key).
    + destruct (GLL.sppf_key_eqb key _) eqn:E2; [|discriminate].
      apply sppf_key_eqb_eq in E2. subst key. exfalso. apply Hc. reflexivity.
  - unfold GLL.node_children in *. simpl. rewrite assoc_app_one.
    destruct (GLL.assoc GLL.sppf_key_eqb
                (GLL.SPPF_nodes (GLL.sppf_find_or_create p y)) y) as [n|] eqn:E1.
    + exact Ex.
    + destruct (GLL.sppf_key_eqb y _) eqn:E2; [|reflexivity].
      apply sppf_key_eqb_eq in E2. unfold y in E2.
      destruct (skipn dot rule); discriminate.
Qed.

Lemma add_thread_unique p L u i w :
  packed_unique p ->
  ensures (GLL.add_thread p L u i w) packed_unique.
Proof.
  intros Hp. unfold GLL.add_thread.
  destruct (nth_error (GLL.U p) i) as [us|]; [|apply Raise_ensures].
  destruct (existsb _ us); apply Ok_ensures; exact Hp.
Qed.

Lemma return_loop_unique X nalt dot (l : list (GLL.gss_label * GLL.sppf_key))
    (i : nat) (z : GLL.sppf_key) p :
  packed_unique p ->
  ensures
    (fold_left
       (fun (acc : result GLL.GLLStructuredStackP)
            (e : GLL.gss_label * GLL.sppf_key) =>
          q <- acc ;;
          r <- GLL.getNodeP q X nalt dot (snd e) z ;;
          GLL.add_thread (snd r) (GLL.LSlot X nalt dot) (fst e) i (fst r))
       l (Ok p))
    packed_unique.
Proof.
  intros Hp. apply fold_ensures.
  - reflexivity.
  - intros a b Ha. cbn [bind].
    apply bind_ensures with (Q1 := fun r => packed_unique (snd r)).
    + now apply getNodeP_unique.
    + intros r Hr. now apply add_thread_unique.
  - now apply Ok_ensures.
Qed.

Lemma fn_return_unique p u i z :
  packed_unique p -> ensures (GLL.fn_return p u i z) packed_unique.
Proof.
  intros Hp. unfold GLL.fn_return.
  destruct (GLL.gss_label_eqb u GLL.stack_bottom); [now apply Ok_ensures|].
  destruct (fst u) as [s | X nalt dot]; [apply Raise_ensures|].
  apply return_loop_unique. exact Hp.
Qed.

Lemma gss_get_sppf p v : GLL.SPPF_nodes (GLL.gss_get p v) = GLL.SPPF_nodes p.
Proof.
  unfold GLL.gss_get.
  destruct (GLL.assoc GLL.gss_label_eqb (GLL.graph p) v); reflexivity.
Qed.

Lemma register_return_unique p X nalt dot u i w :
  packed_unique p ->
  ensures (GLL.register_return p X nalt dot u i w)
          (fun r => packed_unique (snd r)).
Proof.
  intros Hp. unfold GLL.register_return.
  assert (Hp1 : packed_unique (GLL.gss_get p (GLL.LSlot X nalt dot, i))).
  { unfold packed_unique. now rewrite gss_get_sppf. }
  destruct (existsb _ _); [now apply Ok_ensures|].
  apply bind_ensures with (Q1 := packed_unique).
  - apply fold_ensures.
    + reflexivity.
    + intros a b Ha. cbn [bind].
      apply bind_ensures with (Q1 := fun r => packed_unique (snd r)).
      * now apply getNodeP_unique.
      * intros r Hr. now apply add_thread_unique.
    + apply Ok_ensures. exact Hp1.
  - intros a Ha. now apply Ok_ensures.
Qed.

Lemma add_alt_threads_unique key alts u i :
  forall n p, packed_unique p ->
    ensures (GLL.add_alt_threads p key n alts u i) packed_unique.
Proof.
  induction alts as [|a alts IH]; intros n p Hp; simpl.
  - now apply Ok_ensures.
  - apply bind_ensures with (Q1 := packed_unique).
    + now apply add_thread_unique.
    + intros p1 Hp1. now apply IH.
Qed.

(** One turn of the loop of the driver keeps the invariant, whether the
    loop goes on or returns the parser. *)
Lemma step_unique g start c :
  packed_unique (GLL.c_parser c) ->
  ensures (GLL.step g start c)
          (fun r => match r with
                    | inl c' => packed_unique (GLL.c_parser c')
                    | inr (GLL.ReturnParser p) => packed_unique p
                    | inr GLL.ReturnEmptyList => True
                    end).
Proof.
  intros Hp. unfold GLL.step.
  destruct (GLL.cL c) as [s|X n pos].
  - destruct (String.eqb s "L0").
    + destruct (GLL.threads (GLL.c_parser c)) as [|[[[L u] i] w] ts].
      * destruct (GLL.assoc _ _ _); apply Ok_ensures; [exact Hp | exact I].
      * apply Ok_ensures. exact Hp.
    + destruct (String.eqb s "L_").
      * apply bind_ensures with (Q1 := packed_unique);
          [now apply fn_return_unique|].
        intros p1 Hp1. now apply Ok_ensures.
      * destruct (lookup g s); [|apply Raise_ensures].
        apply bind_ensures with (Q1 := packed_unique);
          [now apply add_alt_threads_unique|].
        intros p1 Hp1. now apply Ok_ensures.
  - destruct (lookup g X) as [alts|]; [|apply Raise_ensures].
    destruct (nth_error alts n) as [rule|]; [|apply Raise_ensures].
    destruct rule as [|t0 rule].
    + destruct pos; [|apply Raise_ensures].
      unfold GLL.getNodeT.
      apply bind_ensures with (Q1 := fun r => packed_unique (snd r)).
      * apply getNodeP_unique. now apply find_or_create_unique.
      * intros r Hr. now apply Ok_ensures.
    + destruct (nth_error (t0 :: rule) pos) as [t|].
      * apply bind_ensures with (Q1 := fun _ => True); [intros a _; exact I|].
        intros nt _. destruct nt.
        -- apply bind_ensures with (Q1 := fun r => packed_unique (snd r));
             [now apply register_return_unique|].
           intros r Hr. now apply Ok_ensures.
        -- destruct (GLL.input_at _ _) as [ch|]; [|apply Raise_ensures].
           destruct (String.eqb ch t); [|now apply Ok_ensures].
           unfold GLL.getNodeT.
           apply bind_ensures with (Q1 := fun r => packed_unique (snd r)).
           ++ apply getNodeP_unique. now apply find_or_create_unique.
           ++ intros r Hr. now apply Ok_ensures.
      * destruct (Nat.eqb _ _); [now apply Ok_ensures | apply Raise_ensures].
Qed.

Lemma initial_config_unique g text start :
  ensures (GLL.initial_config g text start)
          (fun c => packed_unique (GLL.c_parser c)).
Proof.
  unfold GLL.initial_config.
  apply bind_ensures with (Q1 := packed_unique).
  - unfold GLL.set_grammar.
    apply bind_ensures with (Q1 := fun _ => True); [intros a _; exact I|].
    intros nl _. apply Ok_ensures. exact packed_unique_empty.
  - intros p Hp. apply Ok_ensures. simpl. now apply find_or_create_unique.
Qed.

Lemma steps_unique g start :
  forall n c c',
    packed_unique (GLL.c_parser c) -> steps n g start c = Some c' ->
    packed_unique (GLL.c_parser c').
Proof.
  induction n as [|n IH]; intros c c' Hp H; simpl in H.
  - inversion H; subst. exact Hp.
  - destruct (GLL.step g start c) as [[c1|o]|e] eqn:E; try discriminate.
    apply (IH c1 c'); [|exact H].
    exact (step_unique g start c Hp (inl c1) E).
Qed.

(** C9.  At every turn of the loop of the GLL driver, and in the parser
    object it returns, no symbol or intermediate node of the SPPF (no
    node other than a packed node) has two packed children with the
    same label [(slot, k)]. *)
Theorem packed_children_unique
    (g : grammar) (text : string) (start : symbol) (n : nat)
    (c : GLL.config) :
  config_after n g text start = Some c ->
  packed_unique (GLL.c_parser c) /\
  (forall p, GLL.step g start c = Ok (inr (GLL.ReturnParser p)) ->
             packed_unique p) /\
  (forall X nalt dot w z y p,
      GLL.getNodeP (GLL.c_parser c) X nalt dot w z = Ok (y, p) ->
      packed_unique p).
Proof.
  intros H. unfold config_after in H.
  destruct (GLL.initial_config g text start) as [c0|e] eqn:E0; [|discriminate].
  assert (Hc : packed_unique (GLL.c_parser c)).
  { apply (steps_unique g start n c0 c); [|exact H].
    exact (initial_config_unique g text start c0 E0). }
  split; [exact Hc|]. split.
  - intros p Hs. exact (step_unique g start c Hc _ Hs).
  - intros X nalt dot w z y p Hg.
    exact (getNodeP_unique _ X nalt dot w z Hc (y, p) Hg).
Qed.

Lemma packed_children_unique_witness :
  exists c,
    config_after 9 dup_grammar "a" "<S>" = Some c /\
    packed_unique (GLL.c_parser c) /\
    (forall p, GLL.step dup_grammar "<S>" c = Ok (inr (GLL.ReturnParser p)) ->
               packed_unique p) /\
    (forall X nalt dot w z y p,
        GLL.getNodeP (GLL.c_parser c) X nalt dot w z = Ok (y, p) ->
        packed_unique p).
Proof.
  eexists. split; [vm_compute; reflexivity|].
  apply (packed_children_unique dup_grammar "a" "<S>" 9).
  vm_compute. reflexivity.
Defined.


(** * Part III: further properties of the code *)

(** ** Derivations *)

Lemma derives_app g a w1 :
  derives g a w1 -> forall b w2, derives g b w2 -> derives g (a ++ b) (w1 ++ w2).
Proof.
  induction 1 as [| t rest w Hl Hd IH | X alts alt rest u1 u2 Hl Ha Hd1 IH1 Hd2 IH2];
    intros b w2 Hb; simpl.
  - exact Hb.
  - apply derives_terminal; auto.
  - rewrite <- app_assoc. eapply derives_rule; eauto.
Qed.

Lemma derives_symbol g X alts alt w :
  lookup g X = Some alts -> In alt alts -> derives g alt w -> derives g [X] w.
Proof.
  intros Hl Ha Hd. rewrite <- (app_nil_r w).
  eapply derives_rule; eauto. constructor.
Qed.

Lemma Nullable_derives g X : Nullable g X -> derives g [X] [].
Proof.
  intros H.
  induction H as [k alts alt Hl Ha Hall IH].
  apply (derives_symbol g k alts alt); auto.
  clear Ha. induction alt as [|t alt IHalt]; [constructor|].
  change (t :: alt) with ([t] ++ alt). change (@nil string) with (@nil string ++ []).
  apply derives_app.
  - apply IH. now left.
  - apply IHalt; intros; [apply Hall | apply IH]; now right.
Qed.

Lemma derives_empty_Nullable g a w :
  derives g a w -> w = [] -> forall t, In t a -> Nullable g t.
Proof.
  induction 1 as [| t rest w Hl Hd IH | X alts alt rest u1 u2 Hl Ha Hd1 IH1 Hd2 IH2];
    intros Hw t0 Hin.
  - destruct Hin.
  - discriminate.
  - apply app_eq_nil in Hw. destruct Hw as [-> ->].
    destruct Hin as [<- | Hin].
    + eapply Nullable_rule; eauto.
    + now apply IH2.
Qed.

(** ** Soundness of the chart *)

Lemma col_item_bound ch i st n :
  List.length ch = S n -> In st (col_states ch i) -> i <= n.
Proof.
  intros Hlen Hin. apply col_states_In_nth in Hin. destruct Hin as [c [Hc _]].
  assert (i < List.length ch) by (apply nth_error_Some; congruence). lia.
Qed.

Lemma sound_step g eps toks ch i st :
  (forall k, In k eps -> Nullable g k) ->
  sound_chart g toks ch -> In st (col_states ch i) ->
  sound_chart g toks (fill_step g eps ch i st).
Proof.
  intros Heps (V & Hlen & Hlet & Hsound) Hst.
  pose proof V as (V1 & V2 & V3).
  pose proof (fill_step_ext g eps ch i st) as Hext.
  assert (Hi : i <= List.length toks) by (eapply col_item_bound; eauto).
  split; [now apply fill_step_valid|].
  split; [now rewrite fill_step_length|].
  split; [intros j; rewrite (chart_ext_letter _ _ _ Hext); apply Hlet|].
  intros j st' Hin.
  destruct (fill_step_items g eps ch i st j st' V Hin) as [Hold | Hnew];
    [now apply Hsound|].
  destruct Hnew as [p Hf Hpin Hat | sym alts alt Hf Hat Hl Ha
                    | sym alts Hf Hat Hl Hs | sym Hf Hat Hl Hl1]; simpl.
  - (* completed *)
    unfold at_dot in Hat. rewrite (firstn_succ_nth _ _ _ Hat).
    destruct (V2 _ _ Hst) as ((alts & Hl & Ha) & _ & Hsc & _).
    destruct (V2 _ _ Hpin) as (_ & _ & Hpc & _).
    rewrite <- (seg_app toks (s_col p) (s_col st) i) by lia.
    apply derives_app; [now apply Hsound|].
    apply (derives_symbol g (name st) alts (expr st) _ Hl Ha).
    rewrite <- (finished_firstn st Hf). now apply Hsound.
  - (* predicted *)
    rewrite seg_same. constructor.
  - (* advanced over a nullable symbol *)
    unfold at_dot in Hat. rewrite (firstn_succ_nth _ _ _ Hat).
    rewrite <- (app_nil_r (seg toks (s_col st) i)).
    apply derives_app; [now apply Hsound|].
    apply Nullable_derives. apply Heps. now apply sym_in_In.
  - (* scanned *)
    unfold at_dot in Hat. rewrite (firstn_succ_nth _ _ _ Hat).
    rewrite Hlet in Hl1. replace (i + 1) with (S i) in Hl1 by lia.
    assert (Hlt : i < List.length toks) by (apply nth_error_Some; congruence).
    destruct (V2 _ _ Hst) as (_ & _ & Hsc & _).
    rewrite <- (seg_app toks (s_col st) i (i + 1)) by lia.
    apply derives_app; [now apply Hsound|].
    rewrite (seg_one toks i sym Hl1).
    apply derives_terminal; [exact Hl | constructor].
Qed.

Lemma sound_seed g text start alts :
  lookup g start = Some alts ->
  sound_chart g (tokens_of text) (seed_chart text start alts).
Proof.
  intros Hl. split; [now apply seed_chart_valid|].
  split; [rewrite seed_chart_length; now rewrite tokens_of_length|].
  split; [intros j; apply seed_chart_letter|].
  intros j st Hin. apply seed_chart_items in Hin.
  destruct Hin as (-> & alt & _ & ->). simpl. rewrite seg_same. constructor.
Qed.

(** ** Closure of the chart

    As in the invariants of [fill_chart] above, but what processing an
    item establishes may speak of the earlier columns: it survives the
    growth of the chart as long as the columns before its own stay as
    they are, which is the case once their turn is over. *)
Section FillClosure.

Variable g : grammar.
Variable eps : list symbol.
Variable P : chart -> Prop.
Variable Q : chart -> nat -> State -> Prop.

Hypothesis P_valid : forall ch, P ch -> valid_chart g ch.
Hypothesis P_step : forall ch i st,
  P ch -> In st (col_states ch i) -> P (fill_step g eps ch i st).
Hypothesis Q_step : forall ch i st,
  P ch -> In st (col_states ch i) -> Q (fill_step g eps ch i st) i st.
Hypothesis Q_frame : forall ch ch' i st,
  Q ch i st -> chart_ext ch ch' ->
  (forall k, k < i -> nth_error ch' k = nth_error ch k) ->
  Q ch' i st.

Lemma fill_column_closure i :
  forall fuel ch j,
    P ch ->
    j <= List.length (col_states ch i) ->
    S i * grammar_size g < fuel + j ->
    (forall k st, k < j -> nth_error (col_states ch i) k = Some st -> Q ch i st) ->
    exists ch',
      fill_column g eps fuel ch i j = Some ch' /\
      P ch' /\ chart_ext ch ch' /\
      (forall st, In st (col_states ch' i) -> Q ch' i st) /\
      (forall i', i' < i -> nth_error ch' i' = nth_error ch i').
Proof.
  induction fuel as [|fuel IH]; intros ch j HP Hj Hf HQ.
  - pose proof (valid_chart_column_bound g ch i (P_valid _ HP)). lia.
  - simpl. destruct (nth_error (col_states ch i) j) as [st|] eqn:E.
    + assert (Hin : In st (col_states ch i)) by (eapply nth_error_In; eauto).
      assert (Hlt : j < List.length (col_states ch i))
        by (apply nth_error_Some; congruence).
      pose proof (fill_step_ext g eps ch i st) as Hext.
      destruct (chart_ext_states ch _ i Hext) as [ex Hex].
      destruct (IH (fill_step g eps ch i st) (S j))
        as (ch' & Hr & HP' & He & HQ' & Hb).
      * now apply P_step.
      * rewrite Hex, length_app. lia.
      * lia.
      * intros k st' Hk Hn.
        assert (Hn' : nth_error (col_states ch i) k = Some st').
        { rewrite Hex in Hn. rewrite nth_error_app1 in Hn by lia. exact Hn. }
        destruct (Nat.eq_dec k j) as [->|Hne].
        -- rewrite E in Hn'. inversion Hn'; subst. now apply Q_step.
        -- apply (Q_frame ch); [apply (HQ k); [lia | exact Hn'] | exact Hext |].
           intros k' Hk'. now apply fill_step_before.
      * exists ch'. split; [exact Hr|]. split; [exact HP'|].
        split; [eapply chart_ext_trans; eauto|]. split; [exact HQ'|].
        intros i' Hi'. rewrite Hb by exact Hi'. now apply fill_step_before.
    + exists ch. split; [reflexivity|]. split; [exact HP|].
      split; [apply chart_ext_refl|]. split; [|reflexivity].
      intros st Hin. apply In_nth_error in Hin. destruct Hin as [k Hk].
      apply (HQ k); [|exact Hk].
      assert (k < List.length (col_states ch i))
        by (apply nth_error_Some; congruence).
      apply nth_error_None in E. lia.
Qed.

Lemma fill_columns_closure :
  forall n ch i,
    P ch ->
    (forall i' st, i' < i -> In st (col_states ch i') -> Q ch i' st) ->
    exists ch',
      fill_columns g eps n ch i = Some ch' /\
      P ch' /\ chart_ext ch ch' /\
      (forall i', i' < i -> nth_error ch' i' = nth_error ch i') /\
      (forall i' st, i' < i + n -> In st (col_states ch' i') -> Q ch' i' st).
Proof.
  induction n as [|n IH]; intros ch i HP HQ.
  - exists ch. split; [reflexivity|]. split; [exact HP|].
    split; [apply chart_ext_refl|]. split; [reflexivity|].
    intros i' st Hi'. apply HQ. lia.
  - cbn [fill_columns].
    destruct (fill_column_closure i (column_fuel g i) ch 0 HP)
      as (ch1 & Hr & HP1 & He1 & HQ1 & Hb1).
    + lia.
    + unfold column_fuel. lia.
    + intros k st Hk. lia.
    + rewrite Hr.
      destruct (IH ch1 (S i) HP1) as (ch' & Hr' & HP' & He' & Hb' & HQ').
      * intros i' st Hi' Hin. destruct (Nat.eq_dec i' i) as [->|Hne].
        -- now apply HQ1.
        -- apply (Q_frame ch); [| exact He1 |].
           ++ apply HQ; [lia|].
              rewrite <- (col_states_eq_nth ch ch1 i'); [exact Hin|].
              apply Hb1. lia.
           ++ intros k Hk. apply Hb1. lia.
      * exists ch'. split; [exact Hr'|]. split; [exact HP'|].
        split; [eapply chart_ext_trans; eauto|]. split.
        -- intros i' Hi'. rewrite Hb' by lia. apply Hb1. exact Hi'.
        -- intros i' st Hi'. apply HQ'. lia.
Qed.

Lemma fill_chart_closure ch :
  P ch ->
  P (fill_chart g eps ch) /\ chart_ext ch (fill_chart g eps ch) /\
  (forall i st, In st (col_states (fill_chart g eps ch) i) ->
                Q (fill_chart g eps ch) i st).
Proof.
  intros HP. unfold fill_chart, fill_chart_opt.
  destruct (fill_columns_closure (List.length ch) ch 0 HP)
    as (ch' & Hr & HP' & He & _ & HQ).
  - intros i' st Hi'. lia.
  - rewrite Hr. split; [exact HP'|]. split; [exact He|].
    intros i st Hin. apply HQ; [|exact Hin].
    destruct (nth_error ch' i) as [c|] eqn:E.
    + assert (i < List.length ch') by (apply nth_error_Some; congruence).
      rewrite (chart_ext_length _ _ He). simpl. lia.
    + unfold col_states in Hin. rewrite E in Hin. destruct Hin.
Qed.

End FillClosure.

Lemma fill_step_scanned g eps ch i st :
  valid_chart g ch -> In st (col_states ch i) ->
  scanned g (fill_step g eps ch i st) i st.
Proof.
  intros (V1 & V2 & V3) Hin sym Hf Hd Hl Hlet.
  pose proof (fill_step_ext g eps ch i st) as Hext.
  rewrite (chart_ext_letter _ _ _ Hext) in Hlet.
  rewrite (fill_step_scan g eps ch i st sym Hf Hd Hl).
  unfold letter_at in Hlet.
  destruct (nth_error ch (i + 1)) as [c|] eqn:Ec; [|discriminate].
  assert (Hlen : (List.length ch <=? i + 1) = false).
  { apply Nat.leb_gt. apply nth_error_Some. congruence. }
  rewrite Hlen. unfold has_item.
  rewrite (col_states_upd_same _ _ _ _ Ec).
  rewrite Hlet, String.eqb_refl.
  pose proof (add_all_has [advance st] c (advance st) (or_introl eq_refl)) as H.
  apply in_map_iff in H. destruct H as [y [Hy Hiny]]. eauto.
Qed.

Lemma scanned_mono g ch ch' i st :
  scanned g ch i st -> chart_ext ch ch' -> scanned g ch' i st.
Proof.
  intros H He sym Hf Hd Hl Hlet.
  rewrite (chart_ext_letter _ _ _ He) in Hlet.
  eapply chart_ext_has_item; eauto.
Qed.

Lemma fill_step_completed g eps ch i st :
  valid_chart g ch -> In st (col_states ch i) ->
  completed (fill_step g eps ch i st) i st.
Proof.
  intros (V1 & V2 & V3) Hin Hf Hs p Hp Hat.
  rewrite (fill_step_complete g eps ch i st Hf) in *.
  rewrite col_states_upd_other in Hp by lia.
  destruct (col_states_In_nth _ _ _ Hin) as [c [Hc _]].
  unfold has_item. rewrite (col_states_upd_same _ _ _ _ Hc).
  assert (Hx : In (advance p)
                  (map advance (filter (at_dot_is (name st))
                                       (col_states ch (s_col st))))).
  { apply in_map. apply filter_In. split; [exact Hp|].
    now apply at_dot_is_Some. }
  pose proof (add_all_has _ c (advance p) Hx) as H.
  apply in_map_iff in H. destruct H as [y [Hy Hiny]]. eauto.
Qed.

Lemma completed_frame ch ch' i st :
  completed ch i st -> chart_ext ch ch' ->
  (forall k, k < i -> nth_error ch' k = nth_error ch k) ->
  completed ch' i st.
Proof.
  intros H He Hb Hf Hs p Hp Hat.
  rewrite (col_states_eq_nth ch ch' (s_col st) (Hb _ Hs)) in Hp.
  eapply chart_ext_has_item; eauto.
Qed.

(** The chart that [chart_parse] returns is sound and closed under the
    three operations. *)
Lemma chart_parse_sound_closed g eps text start alts :
  wf_grammar g -> nullable g = Ok eps -> lookup g start = Some alts ->
  sound_chart g (tokens_of text) (chart_parse g eps text start alts) /\
  chart_ext (seed_chart text start alts) (chart_parse g eps text start alts) /\
  forall i st, In st (col_states (chart_parse g eps text start alts) i) ->
               closed g eps (chart_parse g eps text start alts) i st.
Proof.
  intros Hwf Hn Hl.
  pose proof (nullable_correct g eps Hwf Hn) as Heps.
  apply (fill_chart_closure g eps (sound_chart g (tokens_of text))
           (closed g eps)).
  - intros ch (V & _). exact V.
  - intros ch i st Hs Hin. apply sound_step; auto. intros k. apply Heps.
  - intros ch i st (V & _) Hin. split; [|split].
    + now apply fill_step_predicted.
    + now apply fill_step_scanned.
    + now apply fill_step_completed.
  - intros ch ch' i st (H1 & H2 & H3) He Hb. split; [|split].
    + eapply predicted_mono; eauto.
    + eapply scanned_mono; eauto.
    + eapply completed_frame; eauto.
  - now apply sound_seed.
Qed.

(** *** Segments of the input, again *)

Lemma seg_length toks i j :
  j <= List.length toks -> List.length (seg toks i j) = j - i.
Proof.
  intros Hj. unfold seg. rewrite length_firstn, length_skipn. lia.
Qed.

Lemma app_eq_length {A : Type} (a : list A) : forall a' b b',
  a ++ b = a' ++ b' -> List.length a = List.length a' -> a = a' /\ b = b'.
Proof.
  induction a as [|x a IH]; intros [|x' a'] b b' H Hl; simpl in *;
    try discriminate; [auto|].
  inversion H; subst. destruct (IH a' b b' H2 ltac:(lia)) as [-> ->]. auto.
Qed.

Lemma seg_app_inv toks i j w1 w2 :
  seg toks i j = w1 ++ w2 -> i <= j -> j <= List.length toks ->
  w1 = seg toks i (i + List.length w1) /\
  w2 = seg toks (i + List.length w1) j /\
  i + List.length w1 <= j.
Proof.
  intros H Hi Hj.
  assert (Hlen : List.length w1 + List.length w2 = j - i).
  { rewrite <- (seg_length toks i j Hj), H. now rewrite length_app. }
  assert (Hk : i + List.length w1 <= j) by lia.
  rewrite <- (seg_app toks i (i + List.length w1) j) in H by lia.
  apply app_eq_length in H.
  - destruct H as [H1 H2]. auto.
  - rewrite seg_length by lia. lia.
Qed.

Lemma seg_cons_inv toks i j t w :
  seg toks i j = t :: w -> i <= j -> j <= List.length toks ->
  i < j /\ nth_error toks i = Some t /\ w = seg toks (i + 1) j.
Proof.
  intros H Hi Hj.
  destruct (seg_app_inv toks i j [t] w H Hi Hj) as (H1 & H2 & H3).
  simpl in *. split; [lia|]. split; [|exact H2].
  unfold seg in H1. replace (i + 1 - i) with 1 in H1 by lia.
  destruct (skipn i toks) as [|x l] eqn:E; [discriminate|].
  simpl in H1. inversion H1; subst x.
  rewrite <- (firstn_skipn i toks), E.
  rewrite nth_error_app2 by (rewrite length_firstn; lia).
  rewrite length_firstn. replace (i - Nat.min i (List.length toks)) with 0 by lia.
  reflexivity.
Qed.

Lemma firstn_skipn_cons {A : Type} (e : list A) d n t rest :
  firstn (S n) (skipn d e) = t :: rest ->
  nth_error e d = Some t /\ firstn n (skipn (d + 1) e) = rest.
Proof.
  intros H. destruct (skipn d e) as [|x l] eqn:E; [discriminate|].
  simpl in H. inversion H; subst. split.
  - assert (Hd : d <= List.length e).
    { destruct (Nat.le_gt_cases d (List.length e)); [assumption|].
      rewrite skipn_all2 in E by lia. discriminate. }
    rewrite <- (firstn_skipn d e), E.
    rewrite nth_error_app2 by (rewrite length_firstn; lia).
    rewrite length_firstn. replace (d - Nat.min d (List.length e)) with 0 by lia.
    reflexivity.
  - replace (d + 1) with (1 + d) by lia. rewrite <- skipn_skipn, E. reflexivity.
Qed.

(** ** Completeness of the chart *)

Section Completeness.

Variable g : grammar.
Variable eps : list symbol.
Variable text : string.
Variable start : symbol.
Variable alts : list alternative.

Hypothesis Hwf : wf_grammar g.
Hypothesis Heps : nullable g = Ok eps.
Hypothesis Hstart : lookup g start = Some alts.

#[warnings="-notation-for-abbreviation"]
Local Notation F := (chart_parse g eps text start alts).
#[warnings="-notation-for-abbreviation"]
Local Notation toks := (tokens_of text).

Lemma derives_advances :
  forall beta w,
    derives g beta w ->
    forall X e d s i j,
      has_item F i (X, e, d, s) ->
      firstn (List.length beta) (skipn d e) = beta ->
      i <= j -> j <= List.length toks ->
      w = seg toks i j ->
      has_item F j (X, e, d + List.length beta, s).
Proof.
  destruct (chart_parse_sound_closed g eps text start alts Hwf Heps Hstart)
    as ((V & Hlen & Hlet & Hsound) & Hext & Hclosed).
  pose proof (nullable_correct g eps Hwf Heps) as Hnull.
  induction 1 as [| t rest w Hl Hd IH
                  | Y altsY alt rest w1 w2 Hl Ha Hd1 IH1 Hd2 IH2];
    intros X e d s i j Hh Hfn Hij Hj Hw.
  - assert (Hz : List.length (seg toks i j) = 0) by (now rewrite <- Hw).
    rewrite seg_length in Hz by exact Hj.
    assert (j = i) by lia. subst j. simpl. now rewrite Nat.add_0_r.
  - symmetry in Hw.
    destruct (seg_cons_inv toks i j t w Hw Hij Hj) as (Hlt & Htok & Hw').
    simpl List.length in Hfn.
    destruct (firstn_skipn_cons e d _ t rest Hfn) as [Hat Hrest].
    destruct Hh as [st [Hin Hk]]. injection Hk as K1 K2 K3 K4. subst X e d s.
    assert (Hf : finished st = false).
    { unfold finished. apply Nat.leb_gt. apply nth_error_Some. congruence. }
    destruct (Hclosed i st Hin) as (_ & Hscan & _).
    assert (Hnext : has_item F (i + 1)
                      (name st, expr st, dot st + 1, s_col st)).
    { apply (Hscan t Hf Hat Hl). rewrite Hlet.
      replace (i + 1) with (S i) by lia. exact Htok. }
    simpl List.length.
    replace (dot st + S (List.length rest))
      with (dot st + 1 + List.length rest) by lia.
    apply (IH _ _ _ _ (i + 1) j Hnext Hrest); [lia | exact Hj | exact Hw'].
  - symmetry in Hw.
    destruct (seg_app_inv toks i j w1 w2 Hw Hij Hj) as (Hw1 & Hw2 & Hk).
    set (k := i + List.length w1) in *.
    simpl List.length in Hfn.
    destruct (firstn_skipn_cons e d _ Y rest Hfn) as [Hat Hrest].
    destruct Hh as [st [Hin Hkk]]. injection Hkk as K1 K2 K3 K4. subst X e d s.
    assert (Hf : finished st = false).
    { unfold finished. apply Nat.leb_gt. apply nth_error_Some. congruence. }
    destruct (Hclosed i st Hin) as (Hpred & _ & _).
    destruct (Hpred Y altsY Hf Hat Hl) as [Hall Hskip].
    assert (Hchild : has_item F k (Y, alt, List.length alt, i)).
    { apply (IH1 Y alt 0 i i k (Hall alt Ha)).
      - simpl. apply firstn_all.
      - unfold k. lia.
      - lia.
      - exact Hw1. }
    assert (Hnext : has_item F k (name st, expr st, dot st + 1, s_col st)).
    { destruct (Nat.eq_dec k i) as [Heq | Hne].
      - rewrite Heq. apply Hskip. apply sym_in_In. apply Hnull.
        apply (Nullable_rule g Y altsY alt Hl Ha).
        apply (derives_empty_Nullable g alt w1 Hd1).
        assert (Hz : List.length w1 = 0) by (unfold k in Heq; lia).
        destruct w1; [reflexivity | discriminate].
      - destruct Hchild as [child [Hcin Hck]].
        injection Hck as C1 C2 C3 C4.
        destruct (Hclosed k child Hcin) as (_ & _ & Hcomp).
        apply (Hcomp); [| rewrite C4; unfold k in *; lia
                        | rewrite C4; exact Hin | rewrite C1; exact Hat].
        unfold finished. apply Nat.leb_le. rewrite C2, C3. lia. }
    simpl List.length.
    replace (dot st + S (List.length rest))
      with (dot st + 1 + List.length rest) by lia.
    apply (IH2 _ _ _ _ k j Hnext Hrest); [lia | exact Hj | exact Hw2].
Qed.

End Completeness.

(** ** What the recognizer accepts *)

Lemma rev_last_column {A : Type} (l : list A) n c :
  List.length l = S n -> nth_error l n = Some c ->
  rev l = c :: rev (firstn n l).
Proof.
  intros Hlen Hn.
  rewrite <- (firstn_skipn n l) at 1.
  assert (Hs : skipn n l = [c]).
  { assert (Hl : List.length (skipn n l) = 1) by (rewrite length_skipn; lia).
    destruct (skipn n l) as [|x [|y r]] eqn:E; try discriminate.
    rewrite <- (firstn_skipn n l), E in Hn.
    rewrite nth_error_app2 in Hn by (rewrite length_firstn; lia).
    rewrite length_firstn in Hn.
    replace (n - Nat.min n (List.length l)) with 0 in Hn by lia.
    simpl in Hn. congruence. }
  rewrite Hs, rev_app_distr. reflexivity.
Qed.

(** The items that [recognize_on] returns are finished start items of
    one column. *)
Lemma recognize_on_starts g eps pe text start table starts :
  wf_grammar g -> nullable g = Ok eps ->
  recognize_on g eps pe text start = Ok (table, starts) ->
  exists alts i,
    lookup g start = Some alts /\
    table = chart_parse g eps text start alts /\
    i <= String.length text /\
    (pe = true -> starts <> [] /\ i = String.length text) /\
    forall s, In s starts ->
      In s (col_states table i) /\ finished s = true /\
      name s = start /\ In (expr s) alts /\ s_col s = 0.
Proof.
  intros Hwf Heps Hr.
  destruct (recognize_on_Ok _ _ _ _ _ _ _ Hr)
    as (alts & cursor & sts & Hl & Ht & Hls & Hst & Hcond).
  exists alts.
  destruct (chart_parse_sound_closed g eps text start alts Hwf Heps Hl)
    as ((V & Hlen & _) & _).
  rewrite <- Ht in *. pose proof V as (V1 & V2 & V3).
  destruct (latest_start_spec start alts _ _ _ Hls)
    as [(Hc & Hs & _) | (pre & c & post & Hrt & _ & Hs & Hsne & Hc)].
  - exists 0. subst sts cursor. simpl in Hst. subst starts.
    split; [exact Hl|]. split; [reflexivity|]. split; [lia|]. split.
    + intros ->. rewrite orb_true_r in Hcond. discriminate.
    + intros s [].
  - assert (Hin : In c table).
    { apply in_rev. rewrite Hrt. apply in_or_app. right. now left. }
    apply In_nth_error in Hin. destruct Hin as [i Hi].
    assert (Hidx : index c = i) by (now apply V1).
    assert (Hilt : i < List.length table) by (apply nth_error_Some; congruence).
    rewrite Hlen, tokens_of_length in Hilt.
    exists i. split; [exact Hl|]. split; [reflexivity|]. split; [lia|]. split.
    + intros ->. simpl in Hcond. apply orb_false_elim in Hcond.
      destruct Hcond as [H1 H2]. split.
      * intros ->. discriminate.
      * apply Z.ltb_ge in H1. rewrite Hc, Hidx in H1. lia.
    + intros s Hs_in. rewrite Hst in Hs_in. apply filter_In in Hs_in.
      destruct Hs_in as [H1 H2]. rewrite Hs in H1.
      apply start_states_In in H1. destruct H1 as (H3 & H4 & H5 & H6).
      unfold col_states. rewrite Hi. auto.
Qed.

Lemma recognize_on_accepts g eps text start alts alt :
  wf_grammar g -> nullable g = Ok eps ->
  lookup g start = Some alts -> In alt alts ->
  derives g alt (tokens_of text) ->
  exists starts,
    recognize_on g eps true text start
    = Ok (chart_parse g eps text start alts, starts) /\ starts <> [].
Proof.
  intros Hwf Heps Hl Ha Hd.
  destruct (chart_parse_sound_closed g eps text start alts Hwf Heps Hl)
    as ((V & Hlen & _) & Hext & _).
  pose proof V as (V1 & V2 & V3).
  set (F := chart_parse g eps text start alts) in *.
  set (n := List.length (tokens_of text)).
  assert (Hseed : has_item F 0 (start, alt, 0, 0)).
  { eapply chart_ext_has_item; [exact Hext|]. now apply seed_chart_has. }
  assert (Hfin : has_item F n (start, alt, 0 + List.length alt, 0)).
  { apply (derives_advances g eps text start alts Hwf Heps Hl alt _ Hd
             start alt 0 0 0 n Hseed).
    - simpl. apply firstn_all.
    - lia.
    - unfold n. lia.
    - unfold n. now rewrite seg_all. }
  destruct Hfin as [st [Hin Hk]]. injection Hk as K1 K2 K3 K4.
  destruct (col_states_In_nth _ _ _ Hin) as [c [Hc Hinc]].
  assert (Hstart : In st (start_states start alts c)).
  { apply start_state_in_column; auto. now rewrite K2. }
  assert (Hfst : finished st = true).
  { unfold finished. apply Nat.leb_le. rewrite K2, K3. simpl. lia. }
  unfold recognize_on, parse_prefix. rewrite Hl. cbn [bind]. fold F.
  rewrite (rev_last_column F n c Hlen Hc). cbn [latest_start].
  destruct (start_states start alts c) as [|s0 ss] eqn:Es; [destruct Hstart|].
  rewrite <- Es.
  assert (Hidx : index c = n) by (now apply V1).
  assert (Hz : (Z.of_nat (index c) <? Z.of_nat (String.length text))%Z = false).
  { apply Z.ltb_ge. rewrite Hidx. unfold n. rewrite tokens_of_length. lia. }
  rewrite Hz.
  assert (Hne : filter finished (start_states start alts c) <> []).
  { intros Hnil.
    assert (Hx : In st (filter finished (start_states start alts c))).
    { apply filter_In. split; [rewrite Es; exact Hstart | exact Hfst]. }
    rewrite Hnil in Hx. destruct Hx. }
  destruct (filter finished (start_states start alts c)) as [|f0 fs] eqn:Ef;
    [congruence|].
  simpl. exists (f0 :: fs). split; [reflexivity | discriminate].
Qed.

Lemma recognize_on_derives g eps pe text start table starts st :
  wf_grammar g -> nullable g = Ok eps ->
  recognize_on g eps pe text start = Ok (table, starts) ->
  In st starts ->
  exists i, e_col st = Some i /\ i <= String.length text /\
            (pe = true -> i = String.length text) /\
            generates g start (firstn i (tokens_of text)).
Proof.
  intros Hwf Heps Hr Hin.
  destruct (recognize_on_starts g eps pe text start table starts Hwf Heps Hr)
    as (alts & i & Hl & Ht & Hi & Hpe & Hall).
  destruct (Hall st Hin) as (H1 & H2 & H3 & H4 & H5).
  destruct (chart_parse_sound_closed g eps text start alts Hwf Heps Hl)
    as ((V & Hlen & _ & Hsound) & _).
  rewrite <- Ht in *. pose proof V as (_ & V2 & _).
  destruct (V2 _ _ H1) as (_ & _ & _ & He & _).
  exists i. split; [exact He|]. split; [exact Hi|]. split.
  - intros Hp. now destruct (Hpe Hp).
  - exists alts, (expr st). split; [exact Hl|]. split; [exact H4|].
    specialize (Hsound i st H1).
    rewrite (finished_firstn st H2), H5 in Hsound.
    unfold seg in Hsound. simpl in Hsound. now rewrite Nat.sub_0_r in Hsound.
Qed.

(** X1.  The Earley recognizer is correct.  For a grammar whose keys are
    distinct nonterminals [<...>] and a parser built with
    [parse_exceptions] on, [recognize_on(text, start)] returns (instead
    of raising) exactly when [text] is a sentence of [start]: one of the
    alternatives of [start] derives the characters of [text]. *)
Theorem earley_recognizer_correct
    (g : grammar) (p : Parser) (text : string) (start : symbol) :
  wf_grammar g ->
  EarleyParser g true = Ok p ->
  ((exists table starts, Parser_recognize_on p text start = Ok (table, starts))
   <-> generates g start (tokens_of text)).
Proof.
  intros Hwf Hp. unfold EarleyParser in Hp.
  destruct (nullable g) as [eps|e] eqn:Heps; cbn [bind] in Hp; [|discriminate].
  inversion Hp; subst p. clear Hp. unfold Parser_recognize_on.
  cbn [p_grammar p_epsilon p_parse_exceptions]. split.
  - intros (table & starts & Hr).
    destruct (recognize_on_starts g eps true text start table starts Hwf Heps Hr)
      as (alts & i & Hl & Ht & Hi & Hpe & Hall).
    destruct (Hpe eq_refl) as [Hne Hilen].
    destruct starts as [|st starts']; [congruence|].
    destruct (recognize_on_derives g eps true text start table (st :: starts') st
                Hwf Heps Hr (or_introl eq_refl))
      as (i' & _ & _ & Hi' & Hgen).
    rewrite (Hi' eq_refl), <- tokens_of_length, firstn_all in Hgen. exact Hgen.
  - intros (alts & alt & Hl & Ha & Hd).
    destruct (recognize_on_accepts g eps text start alts alt Hwf Heps Hl Ha Hd)
      as (starts & Hr & _).
    eauto.
Qed.

Lemma earley_recognizer_correct_witness :
  (exists table starts,
      Parser_recognize_on (mkParser sum_grammar [] true) "1+1" "<S>"
      = Ok (table, starts))
  <-> generates sum_grammar "<S>" (tokens_of "1+1").
Proof.
  apply (earley_recognizer_correct sum_grammar (mkParser sum_grammar [] true)
           "1+1" "<S>").
  - exact sum_grammar_wf.
  - reflexivity.
Defined.

(** X2.  Every item of the chart stands for a derivation.  For a grammar
    whose keys are distinct nonterminals, an item [X -> alpha . beta]
    that starts in column [s] and lies in column [j] of the chart of
    [chart_parse] has [alpha] derive the tokens [s .. j] of the input,
    and [X -> alpha beta] is a production of the grammar. *)
Theorem chart_items_derive
    (g : grammar) (eps : list symbol) (text : string) (start : symbol)
    (alts : list alternative) (j : nat) (st : State) :
  wf_grammar g -> nullable g = Ok eps -> lookup g start = Some alts ->
  In st (col_states (chart_parse g eps text start alts) j) ->
  (exists altsX, lookup g (name st) = Some altsX /\ In (expr st) altsX) /\
  s_col st <= j /\ j <= String.length text /\
  derives g (firstn (dot st) (expr st)) (seg (tokens_of text) (s_col st) j).
Proof.
  intros Hwf Heps Hl Hin.
  destruct (chart_parse_sound_closed g eps text start alts Hwf Heps Hl)
    as ((V & Hlen & _ & Hsound) & _).
  pose proof V as (_ & V2 & _).
  destruct (V2 _ _ Hin) as (Hprod & _ & Hs & _).
  split; [exact Hprod|]. split; [exact Hs|]. split.
  - rewrite <- tokens_of_length. eapply col_item_bound; eauto.
  - now apply Hsound.
Qed.

Lemma chart_items_derive_witness :
  (exists altsX, lookup sum_grammar "<E>" = Some altsX /\
                 In ["<E>"; "+"; "<E>"] altsX) /\
  0 <= 2 /\ 2 <= String.length "1+1" /\
  derives sum_grammar (firstn 2 ["<E>"; "+"; "<E>"]) (seg (tokens_of "1+1") 0 2).
Proof.
  apply (chart_items_derive sum_grammar [] "1+1" "<S>" [["<E>"]] 2
           (mkState "<E>" ["<E>"; "+"; "<E>"] 2 0 (Some 2) false)).
  - exact sum_grammar_wf.
  - reflexivity.
  - reflexivity.
  - vm_compute. tauto.
Defined.

(** X3.  The chart is complete.  For a grammar whose keys are distinct
    nonterminals: when column [i] of the chart holds an item
    [X -> alpha . beta gamma] and [beta] derives the tokens [i .. j] of
    the input, column [j] holds the item [X -> alpha beta . gamma]. *)
Theorem chart_complete
    (g : grammar) (eps : list symbol) (text : string) (start : symbol)
    (alts : list alternative) (X : symbol) (e : alternative) (d s i j : nat)
    (beta : list symbol) :
  wf_grammar g -> nullable g = Ok eps -> lookup g start = Some alts ->
  has_item (chart_parse g eps text start alts) i (X, e, d, s) ->
  firstn (List.length beta) (skipn d e) = beta ->
  i <= j -> j <= String.length text ->
  derives g beta (seg (tokens_of text) i j) ->
  has_item (chart_parse g eps text start alts) j (X, e, d + List.length beta, s).
Proof.
  intros Hwf Heps Hl Hh Hfn Hij Hj Hd.
  apply (derives_advances g eps text start alts Hwf Heps Hl beta _ Hd
           X e d s i j Hh Hfn Hij); [|reflexivity].
  now rewrite tokens_of_length.
Qed.

Lemma chart_complete_witness :
  has_item (chart_parse sum_grammar [] "1+1" "<S>" [["<E>"]]) 3
           ("<E>", ["<E>"; "+"; "<E>"], 1 + List.length ["+"; "<E>"], 0).
Proof.
  apply (chart_complete sum_grammar [] "1+1" "<S>" [["<E>"]]
           "<E>" ["<E>"; "+"; "<E>"] 1 0 1 3 ["+"; "<E>"]).
  - exact sum_grammar_wf.
  - reflexivity.
  - reflexivity.
  - exists (mkState "<E>" ["<E>"; "+"; "<E>"] 1 0 (Some 1) false).
    split; [vm_compute; tauto | reflexivity].
  - reflexivity.
  - lia.
  - simpl. lia.
  - vm_compute.
    apply derives_terminal; [reflexivity|].
    apply (derives_rule sum_grammar "<E>" [["<E>"; "+"; "<E>"]; ["1"]] ["1"] []
             ["1"] []); [reflexivity | right; now left | | constructor].
    apply derives_terminal; [reflexivity | constructor].
Defined.


(** ** The trees of [parse_on] are derivation trees *)

Lemma parse_paths_rev_syms g ch :
  forall rexpr frm til rp,
    In rp (parse_paths_rev g rexpr ch frm til) -> map node_sym rp = rexpr.
Proof.
  induction rexpr as [|var rest IH]; intros frm til rp Hin; [destruct Hin|].
  cbn [parse_paths_rev] in Hin. apply in_flat_map in Hin.
  destruct Hin as [[nd s] [Hst Hrp]]. simpl in Hrp.
  assert (Hnd : node_sym nd = var).
  { destruct (in_grammar g var).
    - apply in_map_iff in Hst. destruct Hst as [st [Heq Hf]].
      inversion Heq; subst. apply filter_In in Hf. destruct Hf as [_ Hb].
      apply andb_prop in Hb. destruct Hb as [_ Hn].
      now apply String.eqb_eq in Hn.
    - destruct ((0 <? til) && letter_is ch til var); [|destruct Hst].
      destruct Hst as [Heq | []]. now inversion Heq. }
  destruct rest as [|r rs].
  - destruct (Nat.eqb s frm); [|destruct Hrp].
    destruct Hrp as [<- | []]. simpl. now rewrite Hnd.
  - apply in_map_iff in Hrp. destruct Hrp as [rp' [<- Hrp']].
    simpl. rewrite Hnd. f_equal. eapply IH; eauto.
Qed.

Lemma tree_derivation_node g key alts cs :
  lookup g key = Some alts ->
  (tree_derivation g (Node key cs) <->
   In (map tree_root cs) alts /\ Forall (tree_derivation g) cs).
Proof.
  intros Hl. simpl. rewrite Hl.
  assert (H : (fix all (l : list tree) : Prop :=
                 match l with
                 | [] => True
                 | c :: l' => tree_derivation g c /\ all l'
                 end) cs <-> Forall (tree_derivation g) cs).
  { induction cs as [|c cs IH].
    - split; [constructor | auto].
    - split.
      + intros [H1 H2]. constructor; [exact H1 | now apply IH].
      + intros Hf. inversion Hf; subst. split; [assumption | now apply IH]. }
  tauto.
Qed.

Section FinalForest.

Variable g : grammar.
Variable eps : list symbol.
Variable text : string.
Variable start : symbol.
Variable alts : list alternative.

Hypothesis Hwf : wf_grammar g.
Hypothesis Heps : nullable g = Ok eps.
Hypothesis Hstart : lookup g start = Some alts.

#[warnings="-notation-for-abbreviation"]
Local Notation F := (chart_parse g eps text start alts).
#[warnings="-notation-for-abbreviation"]
Local Notation toks := (tokens_of text).

Lemma parse_forest_state_rule b s f :
  In s (col_states F b) -> finished s = true ->
  parse_forest_state g F s = Ok f ->
  exists altsX,
    lookup g (name s) = Some altsX /\
    (snd f = [] -> In [] altsX) /\
    forall p, In p (snd f) -> In (map node_sym p) altsX.
Proof.
  intros Hin Hfin Hf.
  destruct (final_valid g eps text start alts Hwf Heps Hstart) as (_ & V2 & _).
  destruct (V2 _ _ Hin) as ((al & Hl & Hal) & Hdot & Hs & He & Hz).
  exists al. split; [exact Hl|].
  destruct (parse_forest_state_ok g eps text start alts Hwf Heps Hstart
              b s f Hin Hfin Hf) as [_ (_ & _ & Hnil & _)].
  unfold parse_forest_state in Hf.
  destruct (expr s) as [|a l] eqn:E.
  - inversion Hf; subst f. simpl. split; [intros _; exact Hal | intros p []].
  - rewrite He in Hf. inversion Hf; subst f. simpl. split.
    + intros Hn. exfalso.
      unfold finished in Hfin. apply Nat.leb_le in Hfin.
      assert (Hd : dot s = List.length (a :: l)) by (rewrite E in *; lia).
      apply (parse_paths_nonempty g eps text start alts Hwf Heps Hstart
               (dot s) (name s) (a :: l) (s_col s) b).
      * exists s. split; [exact Hin|]. unfold State_t. now rewrite E.
      * rewrite Hd. simpl. lia.
      * rewrite Hd, firstn_all. unfold parse_paths in Hn.
        destruct (parse_paths_rev g (rev (a :: l)) F (s_col s) b);
          [reflexivity | discriminate].
    + intros p Hp. apply in_map_iff in Hp. destruct Hp as [rp [<- Hrp]].
      unfold parse_paths in Hrp. apply parse_paths_rev_syms in Hrp.
      rewrite map_rev, Hrp, rev_involutive. exact Hal.
Qed.

Lemma parse_forest_rule b nm sts fn :
  sts <> [] ->
  (forall s, In s sts ->
             In s (col_states F b) /\ finished s = true /\ name s = nm) ->
  parse_forest g F sts = Ok fn ->
  fst fn = nm /\ fnode_rule g fn.
Proof.
  intros Hne Hall Hf. unfold parse_forest in Hf.
  rewrite (dedup_const (map name sts) nm) in Hf.
  - destruct (map_result (parse_forest_state g F) sts) as [fo|e] eqn:Em;
      simpl in Hf; [|discriminate].
    inversion Hf; subst fn. split; [reflexivity|].
    apply map_result_Forall2 in Em.
    destruct sts as [|s0 sts0]; [congruence|].
    destruct (Hall s0 (or_introl eq_refl)) as (H1 & H2 & H3).
    destruct (final_valid g eps text start alts Hwf Heps Hstart) as (_ & V2 & _).
    destruct (V2 _ _ H1) as ((al & Hl & Hal) & _).
    exists al. simpl fst. simpl snd. split; [now rewrite <- H3|].
    assert (Hok : forall s f, In s (s0 :: sts0) ->
                    parse_forest_state g F s = Ok f ->
                    (snd f = [] -> In [] al) /\
                    forall p, In p (snd f) -> In (map node_sym p) al).
    { intros s f Hs Hsf. destruct (Hall s Hs) as (S1 & S2 & S3).
      destruct (parse_forest_state_rule b s f S1 S2 Hsf)
        as (al' & Hl' & Hr1 & Hr2).
      rewrite S3, <- H3, Hl in Hl'. inversion Hl'; subst al'. auto. }
    split.
    + intros Hc. inversion Em as [|? f0 ? fo' Hs0 Hrest]; subst.
      apply (proj1 (Hok s0 f0 (or_introl eq_refl) Hs0)).
      simpl in Hc. destruct (snd f0); [reflexivity | discriminate].
    + intros p Hp. apply in_concat in Hp. destruct Hp as [ps [Hps Hp]].
      apply in_map_iff in Hps. destruct Hps as [f' [<- Hf']].
      assert (Hex : exists s, In s (s0 :: sts0) /\
                              parse_forest_state g F s = Ok f').
      { clear -Em Hf'. induction Em as [|s f l r Hsf Hrest IH];
          [destruct Hf'|].
        destruct Hf' as [<- | Hf'].
        - exists s. split; [now left | exact Hsf].
        - destruct (IH Hf') as (s' & Hs' & Hsf').
          exists s'. split; [now right | exact Hsf']. }
      destruct Hex as (s & Hs & Hsf).
      now apply (proj2 (Hok s f' Hs Hsf)).
  - destruct sts; [congruence | discriminate].
  - intros x Hx. apply in_map_iff in Hx. destruct Hx as [s [<- Hs]].
    now destruct (Hall s Hs) as (_ & _ & H3).
Qed.

Lemma terminal_not_key v : is_nt v = Ok false -> lookup g v = None.
Proof.
  intros Hv. destruct (lookup g v) as [al|] eqn:E; [|reflexivity].
  rewrite (key_is_nt g Hwf v al E) in Hv. discriminate.
Qed.

Lemma product_children_rule (rec : forest_node -> yields tree) :
  forall p frm til fs pools children,
    lpath_ok F toks p frm til ->
    (forall nd a b fn t,
        In nd p -> node_ok F toks nd a b -> forest g F nd = Ok fn ->
        In t (fst (rec fn)) ->
        tree_root t = node_sym nd /\ tree_derivation g t) ->
    map_result (forest g F) p = Ok fs ->
    exhaust_pools (map rec fs) = Ok pools ->
    In children (product pools) ->
    map tree_root children = map node_sym p /\
    Forall (tree_derivation g) children.
Proof.
  induction p as [|nd p IH]; intros frm til fs pools children Hp Hrec Hm He Hc.
  - simpl in Hm. inversion Hm; subst fs. simpl in He. inversion He; subst pools.
    simpl in Hc. destruct Hc as [<- | []]. split; [reflexivity | constructor].
  - simpl in Hm.
    destruct (forest g F nd) as [f|e] eqn:Ef; simpl in Hm; [|discriminate].
    destruct (map_result (forest g F) p) as [fs'|e] eqn:Em; simpl in Hm;
      [|discriminate].
    inversion Hm; subst fs. simpl in He.
    destruct (rec f) as [ys [e|]] eqn:Er; [discriminate|].
    destruct (exhaust_pools (map rec fs')) as [pools'|e] eqn:Ee; simpl in He;
      [|discriminate].
    inversion He; subst pools. simpl in Hc.
    apply in_flat_map in Hc. destruct Hc as [x [Hx Hc]].
    apply in_map_iff in Hc. destruct Hc as [cs [<- Hcs]].
    simpl in Hp. destruct Hp as (mid & Hn & Hp).
    destruct (Hrec nd frm mid f x (or_introl eq_refl) Hn Ef) as [Hx1 Hx2];
      [now rewrite Er|].
    destruct (IH mid til fs' pools' cs Hp) as [Hcs1 Hcs2]; auto.
    { intros nd' a b fn t Hin. apply Hrec. now right. }
    split; [simpl; now rewrite Hx1, Hcs1 | constructor; assumption].
Qed.

(** Every tree extracted from a forest node is a derivation tree of the
    grammar with the symbol of the node at its root. *)
Lemma extract_trees_derivation :
  forall depth fn frm til t,
    fnode_ok F toks fn frm til -> fnode_rule g fn ->
    In t (fst (extract_trees g depth F fn)) ->
    tree_root t = fst fn /\ tree_derivation g t.
Proof.
  induction depth as [|depth IH]; intros fn frm til t Hfn Hrule Hin;
    [destruct Hin|].
  destruct fn as [nm paths]. destruct Hfn as (Hnt & Hle & Hnil & Hpaths).
  destruct Hrule as (al & Hl & Hr0 & Hr).
  simpl in Hnt, Hnil, Hpaths, Hl, Hr0, Hr. cbn [extract_trees] in Hin.
  destruct paths as [|p0 paths0] eqn:Ep.
  - destruct Hin as [<- | []]. split; [reflexivity|].
    apply (tree_derivation_node g nm al [] Hl). split; [now apply Hr0 | constructor].
  - rewrite <- Ep in *. clear Ep p0 paths0.
    apply over_paths_In in Hin. destruct Hin as (p & ts & Hp & Hts & Ht).
    unfold path_trees in Hts.
    destruct (map_result (forest g F) p) as [fs|e] eqn:Em; simpl in Hts;
      [|discriminate].
    destruct (exhaust_pools (map (extract_trees g depth F) fs)) as [pools|e]
      eqn:Ee; simpl in Hts; [|discriminate].
    inversion Hts; subst ts. apply in_map_iff in Ht.
    destruct Ht as [children [<- Hch]].
    assert (Hlp : lpath_ok F toks p frm til).
    { rewrite <- (rev_involutive p).
      apply (rpath_lpath g eps text start alts). now apply Hpaths. }
    destruct (product_children_rule (extract_trees g depth F) p frm til fs pools
                children Hlp) as [H1 H2]; auto.
    + intros nd a b fn' t' _ Hn Hf Ht'.
      destruct nd as [v | s]; simpl in Hn, Hf.
      * inversion Hf; subst fn'. destruct Hn as (_ & _ & Hv).
        destruct depth as [|depth']; [destruct Ht'|].
        simpl in Ht'. destruct Ht' as [<- | []].
        split; [reflexivity|]. simpl. now rewrite (terminal_not_key v Hv).
      * destruct Hn as (Hs1 & Hs2 & Hs3 & Hs4).
        destruct (parse_forest_ok g eps text start alts Hwf Heps Hstart
                    a b (name s) [s] fn') as [_ Hk];
          [discriminate | | exact Hf |].
        { intros s' [<- | []]. auto. }
        destruct (parse_forest_rule b (name s) [s] fn') as [Hfst Hrl];
          [discriminate | | exact Hf |].
        { intros s' [<- | []]. auto. }
        destruct (IH fn' a b t' Hk Hrl Ht') as [R1 R2].
        split; [simpl; now rewrite R1 | exact R2].
    + split; [reflexivity|].
      apply (tree_derivation_node g nm al children Hl).
      split; [rewrite H1; now apply Hr | exact H2].
Qed.

End FinalForest.

(** What [parse_on] yields comes from a forest node for the start symbol
    that spans a prefix of the text. *)
Lemma parse_on_yield g eps pe depth text start t :
  wf_grammar g -> nullable g = Ok eps ->
  In t (fst (parse_on (mkParser g eps pe) depth text start)) ->
  exists alts i f,
    lookup g start = Some alts /\
    i <= String.length text /\ (pe = true -> i = String.length text) /\
    fst f = start /\
    fnode_ok (chart_parse g eps text start alts) (tokens_of text) f 0 i /\
    fnode_rule g f /\
    In t (fst (extract_trees g depth (chart_parse g eps text start alts) f)).
Proof.
  intros Hwf Heps Hin. unfold parse_on in Hin.
  cbn [p_grammar p_epsilon p_parse_exceptions] in Hin.
  destruct (recognize_on g eps pe text start) as [[table starts]|e] eqn:Er;
    [|destruct Hin].
  destruct (recognize_on_starts g eps pe text start table starts Hwf Heps Er)
    as (alts & i & Hl & Ht & Hi & Hpe & Hall).
  destruct (parse_forest g table starts) as [f|e] eqn:Ef; [|destruct Hin].
  assert (Hne : starts <> []).
  { intros ->. unfold parse_forest in Ef. simpl in Ef. discriminate. }
  subst table. exists alts, i, f.
  destruct (parse_forest_ok g eps text start alts Hwf Heps Hl 0 i start starts f)
    as [Hfst Hok]; [exact Hne | | exact Ef |].
  { intros s Hs. destruct (Hall s Hs) as (H1 & H2 & H3 & _ & H5). auto. }
  destruct (parse_forest_rule g eps text start alts Hwf Heps Hl i start starts f)
    as [_ Hrule]; [exact Hne | | exact Ef |].
  { intros s Hs. destruct (Hall s Hs) as (H1 & H2 & H3 & _). auto. }
  split; [exact Hl|]. split; [exact Hi|].
  split; [intros Hp; now destruct (Hpe Hp)|].
  split; [exact Hfst|]. split; [exact Hok|]. split; [exact Hrule | exact Hin].
Qed.

(** X4.  The trees of [parse_on] are derivation trees of the input.  For
    a grammar whose keys are distinct nonterminals, every tree that
    [parse_on(text, start)] yields has [start] at its root, expands
    every nonterminal by one of its alternatives, has terminals as
    leaves, and is flattened by [tree_to_str] to a prefix of [text]: to
    [text] itself when [parse_exceptions] is on. *)
Theorem parse_on_yields_derivation_trees
    (g : grammar) (pe : bool) (p : Parser) (depth : nat) (text : string)
    (start : symbol) (t : tree) :
  wf_grammar g ->
  EarleyParser g pe = Ok p ->
  In t (fst (parse_on p depth text start)) ->
  tree_root t = start /\ tree_derivation g t /\
  (exists s rest, tree_to_str t = Ok s /\ text = (s ++ rest)%string) /\
  (pe = true -> tree_to_str t = Ok text).
Proof.
  intros Hwf Hp Hin. unfold EarleyParser in Hp.
  destruct (nullable g) as [eps|e] eqn:Heps; cbn [bind] in Hp; [|discriminate].
  inversion Hp; subst p. clear Hp.
  destruct (parse_on_yield g eps pe depth text start t Hwf Heps Hin)
    as (alts & i & f & Hl & Hi & Hpe & Hfst & Hok & Hrule & Ht).
  destruct (extract_trees_derivation g eps text start alts Hwf Heps Hl
              depth f 0 i t Hok Hrule Ht) as [Hroot Hder].
  destruct (extract_trees_sound g eps text start alts Hwf Heps Hl
              depth f 0 i t Hok) as [Htok Hleaves];
    [now rewrite tokens_of_length | exact Ht |].
  destruct (split_text text i Hi) as (t1 & t2 & Htext & Hlen1 & Htok1).
  assert (Hstr : tree_to_str t = Ok t1).
  { rewrite (tree_to_str_leaves t Htok), Hleaves. f_equal.
    unfold seg. simpl skipn. rewrite Nat.sub_0_r, <- Htok1.
    apply concat_tokens_of. }
  split; [congruence|]. split; [exact Hder|]. split.
  - exists t1, t2. auto.
  - intros Hp. rewrite Hstr. f_equal.
    specialize (Hpe Hp).
    assert (Hall : tokens_of t1 = tokens_of text).
    { rewrite Htok1, Hpe, <- tokens_of_length. apply firstn_all. }
    rewrite <- (concat_tokens_of t1), <- (concat_tokens_of text). now rewrite Hall.
Qed.

Lemma parse_on_yields_derivation_trees_witness :
  tree_root (Node "<S>" [Node "<E>" [Node "<E>" [Node "1" []]; Node "+" [];
                                     Node "<E>" [Node "1" []]]]) = "<S>" /\
  tree_derivation sum_grammar
    (Node "<S>" [Node "<E>" [Node "<E>" [Node "1" []]; Node "+" [];
                             Node "<E>" [Node "1" []]]]) /\
  (exists s rest,
      tree_to_str (Node "<S>" [Node "<E>" [Node "<E>" [Node "1" []]; Node "+" [];
                                           Node "<E>" [Node "1" []]]]) = Ok s /\
      "1+1" = (s ++ rest)%string) /\
  (true = true ->
   tree_to_str (Node "<S>" [Node "<E>" [Node "<E>" [Node "1" []]; Node "+" [];
                                        Node "<E>" [Node "1" []]]]) = Ok "1+1").
Proof.
  apply (parse_on_yields_derivation_trees sum_grammar true
           (mkParser sum_grammar [] true) 6 "1+1" "<S>").
  - exact sum_grammar_wf.
  - reflexivity.
  - vm_compute. left. reflexivity.
Defined.


(** ** The chart: termination, uniqueness, prefixes *)

(** X5.  [fill_chart] terminates.  For a start symbol of the grammar,
    the loop [for state in col.states] over the growing column [i] ends
    within [1 + (i + 1) * size] turns, [size] being the number of dot
    positions of the grammar, and column [i] of the chart never holds
    more than [(i + 1) * size] items. *)
Theorem fill_chart_within_budget
    (g : grammar) (eps : list symbol) (text : string) (start : symbol)
    (alts : list alternative) :
  lookup g start = Some alts ->
  fill_chart_opt g eps (seed_chart text start alts)
  = Some (chart_parse g eps text start alts) /\
  forall i, List.length (col_states (chart_parse g eps text start alts) i)
            <= S i * grammar_size g.
Proof.
  intros Hl.
  destruct (fill_chart_terminates g eps (seed_chart text start alts))
    as (H1 & H2 & _); [now apply seed_chart_valid|].
  split; [exact H1|].
  intros i. now apply valid_chart_column_bound.
Qed.

Lemma fill_chart_within_budget_witness :
  fill_chart_opt sum_grammar [] (seed_chart "1+1" "<S>" [["<E>"]])
  = Some (chart_parse sum_grammar [] "1+1" "<S>" [["<E>"]]) /\
  forall i,
    List.length (col_states (chart_parse sum_grammar [] "1+1" "<S>" [["<E>"]]) i)
    <= S i * grammar_size sum_grammar.
Proof.
  apply (fill_chart_within_budget sum_grammar [] "1+1" "<S>" [["<E>"]]).
  reflexivity.
Defined.

(** X6.  The uniqueness index of [Column.add].  In the chart of
    [chart_parse], column [i] has index [i], no two of its items share
    the identity [(name, expr, dot, s_col)], and each item has the
    column as its [e_col], starts no later than [i], has its dot within
    its alternative, and starts in [i] when its dot is at 0. *)
Theorem chart_columns_well_formed
    (g : grammar) (eps : list symbol) (text : string) (start : symbol)
    (alts : list alternative) (i : nat) :
  lookup g start = Some alts ->
  (forall c, nth_error (chart_parse g eps text start alts) i = Some c ->
             index c = i) /\
  NoDup (map State_t (col_states (chart_parse g eps text start alts) i)) /\
  forall st, In st (col_states (chart_parse g eps text start alts) i) ->
    e_col st = Some i /\ s_col st <= i /\
    dot st <= List.length (expr st) /\ (dot st = 0 -> s_col st = i).
Proof.
  intros Hl.
  destruct (fill_chart_terminates g eps (seed_chart text start alts))
    as (_ & (V1 & V2 & V3) & _); [now apply seed_chart_valid|].
  split; [intros c; apply V1|]. split; [apply V3|].
  intros st Hin. destruct (V2 _ _ Hin) as (_ & H1 & H2 & H3 & H4). auto.
Qed.

Lemma chart_columns_well_formed_witness :
  (forall c, nth_error (chart_parse sum_grammar [] "1+1" "<S>" [["<E>"]]) 3 = Some c ->
             index c = 3) /\
  NoDup (map State_t (col_states (chart_parse sum_grammar [] "1+1" "<S>" [["<E>"]]) 3)) /\
  forall st, In st (col_states (chart_parse sum_grammar [] "1+1" "<S>" [["<E>"]]) 3) ->
    e_col st = Some 3 /\ s_col st <= 3 /\
    dot st <= List.length (expr st) /\ (dot st = 0 -> s_col st = 3).
Proof.
  apply (chart_columns_well_formed sum_grammar [] "1+1" "<S>" [["<E>"]] 3).
  reflexivity.
Defined.

(** X7.  The columns of the chart depend on the tokens before them
    only: the chart of a prefix [t1] of the text [t1 ++ t2] consists of
    the first [len(t1) + 1] columns of the chart of the text. *)
Theorem chart_of_prefix
    (g : grammar) (eps : list symbol) (t1 t2 : string) (start : symbol)
    (alts : list alternative) :
  lookup g start = Some alts ->
  chart_parse g eps t1 start alts =
  firstn (S (String.length t1)) (chart_parse g eps (t1 ++ t2) start alts).
Proof. intros Hl. now apply chart_parse_firstn. Qed.

Lemma chart_of_prefix_witness :
  chart_parse sum_grammar [] "1+" "<S>" [["<E>"]] =
  firstn (S (String.length "1+"))
         (chart_parse sum_grammar [] ("1+" ++ "1") "<S>" [["<E>"]]).
Proof.
  apply (chart_of_prefix sum_grammar [] "1+" "1" "<S>" [["<E>"]]).
  reflexivity.
Defined.

(** ** [tree_to_str] *)

Lemma expand_loop_ok :
  forall fuel ts acc r,
    list_sum (map tree_size ts) <= fuel ->
    expand_loop fuel ts acc = Ok r -> Forall tree_ok ts.
Proof.
  induction fuel as [|fuel IH]; intros ts acc r Hf H.
  - destruct ts as [|[key cs] rest]; [constructor|]. simpl in Hf. lia.
  - destruct ts as [|[key cs] rest]; [constructor|].
    cbn [expand_loop] in H. cbn [map list_sum fold_right tree_size] in Hf.
    destruct (is_nt key) as [[|]|e] eqn:Ek; cbn [bind] in H; [| |discriminate].
    + apply IH in H.
      * apply Forall_app in H. destruct H as [H1 H2].
        constructor; [now apply (tree_ok_node key cs Ek) | exact H2].
      * rewrite map_app, list_sum_app. unfold list_sum in *. lia.
    + destruct cs as [|c cs]; [|discriminate].
      apply IH in H.
      * constructor; [simpl; now rewrite Ek | exact H].
      * simpl in Hf. unfold list_sum in *. lia.
Qed.

(** X8.  [tree_to_str] returns a string exactly for the trees whose
    inner nodes carry symbols of the form [<...>] and whose other nodes
    have no children, and the string is the concatenation of the leaves
    in order; on every other tree it raises. *)
Theorem tree_to_str_spec (t : tree) (s : string) :
  tree_to_str t = Ok s <-> tree_ok t /\ s = String.concat "" (leaves t).
Proof.
  split.
  - intros H.
    assert (Hok : tree_ok t).
    { unfold tree_to_str in H.
      destruct (expand_loop (tree_size t) [t] []) as [l|e] eqn:E;
        [|discriminate].
      apply expand_loop_ok in E; [now inversion E | simpl; lia]. }
    split; [exact Hok|].
    rewrite (tree_to_str_leaves t Hok) in H. now inversion H.
  - intros [Hok ->]. now apply tree_to_str_leaves.
Qed.


(** ** Soundness of the GLL recognizer *)

Lemma get_tokens_of s : forall i c,
  String.get i s = Some c -> nth_error (tokens_of s) i = Some (String c "").
Proof.
  induction s as [|a s IH]; intros i c H; [destruct i; discriminate|].
  destruct i as [|i]; simpl in *.
  - now inversion H.
  - now apply IH.
Qed.

Lemma input_at_token p i ch :
  GLL.input_at p i = Some ch -> nth_error (tokens_of (GLL.I p)) i = Some ch.
Proof.
  unfold GLL.input_at. destruct (String.get i (GLL.I p)) as [c|] eqn:E;
    [|discriminate].
  intros H. inversion H; subst. now apply get_tokens_of.
Qed.

Lemma gss_label_eqb_eq a b : GLL.gss_label_eqb a b = true <-> a = b.
Proof.
  destruct a as [la ia], b as [lb ib]. unfold GLL.gss_label_eqb. simpl.
  split.
  - intros H. apply andb_prop in H. destruct H as [H1 H2].
    apply Nat.eqb_eq in H2. subst ib. f_equal.
    destruct la as [s | X n d], lb as [s' | X' n' d']; simpl in H1;
      try discriminate.
    + apply String.eqb_eq in H1. now subst.
    + apply andb_prop in H1. destruct H1 as [H1 H3].
      apply andb_prop in H1. destruct H1 as [H1 H2].
      apply String.eqb_eq in H1. apply Nat.eqb_eq in H2. apply Nat.eqb_eq in H3.
      now subst.
  - intros H. inversion H; subst. rewrite Nat.eqb_refl, andb_true_r.
    destruct lb as [s | X n d]; simpl.
    + apply String.eqb_refl.
    + now rewrite String.eqb_refl, !Nat.eqb_refl.
Qed.

Lemma gss_assoc_app_one {V : Type} (l : list (GLL.gss_label * V)) k v k' :
  GLL.assoc GLL.gss_label_eqb (l ++ [(k, v)]) k' =
  match GLL.assoc GLL.gss_label_eqb l k' with
  | Some x => Some x
  | None => if GLL.gss_label_eqb k' k then Some v else None
  end.
Proof.
  induction l as [|[k0 v0] l IH]; simpl; [reflexivity|].
  destruct (GLL.gss_label_eqb k' k0); [reflexivity | exact IH].
Qed.

Lemma gss_assoc_assoc_set {V : Type} (l : list (GLL.gss_label * V)) k v k' :
  GLL.assoc GLL.gss_label_eqb (GLL.assoc_set GLL.gss_label_eqb l k v) k' =
  if GLL.gss_label_eqb k' k then Some v
  else GLL.assoc GLL.gss_label_eqb l k'.
Proof.
  induction l as [|[k0 v0] l IH]; simpl.
  - destruct (GLL.gss_label_eqb k' k); reflexivity.
  - destruct (GLL.gss_label_eqb k k0) eqn:E0; simpl.
    + apply gss_label_eqb_eq in E0. subst k0.
      destruct (GLL.gss_label_eqb k' k); reflexivity.
    + destruct (GLL.gss_label_eqb k' k0) eqn:E1.
      * apply gss_label_eqb_eq in E1. subst k0.
        destruct (GLL.gss_label_eqb k' k) eqn:E2; [|reflexivity].
        apply gss_label_eqb_eq in E2. subst k'.
        rewrite (proj2 (gss_label_eqb_eq k k) eq_refl) in E0. discriminate.
      * exact IH.
Qed.

Section GLLSound.

Variable g : grammar.
Variable start : symbol.
Variable text : string.

Hypothesis Hwf : wf_grammar g.
Hypothesis Hfree : dollar_free g.

#[warnings="-notation-for-abbreviation"]
Local Notation inp := (tokens_of (text ++ "$")).

Lemma dollar_not_key : lookup g "$" = None.
Proof.
  destruct (lookup g "$") as [al|] eqn:E; [|reflexivity].
  pose proof (key_is_nt g Hwf "$" al E) as H. discriminate.
Qed.

Lemma rule_at_In X n rule :
  rule_at g X n = Some rule ->
  exists alts, lookup g X = Some alts /\ In rule alts.
Proof.
  unfold rule_at. destruct (lookup g X) as [alts|]; [|discriminate].
  intros H. exists alts. split; [reflexivity|]. eapply nth_error_In; eauto.
Qed.

Lemma rule_key_not_dollar X n rule : rule_at g X n = Some rule -> X <> "$".
Proof.
  intros H ->. destruct (rule_at_In _ _ _ H) as (alts & Hl & _).
  rewrite dollar_not_key in Hl. discriminate.
Qed.

Lemma store_ok_app ns k node :
  store_ok g inp ns ->
  (forall x j i, k = (GLL.TStr x, j, i) -> x <> "$" ->
                 i <= List.length inp /\ derives g [x] (seg inp j i)) ->
  store_ok g inp (ns ++ [(k, node)]).
Proof.
  intros Hs Hk x j i nd Ha Hx. rewrite assoc_app_one in Ha.
  destruct (GLL.assoc GLL.sppf_key_eqb ns (GLL.TStr x, j, i)) as [n0|] eqn:E.
  - now apply (Hs x j i n0).
  - destruct (GLL.sppf_key_eqb (GLL.TStr x, j, i) k) eqn:Ek; [|discriminate].
    apply sppf_key_eqb_eq in Ek. now apply Hk.
Qed.

Lemma store_ok_set ns k node :
  store_ok g inp ns ->
  (forall x j i, k = (GLL.TStr x, j, i) -> x <> "$" ->
                 i <= List.length inp /\ derives g [x] (seg inp j i)) ->
  store_ok g inp (GLL.assoc_set GLL.sppf_key_eqb ns k node).
Proof.
  intros Hs Hk x j i nd Ha Hx. rewrite assoc_assoc_set in Ha.
  destruct (GLL.sppf_key_eqb (GLL.TStr x, j, i) k) eqn:Ek.
  - apply sppf_key_eqb_eq in Ek. now apply Hk.
  - now apply (Hs x j i nd).
Qed.

Lemma gll_inv_with_sppf p ns n :
  gll_inv g start inp text p -> store_ok g inp ns ->
  gll_inv g start inp text (GLL.with_sppf p ns n).
Proof.
  intros (H1 & H2 & H3 & H4 & H5 & H6 & H7) Hs.
  unfold gll_inv. simpl. auto 10.
Qed.

Lemma find_or_create_inv p k :
  gll_inv g start inp text p ->
  (forall x j i, k = (GLL.TStr x, j, i) -> x <> "$" ->
                 i <= List.length inp /\ derives g [x] (seg inp j i)) ->
  gll_inv g start inp text (GLL.sppf_find_or_create p k).
Proof.
  intros Hp Hk. unfold GLL.sppf_find_or_create.
  destruct (GLL.assoc GLL.sppf_key_eqb (GLL.SPPF_nodes p) k); [exact Hp|].
  apply gll_inv_with_sppf; [exact Hp|].
  apply store_ok_app; [|exact Hk].
  now destruct Hp as (_ & _ & _ & H4 & _).
Qed.

Lemma add_child_inv p y c :
  gll_inv g start inp text p ->
  gll_inv g start inp text (GLL.add_child p y c).
Proof.
  intros Hp. unfold GLL.add_child.
  destruct (GLL.assoc GLL.sppf_key_eqb (GLL.SPPF_nodes p) y) as [n|] eqn:E;
    [|exact Hp].
  apply gll_inv_with_sppf; [exact Hp|].
  destruct Hp as (_ & _ & _ & H4 & _).
  apply store_ok_set; [exact H4|].
  intros x j i -> Hx. now apply (H4 x j i n).
Qed.

Lemma non_nullable_singleton p alpha :
  GLL.is_non_nullable_alpha p alpha = Ok true -> exists a, alpha = [a].
Proof.
  unfold GLL.is_non_nullable_alpha.
  destruct alpha as [|a [|b l]]; try discriminate. eauto.
Qed.

Lemma not_dummy_end_rule : GLL.not_dummy GLL.end_rule = Ok false.
Proof. reflexivity. Qed.

Lemma not_dummy_good w alpha j i :
  good g inp w alpha j i -> GLL.not_dummy w = Ok true.
Proof.
  intros (H1 & H2 & _). unfold GLL.not_dummy.
  destruct (fst (fst w)) as [| x | X n d | X n d k]; try reflexivity.
  - congruence.
  - destruct (String.eqb x "$") eqn:E; [|reflexivity].
    apply String.eqb_eq in E. subst. congruence.
Qed.

Lemma firstn_pred_nth (rule : alternative) d Y :
  0 < d -> nth_error rule (d - 1) = Some Y ->
  firstn d rule = firstn (d - 1) rule ++ [Y].
Proof.
  intros Hd Hn. replace d with (d - 1 + 1) at 1 by lia.
  now apply firstn_succ_nth.
Qed.

(** [getNodeP] returns a node for the symbols before the dot. *)
Lemma getNodeP_sound p X n d rule w z j k i :
  gll_inv g start inp text p ->
  rule_at g X n = Some rule -> d <= List.length rule ->
  ((0 < d /\ left_ok g inp w (d - 1) rule j k /\
    exists Y, nth_error rule (d - 1) = Some Y /\ good g inp z [Y] k i)
   \/
   (d = 0 /\ rule = [] /\ w = GLL.end_rule /\ z = (GLL.TNone, i, i) /\
    j = i /\ i <= List.length inp)) ->
  ensures (GLL.getNodeP p X n d w z)
          (fun r => gll_inv g start inp text (snd r) /\
                    (0 < d -> good g inp (fst r) (firstn d rule) j i) /\
                    (d = 0 -> good g inp (fst r) [X] j i)).
Proof.
  intros Hp Hr Hd Hcase r Hres.
  pose proof Hp as (Hg & _).
  destruct (rule_at_In X n rule Hr) as (alts & Hl & Hin).
  pose proof (rule_key_not_dollar X n rule Hr) as HX.
  assert (Hcover : j <= i /\ i <= List.length inp /\
                   derives g (firstn d rule) (seg inp j i)).
  { destruct Hcase as [(Hd0 & Hleft & Y & HY & Hz) | (-> & -> & _ & _ & -> & Hi)].
    - destruct Hz as (_ & _ & _ & _ & Hki & Hi & Hdz).
      rewrite (firstn_pred_nth rule d Y Hd0 HY).
      destruct Hleft as [(Hd1 & _ & -> & _) | (_ & Hw)].
      + rewrite Hd1. simpl. auto.
      + destruct Hw as (_ & _ & _ & _ & Hjk & _ & Hdw).
        split; [lia|]. split; [exact Hi|].
        rewrite <- (seg_app inp j k i) by lia. now apply derives_app.
    - split; [lia|]. split; [exact Hi|]. rewrite seg_same. constructor. }
  destruct Hcover as (Hji & Hi & Hder).
  assert (Hzi : snd z = i).
  { destruct Hcase as [(_ & _ & Y & _ & Hz) | (_ & _ & _ & -> & _)].
    - now destruct Hz as (_ & _ & _ & H & _).
    - reflexivity. }
  assert (Hnd : exists b, GLL.not_dummy w = Ok b /\
                          (if b then snd (fst w) else snd (fst z)) = j).
  { destruct Hcase as [(Hd0 & Hleft & Y & HY & Hzz) | (_ & _ & -> & -> & -> & _)].
    - destruct Hleft as [(_ & -> & -> & _) | (_ & Hw)].
      + exists false. split; [reflexivity|].
        now destruct Hzz as (_ & _ & H & _).
      + exists true. split; [eapply not_dummy_good; eauto|].
        now destruct Hw as (_ & _ & H & _).
    - exists false. split; reflexivity. }
  destruct Hnd as (b & Hb & Hj).
  unfold GLL.getNodeP in Hres. rewrite Hg in Hres.
  unfold rule_at in Hr. rewrite Hl in Hr. rewrite Hl, Hr in Hres.
  destruct (GLL.is_non_nullable_alpha p (firstn d rule)) as [nn|e] eqn:Enn;
    cbn [bind] in Hres; [|discriminate].
  destruct (nn && match skipn d rule with [] => false | _ :: _ => true end)
    eqn:Eb.
  - (* the right child is returned *)
    inversion Hres; subst r. simpl fst. simpl snd.
    apply andb_prop in Eb. destruct Eb as [-> Hbeta].
    destruct (non_nullable_singleton p _ Enn) as [a Ha].
    assert (Hd1 : d = 1).
    { assert (Hlen : List.length (firstn d rule) = 1) by (now rewrite Ha).
      rewrite length_firstn in Hlen.
      destruct (skipn d rule) eqn:Es; [discriminate|].
      assert (d < List.length rule).
      { destruct (Nat.lt_ge_cases d (List.length rule)); [assumption|].
        rewrite skipn_all2 in Es by lia. discriminate. }
      lia. }
    subst d. split; [exact Hp|]. split; [|intros; lia]. intros _.
    destruct Hcase as [(_ & Hleft & Y & HY & Hzz) | (Hc & _)]; [|lia].
    destruct Hleft as [(_ & _ & -> & _) | (Hlt & _)]; [|simpl in Hlt; lia].
    rewrite (firstn_pred_nth rule 1 Y ltac:(lia) HY). exact Hzz.
  - (* a node [y] labelled [(t, j, i)] *)
    destruct z as [[tz kz] iz]. simpl in Hzi, Hj. subst iz.
    rewrite Hb in Hres. cbn [bind] in Hres.
    replace (if b then snd (fst w) else kz) with j in Hres
      by (destruct b; auto).
    set (t := match skipn d rule with
              | [] => GLL.TStr X
              | _ :: _ => GLL.TSlot X n d
              end) in *.
    assert (Hkey : forall x j0 i0, (t, j, i) = (GLL.TStr x, j0, i0) -> x <> "$" ->
                     i0 <= List.length inp /\ derives g [x] (seg inp j0 i0)).
    { intros x j0 i0 Heq _. unfold t in Heq.
      destruct (skipn d rule) eqn:Es; [|discriminate].
      inversion Heq; subst x j0 i0. split; [exact Hi|].
      apply (derives_symbol g X alts rule); auto.
      assert (Hall : firstn d rule = rule).
      { apply firstn_all2.
        destruct (Nat.le_gt_cases (List.length rule) d); [assumption|].
        assert (Hl' : List.length (skipn d rule) = 0) by (now rewrite Es).
        rewrite length_skipn in Hl'. lia. }
      now rewrite <- Hall. }
    assert (Hgood : (0 < d -> good g inp (t, j, i) (firstn d rule) j i) /\
                    (d = 0 -> good g inp (t, j, i) [X] j i)).
    { assert (Ht1 : t <> GLL.TNone) by (unfold t; destruct (skipn d rule); discriminate).
      assert (Ht2 : t <> GLL.TStr "$").
      { unfold t. destruct (skipn d rule); [|discriminate].
        intros Heq. inversion Heq. contradiction. }
      split.
      - intros _. unfold good. simpl. auto 10.
      - intros Hd0. unfold good. simpl.
        repeat (split; [assumption || reflexivity|]).
        destruct Hcase as [(Hlt & _) | (_ & -> & _)]; [lia|].
        apply (derives_symbol g X alts []); auto.
        subst d. simpl in Hder. exact Hder. }
    pose proof (find_or_create_inv p (t, j, i) Hp Hkey) as Hp1.
    destruct (existsb (GLL.child_has_label X n d kz)
                (GLL.node_children (GLL.sppf_find_or_create p (t, j, i)) (t, j, i))).
    + inversion Hres; subst r. simpl. tauto.
    + destruct (GLL.assoc GLL.sppf_key_eqb
                  (GLL.SPPF_nodes (GLL.sppf_find_or_create p (t, j, i)))
                  (GLL.TPacked X n d kz, j, i)); [discriminate|].
      inversion Hres; subst r. simpl fst. simpl snd.
      split; [|exact Hgood].
      apply add_child_inv. apply gll_inv_with_sppf; [exact Hp1|].
      apply store_ok_app; [now destruct Hp1 as (_ & _ & _ & H4 & _)|].
      intros x j0 i0 Heq. discriminate.
Qed.

Lemma fold_ensures_In {A B : Type} (f : result A -> B -> result A)
    (Q : A -> Prop) (l : list B) :
  (forall e b, f (Raise e) b = Raise e) ->
  (forall a b, In b l -> Q a -> ensures (f (Ok a) b) Q) ->
  forall acc, ensures acc Q -> ensures (fold_left f l acc) Q.
Proof.
  intros Hraise. induction l as [|b l IH]; intros Hok acc Hacc; simpl; auto.
  apply IH.
  - intros a b' Hb'. apply Hok. now right.
  - destruct acc as [a|e].
    + apply Hok; [now left|]. now apply Hacc.
    + rewrite Hraise. apply Raise_ensures.
Qed.

Lemma add_thread_inv p X n d u i w :
  gll_inv g start inp text p -> desc_ok g start inp X n d u i w ->
  ensures (GLL.add_thread p (GLL.LSlot X n d) u i w)
          (gll_inv g start inp text).
Proof.
  intros Hp Hd. unfold GLL.add_thread.
  destruct (nth_error (GLL.U p) i) as [us|]; [|apply Raise_ensures].
  destruct (existsb _ us); apply Ok_ensures; [exact Hp|].
  destruct Hp as (H1 & H2 & H3 & H4 & H5 & H6 & H7).
  unfold gll_inv. simpl.
  split; [exact H1|]. split; [exact H2|]. split; [exact H3|].
  split; [exact H4|]. split; [|split; assumption].
  intros L u' i' w' Hin. apply in_app_or in Hin.
  destruct Hin as [Hin | [Heq | []]]; [now apply H5|].
  inversion Heq; subst. eauto.
Qed.

Lemma gll_inv_with_gss p gr pp :
  gll_inv g start inp text p ->
  (forall v es u2 w,
     GLL.assoc GLL.gss_label_eqb gr v = Some es ->
     In (u2, w) es -> edge_ok g start inp v u2 w) ->
  (forall v zs z,
     GLL.assoc GLL.gss_label_eqb pp v = Some zs ->
     In z zs -> popped_ok g inp v z) ->
  gll_inv g start inp text (GLL.with_gss p gr pp).
Proof.
  intros (H1 & H2 & H3 & H4 & H5 & H6 & H7) Hg Hpp.
  unfold gll_inv. simpl. auto 10.
Qed.

Lemma gss_get_inv p v :
  gll_inv g start inp text p -> gll_inv g start inp text (GLL.gss_get p v).
Proof.
  intros Hp. unfold GLL.gss_get.
  destruct (GLL.assoc GLL.gss_label_eqb (GLL.graph p) v) eqn:E; [exact Hp|].
  pose proof Hp as (H1 & H2 & H3 & H4 & H5 & H6 & H7).
  apply gll_inv_with_gss; [exact Hp| |].
  - intros v' es u2 w Ha Hin. rewrite gss_assoc_app_one in Ha.
    destruct (GLL.assoc GLL.gss_label_eqb (GLL.graph p) v') eqn:E'.
    + inversion Ha; subst. eapply H6; eauto.
    + destruct (GLL.gss_label_eqb v' v); [|discriminate].
      inversion Ha; subst. destruct Hin.
  - intros v' zs z Ha Hin. rewrite gss_assoc_app_one in Ha.
    destruct (GLL.assoc GLL.gss_label_eqb (GLL.P p) v') eqn:E'.
    + inversion Ha; subst. eapply H7; eauto.
    + destruct (GLL.gss_label_eqb v' v); [|discriminate].
      inversion Ha; subst. destruct Hin.
Qed.

Lemma add_parsed_index_inv p v z :
  gll_inv g start inp text p -> popped_ok g inp v z ->
  gll_inv g start inp text (GLL.add_parsed_index p v z).
Proof.
  intros Hp Hz. pose proof Hp as (H1 & H2 & H3 & H4 & H5 & H6 & H7).
  unfold GLL.add_parsed_index. apply gll_inv_with_gss; [exact Hp | exact H6 |].
  intros v' zs z' Ha Hin. rewrite gss_assoc_assoc_set in Ha.
  destruct (GLL.gss_label_eqb v' v) eqn:E.
  - apply gss_label_eqb_eq in E. subst v'. inversion Ha; subst zs.
    apply in_app_or in Hin. destruct Hin as [Hin | [<- | []]]; [|exact Hz].
    unfold GLL.parsed_indexes in Hin.
    destruct (GLL.assoc GLL.gss_label_eqb (GLL.P p) v) as [zs0|] eqn:E0;
      [|destruct Hin].
    eapply H7; eauto.
  - eapply H7; eauto.
Qed.

Lemma rule_at_fun X n r1 r2 :
  rule_at g X n = Some r1 -> rule_at g X n = Some r2 -> r1 = r2.
Proof. congruence. Qed.

Lemma good_symbol w X n rule j i :
  rule_at g X n = Some rule ->
  good g inp w rule j i -> good g inp w [X] j i.
Proof.
  intros Hr (H1 & H2 & H3 & H4 & H5 & H6 & H7).
  destruct (rule_at_In X n rule Hr) as (alts & Hl & Hin).
  unfold good. repeat (split; [assumption|]).
  eapply derives_symbol; eauto.
Qed.

(** [fn_return]: the node [z] stands for the nonterminal that the
    return address [u] waits for. *)
Lemma fn_return_inv p u i z :
  gll_inv g start inp text p ->
  (u = GLL.stack_bottom \/
   exists X, called_from g start X u /\ good g inp z [X] (snd u) i) ->
  ensures (GLL.fn_return p u i z) (gll_inv g start inp text).
Proof.
  intros Hp Hz. unfold GLL.fn_return.
  destruct (GLL.gss_label_eqb u GLL.stack_bottom) eqn:Eu;
    [now apply Ok_ensures|].
  destruct Hz as [-> | (Xc & Hcall & Hgood)]; [discriminate|].
  destruct (fst u) as [s | X nalt dot] eqn:Efu; [apply Raise_ensures|].
  destruct Hcall as [(-> & _) | (X' & n' & d' & rule' & Hfu & Hr & Hd' & Hnth)];
    [discriminate|].
  rewrite Efu in Hfu. inversion Hfu; subst X' n' d'. clear Hfu.
  assert (Hpop : popped_ok g inp u z).
  { exists X, nalt, dot, rule', Xc. repeat (split; [assumption|]).
    destruct Hgood as (G1 & G2 & G3 & G4 & G5 & G6 & G7).
    unfold good. rewrite G4. auto 10. }
  pose proof (add_parsed_index_inv p u z Hp Hpop) as Hp1.
  apply fold_ensures_In.
  - reflexivity.
  - intros q [u2 we] Hin Hq. cbn [bind fst snd].
    assert (He : edge_ok g start inp u u2 we).
    { destruct Hp1 as (_ & _ & _ & _ & _ & H6 & _).
      unfold GLL.gss_children in Hin.
      destruct (GLL.assoc GLL.gss_label_eqb
                  (GLL.graph (GLL.add_parsed_index p u z)) u) as [es|] eqn:Ees;
        [|destruct Hin].
      eapply H6; eauto. }
    destruct He as (X' & n' & d' & rule2 & Hfu & Hr2 & Hd2 & Hle2 & Hcall2 & Hleft2).
    rewrite Efu in Hfu. inversion Hfu; subst X' n' d'. clear Hfu.
    rewrite (rule_at_fun _ _ _ _ Hr2 Hr) in *.
    apply bind_ensures
      with (Q1 := fun r => gll_inv g start inp text (snd r) /\
                           good g inp (fst r) (firstn dot rule') (snd u2) i).
    + intros r Hres.
      destruct (getNodeP_sound q X nalt dot rule' we z (snd u2) (snd u) i
                  Hq Hr Hle2) with (a := r) as (R1 & R2 & _); auto.
      left. split; [exact Hd'|]. split; [exact Hleft2|]. eauto.
    + intros r [R1 R2]. apply add_thread_inv; [exact R1|].
      exists rule'. split; [exact Hr|]. split; [exact Hle2|].
      split; [exact Hcall2|]. right. auto.
  - now apply Ok_ensures.
Qed.

(** [register_return] at the slot [(X, n, d - 1)], in front of a
    nonterminal. *)
Lemma register_return_inv p X n d rule u i w :
  gll_inv g start inp text p ->
  rule_at g X n = Some rule -> 0 < d -> d <= List.length rule ->
  called_from g start X u -> left_ok g inp w (d - 1) rule (snd u) i ->
  ensures (GLL.register_return p X n d u i w)
          (fun r => fst r = (GLL.LSlot X n d, i) /\
                    gll_inv g start inp text (snd r)).
Proof.
  intros Hp Hr Hd Hle Hcall Hleft. unfold GLL.register_return.
  set (v := (GLL.LSlot X n d, i)).
  pose proof (gss_get_inv p v Hp) as Hp1.
  destruct (existsb _ (GLL.gss_children (GLL.gss_get p v) v));
    [apply Ok_ensures; auto|].
  assert (Hnth : exists Y, nth_error rule (d - 1) = Some Y).
  { destruct (nth_error rule (d - 1)) as [Y|] eqn:E; [eauto|].
    apply nth_error_None in E. lia. }
  destruct Hnth as [Y HY].
  set (p2 := GLL.with_gss (GLL.gss_get p v)
               (GLL.assoc_set GLL.gss_label_eqb (GLL.graph (GLL.gss_get p v)) v
                  (GLL.gss_children (GLL.gss_get p v) v ++ [(u, w)]))
               (GLL.P (GLL.gss_get p v))).
  assert (Hp2 : gll_inv g start inp text p2).
  { pose proof Hp1 as (H1 & H2 & H3 & H4 & H5 & H6 & H7).
    apply gll_inv_with_gss; [exact Hp1 | | exact H7].
    intros v' es u2 w' Ha Hin. rewrite gss_assoc_assoc_set in Ha.
    destruct (GLL.gss_label_eqb v' v) eqn:E.
    - apply gss_label_eqb_eq in E. subst v'. inversion Ha; subst es.
      apply in_app_or in Hin. destruct Hin as [Hin | [Heq | []]].
      + unfold GLL.gss_children in Hin.
        destruct (GLL.assoc GLL.gss_label_eqb (GLL.graph (GLL.gss_get p v)) v)
          as [es0|] eqn:E0; [|destruct Hin].
        eapply H6; eauto.
      + inversion Heq; subst u2 w'.
        exists X, n, d, rule. simpl. auto 10.
    - eapply H6; eauto. }
  apply bind_ensures with (Q1 := gll_inv g start inp text).
  - apply fold_ensures_In.
    + reflexivity.
    + intros q z Hin Hq. cbn [bind].
      assert (Hz : popped_ok g inp v z).
      { destruct Hp2 as (_ & _ & _ & _ & _ & _ & H7).
        unfold GLL.parsed_indexes in Hin.
        destruct (GLL.assoc GLL.gss_label_eqb (GLL.P p2) v) as [zs|] eqn:Ezs;
          [|destruct Hin].
        eapply H7; eauto. }
      destruct Hz as (X' & n' & d' & rule2 & Y' & Hfv & Hr2 & Hd2 & Hn2 & Hg2).
      simpl in Hfv. inversion Hfv; subst X' n' d'. clear Hfv.
      rewrite (rule_at_fun _ _ _ _ Hr2 Hr) in *.
      simpl in Hg2.
      apply bind_ensures
        with (Q1 := fun r => gll_inv g start inp text (snd r) /\
                             good g inp (fst r) (firstn d rule) (snd u) (snd z)).
      * intros r Hres.
        destruct (getNodeP_sound q X n d rule w z (snd u) i (snd z)
                    Hq Hr Hle) with (a := r) as (R1 & R2 & _); auto.
        left. split; [exact Hd|]. split; [exact Hleft|]. eauto.
      * intros r [R1 R2]. apply add_thread_inv; [exact R1|].
        exists rule. split; [exact Hr|]. split; [exact Hle|].
        split; [exact Hcall|]. right. auto.
    + now apply Ok_ensures.
  - intros q Hq. apply Ok_ensures. auto.
Qed.

Lemma add_alt_threads_inv key u i :
  called_from g start key u -> i = snd u -> i <= List.length inp ->
  forall alts n p,
    (forall m a, nth_error alts m = Some a -> rule_at g key (n + m) = Some a) ->
    gll_inv g start inp text p ->
    ensures (GLL.add_alt_threads p key n alts u i) (gll_inv g start inp text).
Proof.
  intros Hcall Hi Hlen. induction alts as [|a alts IH]; intros n p Hnth Hp; simpl.
  - now apply Ok_ensures.
  - apply bind_ensures with (Q1 := gll_inv g start inp text).
    + apply add_thread_inv; [exact Hp|].
      exists a. split.
      * specialize (Hnth 0 a eq_refl). now rewrite Nat.add_0_r in Hnth.
      * split; [lia|]. split; [exact Hcall|]. left. auto.
    + intros p1 Hp1. apply IH; [|exact Hp1].
      intros m a' Hm. specialize (Hnth (S m) a' Hm).
      now replace (S n + m) with (n + S m) by lia.
Qed.

Lemma nonterminal_not_label t :
  is_nt t = Ok true -> String.eqb t "L0" = false /\ String.eqb t "L_" = false.
Proof.
  intros H. split.
  - destruct (String.eqb t "L0") eqn:E; [|reflexivity].
    apply String.eqb_eq in E. subst. discriminate.
  - destruct (String.eqb t "L_") eqn:E; [|reflexivity].
    apply String.eqb_eq in E. subst. discriminate.
Qed.

Lemma seg_input_text :
  seg inp 0 (String.length text) = tokens_of text.
Proof.
  unfold seg. simpl skipn. rewrite Nat.sub_0_r, tokens_of_app.
  rewrite <- (tokens_of_length text).
  replace (List.length (tokens_of text)) with (List.length (tokens_of text) + 0)
    at 1 by lia.
  rewrite firstn_app_2. simpl. now rewrite app_nil_r.
Qed.

Variable alts0 : list alternative.
Hypothesis Hstart : lookup g start = Some alts0.

(** One turn of the loop of the driver keeps what the descriptors, the
    GSS and the SPPF mean; the parser object is returned only for a
    sentence of the start symbol. *)
Lemma step_sound c :
  gll_inv g start inp text (GLL.c_parser c) -> config_ok g start inp c ->
  ensures (GLL.step g start c)
          (fun r => match r with
                    | inl c' => gll_inv g start inp text (GLL.c_parser c') /\
                                config_ok g start inp c'
                    | inr (GLL.ReturnParser p') =>
                        GLL.root p' = Some (GLL.TStr start, 0, String.length text) /\
                        derives g [start] (tokens_of text)
                    | inr GLL.ReturnEmptyList => True
                    end).
Proof.
  intros Hp Hc. pose proof Hp as (H1 & H2 & H3 & H4 & H5 & H6 & H7).
  unfold GLL.step. unfold config_ok in Hc.
  destruct (GLL.cL c) as [s | X n pos].
  - destruct (String.eqb s "L0") eqn:E0.
    + destruct (GLL.threads (GLL.c_parser c)) as [|[[[L u] i] w] ts] eqn:Et.
      * destruct (GLL.assoc GLL.sppf_key_eqb (GLL.SPPF_nodes (GLL.c_parser c))
                    (GLL.TStr start, 0, GLL.m (GLL.c_parser c))) as [nd|] eqn:Er;
          apply Ok_ensures; [|exact I].
        simpl. rewrite H3. split; [reflexivity|].
        rewrite H3 in Er.
        destruct (H4 start 0 (String.length text) nd Er) as [_ Hd].
        { intros ->. rewrite dollar_not_key in Hstart. discriminate. }
        now rewrite seg_input_text in Hd.
      * apply Ok_ensures. simpl.
        destruct (H5 L u i w) as (X & n & d & -> & Hd);
          [try rewrite Et; now left|].
        split.
        -- unfold gll_inv. simpl.
           split; [exact H1|]. split; [exact H2|]. split; [exact H3|].
           split; [exact H4|]. split; [|split; assumption].
           intros L' u' i' w' Hin. apply H5. try rewrite Et. now right.
        -- unfold config_ok. simpl. exact Hd.
    + destruct (String.eqb s "L_") eqn:E1.
      * apply bind_ensures with (Q1 := gll_inv g start inp text).
        -- now apply fn_return_inv.
        -- intros p1 Hp1. apply Ok_ensures. simpl. split; [exact Hp1|].
           unfold config_ok. simpl. exact I.
      * destruct Hc as (Hcall & Hi & Hlen).
        destruct (lookup g s) as [alts|] eqn:El; [|apply Raise_ensures].
        apply bind_ensures with (Q1 := gll_inv g start inp text).
        -- apply add_alt_threads_inv; auto.
           intros m a Hm. unfold rule_at. rewrite El. exact Hm.
        -- intros p1 Hp1. apply Ok_ensures. simpl. split; [exact Hp1|].
           unfold config_ok. simpl. exact I.
  - destruct Hc as (rule & Hr & Hle & Hcall & Hleft).
    pose proof Hr as Hr'. unfold rule_at in Hr'.
    destruct (lookup g X) as [alts|] eqn:El; [|discriminate].
    rewrite Hr'.
    assert (Hilen : GLL.c_cur_idx c <= List.length inp).
    { destruct Hleft as [(_ & _ & _ & H) | (_ & (_ & _ & _ & _ & _ & H & _))];
        exact H. }
    destruct rule as [|t0 rule'].
    + (* an empty alternative *)
      destruct pos as [|pos]; [|apply Raise_ensures].
      unfold GLL.getNodeT.
      destruct Hleft as [(_ & Hw & Hu & Hlen) | (Hlt & _)]; [|lia].
      apply bind_ensures
        with (Q1 := fun r => gll_inv g start inp text (snd r) /\
                             good g inp (fst r) [X] (GLL.c_cur_idx c)
                                  (GLL.c_cur_idx c)).
      * intros r Hres.
        destruct (getNodeP_sound
                    (GLL.sppf_find_or_create (GLL.c_parser c)
                       (GLL.TNone, GLL.c_cur_idx c, GLL.c_cur_idx c))
                    X n 0 [] (GLL.c_cur_sppf_node c)
                    (GLL.TNone, GLL.c_cur_idx c, GLL.c_cur_idx c)
                    (GLL.c_cur_idx c) (GLL.c_cur_idx c) (GLL.c_cur_idx c))
          with (a := r) as (R1 & _ & R3); auto.
        { apply find_or_create_inv; [exact Hp|]. intros x j i Heq. discriminate. }
        { right. auto 10. }
      * intros r [R1 R2]. apply Ok_ensures. simpl. split; [exact R1|].
        unfold config_ok. simpl. right. exists X. rewrite Hu. auto.
    + destruct (nth_error (t0 :: rule') pos) as [t|] eqn:Et.
      * assert (Hpos : pos < List.length (t0 :: rule'))
          by (apply nth_error_Some; congruence).
        apply bind_ensures with (Q1 := fun b => GLL.is_nonterminal t = Ok b);
          [intros b Hb; exact Hb|].
        intros nt Hnt. unfold GLL.is_nonterminal in Hnt. destruct nt.
        -- (* a nonterminal: call *)
           apply bind_ensures
             with (Q1 := fun r => fst r = (GLL.LSlot X n (pos + 1), GLL.c_cur_idx c) /\
                                  gll_inv g start inp text (snd r)).
           ++ apply register_return_inv with (rule := t0 :: rule'); auto; try lia.
              now replace (pos + 1 - 1) with pos by lia.
           ++ intros [v q] [R1 R2]. simpl in R1, R2. subst v.
              apply Ok_ensures. simpl. split; [exact R2|].
              unfold config_ok. simpl.
              destruct (nonterminal_not_label t Hnt) as [-> ->].
              split; [|auto].
              right. exists X, n, (pos + 1), (t0 :: rule').
              simpl. split; [reflexivity|]. split; [exact Hr|]. split; [lia|].
              now replace (pos + 1 - 1) with pos by lia.
        -- (* a terminal: scan *)
           destruct (GLL.input_at (GLL.c_parser c) (GLL.c_cur_idx c)) as [ch|] eqn:Ei;
             [|apply Raise_ensures].
           destruct (String.eqb ch t) eqn:Ech.
           ++ apply String.eqb_eq in Ech. subst ch.
              unfold GLL.getNodeT.
              apply input_at_token in Ei. rewrite H2 in Ei.
              assert (Hlt : GLL.c_cur_idx c < List.length inp)
                by (apply nth_error_Some; congruence).
              assert (Hterm : derives g [t] (seg inp (GLL.c_cur_idx c)
                                                 (GLL.c_cur_idx c + 1))).
              { rewrite (seg_one inp _ t Ei).
                apply derives_terminal; [|constructor].
                apply (terminal_not_key g Hwf t Hnt). }
              assert (Htd : t <> "$").
              { intros ->. apply (Hfree X n (t0 :: rule') Hr).
                eapply nth_error_In; eauto. }
              apply bind_ensures
                with (Q1 := fun r => gll_inv g start inp text (snd r) /\
                                     good g inp (fst r)
                                          (firstn (pos + 1) (t0 :: rule'))
                                          (snd (GLL.c_stack_top c))
                                          (GLL.c_cur_idx c + 1)).
              ** intros r Hres.
                 assert (Hp1 : gll_inv g start inp text
                                 (GLL.sppf_find_or_create (GLL.c_parser c)
                                    (GLL.TStr t, GLL.c_cur_idx c,
                                     GLL.c_cur_idx c + 1))).
                 { apply find_or_create_inv; [exact Hp|].
                   intros x j i Heq _. inversion Heq; subst x j i.
                   split; [lia | exact Hterm]. }
                 assert (Hle1 : pos + 1 <= List.length (t0 :: rule')) by lia.
                 assert (Hz : good g inp
                                (GLL.TStr t, GLL.c_cur_idx c, GLL.c_cur_idx c + 1)
                                [t] (GLL.c_cur_idx c) (GLL.c_cur_idx c + 1)).
                 { unfold good. simpl.
                   split; [discriminate|].
                   split; [intros Heq; inversion Heq; contradiction|].
                   split; [reflexivity|]. split; [reflexivity|].
                   split; [lia|]. split; [lia | exact Hterm]. }
                 assert (Hleft1 : left_ok g inp (GLL.c_cur_sppf_node c)
                                    (pos + 1 - 1) (t0 :: rule')
                                    (snd (GLL.c_stack_top c)) (GLL.c_cur_idx c)).
                 { now replace (pos + 1 - 1) with pos by lia. }
                 assert (Hn1 : nth_error (t0 :: rule') (pos + 1 - 1) = Some t).
                 { now replace (pos + 1 - 1) with pos by lia. }
                 assert (Hpos1 : 0 < pos + 1) by lia.
                 destruct (getNodeP_sound _ X n (pos + 1) (t0 :: rule')
                             (GLL.c_cur_sppf_node c)
                             (GLL.TStr t, GLL.c_cur_idx c, GLL.c_cur_idx c + 1)
                             (snd (GLL.c_stack_top c)) (GLL.c_cur_idx c)
                             (GLL.c_cur_idx c + 1) Hp1 Hr Hle1
                             (or_introl (conj Hpos1
                                (conj Hleft1 (ex_intro _ t (conj Hn1 Hz))))) r Hres)
                   as (R1 & R2 & _).
                 split; [exact R1 | apply R2; lia].
              ** intros r [R1 R2]. apply Ok_ensures. simpl. split; [exact R1|].
                 unfold config_ok. simpl.
                 exists (t0 :: rule'). split; [exact Hr|].
                 split; [simpl List.length in *; lia|]. split; [exact Hcall|].
                 right. split; [lia | exact R2].
           ++ apply Ok_ensures. simpl. split; [exact Hp|].
              unfold config_ok. simpl. exact I.
      * (* the end of the alternative *)
        destruct (Nat.eqb pos (List.length (t0 :: rule'))) eqn:Ep;
          [|apply Raise_ensures].
        apply Nat.eqb_eq in Ep. apply Ok_ensures. simpl. split; [exact Hp|].
        unfold config_ok. simpl. right. exists X. split; [exact Hcall|].
        destruct Hleft as [(Hz & _) | (_ & Hgood)];
          [rewrite Ep in Hz; discriminate|].
        apply (good_symbol _ X n (t0 :: rule') _ _ Hr).
        rewrite Ep, firstn_all in Hgood. exact Hgood.
Qed.

Lemma initial_config_sound :
  ensures (GLL.initial_config g text start)
          (fun c => gll_inv g start inp text (GLL.c_parser c) /\
                    config_ok g start inp c).
Proof.
  unfold GLL.initial_config.
  apply bind_ensures with (Q1 := gll_inv g start inp text).
  - unfold GLL.set_grammar.
    apply bind_ensures with (Q1 := fun _ => True); [intros a _; exact I|].
    intros nl _. apply Ok_ensures. unfold gll_inv. simpl.
    split; [reflexivity|]. split; [reflexivity|]. split; [reflexivity|].
    split; [intros x j i nd H; discriminate|].
    split; [intros L u i w []|]. split.
    + intros v es u2 w Ha Hin.
      destruct (GLL.gss_label_eqb v GLL.stack_bottom); [|discriminate].
      inversion Ha; subst. destruct Hin.
    + intros v zs z Ha Hin.
      destruct (GLL.gss_label_eqb v GLL.stack_bottom); [|discriminate].
      inversion Ha; subst. destruct Hin.
  - intros p Hp. apply Ok_ensures. simpl. split.
    + apply find_or_create_inv; [exact Hp|].
      intros x j i Heq Hx. inversion Heq. congruence.
    + unfold config_ok. simpl.
      destruct (nonterminal_not_label start (key_is_nt g Hwf start alts0 Hstart))
        as [-> ->].
      split; [left; auto|]. split; [reflexivity | lia].
Qed.

Lemma run_sound :
  forall fuel c p,
    gll_inv g start inp text (GLL.c_parser c) -> config_ok g start inp c ->
    GLL.run fuel g start c = Some (Ok (GLL.ReturnParser p)) ->
    GLL.root p = Some (GLL.TStr start, 0, String.length text) /\
    derives g [start] (tokens_of text).
Proof.
  induction fuel as [|fuel IH]; intros c p Hp Hc H; simpl in H; [discriminate|].
  destruct (GLL.step g start c) as [[c'|o]|e] eqn:E; [| |discriminate].
  - destruct (step_sound c Hp Hc (inl c') E) as [Hp' Hc'].
    now apply (IH c' p).
  - inversion H; subst o. exact (step_sound c Hp Hc _ E).
Qed.

End GLLSound.

Lemma dollar_free_intro g :
  (forall k alts alt, In (k, alts) g -> In alt alts -> ~ In "$" alt) ->
  dollar_free g.
Proof.
  intros H X n rule Hr. unfold rule_at in Hr.
  destruct (lookup g X) as [alts|] eqn:El; [|discriminate].
  apply (H X alts rule).
  - now apply lookup_In.
  - eapply nth_error_In; eauto.
Qed.

Lemma derives_start_generates g start alts w :
  lookup g start = Some alts -> derives g [start] w -> generates g start w.
Proof.
  intros Hl Hd. inversion Hd as [| t rest w' Hn Hd' | X al alt rest w1 w2 Hl' Ha Hd1 Hd2];
    subst.
  - congruence.
  - inversion Hd2; subst. rewrite app_nil_r.
    exists al, alt. auto.
Qed.

(** X9.  The GLL recognizer is sound.  For a grammar whose keys are
    distinct nonterminals [<...>], whose alternatives do not use the end
    marker [$] as a symbol and that [exec] compiles as meant
    ([GLL.source_ok]: symbols of printable ASCII characters, without the
    backslash and the quotes that end their literals, and at most 400
    branches in the generated chain), and for a start symbol of the
    grammar: when the compiled [recognize_on(text, start)] returns the
    parser object, its [root] is [(start, 0, len(text))] and [text] is a
    sentence of [start]. *)
Theorem gll_recognizer_sound
    (g : grammar) (start : symbol) (alts : list alternative) (text : string)
    (fuel : nat) (p : GLL.GLLStructuredStackP) :
  wf_grammar g -> dollar_free g -> GLL.source_ok g = true ->
  lookup g start = Some alts ->
  GLL.recognize_on fuel g text start = Some (Ok (GLL.ReturnParser p)) ->
  GLL.root p = Some (GLL.TStr start, 0, String.length text) /\
  generates g start (tokens_of text).
Proof.
  intros Hwf Hfree Hsrc Hl H.
  rewrite (gll_recognize_on_generated g fuel text start Hsrc) in H.
  unfold GLL.generated_recognize_on in H.
  destruct (GLL.initial_config g text start) as [c|e] eqn:Ec; [|discriminate].
  destruct (initial_config_sound g start text Hwf alts Hl c Ec) as [Hp Hc].
  destruct (run_sound g start text Hwf Hfree alts Hl fuel c p Hp Hc H)
    as [Hroot Hd].
  split; [exact Hroot|]. eapply derives_start_generates; eauto.
Qed.

Lemma dup_grammar_wf : wf_grammar dup_grammar.
Proof.
  split.
  - simpl. constructor; [intros [] | constructor].
  - intros k [<- | []]. reflexivity.
Qed.

Lemma dup_grammar_dollar_free : dollar_free dup_grammar.
Proof.
  apply dollar_free_intro. intros k alts alt [Heq | []] Ha.
  inversion Heq; subst.
  destruct Ha as [<- | [<- | []]]; intros [H | []]; discriminate.
Qed.

Lemma gll_recognizer_sound_witness :
  exists p,
    GLL.recognize_on 20 dup_grammar "a" "<S>" = Some (Ok (GLL.ReturnParser p)) /\
    GLL.root p = Some (GLL.TStr "<S>", 0, String.length "a") /\
    generates dup_grammar "<S>" (tokens_of "a").
Proof.
  eexists. split; [vm_compute; reflexivity|].
  apply (gll_recognizer_sound dup_grammar "<S>" [["a"]; ["a"]] "a" 20).
  - exact dup_grammar_wf.
  - exact dup_grammar_dollar_free.
  - reflexivity.
  - reflexivity.
  - vm_compute. reflexivity.
Defined.

(** X10.  Whatever the GLL recognizer accepts, the Earley recognizer
    accepts.  Under the same conditions on the grammar (distinct keys
    [<...>], no [$] in an alternative, [GLL.source_ok]), when the
    compiled GLL [recognize_on(text, start)] returns the parser object,
    [EarleyParser.recognize_on(text, start)] (with [parse_exceptions]
    on) returns a non-empty list of completed start items. *)
Theorem gll_accepts_earley_accepts
    (g : grammar) (ep : Parser) (start : symbol) (alts : list alternative)
    (text : string) (fuel : nat) (p : GLL.GLLStructuredStackP) :
  wf_grammar g -> dollar_free g -> GLL.source_ok g = true ->
  lookup g start = Some alts ->
  EarleyParser g true = Ok ep ->
  GLL.recognize_on fuel g text start = Some (Ok (GLL.ReturnParser p)) ->
  exists table starts,
    Parser_recognize_on ep text start = Ok (table, starts) /\ starts <> [].
Proof.
  intros Hwf Hfree Hsrc Hl Hep H. unfold EarleyParser in Hep.
  destruct (nullable g) as [eps|e] eqn:Heps; cbn [bind] in Hep; [|discriminate].
  inversion Hep; subst ep. clear Hep.
  rewrite (gll_recognize_on_generated g fuel text start Hsrc) in H.
  unfold GLL.generated_recognize_on in H.
  destruct (GLL.initial_config g text start) as [c|e] eqn:Ec; [|discriminate].
  destruct (initial_config_sound g start text Hwf alts Hl c Ec) as [Hp Hc].
  destruct (run_sound g start text Hwf Hfree alts Hl fuel c p Hp Hc H)
    as [_ Hd].
  destruct (derives_start_generates g start alts _ Hl Hd)
    as (alts' & alt & Hl' & Ha & Hda).
  destruct (recognize_on_accepts g eps text start alts' alt Hwf Heps Hl' Ha Hda)
    as (starts & Hr & Hne).
  unfold Parser_recognize_on. cbn [p_grammar p_epsilon p_parse_exceptions].
  eauto.
Qed.

Lemma gll_accepts_earley_accepts_witness :
  exists table starts,
    Parser_recognize_on (mkParser dup_grammar [] true) "a" "<S>"
    = Ok (table, starts) /\ starts <> [].
Proof.
  apply (gll_accepts_earley_accepts dup_grammar (mkParser dup_grammar [] true)
           "<S>" [["a"]; ["a"]] "a" 20
           (match GLL.recognize_on 20 dup_grammar "a" "<S>" with
            | Some (Ok (GLL.ReturnParser p)) => p
            | _ => GLL.initialize ""
            end)).
  - exact dup_grammar_wf.
  - exact dup_grammar_dollar_free.
  - reflexivity.
  - reflexivity.
  - reflexivity.
  - vm_compute. reflexivity.
Defined.


(** ** The trees of [EnhancedExtractor] ([Earley.py]) *)

Lemma choose_path_In {A : Type} checked (arr : list A) cs choices x n cs' :
  choose_path checked arr cs choices = Ok (Some x, n, cs') -> In x arr.
Proof.
  unfold choose_path.
  destruct (nth_error cs choices) as [c|]; [|discriminate].
  assert (Hpick : forall m cs0,
            match nth_error cs0 m with
            | None => Raise AttributeError
            | Some cn =>
                if checked && c_finished cn then Raise AssertionError
                else match nth_error arr (c_chosen cn) with
                     | Some x0 => Ok (Some x0, m, cs0)
                     | None => Raise IndexError
                     end
            end = Ok (Some x, n, cs') -> In x arr).
  { intros m cs0 H. destruct (nth_error cs0 m) as [cn|]; [|discriminate].
    destruct (checked && c_finished cn); [discriminate|].
    destruct (nth_error arr (c_chosen cn)) as [x0|] eqn:E; [|discriminate].
    inversion H; subst. eapply nth_error_In; eauto. }
  destruct (c_next c) as [m|].
  - destruct (nth_error cs m) as [cn|] eqn:E; [|discriminate].
    destruct (c_finished cn) eqn:Ef; [discriminate|].
    intros H. apply (Hpick m cs). now rewrite E, Ef.
  - apply Hpick.
Qed.

Section ExtractorSound.

Variable g : grammar.
Variable eps : list symbol.
Variable text : string.
Variable start : symbol.
Variable alts : list alternative.

Hypothesis Hwf : wf_grammar g.
Hypothesis Heps : nullable g = Ok eps.
Hypothesis Hstart : lookup g start = Some alts.

#[warnings="-notation-for-abbreviation"]
Local Notation F := (chart_parse g eps text start alts).
#[warnings="-notation-for-abbreviation"]
Local Notation toks := (tokens_of text).

Lemma extract_a_node_sound :
  forall depth cs fn seen choices t c' cs' frm til,
    fnode_ok F toks fn frm til -> fnode_rule g fn ->
    til <= List.length toks ->
    EarleyExtractor.extract_a_node g F depth cs fn seen choices
    = Ok (Some t, c', cs') ->
    tree_root t = fst fn /\ tree_derivation g t /\
    tree_ok t /\ leaves t = seg toks frm til.
Proof.
  induction depth as [|depth IH];
    intros cs fn seen choices t c' cs' frm til Hfn Hrule Htil H;
    [discriminate|].
  destruct fn as [nm paths]. destruct Hfn as (Hnt & Hle & Hnil & Hpaths).
  destruct Hrule as (al & Hl & Hr0 & Hr).
  simpl in Hnt, Hnil, Hpaths, Hl, Hr0, Hr.
  cbn [EarleyExtractor.extract_a_node] in H.
  destruct paths as [|p0 paths0] eqn:Ep.
  - inversion H; subst. split; [reflexivity|]. split.
    + apply (tree_derivation_node g nm al [] Hl).
      split; [now apply Hr0 | constructor].
    + split; [apply tree_ok_node; [exact Hnt | constructor]|].
      rewrite leaves_node by exact Hnt. simpl.
      rewrite (Hnil eq_refl). now rewrite seg_same.
  - rewrite <- Ep in *. clear Ep p0 paths0.
    destruct (choose_path true paths cs choices) as [[[cur nc] cs1]|e] eqn:Ec;
      cbn [bind] in H; [|discriminate].
    destruct cur as [path|]; [|discriminate].
    assert (Hin : In path paths) by (eapply choose_path_In; eauto).
    assert (Hlp : lpath_ok F toks path frm til).
    { rewrite <- (rev_involutive path).
      apply (rpath_lpath g eps text start alts). now apply Hpaths. }
    assert (Hsyms : In (map node_sym path) al) by (now apply Hr).
    assert (Hgen : forall ps acc nc0 cs0 mid,
              lpath_ok F toks ps mid til ->
              Forall tree_ok acc -> Forall (tree_derivation g) acc ->
              flat_map leaves acc = seg toks frm mid -> frm <= mid ->
              map tree_root acc ++ map node_sym ps = map node_sym path ->
              (fix over_path (ps : list pnode) (child_nodes : list tree)
                   (new_choices : nat) (cs : cstore)
                 : result (option tree * nat * cstore) :=
                 match ps with
                 | [] => Ok (Some (Node nm child_nodes), new_choices, cs)
                 | PT s :: ps' =>
                     over_path ps' (child_nodes ++ [Node s []]) new_choices cs
                 | PN s :: ps' =>
                     match e_col s with
                     | None => Raise AttributeError
                     | Some e =>
                         let id := (name s, s_col s, e) in
                         if existsb (EarleyExtractor.nid_eqb id) seen
                         then Ok (None, new_choices, cs)
                         else
                           f <- forest g F (PN s) ;;
                           r' <- EarleyExtractor.extract_a_node g F depth cs f
                                   (id :: seen) new_choices ;;
                           let '(ntree, newer_choices, cs') := r' in
                           match ntree with
                           | None => Ok (None, newer_choices, cs')
                           | Some t =>
                               over_path ps' (child_nodes ++ [t])
                                         newer_choices cs'
                           end
                     end
                 end) ps acc nc0 cs0 = Ok (Some t, c', cs') ->
              exists children,
                t = Node nm children /\ Forall tree_ok children /\
                Forall (tree_derivation g) children /\
                flat_map leaves children = seg toks frm til /\
                map tree_root children = map node_sym path).
    { induction ps as [|nd ps IHps];
        intros acc nc0 cs0 mid Hps Hok Hder Hlv Hmid Hroots Hres.
      - inversion Hres; subst t. exists acc. simpl in Hps. subst mid.
        rewrite app_nil_r in Hroots. auto.
      - simpl in Hps. destruct Hps as (m & Hn & Hps).
        assert (Hm : mid <= m /\ m <= til).
        { split; [|eapply lpath_ok_le; eauto].
          destruct nd as [v | s]; simpl in Hn.
          - destruct Hn as (-> & _). lia.
          - now destruct Hn as (_ & _ & _ & Hx). }
        destruct nd as [v | s].
        + simpl in Hn. destruct Hn as (-> & Htok & Hv).
          apply (IHps (acc ++ [Node v []]) nc0 cs0 (mid + 1) Hps); auto.
          * apply Forall_app. split; [exact Hok|].
            constructor; [simpl; now rewrite Hv | constructor].
          * apply Forall_app. split; [exact Hder|].
            constructor; [|constructor].
            simpl. now rewrite (terminal_not_key g Hwf v Hv).
          * rewrite flat_map_app, Hlv. simpl. rewrite Hv, app_nil_r.
            assert (Hlt : mid < List.length (tokens_of text))
              by (apply nth_error_Some; congruence).
            rewrite <- (seg_app (tokens_of text) frm mid (mid + 1)) by lia.
            f_equal. symmetry. now apply seg_one.
          * lia.
          * rewrite map_app, <- app_assoc. exact Hroots.
        + simpl in Hn. destruct Hn as (Hs1 & Hs2 & Hs3 & Hs4).
          cbn beta match fix in Hres.
          destruct (e_col s) as [e|]; [|discriminate].
          cbn zeta in Hres.
          destruct (existsb (EarleyExtractor.nid_eqb (name s, s_col s, e)) seen);
            [discriminate|].
          destruct (forest g F (PN s)) as [f|err] eqn:Ef; cbn [bind] in Hres;
            [|discriminate].
          destruct (EarleyExtractor.extract_a_node g F depth cs0 f
                      ((name s, s_col s, e) :: seen) nc0)
            as [[[nt nc1] cs2]|err] eqn:En; cbn [bind] in Hres; [|discriminate].
          destruct nt as [t'|]; [|discriminate].
          simpl in Ef.
          destruct (parse_forest_ok g eps text start alts Hwf Heps Hstart
                      mid m (name s) [s] f) as [Hfst Hk];
            [discriminate | | exact Ef |].
          { intros s' [<- | []]. auto. }
          destruct (parse_forest_rule g eps text start alts Hwf Heps Hstart
                      m (name s) [s] f) as [_ Hrl];
            [discriminate | | exact Ef |].
          { intros s' [<- | []]. auto. }
          destruct (IH cs0 f _ nc0 t' nc1 cs2 mid m Hk Hrl ltac:(lia) En)
            as (T1 & T2 & T3 & T4).
          apply (IHps (acc ++ [t']) nc1 cs2 m Hps); auto.
          * apply Forall_app. split; [exact Hok | constructor; auto].
          * apply Forall_app. split; [exact Hder | constructor; auto].
          * rewrite flat_map_app, Hlv. simpl. rewrite T4, app_nil_r.
            apply seg_app; lia.
          * lia.
          * rewrite map_app, <- app_assoc. simpl. rewrite T1, Hfst.
            exact Hroots. }
    destruct (Hgen path [] nc cs1 frm Hlp) as (children & -> & C1 & C2 & C3 & C4);
      auto.
    + now rewrite seg_same.
    + split; [reflexivity|]. split.
      * apply (tree_derivation_node g nm al children Hl).
        split; [now rewrite C4 | exact C2].
      * split; [now apply tree_ok_node | now rewrite leaves_node].
Qed.

Lemma extract_a_tree_sound fn frm til :
  fnode_ok F toks fn frm til -> fnode_rule g fn -> til <= List.length toks ->
  forall fuel depth cs t cs',
    EarleyExtractor.extract_a_tree g F fuel depth fn cs = Some (Ok (Some t, cs')) ->
    tree_root t = fst fn /\ tree_derivation g t /\
    tree_ok t /\ leaves t = seg toks frm til.
Proof.
  intros Hfn Hrule Htil. induction fuel as [|fuel IH]; intros depth cs t cs' H;
    [discriminate|].
  cbn [EarleyExtractor.extract_a_tree] in H.
  destruct (nth_error cs 0) as [root|]; [|discriminate].
  destruct (c_finished root); [discriminate|].
  destruct (EarleyExtractor.extract_a_node g F depth cs fn [] 0)
    as [[[pt ch] cs1]|e] eqn:En; [|discriminate].
  destruct pt as [t0|].
  - inversion H; subst. eapply extract_a_node_sound; eauto.
  - eapply IH; eauto.
Qed.

End ExtractorSound.

(** X11.  [EnhancedExtractor] returns derivation trees of the input
    only.  For a grammar whose keys are distinct nonterminals, whatever
    the state of its choice records, a tree that [extract_a_tree()]
    returns has the start symbol at its root, expands every nonterminal
    by one of its alternatives, and is flattened by [tree_to_str] to the
    text the extractor was built for. *)
Theorem enhanced_extractor_sound
    (g : grammar) (pe : bool) (p : Parser) (text : string) (start : symbol)
    (table : chart) (f : forest_node) (cs0 : cstore)
    (fuel depth : nat) (cs cs' : cstore) (t : tree) :
  wf_grammar g ->
  EarleyParser g pe = Ok p ->
  EarleyExtractor.new_extractor p text start = Ok (table, f, cs0) ->
  EarleyExtractor.extract_a_tree g table fuel depth f cs = Some (Ok (Some t, cs')) ->
  tree_root t = start /\ tree_derivation g t /\ tree_to_str t = Ok text.
Proof.
  intros Hwf Hp Hnew Hex. unfold EarleyParser in Hp.
  destruct (nullable g) as [eps|e] eqn:Heps; cbn [bind] in Hp; [|discriminate].
  inversion Hp; subst p. clear Hp.
  unfold EarleyExtractor.new_extractor in Hnew.
  cbn [p_grammar p_epsilon] in Hnew.
  assert (Hrec : exists starts,
            recognize_on g eps true text start = Ok (table, starts) /\
            parse_forest g table starts = Ok f).
  { unfold recognize_on.
    destruct (parse_prefix g eps text start) as [[tb [cursor sts]]|e] eqn:Epp;
      cbn [bind] in Hnew |- *; [|discriminate].
    destruct ((cursor <? Z.of_nat (String.length text))%Z
              || match filter finished sts with [] => true | _ :: _ => false end)
      eqn:Ec; [discriminate|].
    destruct (parse_forest g tb (filter finished sts)) as [f0|e] eqn:Ef;
      cbn [bind] in Hnew; [|discriminate].
    inversion Hnew; subst. exists (filter finished sts). simpl. auto. }
  destruct Hrec as (starts & Hr & Hf).
  destruct (recognize_on_starts g eps true text start table starts Hwf Heps Hr)
    as (alts & i & Hl & Ht & Hi & Hpe & Hall).
  destruct (Hpe eq_refl) as [Hne Hilen]. subst i table.
  destruct (parse_forest_ok g eps text start alts Hwf Heps Hl
              0 (String.length text) start starts f) as [Hfst Hok];
    [exact Hne | | exact Hf |].
  { intros s Hs. destruct (Hall s Hs) as (H1 & H2 & H3 & _ & H5). auto. }
  destruct (parse_forest_rule g eps text start alts Hwf Heps Hl
              (String.length text) start starts f) as [_ Hrule];
    [exact Hne | | exact Hf |].
  { intros s Hs. destruct (Hall s Hs) as (H1 & H2 & H3 & _). auto. }
  assert (Htil : String.length text <= List.length (tokens_of text))
    by (now rewrite tokens_of_length).
  destruct (extract_a_tree_sound g eps text start alts Hwf Heps Hl f
              0 (String.length text) Hok Hrule Htil fuel depth cs t cs' Hex)
    as (T1 & T2 & T3 & T4).
  split; [congruence|]. split; [exact T2|].
  rewrite (tree_to_str_leaves t T3), T4. f_equal.
  rewrite <- (tokens_of_length text), seg_all. apply concat_tokens_of.
Qed.

Lemma enhanced_extractor_sound_witness :
  tree_root (Node "<S>" [Node "<E>" [Node "<E>" [Node "1" []]; Node "+" [];
                                     Node "<E>" [Node "1" []]]]) = "<S>" /\
  tree_derivation sum_grammar
    (Node "<S>" [Node "<E>" [Node "<E>" [Node "1" []]; Node "+" [];
                             Node "<E>" [Node "1" []]]]) /\
  tree_to_str (Node "<S>" [Node "<E>" [Node "<E>" [Node "1" []]; Node "+" [];
                                       Node "<E>" [Node "1" []]]]) = Ok "1+1".
Proof.
  eapply (enhanced_extractor_sound sum_grammar true (mkParser sum_grammar [] true)
            "1+1" "<S>" _ _ _ 5 10 [mkChoice None 0 1 None]).
  - exact sum_grammar_wf.
  - reflexivity.
  - vm_compute. reflexivity.
  - vm_compute. reflexivity.
Defined.


(** ** The nullable set of [get_first_and_follow] ([GLL.py]) *)

Lemma rhs_nonterminals_alt_spec alt : forall l,
  GLL.rhs_nonterminals_alt alt = Ok l ->
  forall t, In t l <-> In t alt /\ is_nt t = Ok true.
Proof.
  induction alt as [|a alt IH]; simpl; intros l H t.
  - inversion H; subst. simpl. tauto.
  - unfold GLL.is_nonterminal in H.
    destruct (is_nt a) as [b|] eqn:Eb; simpl in H; [|discriminate].
    destruct (GLL.rhs_nonterminals_alt alt) as [r|] eqn:Er; simpl in H;
      [|discriminate].
    inversion H; subst; clear H. specialize (IH r eq_refl t).
    destruct b; simpl; rewrite IH; split.
    + intros [<- | [H1 H2]]; auto.
    + intros [[<- | H1] H2]; auto.
    + intros [H1 H2]; auto.
    + intros [[<- | H1] H2]; [congruence | auto].
Qed.

Lemma rhs_nonterminals_alts_spec alts : forall l,
  GLL.rhs_nonterminals_alts alts = Ok l ->
  forall t, In t l <-> exists alt, In alt alts /\ In t alt /\ is_nt t = Ok true.
Proof.
  induction alts as [|a alts IH]; simpl; intros l H t.
  - inversion H; subst. simpl. split; [tauto | intros (? & [] & _)].
  - destruct (GLL.rhs_nonterminals_alt a) as [x|] eqn:Ex; simpl in H;
      [|discriminate].
    destruct (GLL.rhs_nonterminals_alts alts) as [r|] eqn:Er; simpl in H;
      [|discriminate].
    inversion H; subst; clear H. rewrite in_app_iff.
    rewrite (rhs_nonterminals_alt_spec a x Ex t), (IH r eq_refl t). split.
    + intros [[H1 H2] | (alt & H1 & H2)].
      * exists a. auto.
      * exists alt. auto.
    + intros (alt & [<- | H1] & H2); [left; exact H2 | right; eauto].
Qed.

Lemma rhs_nonterminals_spec g : forall l,
  GLL.rhs_nonterminals g = Ok l ->
  forall t, In t l <->
    exists X alts alt, In (X, alts) g /\ In alt alts /\ In t alt /\
                       is_nt t = Ok true.
Proof.
  induction g as [|[X alts] g IH]; simpl; intros l H t.
  - inversion H; subst. simpl. split; [tauto | intros (? & ? & ? & [] & _)].
  - destruct (GLL.rhs_nonterminals_alts alts) as [x|] eqn:Ex; simpl in H;
      [|discriminate].
    destruct (GLL.rhs_nonterminals g) as [r|] eqn:Er; simpl in H;
      [|discriminate].
    inversion H; subst; clear H. rewrite in_app_iff.
    rewrite (rhs_nonterminals_alts_spec alts x Ex t), (IH r eq_refl t). split.
    + intros [(alt & H1 & H2) | (X' & alts' & alt & H1 & H2)].
      * exists X, alts, alt. auto.
      * exists X', alts', alt. auto.
    + intros (X' & alts' & alt & [H0 | H0] & H1 & H2).
      * inversion H0; subst. left. eauto.
      * right. eauto 6.
Qed.

Lemma dedup_In (l : list symbol) x : In x (dedup l) <-> In x l.
Proof.
  induction l as [|a l IH]; simpl; [tauto|].
  destruct (sym_in a l) eqn:E.
  - rewrite IH. apply sym_in_In in E. split; [auto|].
    intros [<- | H]; auto.
  - simpl. rewrite IH. tauto.
Qed.

Lemma dedup_NoDup (l : list symbol) : NoDup (dedup l).
Proof.
  induction l as [|a l IH]; simpl; [constructor|].
  destruct (sym_in a l) eqn:E; [exact IH|].
  constructor; [|exact IH]. rewrite dedup_In. intros H.
  apply sym_in_In in H. congruence.
Qed.

Lemma productions_of_spec g nts : forall prods,
  GLL.productions_of g nts = Ok prods ->
  forall k rule, In (k, rule) prods <->
    In k nts /\ exists alts, lookup g k = Some alts /\ In rule alts.
Proof.
  induction nts as [|n nts IH]; simpl; intros prods H k rule.
  - inversion H; subst. simpl. tauto.
  - destruct (lookup g n) as [alts|] eqn:El; [|discriminate].
    destruct (GLL.productions_of g nts) as [r|] eqn:Er; simpl in H;
      [|discriminate].
    inversion H; subst; clear H. rewrite in_app_iff, in_map_iff.
    rewrite (IH r eq_refl k rule). split.
    + intros [(a & Ha & Hin) | [H1 H2]].
      * inversion Ha; subst. split; [now left|]. eauto.
      * split; [now right | exact H2].
    + intros [[<- | H1] (alts' & H2 & H3)].
      * left. exists rule. rewrite El in H2. inversion H2; subst. auto.
      * right. eauto.
Qed.

(** One pass over the productions: what it adds is the head of a
    production whose symbols are all in the set; a pass that adds
    nothing leaves the set closed under the productions. *)
Lemma gll_nullable_pass_spec prods : forall nl nl' added,
  GLL.nullable_pass prods nl = (nl', added) ->
  incl nl nl' /\
  (forall k, In k nl' -> In k nl \/
      exists rule, In (k, rule) prods /\ forall t, In t rule -> In t nl') /\
  (NoDup nl -> NoDup nl') /\
  (added = false -> nl' = nl /\
      forall k rule, In (k, rule) prods ->
        (forall t, In t rule -> In t nl) -> In k nl) /\
  (added = true -> List.length nl < List.length nl').
Proof.
  induction prods as [|[k rule] prods IH]; simpl; intros nl nl' added H.
  - inversion H; subst. repeat split; auto using incl_refl; try discriminate.
    intros k rule [].
  - set (cbe := forallb (fun t => sym_in t nl) rule) in *.
    set (grew := cbe && negb (sym_in k nl)) in *.
    destruct (GLL.nullable_pass prods (if grew then nl ++ [k] else nl))
      as [nl2 added2] eqn:E.
    inversion H; subst; clear H.
    destruct (IH _ _ _ E) as (I1 & I2 & I3 & I4 & I5).
    assert (Hcbe : cbe = true <-> forall t, In t rule -> In t nl).
    { unfold cbe. rewrite forallb_forall. split; intros H t Ht.
      - apply sym_in_In. auto.
      - apply sym_in_In. auto. }
    destruct grew eqn:Eg.
    + apply andb_true_iff in Eg. destruct Eg as [Eg1 Eg2].
      apply negb_true_iff in Eg2.
      assert (Hk : ~ In k nl) by (rewrite <- sym_in_In; congruence).
      repeat split.
      * intros x Hx. apply I1. apply in_or_app. now left.
      * intros x Hx. destruct (I2 x Hx) as [Hin | (r & Hr & Hall)].
        -- apply in_app_or in Hin. destruct Hin as [Hin | [<- | []]]; [now left|].
           right. exists rule. split; [now left|].
           intros t Ht. apply I1. apply in_or_app. left.
           now apply Hcbe.
        -- right. exists r. split; [now right | exact Hall].
      * intros Hnd. apply I3. now apply NoDup_snoc.
      * discriminate.
      * discriminate.
      * intros _. destruct added2.
        -- specialize (I5 eq_refl). rewrite length_app in I5. simpl in I5. lia.
        -- destruct (I4 eq_refl) as [-> _]. rewrite length_app. simpl. lia.
    + repeat split.
      * exact I1.
      * intros x Hx. destruct (I2 x Hx) as [Hin | (r & Hr & Hall)];
          [now left|].
        right. exists r. split; [now right | exact Hall].
      * exact I3.
      * simpl in H. now apply I4.
      * simpl in H. destruct (I4 H) as [-> Hcl].
        intros k' rule' [Heq | Hin] Hall.
        -- inversion Heq; subst k' rule'.
           apply Hcbe in Hall.
           apply andb_false_iff in Eg. destruct Eg as [Eg | Eg];
             [congruence|].
           apply negb_false_iff in Eg. now apply sym_in_In.
        -- eapply Hcl; eauto.
      * simpl. exact I5.
Qed.

(** Enough passes reach a set closed under the productions. *)
Lemma nullable_iter_spec (Q : symbol -> Prop) prods heads :
  (forall k rule, In (k, rule) prods -> In k heads) ->
  (forall k rule, In (k, rule) prods -> (forall t, In t rule -> Q t) -> Q k) ->
  forall fuel nl,
    NoDup nl -> incl nl heads -> (forall k, In k nl -> Q k) ->
    List.length heads < fuel + List.length nl ->
    let r := GLL.nullable_iter fuel prods nl in
    (forall k, In k r -> Q k) /\
    (forall k rule, In (k, rule) prods ->
       (forall t, In t rule -> In t r) -> In k r).
Proof.
  intros Hheads HQ.
  induction fuel as [|fuel IH]; intros nl Hnd Hincl Hq Hlen.
  - exfalso. apply NoDup_incl_length in Hincl; [|exact Hnd]. simpl in Hlen. lia.
  - simpl. destruct (GLL.nullable_pass prods nl) as [nl' added] eqn:E.
    destruct (gll_nullable_pass_spec _ _ _ _ E) as (I1 & I2 & I3 & I4 & I5).
    assert (Hq' : forall k, In k nl' -> Q k).
    { (* the elements of [nl'] in the order in which they were added *)
      assert (Hgen : forall prods0 nl0 nl1 a,
                 GLL.nullable_pass prods0 nl0 = (nl1, a) ->
                 (forall k rule, In (k, rule) prods0 ->
                    (forall t, In t rule -> Q t) -> Q k) ->
                 (forall k, In k nl0 -> Q k) -> forall k, In k nl1 -> Q k).
      { clear. induction prods0 as [|[k rule] prods0 IH0]; simpl;
          intros nl0 nl1 a H HQ0 Hq0.
        - inversion H; subst. exact Hq0.
        - destruct (GLL.nullable_pass prods0 _) as [nl2 a2] eqn:E2.
          inversion H; subst; clear H.
          eapply IH0; [exact E2 | intros; eapply HQ0; eauto |].
          destruct (forallb (fun t => sym_in t nl0) rule
                    && negb (sym_in k nl0)) eqn:Eg; [|exact Hq0].
          apply andb_true_iff in Eg. destruct Eg as [Eg _].
          rewrite forallb_forall in Eg.
          intros x Hx. apply in_app_or in Hx. destruct Hx as [Hx | [<- | []]];
            [auto|].
          apply (HQ0 k rule); [now left|].
          intros t Ht. apply Hq0. apply sym_in_In. auto. }
      eapply Hgen; eauto. }
    destruct added.
    + apply IH.
      * now apply I3.
      * intros k Hk. destruct (I2 k Hk) as [Hin | (r & Hr & _)]; eauto.
      * exact Hq'.
      * specialize (I5 eq_refl). lia.
    + destruct (I4 eq_refl) as [-> Hcl]. split; [exact Hq | exact Hcl].
Qed.

Lemma derives_nil_Nullable g k : derives g [k] [] <-> Nullable g k.
Proof.
  split.
  - intros H. apply (derives_empty_Nullable g [k] [] H eq_refl). now left.
  - apply Nullable_derives.
Qed.

(** X12: the set [nullable] that [get_first_and_follow] computes for a
    grammar whose keys are distinct nonterminals consists of the symbols
    that occur in some alternative and derive the empty string; a key
    that occurs in no alternative is not in it. *)
Theorem gll_nullable_set (g : grammar) (nl : list symbol) :
  wf_grammar g ->
  GLL.get_nullable g = Ok nl ->
  forall k, In k nl <->
    (exists X alts alt, In (X, alts) g /\ In alt alts /\ In k alt) /\
    derives g [k] [].
Proof.
  intros [Hnd Hnt] H k. unfold GLL.get_nullable in H.
  destruct (GLL.rhs_nonterminals g) as [nts0|] eqn:E0; simpl in H;
    [|discriminate].
  destruct (GLL.productions_of g (dedup nts0)) as [prods|] eqn:Ep; simpl in H;
    [|discriminate].
  inversion H; subst nl; clear H.
  pose proof (rhs_nonterminals_spec g nts0 E0) as Hr.
  pose proof (productions_of_spec g (dedup nts0) prods Ep) as Hp.
  set (Q := fun k => In k nts0 /\ Nullable g k).
  assert (Hheads : forall k0 rule, In (k0, rule) prods -> In k0 (dedup nts0)).
  { intros k0 rule Hin. now apply Hp in Hin. }
  assert (HQ : forall k0 rule, In (k0, rule) prods ->
                 (forall t, In t rule -> Q t) -> Q k0).
  { intros k0 rule Hin Hall. apply Hp in Hin.
    destruct Hin as [Hk (alts & Hl & Ha)]. split.
    - now apply dedup_In.
    - apply (Nullable_rule g k0 alts rule Hl Ha). intros t Ht.
      now apply Hall. }
  destruct (nullable_iter_spec Q prods (dedup nts0) Hheads HQ
              (S (List.length (dedup nts0))) [])
    as [Hs Hc].
  { constructor. }
  { intros x []. }
  { intros x []. }
  { simpl. lia. }
  cbv zeta in Hs, Hc.
  rewrite derives_nil_Nullable. split.
    + intros Hin. destruct (Hs k Hin) as [Hk Hn]. split; [|exact Hn].
      apply Hr in Hk. destruct Hk as (X & alts & alt & H1 & H2 & H3 & _).
      exists X, alts, alt. auto.
    + intros [(X & alts & alt & H1 & H2 & H3) Hn].
      assert (Hall : forall t, Nullable g t ->
                (exists X alts alt, In (X, alts) g /\ In alt alts /\ In t alt) ->
                In t (GLL.nullable_iter (S (List.length (dedup nts0))) prods [])).
      { clear k X alts alt H1 H2 H3 Hn.
        intros t Hn. induction Hn as [t alts alt Hl Ha Hsub IHn].
        intros (X & alts' & alt' & H1 & H2 & H3).
        apply (Hc t alt).
        - apply Hp. split.
          + apply dedup_In. apply Hr. exists X, alts', alt'.
            repeat split; auto. apply Hnt. unfold keys.
            apply lookup_In in Hl. apply in_map_iff. now exists (t, alts).
          + eauto.
        - intros s Hs'. apply IHn; [exact Hs'|].
          exists t, alts, alt. repeat split; auto. now apply lookup_In. }
      apply Hall; [exact Hn|]. exists X, alts, alt. auto.
Qed.

Lemma gll_nullable_set_witness :
  In "<A>" ["<A>"] <->
    (exists X alts alt,
        In (X, alts) eps_grammar /\ In alt alts /\ In "<A>" alt) /\
    derives eps_grammar ["<A>"] [].
Proof.
  apply (gll_nullable_set eps_grammar ["<A>"] eps_grammar_wf).
  vm_compute. reflexivity.
Defined.


(** ** Termination of the GLL recognizer *)

Lemma bind_returns {A B : Type} (r : result A) (k : A -> result B)
    (Q1 : A -> Prop) (Q2 : B -> Prop) :
  returns r Q1 -> (forall a, Q1 a -> returns (k a) Q2) ->
  returns (bind r k) Q2.
Proof.
  destruct r as [a|e]; simpl; [|intros []]. intros H1 H2. now apply H2.
Qed.

Lemma fold_returns_In {A B : Type} (f : result A -> B -> result A)
    (Q : A -> Prop) (l : list B) :
  (forall a b, In b l -> Q a -> returns (f (Ok a) b) Q) ->
  forall acc, returns acc Q -> returns (fold_left f l acc) Q.
Proof.
  induction l as [|b l IH]; intros Hok acc Hacc; simpl; auto.
  apply IH.
  - intros a b' Hb'. apply Hok. now right.
  - destruct acc as [a|e]; [|destruct Hacc].
    apply Hok; [now left | exact Hacc].
Qed.

Lemma last_char_some c t : exists b, last_char (String c t) = Some b.
Proof.
  revert c. induction t as [|c' t IH]; intros c; simpl; eauto.
Qed.

Lemma is_nt_total t : t <> "" -> exists b, is_nt t = Ok b.
Proof.
  destruct t as [|c t]; [congruence|]. intros _.
  destruct (last_char_some c t) as [b Hb].
  unfold is_nt. rewrite Hb. simpl. eauto.
Qed.

Lemma label_eqb_eq a b : GLL.label_eqb a b = true <-> a = b.
Proof.
  destruct a as [s | X n d], b as [s' | X' n' d']; simpl; split; intros H;
    try discriminate.
  - apply String.eqb_eq in H. now subst.
  - inversion H. apply String.eqb_refl.
  - apply andb_prop in H. destruct H as [H H3].
    apply andb_prop in H. destruct H as [H1 H2].
    apply String.eqb_eq in H1. apply Nat.eqb_eq in H2. apply Nat.eqb_eq in H3.
    now subst.
  - inversion H. now rewrite String.eqb_refl, !Nat.eqb_refl.
Qed.

Lemma triple_eqb_eq a b : GLL.triple_eqb a b = true <-> a = b.
Proof.
  destruct a as [[l u] w], b as [[l' u'] w']. unfold GLL.triple_eqb. split.
  - intros H. apply andb_prop in H. destruct H as [H H3].
    apply andb_prop in H. destruct H as [H1 H2].
    apply label_eqb_eq in H1. apply gss_label_eqb_eq in H2.
    apply sppf_key_eqb_eq in H3. now subst.
  - intros H. inversion H; subst.
    rewrite (proj2 (label_eqb_eq l' l') eq_refl).
    rewrite (proj2 (gss_label_eqb_eq u' u') eq_refl).
    now rewrite sppf_key_eqb_refl.
Qed.

Lemma list_set_length {A : Type} (l : list A) : forall i x,
  List.length (list_set l i x) = List.length l.
Proof.
  induction l as [|a l IH]; intros [|i] x; simpl; auto.
Qed.

Lemma list_set_nth_same {A : Type} (l : list A) : forall i x y,
  nth_error (list_set l i x) i = Some y -> y = x.
Proof.
  induction l as [|a l IH]; intros [|i] x y H; simpl in H; try discriminate.
  - now inversion H.
  - eapply IH; eauto.
Qed.

Lemma list_set_nth_other {A : Type} (l : list A) : forall i x j,
  j <> i -> nth_error (list_set l i x) j = nth_error l j.
Proof.
  induction l as [|a l IH]; intros [|i] x [|j] H; simpl; auto;
    try congruence.
Qed.

Lemma list_sum_list_set {A : Type} (f : A -> nat) (l : list A) : forall i a x,
  nth_error l i = Some a ->
  list_sum (map f (list_set l i x)) + f a = list_sum (map f l) + f x.
Proof.
  induction l as [|b l IH]; intros [|i] a x H; simpl in H; try discriminate.
  - inversion H; subst. simpl. lia.
  - simpl. specialize (IH i a x H). lia.
Qed.

Lemma get_dollar text :
  String.get (String.length text) (text ++ "$") = Some "$"%char.
Proof. induction text as [|c text IH]; simpl; auto. Qed.

Lemma get_some text : forall i,
  i <= String.length text -> exists c, String.get i (text ++ "$") = Some c.
Proof.
  induction text as [|c text IH]; intros i Hi; simpl in *.
  - assert (i = 0) by lia. subst. simpl. eauto.
  - destruct i as [|i]; [eauto|]. apply IH. lia.
Qed.

Lemma list_sum_repeat (n k : nat) : list_sum (repeat n k) = k * n.
Proof. induction k as [|k IH]; simpl; [reflexivity|]. rewrite IH. lia. Qed.

Lemma rhs_nonterminals_alt_total alt :
  (forall t, In t alt -> t <> "") ->
  exists l, GLL.rhs_nonterminals_alt alt = Ok l.
Proof.
  induction alt as [|a alt IH]; intros H; simpl; [eauto|].
  destruct (is_nt_total a) as [b Hb]; [apply H; now left|].
  unfold GLL.is_nonterminal. rewrite Hb. cbn [bind].
  destruct IH as [r Hr]; [intros t Ht; apply H; now right|].
  rewrite Hr. cbn [bind]. eauto.
Qed.

Lemma rhs_nonterminals_alts_total alts :
  (forall alt t, In alt alts -> In t alt -> t <> "") ->
  exists l, GLL.rhs_nonterminals_alts alts = Ok l.
Proof.
  induction alts as [|a alts IH]; intros H; simpl; [eauto|].
  destruct (rhs_nonterminals_alt_total a) as [x Hx];
    [intros t Ht; apply (H a t); auto; now left|].
  rewrite Hx. cbn [bind].
  destruct IH as [r Hr]; [intros alt t Ha Ht; apply (H alt t); auto; now right|].
  rewrite Hr. cbn [bind]. eauto.
Qed.

Lemma rhs_nonterminals_total g :
  (forall X alts alt t, In (X, alts) g -> In alt alts -> In t alt -> t <> "") ->
  exists l, GLL.rhs_nonterminals g = Ok l.
Proof.
  induction g as [|[X alts] g IH]; intros H; simpl; [eauto|].
  destruct (rhs_nonterminals_alts_total alts) as [x Hx];
    [intros alt t Ha Ht; apply (H X alts alt t); auto; now left|].
  rewrite Hx. cbn [bind].
  destruct IH as [r Hr];
    [intros X' alts' alt t Hin Ha Ht; apply (H X' alts' alt t); auto; now right|].
  rewrite Hr. cbn [bind]. eauto.
Qed.

Lemma productions_of_total g nts :
  (forall k, In k nts -> lookup g k <> None) ->
  exists prods, GLL.productions_of g nts = Ok prods.
Proof.
  induction nts as [|k nts IH]; intros H; simpl; [eauto|].
  destruct (lookup g k) as [alts|] eqn:E.
  - destruct IH as [r Hr]; [intros k' Hk'; apply H; now right|].
    rewrite Hr. cbn [bind]. eauto.
  - exfalso. apply (H k); [now left | exact E].
Qed.

Lemma nth_error_repeat_nil {A : Type} (k i : nat) (us : list A) :
  nth_error (repeat [] k) i = Some us -> us = [].
Proof.
  intros H. apply nth_error_In in H. now apply repeat_spec in H.
Qed.

Section GLLTermination.

Variable g : grammar.
Variable start : symbol.
Variable text : string.

Hypothesis Hsym : symbols_ok g.
Hypothesis Hfree : dollar_free g.

#[warnings="-notation-for-abbreviation"]
Local Notation m := (String.length text).

Lemma rule_at_entry X n rule :
  rule_at g X n = Some rule ->
  exists alts, In (X, alts) g /\ lookup g X = Some alts /\
               nth_error alts n = Some rule.
Proof.
  unfold rule_at. destruct (lookup g X) as [alts|] eqn:E; [|discriminate].
  intros H. exists alts. split; [now apply lookup_In | auto].
Qed.

Lemma key_symbol X alts : lookup g X = Some alts -> In X (all_symbols g).
Proof.
  intros H. apply lookup_In in H. unfold all_symbols. right.
  apply in_or_app. left. unfold keys. apply in_map_iff. now exists (X, alts).
Qed.

Lemma rule_symbol X n rule t :
  rule_at g X n = Some rule -> In t rule ->
  t <> "" /\ In t (all_symbols g) /\ (is_nt t = Ok true -> lookup g t <> None).
Proof.
  intros Hr Ht. destruct (rule_at_entry X n rule Hr) as (alts & Hin & _ & Hn).
  apply nth_error_In in Hn.
  destruct (Hsym X alts rule t Hin Hn Ht) as [H1 H2].
  split; [exact H1|]. split; [|exact H2].
  unfold all_symbols. right. apply in_or_app. right.
  apply in_flat_map. exists (X, alts). split; [exact Hin|]. simpl.
  apply in_concat. exists rule. auto.
Qed.

Lemma rule_length X n rule :
  rule_at g X n = Some rule -> List.length rule <= max_rule g.
Proof.
  intros Hr. destruct (rule_at_entry X n rule Hr) as (alts & Hin & _ & Hn).
  apply nth_error_In in Hn. unfold max_rule.
  assert (H : Forall (fun k => k <= list_max (map (@List.length symbol)
                                                 (flat_map snd g)))
                (map (@List.length symbol) (flat_map snd g))).
  { apply list_max_le. lia. }
  rewrite Forall_forall in H. apply H. apply in_map.
  apply in_flat_map. exists (X, alts). auto.
Qed.

Lemma slot_ok_In X n d : slot_ok g X n d -> In (X, n, d) (slots g).
Proof.
  intros (rule & Hr & Hd).
  destruct (rule_at_entry X n rule Hr) as (alts & Hin & _ & Hn).
  unfold slots. apply in_flat_map. exists (X, alts). split; [exact Hin|].
  cbn [fst snd]. apply in_flat_map. exists n. split.
  - apply in_seq. split; [lia|]. simpl.
    apply (proj1 (nth_error_Some alts n)). rewrite Hn. discriminate.
  - apply in_map_iff. exists d. split; [reflexivity|].
    apply in_seq. rewrite (nth_error_nth _ _ _ Hn). lia.
Qed.

Lemma slot_label_In X n d :
  slot_ok g X n d -> In (GLL.LSlot X n d) (slot_labels g).
Proof.
  intros H. unfold slot_labels. apply in_map_iff. exists (X, n, d).
  split; [reflexivity | now apply slot_ok_In].
Qed.

Lemma gss_in_In u : gss_in g text u -> In u (gss_universe g text).
Proof.
  intros [-> | (X & n & d & Hu & Hs & Hi)]; [now left|]. right.
  destruct u as [l i]. simpl in Hu, Hi. subst l.
  apply in_prod; [now apply slot_label_In|]. apply in_seq. lia.
Qed.

Lemma node_in_In w : node_in g text w -> In w (node_universe g text).
Proof.
  destruct w as [[t j] i]. intros (Ht & Hj & Hi). simpl in Ht, Hj, Hi.
  unfold node_universe. apply in_prod; [apply in_prod|]; try (apply in_seq; lia).
  unfold tag_universe. apply in_or_app.
  destruct t as [| x | X n d | X n d k]; simpl in Ht; try contradiction.
  - left. now apply in_map.
  - right. apply in_map_iff. exists (X, n, d). split; [reflexivity|].
    now apply slot_ok_In.
Qed.

Lemma desc_in_In e : desc_in g text e -> In e (desc_universe g text).
Proof.
  destruct e as [[L u] w]. intros ((X & n & d & HL & Hs) & Hu & Hw).
  simpl in HL, Hu, Hw. subst L.
  unfold desc_universe. apply in_prod; [apply in_prod|].
  - now apply slot_label_In.
  - now apply gss_in_In.
  - now apply node_in_In.
Qed.

Lemma node_in_end_rule : node_in g text GLL.end_rule.
Proof.
  unfold node_in, GLL.end_rule. simpl. split; [now left | lia].
Qed.

Lemma not_dummy_total w : node_in g text w -> exists b, GLL.not_dummy w = Ok b.
Proof.
  intros (Ht & _). unfold GLL.not_dummy.
  destruct (fst (fst w)) as [| x | X n d | X n d k]; simpl in Ht;
    try contradiction; eauto.
  destruct (String.eqb x "$"); eauto.
Qed.

Lemma is_non_nullable_alpha_total p alpha :
  (forall t, In t alpha -> t <> "") ->
  exists b, GLL.is_non_nullable_alpha p alpha = Ok b /\
            (b = true -> exists a, alpha = [a]).
Proof.
  intros H. unfold GLL.is_non_nullable_alpha.
  destruct alpha as [|a [|b l]].
  - exists false. split; [reflexivity | discriminate].
  - destruct (is_nt_total a) as [nt Hnt]; [apply H; now left|].
    unfold GLL.is_nonterminal. rewrite Hnt. cbn [bind].
    destruct (negb nt); [eauto|].
    destruct (sym_in a (GLL.p_nullable p)); eauto.
  - exists false. split; [reflexivity | discriminate].
Qed.

(** *** The SPPF store *)

Lemma with_sppf_twice p ns k ns' k' :
  GLL.with_sppf (GLL.with_sppf p ns k) ns' k' = GLL.with_sppf p ns' k'.
Proof. reflexivity. Qed.

Lemma safe_with_sppf p ns k :
  safe g text p -> packed_parents g ns -> safe g text (GLL.with_sppf p ns k).
Proof.
  intros (H1 & H2 & H3 & H4 & H5 & H6 & H7 & H8 & H9) Hns.
  unfold safe. simpl. auto 12.
Qed.

Lemma weight_with_sppf p ns k :
  weight g text (GLL.with_sppf p ns k) = weight g text p.
Proof. reflexivity. Qed.

Lemma packed_parents_app ns k node :
  packed_parents g ns -> not_packed k ->
  packed_parents g (ns ++ [(k, node)]).
Proof.
  intros Hns Hk X n d kk j i nd Ha. rewrite assoc_app_one in Ha.
  destruct (GLL.assoc GLL.sppf_key_eqb ns (GLL.TPacked X n d kk, j, i))
    as [n0|] eqn:E.
  - inversion Ha; subst n0. destruct (Hns X n d kk j i nd E) as (y & Hy & Hin).
    exists y. split; [|exact Hin]. rewrite assoc_app_one, Hy. reflexivity.
  - destruct (GLL.sppf_key_eqb (GLL.TPacked X n d kk, j, i) k) eqn:Ek;
      [|discriminate].
    apply sppf_key_eqb_eq in Ek. subst k. exfalso. apply (Hk X n d kk).
    reflexivity.
Qed.

Lemma find_or_create_safe p k :
  safe g text p -> not_packed k ->
  safe g text (GLL.sppf_find_or_create p k) /\
  weight g text (GLL.sppf_find_or_create p k) = weight g text p /\
  exists node,
    GLL.assoc GLL.sppf_key_eqb
      (GLL.SPPF_nodes (GLL.sppf_find_or_create p k)) k = Some node.
Proof.
  intros Hp Hk. unfold GLL.sppf_find_or_create.
  destruct (GLL.assoc GLL.sppf_key_eqb (GLL.SPPF_nodes p) k) as [nd|] eqn:E.
  - split; [exact Hp|]. split; [reflexivity|]. eauto.
  - split; [|split; [reflexivity|]].
    + apply safe_with_sppf; [exact Hp|].
      apply packed_parents_app; [|exact Hk].
      now destruct Hp as (_ & _ & _ & _ & _ & _ & _ & _ & H9).
    + simpl. rewrite assoc_app_one, E, sppf_key_eqb_refl. eauto.
Qed.

(** [getNodeP] returns: its assertion on the key of the packed node
    never fails. *)
Lemma getNodeP_returns p X n d w z :
  safe g text p -> slot_ok g X n d -> node_in g text w ->
  (node_in g text z \/ (d = 0 /\ snd (fst z) <= m /\ snd z <= m)) ->
  returns (GLL.getNodeP p X n d w z)
          (fun r => safe g text (snd r) /\
                    weight g text (snd r) = weight g text p /\
                    node_in g text (fst r)).
Proof.
  intros Hp Hs Hw Hz. pose proof Hs as (rule & Hr & Hd).
  pose proof Hp as (Hg & _).
  destruct (rule_at_entry X n rule Hr) as (alts & Hin & Hl & Hn).
  unfold GLL.getNodeP. rewrite Hg, Hl, Hn.
  destruct (is_non_nullable_alpha_total p (firstn d rule)) as (nn & Hnn & Hone).
  { intros t Ht.
    assert (Ht' : In t rule).
    { rewrite <- (firstn_skipn d rule). apply in_or_app. now left. }
    now destruct (rule_symbol X n rule t Hr Ht'). }
  rewrite Hnn. cbn [bind].
  destruct (nn && match skipn d rule with [] => false | _ :: _ => true end)
    eqn:Eb.
  - simpl. split; [exact Hp|]. split; [reflexivity|].
    destruct Hz as [Hz | (Hd0 & _)]; [exact Hz|].
    apply andb_prop in Eb. destruct Eb as [Eb _].
    destruct (Hone Eb) as [a Ha]. subst d. discriminate.
  - destruct z as [[tz kz] iz].
    assert (Hkz : kz <= m /\ iz <= m).
    { destruct Hz as [(_ & H1 & H2) | (_ & H1 & H2)]; simpl in H1, H2; auto. }
    destruct Hkz as [Hkz Hiz].
    destruct (not_dummy_total w Hw) as [b Hb]. rewrite Hb. cbn [bind].
    set (j := if b then snd (fst w) else kz).
    assert (Hj : j <= m).
    { unfold j. destruct b; [|exact Hkz]. now destruct Hw as (_ & H & _). }
    set (t := match skipn d rule with
              | [] => GLL.TStr X
              | _ :: _ => GLL.TSlot X n d
              end).
    assert (Htag : slot_tag g X n d = t).
    { unfold slot_tag, t. now rewrite Hr. }
    assert (Hnp : not_packed (t, j, iz)).
    { intros X' n' d' k'. unfold t. simpl.
      destruct (skipn d rule); discriminate. }
    assert (Hy : node_in g text (t, j, iz)).
    { unfold node_in. simpl. split; [|auto]. unfold t.
      destruct (skipn d rule); simpl; [|exact Hs].
      eapply key_symbol; eauto. }
    destruct (find_or_create_safe p (t, j, iz) Hp Hnp)
      as (Hp1 & Hw1 & ynode & Hyn).
    set (p1 := GLL.sppf_find_or_create p (t, j, iz)) in *.
    assert (Hch : GLL.node_children p1 (t, j, iz) = GLL.children ynode).
    { unfold GLL.node_children. now rewrite Hyn. }
    rewrite Hch.
    destruct (existsb (GLL.child_has_label X n d kz) (GLL.children ynode))
      eqn:Eex.
    + simpl. auto.
    + pose proof Hp1 as (_ & _ & _ & _ & _ & _ & _ & _ & Hpp).
      destruct (GLL.assoc GLL.sppf_key_eqb (GLL.SPPF_nodes p1)
                  (GLL.TPacked X n d kz, j, iz)) as [pn|] eqn:Ek.
      * exfalso. destruct (Hpp X n d kz j iz pn Ek) as (y & Hy1 & Hy2).
        rewrite Htag, Hyn in Hy1. inversion Hy1; subst y.
        assert (Hex : existsb (GLL.child_has_label X n d kz)
                        (GLL.children ynode) = true).
        { apply existsb_exists. exists (GLL.TPacked X n d kz, j, iz).
          split; [exact Hy2|]. unfold GLL.child_has_label. simpl.
          now rewrite String.eqb_refl, !Nat.eqb_refl. }
        congruence.
      * simpl. unfold GLL.add_child. simpl GLL.SPPF_nodes.
        rewrite assoc_app_one, Hyn. rewrite with_sppf_twice.
        split; [|split; [rewrite weight_with_sppf; exact Hw1 | exact Hy]].
        apply safe_with_sppf; [exact Hp1|].
        intros X' n' d' k' j' i' nd Ha.
        rewrite assoc_assoc_set in Ha.
        destruct (GLL.sppf_key_eqb (GLL.TPacked X' n' d' k', j', i') (t, j, iz))
          eqn:E1.
        { apply sppf_key_eqb_eq in E1. inversion E1 as [[E2 E3 E4]].
          exfalso. apply (Hnp X' n' d' k'). simpl. now rewrite <- E2. }
        rewrite assoc_app_one in Ha.
        assert (Hpar : exists y0,
                   GLL.assoc GLL.sppf_key_eqb (GLL.SPPF_nodes p1)
                     (slot_tag g X' n' d', j', i') = Some y0 /\
                   (In (GLL.TPacked X' n' d' k', j', i') (GLL.children y0) \/
                    ((GLL.TPacked X' n' d' k', j', i')
                     = (GLL.TPacked X n d kz, j, iz)))).
        { destruct (GLL.assoc GLL.sppf_key_eqb (GLL.SPPF_nodes p1)
                      (GLL.TPacked X' n' d' k', j', i')) as [n0|] eqn:E0.
          - destruct (Hpp X' n' d' k' j' i' n0 E0) as (y0 & Hy1 & Hy2).
            exists y0. auto.
          - destruct (GLL.sppf_key_eqb (GLL.TPacked X' n' d' k', j', i')
                        (GLL.TPacked X n d kz, j, iz)) eqn:E2; [|discriminate].
            apply sppf_key_eqb_eq in E2. inversion E2; subst X' n' d' k' j' i'.
            exists ynode. rewrite Htag. auto. }
        destruct Hpar as (y0 & Hy1 & Hy2).
        rewrite assoc_assoc_set.
        destruct (GLL.sppf_key_eqb (slot_tag g X' n' d', j', i') (t, j, iz))
          eqn:E3.
        { apply sppf_key_eqb_eq in E3. rewrite E3, Hyn in Hy1.
          inversion Hy1; subst y0.
          eexists. split; [reflexivity|]. simpl. apply in_or_app.
          destruct Hy2 as [Hy2 | Hy2]; [now left|]. right. left.
          now symmetry. }
        exists y0. split.
        { rewrite assoc_app_one, Hy1. reflexivity. }
        destruct Hy2 as [Hy2 | Hy2]; [exact Hy2|]. exfalso.
        inversion Hy2; subst X' n' d' k' j' i'.
        rewrite Htag, sppf_key_eqb_refl in E3. discriminate.
Qed.

(** *** Descriptors *)

Lemma safe_U_bound p i us :
  safe g text p -> nth_error (GLL.U p) i = Some us ->
  List.length us <= List.length (desc_universe g text).
Proof.
  intros (_ & _ & _ & _ & H5 & _) Hn. destruct (H5 i us Hn) as [Hnd Hin].
  apply NoDup_incl_length; [exact Hnd|].
  intros e He. apply desc_in_In. now apply Hin.
Qed.

Lemma add_thread_returns p L u i w :
  safe g text p -> i <= m -> desc_in g text (L, u, w) ->
  returns (GLL.add_thread p L u i w)
          (fun p' => safe g text p' /\ weight g text p' = weight g text p).
Proof.
  intros Hp Hi He. pose proof Hp as (H1 & H2 & H3 & H4 & H5 & H6 & H7 & H8 & H9).
  unfold GLL.add_thread.
  destruct (nth_error (GLL.U p) i) as [us|] eqn:En.
  2:{ apply nth_error_None in En. lia. }
  destruct (existsb (GLL.triple_eqb (L, u, w)) us) eqn:Eex; simpl; [auto|].
  assert (Hnew : ~ In (L, u, w) us).
  { intros Hin. assert (existsb (GLL.triple_eqb (L, u, w)) us = true).
    { apply existsb_exists. exists (L, u, w). split; [exact Hin|].
      now apply triple_eqb_eq. }
    congruence. }
  destruct (H5 i us En) as [Hnd Hall].
  assert (Hsafe : safe g text
            (GLL.with_threads p (GLL.threads p ++ [(L, u, i, w)])
               (list_set (GLL.U p) i (us ++ [(L, u, w)])))).
  { unfold safe. simpl.
    split; [exact H1|]. split; [exact H2|]. split; [exact H3|].
    split; [now rewrite list_set_length|].
    split; [|split; [|auto]].
    - intros i' us' Hn'. destruct (Nat.eq_dec i' i) as [-> | Hne].
      + apply list_set_nth_same in Hn'. subst us'. split.
        * now apply NoDup_snoc.
        * intros e Hin. apply in_app_or in Hin.
          destruct Hin as [Hin | [<- | []]]; auto.
      + rewrite list_set_nth_other in Hn' by exact Hne. now apply (H5 i').
    - intros L' u' i' w' Hin. apply in_app_or in Hin.
      destruct Hin as [Hin | [Heq | []]]; [now apply H6|].
      inversion Heq; subst. auto. }
  split; [exact Hsafe|].
  assert (Hlen : List.length (us ++ [(L, u, w)])
                 <= List.length (desc_universe g text)).
  { apply (safe_U_bound _ i _ Hsafe). simpl.
    clear - En. revert i En. induction (GLL.U p) as [|a l IH]; intros [|i] En;
      simpl in *; try discriminate; auto. }
  rewrite length_app in Hlen. simpl in Hlen.
  unfold weight, room. simpl. rewrite length_app. simpl.
  pose proof (list_sum_list_set
                (fun us0 => List.length (desc_universe g text) - List.length us0)
                (GLL.U p) i us (us ++ [(L, u, w)]) En) as Hsum.
  simpl in Hsum. rewrite length_app in Hsum. simpl in Hsum. lia.
Qed.

(** *** The GSS *)

Lemma safe_with_gss p gr pp :
  safe g text p ->
  (forall v es u2 w,
     GLL.assoc GLL.gss_label_eqb gr v = Some es ->
     In (u2, w) es -> gss_in g text u2 /\ node_in g text w) ->
  (forall v zs z,
     GLL.assoc GLL.gss_label_eqb pp v = Some zs ->
     In z zs -> node_in g text z) ->
  safe g text (GLL.with_gss p gr pp).
Proof.
  intros (H1 & H2 & H3 & H4 & H5 & H6 & H7 & H8 & H9) Hg Hpp.
  unfold safe. simpl. auto 12.
Qed.

Lemma gss_get_safe p v : safe g text p -> safe g text (GLL.gss_get p v).
Proof.
  intros Hp. unfold GLL.gss_get.
  destruct (GLL.assoc GLL.gss_label_eqb (GLL.graph p) v) eqn:E; [exact Hp|].
  pose proof Hp as (H1 & H2 & H3 & H4 & H5 & H6 & H7 & H8 & H9).
  apply safe_with_gss; [exact Hp| |].
  - intros v' es u2 w Ha Hin. rewrite gss_assoc_app_one in Ha.
    destruct (GLL.assoc GLL.gss_label_eqb (GLL.graph p) v') eqn:E'.
    + inversion Ha; subst. eapply H7; eauto.
    + destruct (GLL.gss_label_eqb v' v); [|discriminate].
      inversion Ha; subst. destruct Hin.
  - intros v' zs z Ha Hin. rewrite gss_assoc_app_one in Ha.
    destruct (GLL.assoc GLL.gss_label_eqb (GLL.P p) v') eqn:E'.
    + inversion Ha; subst. eapply H8; eauto.
    + destruct (GLL.gss_label_eqb v' v); [|discriminate].
      inversion Ha; subst. destruct Hin.
Qed.

Lemma weight_gss_get p v : weight g text (GLL.gss_get p v) = weight g text p.
Proof.
  unfold GLL.gss_get.
  destruct (GLL.assoc GLL.gss_label_eqb (GLL.graph p) v); reflexivity.
Qed.

Lemma add_parsed_index_safe p v z :
  safe g text p -> node_in g text z ->
  safe g text (GLL.add_parsed_index p v z).
Proof.
  intros Hp Hz. pose proof Hp as (H1 & H2 & H3 & H4 & H5 & H6 & H7 & H8 & H9).
  unfold GLL.add_parsed_index. apply safe_with_gss; [exact Hp | exact H7 |].
  intros v' zs z' Ha Hin. rewrite gss_assoc_assoc_set in Ha.
  destruct (GLL.gss_label_eqb v' v) eqn:E.
  - inversion Ha; subst zs.
    apply in_app_or in Hin. destruct Hin as [Hin | [<- | []]]; [|exact Hz].
    unfold GLL.parsed_indexes in Hin.
    destruct (GLL.assoc GLL.gss_label_eqb (GLL.P p) v) as [zs0|] eqn:E0;
      [|destruct Hin].
    eapply H8; eauto.
  - eapply H8; eauto.
Qed.

Lemma gss_in_slot u :
  gss_in g text u -> GLL.gss_label_eqb u GLL.stack_bottom = false ->
  exists X n d, fst u = GLL.LSlot X n d /\ slot_ok g X n d /\ snd u <= m.
Proof.
  intros [-> | H] E; [|exact H].
  rewrite (proj2 (gss_label_eqb_eq _ _) eq_refl) in E. discriminate.
Qed.

Lemma fn_return_returns p u i z :
  safe g text p -> i <= m -> gss_in g text u -> node_in g text z ->
  returns (GLL.fn_return p u i z)
          (fun p' => safe g text p' /\ weight g text p' = weight g text p).
Proof.
  intros Hp Hi Hu Hz. unfold GLL.fn_return.
  destruct (GLL.gss_label_eqb u GLL.stack_bottom) eqn:Eu; [simpl; auto|].
  destruct (gss_in_slot u Hu Eu) as (X & n & d & Hfu & Hs & _).
  rewrite Hfu.
  pose proof (add_parsed_index_safe p u z Hp Hz) as Hp1.
  apply fold_returns_In.
  - intros q [u2 we] Hin [Hq Hwq]. cbn [bind fst snd].
    assert (He : gss_in g text u2 /\ node_in g text we).
    { destruct Hp1 as (_ & _ & _ & _ & _ & _ & H7 & _).
      unfold GLL.gss_children in Hin.
      destruct (GLL.assoc GLL.gss_label_eqb
                  (GLL.graph (GLL.add_parsed_index p u z)) u) as [es|] eqn:Ees;
        [|destruct Hin].
      eapply H7; eauto. }
    destruct He as [Hu2 Hwe].
    apply bind_returns
      with (Q1 := fun r => safe g text (snd r) /\
                           weight g text (snd r) = weight g text q /\
                           node_in g text (fst r)).
    + apply getNodeP_returns; auto.
    + intros r (R1 & R2 & R3).
      assert (Hd : desc_in g text (GLL.LSlot X n d, u2, fst r)).
      { unfold desc_in. simpl. split; [eauto|]. auto. }
      pose proof (add_thread_returns (snd r) (GLL.LSlot X n d) u2 i (fst r)
                    R1 Hi Hd) as Hat.
      destruct (GLL.add_thread (snd r) (GLL.LSlot X n d) u2 i (fst r));
        simpl in *; [|exact Hat].
      destruct Hat as [Ha1 Ha2]. split; [exact Ha1 | congruence].
  - simpl. split; [exact Hp1 | reflexivity].
Qed.

Lemma register_return_returns p X n d u i w :
  safe g text p -> slot_ok g X n d -> i <= m ->
  gss_in g text u -> node_in g text w ->
  returns (GLL.register_return p X n d u i w)
          (fun r => fst r = (GLL.LSlot X n d, i) /\
                    safe g text (snd r) /\
                    weight g text (snd r) = weight g text p).
Proof.
  intros Hp Hs Hi Hu Hw. unfold GLL.register_return.
  set (v := (GLL.LSlot X n d, i)).
  pose proof (gss_get_safe p v Hp) as Hp1.
  pose proof (weight_gss_get p v) as Hw1.
  destruct (existsb _ (GLL.gss_children (GLL.gss_get p v) v));
    [simpl; auto|].
  set (p2 := GLL.with_gss (GLL.gss_get p v)
               (GLL.assoc_set GLL.gss_label_eqb (GLL.graph (GLL.gss_get p v)) v
                  (GLL.gss_children (GLL.gss_get p v) v ++ [(u, w)]))
               (GLL.P (GLL.gss_get p v))).
  assert (Hp2 : safe g text p2).
  { pose proof Hp1 as (H1 & H2 & H3 & H4 & H5 & H6 & H7 & H8 & H9).
    apply safe_with_gss; [exact Hp1 | | exact H8].
    intros v' es u2 w' Ha Hin. rewrite gss_assoc_assoc_set in Ha.
    destruct (GLL.gss_label_eqb v' v) eqn:E.
    - inversion Ha; subst es.
      apply in_app_or in Hin. destruct Hin as [Hin | [Heq | []]].
      + unfold GLL.gss_children in Hin.
        destruct (GLL.assoc GLL.gss_label_eqb (GLL.graph (GLL.gss_get p v)) v)
          as [es0|] eqn:E0; [|destruct Hin].
        eapply H7; eauto.
      + inversion Heq; subst u2 w'. auto.
    - eapply H7; eauto. }
  assert (Hw2 : weight g text p2 = weight g text p) by exact Hw1.
  apply bind_returns
    with (Q1 := fun q => safe g text q /\ weight g text q = weight g text p).
  - apply fold_returns_In.
    + intros q z Hin [Hq Hwq]. cbn [bind].
      assert (Hz : node_in g text z).
      { destruct Hp2 as (_ & _ & _ & _ & _ & _ & _ & H8 & _).
        unfold GLL.parsed_indexes in Hin.
        destruct (GLL.assoc GLL.gss_label_eqb (GLL.P p2) v) as [zs|] eqn:Ezs;
          [|destruct Hin].
        eapply H8; eauto. }
      apply bind_returns
        with (Q1 := fun r => safe g text (snd r) /\
                             weight g text (snd r) = weight g text q /\
                             node_in g text (fst r)).
      * apply getNodeP_returns; auto.
      * intros r (R1 & R2 & R3).
        assert (Hd : desc_in g text (GLL.LSlot X n d, u, fst r)).
        { unfold desc_in. simpl. split; [eauto|]. auto. }
        assert (Hzi : snd z <= m) by (now destruct Hz as (_ & _ & H)).
        pose proof (add_thread_returns (snd r) (GLL.LSlot X n d) u (snd z)
                      (fst r) R1 Hzi Hd) as Hat.
        destruct (GLL.add_thread (snd r) (GLL.LSlot X n d) u (snd z) (fst r));
          simpl in *; [|exact Hat].
        destruct Hat as [Ha1 Ha2]. split; [exact Ha1 | congruence].
    + simpl. auto.
  - intros q [Hq Hwq]. simpl. auto.
Qed.

Lemma add_alt_threads_returns key u i :
  gss_in g text u -> i <= m ->
  forall alts n p,
    (forall k a, nth_error alts k = Some a -> rule_at g key (n + k) = Some a) ->
    safe g text p ->
    returns (GLL.add_alt_threads p key n alts u i)
            (fun p' => safe g text p' /\ weight g text p' = weight g text p).
Proof.
  intros Hu Hi. induction alts as [|a alts IH]; intros n p Hnth Hp; simpl.
  - auto.
  - apply bind_returns
      with (Q1 := fun p' => safe g text p' /\ weight g text p' = weight g text p).
    + apply add_thread_returns; auto.
      unfold desc_in. simpl. split; [|split; [exact Hu | apply node_in_end_rule]].
      exists key, n, 0. split; [reflexivity|]. exists a. split; [|lia].
      specialize (Hnth 0 a eq_refl). now rewrite Nat.add_0_r in Hnth.
    + intros p1 [Hp1 Hw1].
      assert (IH' := IH (S n) p1).
      assert (Hn' : forall k a0, nth_error alts k = Some a0 ->
                      rule_at g key (S n + k) = Some a0).
      { intros k a0 Hk. specialize (Hnth (S k) a0 Hk).
        now replace (S n + k) with (n + S k) by lia. }
      specialize (IH' Hn' Hp1).
      destruct (GLL.add_alt_threads p1 key (S n) alts u i); simpl in *;
        [|exact IH'].
      destruct IH' as [I1 I2]. split; [exact I1 | congruence].
Qed.

(** *** One turn of the loop *)

Lemma input_at_some p i :
  safe g text p -> i <= m ->
  exists c, GLL.input_at p i = Some (String c "") /\
            (i = m -> c = "$"%char).
Proof.
  intros (_ & H2 & _) Hi. unfold GLL.input_at. rewrite H2.
  destruct (get_some text i Hi) as [c Hc]. rewrite Hc. exists c.
  split; [reflexivity|]. intros ->. rewrite get_dollar in Hc. now inversion Hc.
Qed.

Lemma get_nullable_total : exists nl, GLL.get_nullable g = Ok nl.
Proof.
  unfold GLL.get_nullable.
  destruct (rhs_nonterminals_total g) as [nts0 H0].
  { intros X alts alt t H1 H2 H3. now destruct (Hsym X alts alt t H1 H2 H3). }
  rewrite H0. cbn [bind].
  destruct (productions_of_total g (dedup nts0)) as [prods Hp].
  { intros k Hk. apply (proj1 (dedup_In nts0 k)) in Hk.
    apply (proj1 (rhs_nonterminals_spec g nts0 H0 k)) in Hk.
    destruct Hk as (X & alts & alt & H1 & H2 & H3 & H4).
    now apply (Hsym X alts alt k H1 H2 H3). }
  rewrite Hp. cbn [bind]. eauto.
Qed.

(** Every turn of the loop of the driver returns, and leaves fewer
    turns to go. *)
Lemma step_progress c :
  config_safe g text c ->
  returns (GLL.step g start c)
          (fun r => match r with
                    | inl c' => config_safe g text c' /\
                                turns_left g text c' < turns_left g text c
                    | inr _ => True
                    end).
Proof.
  intros (Hp & Hi & Hu & Hw & HL).
  pose proof Hp as (H1 & H2 & H3 & H4 & H5 & H6 & H7 & H8 & H9).
  unfold GLL.step. unfold turns_left.
  destruct (GLL.cL c) as [s | X n pos] eqn:EL.
  - destruct (String.eqb s "L0") eqn:E0.
    + destruct (GLL.threads (GLL.c_parser c)) as [|[[[L u] i] w] ts] eqn:Et.
      * destruct (GLL.assoc GLL.sppf_key_eqb (GLL.SPPF_nodes (GLL.c_parser c))
                    (GLL.TStr start, 0, GLL.m (GLL.c_parser c)));
          simpl; exact I.
      * simpl.
        destruct (H6 L u i w) as [Hi' Hd]; [try rewrite Et; now left|].
        destruct Hd as ((X & n & d & HL' & Hs) & Hu' & Hw').
        simpl in HL', Hu', Hw'. subst L.
        split.
        -- unfold config_safe. simpl. split; [|auto].
           unfold safe. simpl.
           split; [exact H1|]. split; [exact H2|]. split; [exact H3|].
           split; [exact H4|]. split; [exact H5|]. split; [|auto].
           intros L' u' i' w' Hin. apply H6. try rewrite Et. now right.
        -- destruct Hs as (rule & Hr & Hd). unfold local_steps.
           rewrite Hr, E0.
           pose proof (rule_length X n rule Hr) as Hlen.
           unfold weight, room. simpl. rewrite Et. simpl.
           set (R := list_sum _). nia.
    + destruct (String.eqb s "L_") eqn:E1.
      * apply bind_returns
          with (Q1 := fun p' => safe g text p' /\
                                weight g text p' = weight g text (GLL.c_parser c)).
        -- apply fn_return_returns; auto.
        -- intros p1 [Hp1 Hw1]. simpl. split.
           ++ unfold config_safe. simpl. auto 10.
           ++ rewrite Hw1, E0. simpl. lia.
      * destruct HL as [HL | [HL | HL]]; try congruence.
        destruct (lookup g s) as [alts|] eqn:El; [|congruence].
        apply bind_returns
          with (Q1 := fun p' => safe g text p' /\
                                weight g text p' = weight g text (GLL.c_parser c)).
        -- apply add_alt_threads_returns; auto.
           intros k a Hk. unfold rule_at. rewrite El. exact Hk.
        -- intros p1 [Hp1 Hw1]. simpl. split.
           ++ unfold config_safe. simpl. auto 10.
           ++ rewrite Hw1, E0. simpl. lia.
  - pose proof HL as (rule & Hr & Hle).
    destruct (rule_at_entry X n rule Hr) as (alts & Hin & Hl & Hn).
    rewrite Hl, Hn. unfold local_steps at 2. rewrite Hr.
    destruct rule as [|t0 rule'].
    + (* an empty alternative *)
      destruct pos as [|pos]; [|simpl in Hle; lia].
      unfold GLL.getNodeT.
      destruct (find_or_create_safe (GLL.c_parser c)
                  (GLL.TNone, GLL.c_cur_idx c, GLL.c_cur_idx c) Hp)
        as (Hp1 & Hw1 & _).
      { intros X' n' d' k'. discriminate. }
      apply bind_returns
        with (Q1 := fun r => safe g text (snd r) /\
                             weight g text (snd r)
                             = weight g text (GLL.c_parser c) /\
                             node_in g text (fst r)).
      * rewrite <- Hw1. apply getNodeP_returns; auto.
      * intros r (R1 & R2 & R3). simpl. split.
        -- unfold config_safe. simpl. auto 10.
        -- rewrite R2. simpl. lia.
    + destruct (nth_error (t0 :: rule') pos) as [t|] eqn:Et.
      * assert (Hpos : pos < List.length (t0 :: rule')).
        { apply (proj1 (nth_error_Some (t0 :: rule') pos)). rewrite Et.
          discriminate. }
        assert (Htin : In t (t0 :: rule')) by (eapply nth_error_In; eauto).
        destruct (rule_symbol X n (t0 :: rule') t Hr Htin) as (Hne & Hall & Hkey).
        destruct (is_nt_total t Hne) as [nt Hnt].
        unfold GLL.is_nonterminal. rewrite Hnt. cbn [bind].
        assert (Hslot : slot_ok g X n (pos + 1)).
        { exists (t0 :: rule'). split; [exact Hr | lia]. }
        destruct nt.
        -- (* a nonterminal: call *)
           apply bind_returns
             with (Q1 := fun r => fst r = (GLL.LSlot X n (pos + 1), GLL.c_cur_idx c) /\
                                  safe g text (snd r) /\
                                  weight g text (snd r)
                                  = weight g text (GLL.c_parser c)).
           ++ apply register_return_returns; auto.
           ++ intros [v q] (R1 & R2 & R3). simpl in R1, R2, R3. subst v.
              simpl. split.
              ** unfold config_safe. simpl.
                 split; [exact R2|]. split; [exact Hi|].
                 split; [|split; [exact Hw|]].
                 { right. exists X, n, (pos + 1). simpl. auto. }
                 { right. right. now apply Hkey. }
              ** rewrite R3. destruct (String.eqb t "L0"); lia.
        -- (* a terminal: scan *)
           destruct (input_at_some (GLL.c_parser c) (GLL.c_cur_idx c) Hp Hi)
             as (ch & Hch & Hm).
           rewrite Hch.
           destruct (String.eqb (String ch "") t) eqn:Ech.
           ++ apply String.eqb_eq in Ech.
              assert (Hlt : GLL.c_cur_idx c < m).
              { destruct (Nat.eq_dec (GLL.c_cur_idx c) m) as [Heq | Hneq]; [|lia].
                exfalso. specialize (Hm Heq). subst ch.
                apply (Hfree X n (t0 :: rule') Hr). now rewrite Ech. }
              unfold GLL.getNodeT.
              destruct (find_or_create_safe (GLL.c_parser c)
                          (GLL.TStr (String ch ""), GLL.c_cur_idx c,
                           GLL.c_cur_idx c + 1) Hp)
                as (Hp1 & Hw1 & _).
              { intros X' n' d' k'. discriminate. }
              apply bind_returns
                with (Q1 := fun r => safe g text (snd r) /\
                                     weight g text (snd r)
                                     = weight g text (GLL.c_parser c) /\
                                     node_in g text (fst r)).
              ** rewrite <- Hw1. apply getNodeP_returns; auto.
                 left. unfold node_in. simpl. rewrite Ech.
                 split; [exact Hall | lia].
              ** intros r (R1 & R2 & R3). simpl. split.
                 { unfold config_safe. simpl.
                   split; [exact R1|]. split; [lia|]. auto. }
                 { rewrite R2, Hr. simpl List.length in *. destruct pos; lia. }
           ++ simpl. split.
              ** unfold config_safe. simpl. auto 10.
              ** lia.
      * (* the end of the alternative *)
        assert (Hge : List.length (t0 :: rule') <= pos).
        { apply nth_error_None. exact Et. }
        assert (Heq : pos = List.length (t0 :: rule')) by lia.
        rewrite (proj2 (Nat.eqb_eq _ _) Heq). simpl returns. split.
        -- unfold config_safe. simpl. auto 10.
        -- simpl local_steps. lia.
Qed.

Lemma run_terminates :
  forall fuel c,
    config_safe g text c -> turns_left g text c < fuel ->
    exists o, GLL.run fuel g start c = Some (Ok o).
Proof.
  induction fuel as [|fuel IH]; intros c Hc Hlt; [lia|]. simpl.
  pose proof (step_progress c Hc) as Hs.
  destruct (GLL.step g start c) as [[c'|o]|e]; simpl in Hs.
  - destruct Hs as [Hc' Hlt']. apply IH; [exact Hc' | lia].
  - eauto.
  - destruct Hs.
Qed.

Lemma initial_config_safe :
  lookup g start <> None ->
  returns (GLL.initial_config g text start)
          (fun c => config_safe g text c /\
                    turns_left g text c < gll_budget g text).
Proof.
  intros Hstart. unfold GLL.initial_config, GLL.set_grammar.
  destruct get_nullable_total as [nl Hnl]. rewrite Hnl. cbn [bind].
  set (p0 := GLL.mkP _ _ _ _ _ _ _ _ _ _ _).
  assert (Hp0 : safe g text p0).
  { unfold safe, p0, GLL.initialize. simpl.
    split; [reflexivity|]. split; [reflexivity|]. split; [reflexivity|].
    split; [apply repeat_length|]. split.
    { intros i us Hn. apply nth_error_repeat_nil in Hn. subst us.
      split; [constructor | intros e []]. }
    split; [intros L u i w []|]. split.
    { intros v es u2 w Ha Hin.
      destruct (GLL.gss_label_eqb v GLL.stack_bottom); [|discriminate].
      inversion Ha; subst. destruct Hin. }
    split.
    { intros v zs z Ha Hin.
      destruct (GLL.gss_label_eqb v GLL.stack_bottom); [|discriminate].
      inversion Ha; subst. destruct Hin. }
    intros X n d k j i node Ha. discriminate. }
  destruct (find_or_create_safe p0 GLL.end_rule Hp0) as (Hp1 & Hw1 & _).
  { intros X' n' d' k'. discriminate. }
  simpl returns. split.
  - unfold config_safe. simpl.
    split; [exact Hp1|]. split; [lia|]. split; [now left|].
    split; [apply node_in_end_rule|]. auto.
  - unfold turns_left. simpl GLL.c_parser. simpl GLL.cL. rewrite Hw1.
    assert (Hw0 : weight g text p0
                  = (m + 1) * List.length (desc_universe g text)).
    { unfold weight, room, p0, GLL.initialize. simpl GLL.U. simpl GLL.threads.
      rewrite map_repeat, list_sum_repeat. simpl List.length. lia. }
    rewrite Hw0. unfold gll_budget, local_steps.
    destruct (String.eqb start "L0"); lia.
Qed.

End GLLTermination.

(** X13.  The compiled GLL recognizer terminates, and never raises: for
    a grammar whose symbols are non-empty strings, with every symbol of
    the form [<...>] a key, in which no alternative uses the end marker
    [$], and that [exec] compiles as meant ([GLL.source_ok]: symbols of
    printable ASCII characters, without the backslash and the quotes
    that end their literals, and at most 400 branches in the generated
    chain), [recognize_on(text, start)] with [start] a key of the
    grammar returns the parser object or the empty list for every text,
    after at most [gll_budget g text] turns of its loop. *)
Theorem gll_recognizer_terminates
    (g : grammar) (start : symbol) (text : string) :
  symbols_ok g -> dollar_free g -> GLL.source_ok g = true ->
  lookup g start <> None ->
  exists o, forall fuel,
    gll_budget g text <= fuel ->
    GLL.recognize_on fuel g text start = Some (Ok o).
Proof.
  intros Hsym Hfree Hsrc Hstart.
  pose proof (initial_config_safe g start text Hsym Hstart) as Hinit.
  unfold GLL.recognize_on. rewrite Hsrc. unfold GLL.generated_recognize_on.
  destruct (GLL.initial_config g text start) as [c|e]; simpl in Hinit;
    [|destruct Hinit].
  destruct Hinit as [Hc Hlt].
  destruct (run_terminates g start text Hsym Hfree (gll_budget g text) c Hc Hlt)
    as [o Ho].
  exists o. intros fuel Hle.
  replace fuel with (gll_budget g text + (fuel - gll_budget g text)) by lia.
  now apply gll_run_more_fuel.
Qed.

Lemma dup_grammar_symbols_ok : symbols_ok dup_grammar.
Proof.
  intros X alts alt t [Heq | []] Ha Ht. inversion Heq; subst.
  destruct Ha as [<- | [<- | []]]; destruct Ht as [<- | []];
    (split; [discriminate | intros H; discriminate]).
Qed.

Lemma gll_recognizer_terminates_witness :
  exists o, forall fuel,
    gll_budget dup_grammar "a" <= fuel ->
    GLL.recognize_on fuel dup_grammar "a" "<S>" = Some (Ok o).
Proof.
  apply (gll_recognizer_terminates dup_grammar "<S>" "a").
  - exact dup_grammar_symbols_ok.
  - exact dup_grammar_dollar_free.
  - reflexivity.
  - discriminate.
Defined.


(** ** Completeness of the GLL recognizer: the parser object *)

Lemma grown_refl p : grown p p.
Proof.
  unfold grown. repeat split; try (intros; apply incl_refl); auto.
  - intros i us H. exists us. split; [exact H | apply incl_refl].
  - intros i us' e H1 H2. left. eauto.
Qed.

Lemma grown_trans p1 p2 p3 : grown p1 p2 -> grown p2 p3 -> grown p1 p3.
Proof.
  intros (A1 & A2 & A3 & A4 & A5 & A6) (B1 & B2 & B3 & B4 & B5 & B6).
  unfold grown. repeat split.
  - intros i us H. destruct (A1 i us H) as (us' & H' & Hi).
    destruct (B1 i us' H') as (us'' & H'' & Hi').
    exists us''. split; [exact H''|]. eapply incl_tran; eauto.
  - eapply incl_tran; eauto.
  - intros v. eapply incl_tran; eauto.
  - intros v. eapply incl_tran; eauto.
  - auto.
  - intros i us' e H1 H2. destruct (B6 i us' e H1 H2) as [(us & H3 & H4) | H3];
      [|now right].
    destruct (A6 i us e H3 H4) as [H5 | H5]; [now left|].
    right. now apply B2.
Qed.

Lemma fold_raise {A B : Type} (f : result A -> B -> result A) :
  (forall e b, f (Raise e) b = Raise e) ->
  forall l e, fold_left f l (Raise e) = Raise e.
Proof.
  intros H. induction l as [|b l IH]; intros e; simpl; [reflexivity|].
  now rewrite H.
Qed.

(** A loop that keeps [Inv] and establishes [R b] for every element
    [b] it goes through. *)
Lemma fold_ensures_each {A B : Type} (f : result A -> B -> result A)
    (Inv : A -> Prop) (R : B -> A -> Prop) :
  (forall e b, f (Raise e) b = Raise e) ->
  forall l,
    (forall a b, In b l -> Inv a ->
       ensures (f (Ok a) b)
               (fun a' => Inv a' /\ R b a' /\ forall b', R b' a -> R b' a')) ->
    forall (done : list B) a,
      Inv a -> (forall b, In b done -> R b a) ->
      ensures (fold_left f l (Ok a))
              (fun a' => Inv a' /\ forall b, In b (done ++ l) -> R b a').
Proof.
  intros Hraise. induction l as [|b0 l IH]; intros Hstep done a Ha Hd; simpl.
  - apply Ok_ensures. split; [exact Ha|]. intros b Hb.
    rewrite app_nil_r in Hb. auto.
  - destruct (f (Ok a) b0) as [a1|e] eqn:E.
    + destruct (Hstep a b0 (or_introl eq_refl) Ha a1 E) as (I1 & I2 & I3).
      assert (IH' := IH (fun a' b' Hb' => Hstep a' b' (or_intror Hb'))
                        (done ++ [b0]) a1 I1).
      rewrite <- app_assoc in IH'. simpl in IH'. apply IH'.
      intros b Hb. apply in_app_or in Hb. destruct Hb as [Hb | [<- | []]]; auto.
    + rewrite fold_raise by exact Hraise. apply Raise_ensures.
Qed.

Lemma children_gss_get p v v' :
  GLL.gss_children (GLL.gss_get p v) v' = GLL.gss_children p v'.
Proof.
  unfold GLL.gss_children, GLL.gss_get.
  destruct (GLL.assoc GLL.gss_label_eqb (GLL.graph p) v) eqn:E; [reflexivity|].
  simpl. rewrite gss_assoc_app_one.
  destruct (GLL.assoc GLL.gss_label_eqb (GLL.graph p) v'); [reflexivity|].
  destruct (GLL.gss_label_eqb v' v); reflexivity.
Qed.

Lemma parsed_gss_get p v v' :
  GLL.parsed_indexes (GLL.gss_get p v) v' = GLL.parsed_indexes p v'.
Proof.
  unfold GLL.parsed_indexes, GLL.gss_get.
  destruct (GLL.assoc GLL.gss_label_eqb (GLL.graph p) v) eqn:E; [reflexivity|].
  simpl. rewrite gss_assoc_app_one.
  destruct (GLL.assoc GLL.gss_label_eqb (GLL.P p) v'); [reflexivity|].
  destruct (GLL.gss_label_eqb v' v); reflexivity.
Qed.

Lemma children_set p v cs pp v' :
  GLL.gss_children
    (GLL.with_gss p (GLL.assoc_set GLL.gss_label_eqb (GLL.graph p) v cs) pp) v'
  = if GLL.gss_label_eqb v' v then cs else GLL.gss_children p v'.
Proof.
  unfold GLL.gss_children. simpl. rewrite gss_assoc_assoc_set.
  destruct (GLL.gss_label_eqb v' v); reflexivity.
Qed.

Lemma parsed_add p v z v' :
  GLL.parsed_indexes (GLL.add_parsed_index p v z) v'
  = if GLL.gss_label_eqb v' v then GLL.parsed_indexes p v ++ [z]
    else GLL.parsed_indexes p v'.
Proof.
  unfold GLL.add_parsed_index.
  unfold GLL.parsed_indexes at 1. simpl. rewrite gss_assoc_assoc_set.
  destruct (GLL.gss_label_eqb v' v); reflexivity.
Qed.

Lemma nn_alpha_parser p alpha :
  GLL.is_non_nullable_alpha p alpha = nn_alpha (GLL.p_nullable p) alpha.
Proof. reflexivity. Qed.

Lemma nn_alpha_singleton nl alpha :
  nn_alpha nl alpha = Ok true -> exists a, alpha = [a].
Proof.
  unfold nn_alpha. destruct alpha as [|a [|b l]]; try discriminate. eauto.
Qed.

Lemma in_store_find_or_create p k k' :
  in_store p k' -> in_store (GLL.sppf_find_or_create p k) k'.
Proof.
  unfold in_store, GLL.sppf_find_or_create.
  destruct (GLL.assoc GLL.sppf_key_eqb (GLL.SPPF_nodes p) k); [auto|].
  simpl. rewrite assoc_app_one.
  destruct (GLL.assoc GLL.sppf_key_eqb (GLL.SPPF_nodes p) k'); congruence.
Qed.

Lemma in_store_created p k : in_store (GLL.sppf_find_or_create p k) k.
Proof.
  unfold in_store, GLL.sppf_find_or_create.
  destruct (GLL.assoc GLL.sppf_key_eqb (GLL.SPPF_nodes p) k) eqn:E;
    [congruence|].
  simpl. rewrite assoc_app_one, E, sppf_key_eqb_refl. discriminate.
Qed.

Lemma find_or_create_with_sppf p k :
  exists ns c, GLL.sppf_find_or_create p k = GLL.with_sppf p ns c.
Proof.
  unfold GLL.sppf_find_or_create.
  destruct (GLL.assoc GLL.sppf_key_eqb (GLL.SPPF_nodes p) k).
  - exists (GLL.SPPF_nodes p), (GLL.N_ID p). now destruct p.
  - eauto.
Qed.

Lemma add_child_with_sppf p q ns c y k :
  q = GLL.with_sppf p ns c ->
  GLL.add_child q y k
  = GLL.with_sppf p (GLL.SPPF_nodes (GLL.add_child q y k))
                  (GLL.N_ID (GLL.add_child q y k)).
Proof.
  intros ->. unfold GLL.add_child.
  destruct (GLL.assoc GLL.sppf_key_eqb
              (GLL.SPPF_nodes (GLL.with_sppf p ns c)) y); reflexivity.
Qed.

Lemma grown_with_sppf p ns c :
  (forall k, in_store p k -> GLL.assoc GLL.sppf_key_eqb ns k <> None) ->
  grown p (GLL.with_sppf p ns c).
Proof.
  intros H. unfold grown. simpl.
  repeat split; try (intros; apply incl_refl); auto.
  - intros i us Hn. exists us. split; [exact Hn | apply incl_refl].
  - intros i us' e H1 H2. left. eauto.
Qed.

Section GLLClosureOps.

Variable g : grammar.
Variable start : symbol.
Variable text : string.
Variable nl : list symbol.

Hypothesis Hwf : wf_grammar g.
Hypothesis Hsym : symbols_ok g.
Hypothesis Hfree : dollar_free g.

Lemma in_U_grown p p' X n d u i :
  grown p p' -> in_U g nl p X n d u i -> in_U g nl p' X n d u i.
Proof.
  intros (A1 & _) (us & H1 & H2). destruct (A1 i us H1) as (us' & H3 & H4).
  exists us'. auto.
Qed.

Lemma kdesc_grown p p' L u i w :
  grown p p' -> kdesc g start nl p L u i w -> kdesc g start nl p' L u i w.
Proof.
  intros (_ & _ & _ & _ & A5 & _) (X & n & d & rule & H1 & H2 & H3 & H4 & H5 & H6 & H7).
  exists X, n, d, rule. repeat (split; [assumption|]). auto.
Qed.

Lemma waiting_grown p p' X n d u i :
  grown p p' -> waiting g text nl p X n d u i -> waiting g text nl p' X n d u i.
Proof.
  intros (_ & A2 & _) (d0 & i0 & H1 & H2). exists d0, i0. auto.
Qed.

Lemma handled_grown p p' X n d u i :
  grown p p' -> handled g nl p X n d u i -> handled g nl p' X n d u i.
Proof.
  intros (_ & _ & A3 & A4 & A5 & _) H rule Hr.
  destruct (H rule Hr) as [H1 H2]. split.
  - intros Hd. destruct (H1 Hd) as [H3 H4]. split; [auto|].
    intros Hu. apply A4. auto.
  - intros Y HY Hnt. apply A3. eauto.
Qed.

Lemma visited_grown_inv p p' X n d u i :
  grown p p' -> visited g text nl p' X n d u i ->
  visited g text nl p X n d u i \/ waiting g text nl p' X n d u i.
Proof.
  intros (_ & _ & _ & _ & _ & A6) (d0 & i0 & (us & H1 & H2) & H3).
  destruct (A6 i0 us _ H1 H2) as [(us0 & H4 & H5) | H4].
  - left. exists d0, i0. split; [|exact H3]. exists us0. auto.
  - right. exists d0, i0. auto.
Qed.

Lemma kcore_with_sppf p ns c :
  kcore g start text nl p ->
  (forall k, in_store p k -> GLL.assoc GLL.sppf_key_eqb ns k <> None) ->
  kcore g start text nl (GLL.with_sppf p ns c).
Proof.
  intros (H1 & H2 & H3 & H4 & H5 & H6 & H7 & H8) Hns.
  unfold kcore. simpl.
  split; [exact H1|]. split; [exact H2|]. split; [exact H3|].
  split; [exact H4|]. split; [|auto].
  intros i us L u w Hn Hin.
  apply (kdesc_grown p); [now apply grown_with_sppf | eauto].
Qed.

Lemma returns_done_with_sppf p ns c :
  returns_done g nl p -> returns_done g nl (GLL.with_sppf p ns c).
Proof. intros H. exact H. Qed.

Lemma key_not_dollar X alts : lookup g X = Some alts -> X <> "$".
Proof.
  intros H ->. pose proof (key_is_nt g Hwf "$" alts H) as Hn. discriminate.
Qed.

Lemma canon_not_dummy X n d rule j i :
  rule_at g X n = Some rule -> 0 < d ->
  GLL.not_dummy (canon g nl X n d j i) = Ok true /\
  snd (fst (canon g nl X n d j i)) = j.
Proof.
  intros Hr Hd. unfold canon. destruct d as [|d']; [lia|]. rewrite Hr.
  destruct (rule_at_entry g X n rule Hr) as (alts & Hin & Hl & Hn).
  assert (Hslot : GLL.not_dummy (slot_tag g X n (S d'), j, i) = Ok true /\
                  snd (fst (slot_tag g X n (S d'), j, i)) = j).
  { split; [|reflexivity]. unfold slot_tag. rewrite Hr.
    unfold GLL.not_dummy. cbn [fst snd].
    destruct (skipn (S d') rule); [|reflexivity].
    destruct (String.eqb X "$") eqn:E; [|reflexivity].
    apply String.eqb_eq in E. exfalso. eapply key_not_dollar; eauto. }
  destruct (nn_alpha nl (firstn (S d') rule)) as [[|]|] eqn:Enn; try exact Hslot.
  destruct (skipn (S d') rule) eqn:Es; [exact Hslot|].
  split; [|reflexivity].
  destruct (nn_alpha_singleton _ _ Enn) as [a Ha].
  destruct rule as [|a0 rule']; [discriminate|]. simpl.
  unfold GLL.not_dummy. simpl.
  destruct (String.eqb a0 "$") eqn:E; [|reflexivity].
  apply String.eqb_eq in E. exfalso.
  apply (Hfree X n (a0 :: rule') Hr). left. now symmetry.
Qed.

Lemma slot_tag_end X n rule :
  rule_at g X n = Some rule -> slot_tag g X n (List.length rule) = GLL.TStr X.
Proof.
  intros Hr. unfold slot_tag. rewrite Hr. now rewrite skipn_all.
Qed.

Lemma canon_end X n rule j i :
  rule_at g X n = Some rule -> 0 < List.length rule ->
  canon g nl X n (List.length rule) j i = (GLL.TStr X, j, i).
Proof.
  intros Hr Hl. unfold canon. destruct (List.length rule) as [|d'] eqn:E; [lia|].
  rewrite Hr. rewrite <- E. rewrite skipn_all, (slot_tag_end X n rule Hr).
  destruct (nn_alpha nl (firstn (List.length rule) rule)) as [[|]|]; reflexivity.
Qed.

(** [getNodeP] on the nodes of a descriptor returns the node of the
    next slot. *)
Lemma getNodeP_key p X n d rule w z j i :
  kcore g start text nl p ->
  rule_at g X n = Some rule -> d <= List.length rule ->
  ((0 < d /\ exists Y k, nth_error rule (d - 1) = Some Y /\
                         w = canon g nl X n (d - 1) j k /\ (d = 1 -> k = j) /\
                         z = (GLL.TStr Y, k, i))
   \/
   (d = 0 /\ rule = [] /\ w = GLL.end_rule /\ z = (GLL.TNone, i, i) /\ j = i)) ->
  ensures (GLL.getNodeP p X n d w z)
          (fun r => (exists ns c,
                        snd r = GLL.with_sppf p ns c /\
                        forall k, in_store p k ->
                                  GLL.assoc GLL.sppf_key_eqb ns k <> None) /\
                    (0 < d -> fst r = canon g nl X n d j i) /\
                    (d = 0 -> fst r = (GLL.TStr X, i, i)) /\
                    (d = List.length rule -> in_store (snd r) (fst r))).
Proof.
  intros Hp Hr Hd Hcase r Hres.
  pose proof Hp as (Hg & _ & _ & Hnl & _).
  destruct (rule_at_entry g X n rule Hr) as (alts & Hin & Hl & Hn).
  unfold GLL.getNodeP in Hres. rewrite Hg, Hl, Hn in Hres.
  rewrite nn_alpha_parser, Hnl in Hres.
  destruct (nn_alpha nl (firstn d rule)) as [nn|e] eqn:Enn;
    cbn [bind] in Hres; [|discriminate].
  destruct (nn && match skipn d rule with [] => false | _ :: _ => true end)
    eqn:Eb.
  - (* the right child is returned *)
    inversion Hres; subst r. simpl fst. simpl snd.
    apply andb_prop in Eb. destruct Eb as [-> Hbeta].
    destruct (nn_alpha_singleton _ _ Enn) as [a Ha].
    destruct (skipn d rule) as [|b beta] eqn:Es; [discriminate|].
    assert (Hd1 : d = 1).
    { assert (Hlen : List.length (firstn d rule) = 1) by (now rewrite Ha).
      rewrite length_firstn in Hlen.
      assert (d < List.length rule).
      { destruct (Nat.lt_ge_cases d (List.length rule)); [assumption|].
        rewrite skipn_all2 in Es by lia. discriminate. }
      lia. }
    subst d.
    destruct Hcase as [(_ & Y & k & HY & Hw & Hk & Hz) | (Hc & _)]; [|lia].
    split.
    { exists (GLL.SPPF_nodes p), (GLL.N_ID p). split; [now destruct p|].
      intros k0 Hk0. exact Hk0. }
    split.
    { intros _. unfold canon. rewrite Hr, Enn, Es. subst z.
      rewrite (Hk eq_refl). f_equal. f_equal. f_equal.
      destruct rule as [|a0 rule']; [discriminate|]. simpl in HY.
      now inversion HY. }
    split; [intros; lia|].
    intros Hlen. exfalso.
    assert (Hl' : List.length (skipn 1 rule) = 0).
    { rewrite length_skipn. lia. }
    rewrite Es in Hl'. discriminate.
  - (* a node labelled with the slot *)
    assert (Hzi : snd z = i).
    { destruct Hcase as [(_ & Y & k & _ & _ & _ & ->) | (_ & _ & _ & -> & _)];
        reflexivity. }
    assert (Hnd : exists b, GLL.not_dummy w = Ok b /\
                            (if b then snd (fst w) else snd (fst z)) = j).
    { destruct Hcase as [(Hd0 & Y & k & HY & Hw & Hk & Hz)
                        | (_ & _ & -> & -> & ->)].
      - destruct (Nat.eq_dec d 1) as [-> | Hne].
        + simpl in Hw. unfold canon in Hw. subst w. exists false.
          split; [reflexivity|]. subst z. simpl. now apply Hk.
        + destruct (canon_not_dummy X n (d - 1) rule j k Hr) as [C1 C2]; [lia|].
          exists true. subst w. auto.
      - exists false. split; reflexivity. }
    destruct Hnd as (b & Hb & Hj).
    destruct z as [[tz kz] iz]. simpl in Hzi, Hj. subst iz.
    rewrite Hb in Hres. cbn [bind] in Hres.
    replace (if b then snd (fst w) else kz) with j in Hres
      by (destruct b; auto).
    set (t := match skipn d rule with
              | [] => GLL.TStr X
              | _ :: _ => GLL.TSlot X n d
              end) in *.
    assert (Htag : slot_tag g X n d = t).
    { unfold slot_tag, t. now rewrite Hr. }
    assert (Hcanon : 0 < d -> (t, j, i) = canon g nl X n d j i).
    { intros Hd0. unfold canon. destruct d as [|d']; [lia|]. rewrite Hr, Enn.
      rewrite Htag.
      destruct nn; [|reflexivity].
      destruct (skipn (S d') rule) eqn:Es; [reflexivity|].
      try rewrite Es in Eb. simpl in Eb. discriminate. }
    assert (Hzero : d = 0 -> (t, j, i) = (GLL.TStr X, i, i)).
    { intros ->. destruct Hcase as [(Hlt & _) | (_ & -> & _ & _ & ->)]; [lia|].
      unfold t. reflexivity. }
    set (p1 := GLL.sppf_find_or_create p (t, j, i)) in *.
    assert (Hin1 : in_store p1 (t, j, i)) by apply in_store_created.
    assert (Hg1 : forall k0, in_store p k0 -> in_store p1 k0).
    { intros k0. apply in_store_find_or_create. }
    destruct (find_or_create_with_sppf p (t, j, i)) as (ns1 & c1 & Hp1).
    fold p1 in Hp1.
    destruct (existsb (GLL.child_has_label X n d kz)
                (GLL.node_children p1 (t, j, i))).
    + inversion Hres; subst r. simpl fst. simpl snd.
      split.
      { exists ns1, c1. split; [exact Hp1|]. intros k0 Hk0.
        apply Hg1 in Hk0. unfold in_store in Hk0. rewrite Hp1 in Hk0. exact Hk0. }
      split; [exact Hcanon|]. split; [exact Hzero|]. intros _. exact Hin1.
    + destruct (GLL.assoc GLL.sppf_key_eqb (GLL.SPPF_nodes p1)
                  (GLL.TPacked X n d kz, j, i)) eqn:Ek; [discriminate|].
      inversion Hres; subst r. simpl fst. simpl snd.
      set (p2 := GLL.with_sppf p1 _ _).
      assert (Hadd : forall k0, in_store p1 k0 ->
                in_store (GLL.add_child p2 (t, j, i) (GLL.TPacked X n d kz, j, i)) k0).
      { intros k0 Hk0. unfold in_store, GLL.add_child.
        assert (H2 : in_store p2 k0).
        { unfold in_store, p2. simpl. rewrite assoc_app_one.
          unfold in_store in Hk0.
          destruct (GLL.assoc GLL.sppf_key_eqb (GLL.SPPF_nodes p1) k0);
            congruence. }
        destruct (GLL.assoc GLL.sppf_key_eqb (GLL.SPPF_nodes p2) (t, j, i));
          [|exact H2].
        simpl. rewrite assoc_assoc_set.
        destruct (GLL.sppf_key_eqb k0 (t, j, i)); [discriminate | exact H2]. }
      split.
      { exists (GLL.SPPF_nodes
                  (GLL.add_child p2 (t, j, i) (GLL.TPacked X n d kz, j, i))),
               (GLL.N_ID
                  (GLL.add_child p2 (t, j, i) (GLL.TPacked X n d kz, j, i))).
        split.
        - apply add_child_with_sppf with (ns := GLL.SPPF_nodes p2)
                                         (c := GLL.N_ID p2).
          unfold p2. rewrite Hp1. reflexivity.
        - intros k0 Hk0. apply Hg1 in Hk0. apply Hadd in Hk0. exact Hk0. }
      split; [exact Hcanon|]. split; [exact Hzero|]. intros _.
      now apply Hadd.
Qed.

(** *** Descriptors *)

Lemma add_thread_key p L u i w :
  kcore g start text nl p -> kdesc g start nl p L u i w ->
  ensures (GLL.add_thread p L u i w)
          (fun p' => kcore g start text nl p' /\ grown p p' /\
                     (exists us, nth_error (GLL.U p') i = Some us /\
                                 In (L, u, w) us) /\
                     GLL.graph p' = GLL.graph p /\ GLL.P p' = GLL.P p /\
                     GLL.SPPF_nodes p' = GLL.SPPF_nodes p).
Proof.
  intros Hp Hd. pose proof Hp as (H1 & H2 & H3 & H4 & H5 & H6 & H7 & H8).
  unfold GLL.add_thread.
  destruct (nth_error (GLL.U p) i) as [us|] eqn:En; [|apply Raise_ensures].
  destruct (existsb (GLL.triple_eqb (L, u, w)) us) eqn:Eex; apply Ok_ensures.
  - split; [exact Hp|]. split; [apply grown_refl|]. split; [|auto].
    exists us. split; [exact En|].
    apply existsb_exists in Eex. destruct Eex as (e & He1 & He2).
    apply triple_eqb_eq in He2. now subst e.
  - assert (Hnth : forall i' us', nth_error (list_set (GLL.U p) i (us ++ [(L, u, w)])) i'
                                  = Some us' ->
                     (i' = i /\ us' = us ++ [(L, u, w)]) \/
                     (i' <> i /\ nth_error (GLL.U p) i' = Some us')).
    { intros i' us' Hn. destruct (Nat.eq_dec i' i) as [-> | Hne].
      - left. split; [reflexivity|]. eapply list_set_nth_same; eauto.
      - right. split; [exact Hne|].
        now rewrite list_set_nth_other in Hn by exact Hne. }
    assert (Hsame : nth_error (list_set (GLL.U p) i (us ++ [(L, u, w)])) i
                    = Some (us ++ [(L, u, w)])).
    { clear - En. revert i En.
      induction (GLL.U p) as [|a l IH]; intros [|i] En; simpl in *;
        try discriminate; auto. }
    split; [|split; [|split; [|auto]]].
    + unfold kcore. simpl.
      split; [exact H1|]. split; [exact H2|]. split; [exact H3|].
      split; [exact H4|]. split; [|split; [|auto]].
      * intros i' us' L' u' w' Hn Hin.
        destruct (Hnth i' us' Hn) as [[-> ->] | [Hne Hn']].
        -- apply in_app_or in Hin. destruct Hin as [Hin | [Heq | []]].
           ++ eapply H5; eauto.
           ++ inversion Heq; subst L' u' w'. exact Hd.
        -- eapply H5; eauto.
      * intros L' u' i' w' Hin. apply in_app_or in Hin.
        destruct Hin as [Hin | [Heq | []]].
        -- destruct (H6 L' u' i' w' Hin) as (us0 & Hn0 & Hin0).
           destruct (Nat.eq_dec i' i) as [-> | Hne].
           ++ exists (us ++ [(L, u, w)]). split; [exact Hsame|].
              apply in_or_app. left. congruence.
           ++ exists us0. split; [|exact Hin0].
              now rewrite list_set_nth_other by exact Hne.
        -- inversion Heq; subst L' u' i' w'. exists (us ++ [(L, u, w)]).
           split; [exact Hsame|]. apply in_or_app. right. now left.
    + unfold grown. simpl. repeat split; try (intros; apply incl_refl); auto.
      * intros i' us' Hn'. destruct (Nat.eq_dec i' i) as [-> | Hne].
        -- exists (us ++ [(L, u, w)]). split; [exact Hsame|].
           rewrite En in Hn'. inversion Hn'; subst. now apply incl_appl.
        -- exists us'. split; [|apply incl_refl].
           now rewrite list_set_nth_other by exact Hne.
      * now apply incl_appl.
      * intros i' us' e Hn Hin.
        destruct (Hnth i' us' Hn) as [[-> ->] | [Hne Hn']]; [|left; eauto].
        apply in_app_or in Hin. destruct Hin as [Hin | [<- | []]];
          [left; eauto|].
        right. simpl. apply in_or_app. right. now left.
    + exists (us ++ [(L, u, w)]). split; [exact Hsame|].
      apply in_or_app. right. now left.
Qed.

Lemma children_same p p' :
  GLL.graph p' = GLL.graph p ->
  forall v, GLL.gss_children p' v = GLL.gss_children p v.
Proof. intros H v. unfold GLL.gss_children. now rewrite H. Qed.

Lemma parsed_same p p' :
  GLL.P p' = GLL.P p ->
  forall v, GLL.parsed_indexes p' v = GLL.parsed_indexes p v.
Proof. intros H v. unfold GLL.parsed_indexes. now rewrite H. Qed.

Lemma returns_done_same p p' :
  grown p p' -> GLL.graph p' = GLL.graph p -> GLL.P p' = GLL.P p ->
  returns_done g nl p -> returns_done g nl p'.
Proof.
  intros Hg Hgr HP H v u w z X n d Hc Hz Hv.
  rewrite (children_same p p' Hgr) in Hc. rewrite (parsed_same p p' HP) in Hz.
  apply (in_U_grown p p'); [exact Hg|]. eapply H; eauto.
Qed.

(** *** The GSS *)

Lemma kcore_with_gss p gr pp :
  kcore g start text nl p ->
  (forall v u w,
     In (u, w) (GLL.gss_children (GLL.with_gss p gr pp) v) ->
     kedge g start nl v u w) ->
  (forall v z,
     In z (GLL.parsed_indexes (GLL.with_gss p gr pp) v) -> kpop g v z) ->
  kcore g start text nl (GLL.with_gss p gr pp).
Proof.
  intros (H1 & H2 & H3 & H4 & H5 & H6 & H7 & H8) Hg Hpp.
  unfold kcore.
  split; [exact H1|]. split; [exact H2|]. split; [exact H3|].
  split; [exact H4|]. split; [|split; [exact H6 | split; assumption]].
  intros i us L u w Hn Hin.
  destruct (H5 i us L u w Hn Hin)
    as (X & n & d & rule & K1 & K2 & K3 & K4 & K5 & K6 & K7).
  exists X, n, d, rule. auto 10.
Qed.

Lemma grown_with_gss p gr pp :
  (forall v, incl (GLL.gss_children p v)
                  (GLL.gss_children (GLL.with_gss p gr pp) v)) ->
  (forall v, incl (GLL.parsed_indexes p v)
                  (GLL.parsed_indexes (GLL.with_gss p gr pp) v)) ->
  grown p (GLL.with_gss p gr pp).
Proof.
  intros H1 H2. unfold grown.
  split; [|split; [apply incl_refl | split; [exact H1 | split; [exact H2|]]]].
  - intros i us Hn. exists us. split; [exact Hn | apply incl_refl].
  - split; [auto|]. intros i us' e Hn Hin. left. eauto.
Qed.

Lemma gss_get_key p v :
  kcore g start text nl p ->
  kcore g start text nl (GLL.gss_get p v) /\ grown p (GLL.gss_get p v).
Proof.
  intros Hp. pose proof Hp as (H1 & H2 & H3 & H4 & H5 & H6 & H7 & H8).
  assert (Hc := children_gss_get p v). assert (Hz := parsed_gss_get p v).
  unfold GLL.gss_get in *.
  destruct (GLL.assoc GLL.gss_label_eqb (GLL.graph p) v) eqn:E.
  - split; [exact Hp | apply grown_refl].
  - split.
    + apply kcore_with_gss; [exact Hp| |].
      * intros v' u w Hin. rewrite Hc in Hin. now apply H7.
      * intros v' z Hin. rewrite Hz in Hin. now apply H8.
    + apply grown_with_gss.
      * intros v'. rewrite Hc. apply incl_refl.
      * intros v'. rewrite Hz. apply incl_refl.
Qed.

Lemma returns_done_gss_get p v :
  returns_done g nl p -> returns_done g nl (GLL.gss_get p v).
Proof.
  intros H v' u w z X n d Hc Hz Hv.
  rewrite children_gss_get in Hc. rewrite parsed_gss_get in Hz.
  assert (HU : GLL.U (GLL.gss_get p v) = GLL.U p).
  { unfold GLL.gss_get.
    destruct (GLL.assoc GLL.gss_label_eqb (GLL.graph p) v); reflexivity. }
  unfold in_U. rewrite HU. eapply H; eauto.
Qed.

Lemma called_from_slot Y u X n d rule :
  called_from g start Y u -> fst u = GLL.LSlot X n d ->
  rule_at g X n = Some rule ->
  0 < d /\ nth_error rule (d - 1) = Some Y.
Proof.
  intros [(-> & _) | (X' & n' & d' & rule' & Hfu & Hr & Hd & Hn)] Hu HrX.
  - discriminate.
  - rewrite Hu in Hfu. inversion Hfu; subst X' n' d'.
    rewrite Hr in HrX. inversion HrX; subst. auto.
Qed.

(** [fn_return]: the node goes into [P], and every edge of the GSS node
    is combined with it. *)
Lemma fn_return_key p u i z :
  kcore g start text nl p -> returns_done g nl p ->
  (exists Y, called_from g start Y u /\ z = (GLL.TStr Y, snd u, i)) ->
  ensures (GLL.fn_return p u i z)
          (fun p' => kcore g start text nl p' /\ returns_done g nl p' /\
                     grown p p' /\
                     (u <> GLL.stack_bottom -> In z (GLL.parsed_indexes p' u)) /\
                     GLL.graph p' = GLL.graph p).
Proof.
  intros Hp Hret (Y & Hcall & Hz). unfold GLL.fn_return.
  destruct (GLL.gss_label_eqb u GLL.stack_bottom) eqn:Eu.
  { apply Ok_ensures. split; [exact Hp|]. split; [exact Hret|].
    split; [apply grown_refl|]. split; [|reflexivity].
    intros Hne. apply gss_label_eqb_eq in Eu. contradiction. }
  destruct (fst u) as [s | X n d] eqn:Efu; [apply Raise_ensures|].
  pose proof Hp as (H1 & H2 & H3 & H4 & H5 & H6 & H7 & H8).
  destruct Hcall as [(-> & _) | (X' & n' & d' & rule & Hfu & Hr & Hd & Hnth)];
    [discriminate|].
  rewrite Efu in Hfu. inversion Hfu; subst X' n' d'. clear Hfu.
  set (p1 := GLL.add_parsed_index p u z).
  assert (Hp1 : kcore g start text nl p1).
  { apply kcore_with_gss; [exact Hp| |].
    - intros v u' w Hin. now apply H7.
    - intros v z' Hin. fold (GLL.add_parsed_index p u z) in Hin.
      rewrite parsed_add in Hin.
      destruct (GLL.gss_label_eqb v u) eqn:E; [|now apply H8].
      apply gss_label_eqb_eq in E. subst v.
      apply in_app_or in Hin. destruct Hin as [Hin | [<- | []]]; [now apply H8|].
      exists X, n, d, rule, Y. subst z. simpl. auto. }
  assert (Hg1 : grown p p1).
  { apply grown_with_gss.
    - intros v. apply incl_refl.
    - intros v. fold (GLL.add_parsed_index p u z). rewrite parsed_add.
      destruct (GLL.gss_label_eqb v u) eqn:E; [|apply incl_refl].
      apply gss_label_eqb_eq in E. subst v. now apply incl_appl. }
  pose (Inv := fun q => kcore g start text nl q /\ grown p1 q /\
                        GLL.graph q = GLL.graph p1 /\ GLL.P q = GLL.P p1).
  pose (R := fun (e : GLL.gss_label * GLL.sppf_key) q =>
               in_U g nl q X n d (fst e) i).
  assert (Hfold :
            ensures
              (fold_left
                 (fun (acc : result GLL.GLLStructuredStackP)
                      (e : GLL.gss_label * GLL.sppf_key) =>
                    q <- acc ;;
                    r <- GLL.getNodeP q X n d (snd e) z ;;
                    GLL.add_thread (snd r) (GLL.LSlot X n d) (fst e) i (fst r))
                 (GLL.gss_children p1 u) (Ok p1))
              (fun q => Inv q /\
                        forall e, In e ([] ++ GLL.gss_children p1 u) -> R e q)).
  { apply fold_ensures_each with (Inv := Inv) (R := R).
    - reflexivity.
    - intros q [u2 we] Hin (Hq & Hgq & Hgr & HP). cbn [bind fst snd].
      assert (He : kedge g start nl u u2 we).
      { destruct Hp1 as (_ & _ & _ & _ & _ & _ & K7 & _). now apply K7. }
      destruct He as (X' & n' & d' & rule2 & Hfu & Hr2 & Hd2 & Hle2 & Hcall2
                      & Hw2 & Hone).
      rewrite Efu in Hfu. inversion Hfu; subst X' n' d'. clear Hfu.
      rewrite Hr in Hr2. inversion Hr2; subst rule2. clear Hr2.
      intros q' Hq'.
      destruct (GLL.getNodeP q X n d we z) as [r|e] eqn:Er; cbn [bind] in Hq';
        [|discriminate].
      destruct (getNodeP_key q X n d rule we z (snd u2) i Hq Hr Hle2) with (a := r)
        as ((ns & c & Hsnd & Hns) & Hc1 & _ & Hc3); [|exact Er|].
      { left. split; [exact Hd2|]. exists Y, (snd u). auto. }
      assert (Hq1 : kcore g start text nl (snd r)).
      { rewrite Hsnd. now apply kcore_with_sppf. }
      assert (Hg2 : grown q (snd r)).
      { rewrite Hsnd. now apply grown_with_sppf. }
      assert (Hkd : kdesc g start nl (snd r) (GLL.LSlot X n d) u2 i (fst r)).
      { exists X, n, d, rule. split; [reflexivity|]. split; [exact Hr|].
        split; [exact Hle2|]. split; [exact Hcall2|].
        split; [now apply Hc1|]. split; [lia|]. intros Hl _. now apply Hc3. }
      destruct (add_thread_key (snd r) (GLL.LSlot X n d) u2 i (fst r) Hq1 Hkd
                  q' Hq') as (A1 & A2 & A3 & A4 & A5 & A6).
      assert (Hgq' : grown q q') by (eapply grown_trans; eauto).
      split; [|split].
      + unfold Inv. split; [exact A1|]. split; [eapply grown_trans; eauto|].
        rewrite A4, A5, Hsnd. simpl. auto.
      + unfold R. simpl. rewrite (Hc1 Hd2) in A3. exact A3.
      + intros b' Hb'. unfold R in *. eapply in_U_grown; eauto.
    - unfold Inv. split; [exact Hp1|]. split; [apply grown_refl | auto].
    - intros b []. }
  intros p' Hres. destruct (Hfold p' Hres) as ((I1 & I2 & I3 & I4) & HR).
  simpl in HR.
  assert (Hgp : grown p p') by (eapply grown_trans; eauto).
  split; [exact I1|]. split; [|split; [exact Hgp | split]].
  - intros v u' w' z' X' n' d' Hc' Hz' Hv'.
    rewrite (children_same p1 p' I3) in Hc'.
    rewrite (parsed_same p1 p' I4) in Hz'.
    unfold p1 in Hz'. rewrite parsed_add in Hz'.
    destruct (GLL.gss_label_eqb v u) eqn:E.
    + apply gss_label_eqb_eq in E. subst v.
      rewrite Efu in Hv'. inversion Hv'; subst X' n' d'.
      apply in_app_or in Hz'. destruct Hz' as [Hz' | [<- | []]].
      * apply (in_U_grown p p'); [exact Hgp|]. eapply Hret; eauto.
      * specialize (HR (u', w') Hc'). unfold R in HR. simpl in HR.
        subst z. simpl. exact HR.
    + apply (in_U_grown p p'); [exact Hgp|]. eapply Hret; eauto.
  - intros _. rewrite (parsed_same p1 p' I4). unfold p1. rewrite parsed_add.
    rewrite (proj2 (gss_label_eqb_eq u u) eq_refl).
    apply in_or_app. right. now left.
  - rewrite I3. reflexivity.
Qed.

(** [register_return]: the edge goes into the GSS, and is combined with
    every entry of [P] for the node. *)
Lemma register_return_key p X n d rule u i w :
  kcore g start text nl p -> returns_done g nl p ->
  rule_at g X n = Some rule -> 0 < d -> d <= List.length rule ->
  called_from g start X u ->
  w = canon g nl X n (d - 1) (snd u) i -> (d = 1 -> i = snd u) ->
  ensures (GLL.register_return p X n d u i w)
          (fun r => fst r = (GLL.LSlot X n d, i) /\
                    kcore g start text nl (snd r) /\
                    returns_done g nl (snd r) /\ grown p (snd r) /\
                    In (u, w) (GLL.gss_children (snd r) (GLL.LSlot X n d, i)) /\
                    (forall v', v' <> (GLL.LSlot X n d, i) ->
                       GLL.gss_children (snd r) v' = GLL.gss_children p v')).
Proof.
  intros Hp Hret Hr Hd Hle Hcall Hw Hone. unfold GLL.register_return.
  set (v := (GLL.LSlot X n d, i)).
  destruct (gss_get_key p v Hp) as [Hp1 Hg1].
  pose proof (returns_done_gss_get p v Hret) as Hret1.
  set (p1 := GLL.gss_get p v) in *.
  destruct (existsb (fun e => GLL.gss_label_eqb (fst e) u
                              && GLL.sppf_key_eqb (snd e) w)
              (GLL.gss_children p1 v)) eqn:Eex.
  { apply Ok_ensures. simpl. split; [reflexivity|]. split; [exact Hp1|].
    split; [exact Hret1|]. split; [exact Hg1|]. split.
    - apply existsb_exists in Eex. destruct Eex as ([u' w'] & He1 & He2).
      simpl in He2. apply andb_prop in He2. destruct He2 as [E1 E2].
      apply gss_label_eqb_eq in E1. apply sppf_key_eqb_eq in E2. now subst.
    - intros v' _. apply children_gss_get. }
  set (p2 := GLL.with_gss p1
               (GLL.assoc_set GLL.gss_label_eqb (GLL.graph p1) v
                  (GLL.gss_children p1 v ++ [(u, w)]))
               (GLL.P p1)).
  assert (Hc2 : forall v', GLL.gss_children p2 v'
                           = if GLL.gss_label_eqb v' v
                             then GLL.gss_children p1 v ++ [(u, w)]
                             else GLL.gss_children p1 v').
  { intros v'. apply children_set. }
  pose proof Hp1 as (H1 & H2 & H3 & H4 & H5 & H6 & H7 & H8).
  assert (Hp2 : kcore g start text nl p2).
  { apply kcore_with_gss; [exact Hp1| |].
    - intros v' u' w' Hin. fold p2 in Hin. rewrite Hc2 in Hin.
      destruct (GLL.gss_label_eqb v' v) eqn:E; [|now apply H7].
      apply gss_label_eqb_eq in E. subst v'.
      apply in_app_or in Hin. destruct Hin as [Hin | [Heq | []]];
        [now apply H7|].
      inversion Heq; subst u' w'.
      exists X, n, d, rule. simpl. auto 10.
    - intros v' z Hin. now apply H8. }
  assert (Hg2 : grown p1 p2).
  { apply grown_with_gss.
    - intros v'. fold p2. rewrite Hc2.
      destruct (GLL.gss_label_eqb v' v) eqn:E; [|apply incl_refl].
      apply gss_label_eqb_eq in E. subst v'. now apply incl_appl.
    - intros v'. apply incl_refl. }
  pose (Inv := fun q => kcore g start text nl q /\ grown p2 q /\
                        GLL.graph q = GLL.graph p2 /\ GLL.P q = GLL.P p2).
  pose (R := fun (z : GLL.sppf_key) q => in_U g nl q X n d u (snd z)).
  assert (Hfold :
            ensures
              (fold_left
                 (fun (acc : result GLL.GLLStructuredStackP)
                      (sppf_z : GLL.sppf_key) =>
                    q <- acc ;;
                    r <- GLL.getNodeP q X n d w sppf_z ;;
                    GLL.add_thread (snd r) (GLL.LSlot X n d) u
                                   (snd sppf_z) (fst r))
                 (GLL.parsed_indexes p2 v) (Ok p2))
              (fun q => Inv q /\
                        forall z, In z ([] ++ GLL.parsed_indexes p2 v) -> R z q)).
  { apply fold_ensures_each with (Inv := Inv) (R := R).
    - reflexivity.
    - intros q z Hin (Hq & Hgq & Hgr & HP). cbn [bind].
      assert (Hz : kpop g v z).
      { destruct Hp2 as (_ & _ & _ & _ & _ & _ & _ & K8). now apply K8. }
      destruct Hz as (X' & n' & d' & rule2 & Y & Hfv & Hr2 & Hd2 & Hn2 & Hz).
      simpl in Hfv. inversion Hfv; subst X' n' d'. clear Hfv.
      rewrite Hr in Hr2. inversion Hr2; subst rule2. clear Hr2.
      simpl in Hz.
      intros q' Hq'.
      destruct (GLL.getNodeP q X n d w z) as [r|e] eqn:Er; cbn [bind] in Hq';
        [|discriminate].
      destruct (getNodeP_key q X n d rule w z (snd u) (snd z) Hq Hr Hle)
        with (a := r) as ((ns & c & Hsnd & Hns) & Hc1 & _ & Hc3); [|exact Er|].
      { left. split; [exact Hd|]. exists Y, i. auto. }
      assert (Hq1 : kcore g start text nl (snd r)).
      { rewrite Hsnd. now apply kcore_with_sppf. }
      assert (Hgq1 : grown q (snd r)).
      { rewrite Hsnd. now apply grown_with_sppf. }
      assert (Hkd : kdesc g start nl (snd r) (GLL.LSlot X n d) u (snd z) (fst r)).
      { exists X, n, d, rule. split; [reflexivity|]. split; [exact Hr|].
        split; [exact Hle|]. split; [exact Hcall|].
        split; [now apply Hc1|]. split; [lia|]. intros Hl _. now apply Hc3. }
      destruct (add_thread_key (snd r) (GLL.LSlot X n d) u (snd z) (fst r)
                  Hq1 Hkd q' Hq') as (A1 & A2 & A3 & A4 & A5 & A6).
      assert (Hgq' : grown q q') by (eapply grown_trans; eauto).
      split; [|split].
      + unfold Inv. split; [exact A1|]. split; [eapply grown_trans; eauto|].
        rewrite A4, A5, Hsnd. simpl. auto.
      + unfold R. rewrite (Hc1 Hd) in A3. exact A3.
      + intros b' Hb'. unfold R in *. eapply in_U_grown; eauto.
    - unfold Inv. split; [exact Hp2|]. split; [apply grown_refl | auto].
    - intros b []. }
  apply bind_ensures
    with (Q1 := fun q => Inv q /\
                         forall z, In z (GLL.parsed_indexes p2 v) -> R z q).
  { exact Hfold. }
  intros q ((I1 & I2 & I3 & I4) & HR). apply Ok_ensures. simpl fst. simpl snd.
  assert (Hgp : grown p q).
  { eapply grown_trans; [exact Hg1|]. eapply grown_trans; eauto. }
  split; [reflexivity|]. split; [exact I1|].
  split; [|split; [exact Hgp | split]].
  - intros v' u' w' z' X' n' d' Hc' Hz' Hv'.
    rewrite (children_same p2 q I3) in Hc'.
    rewrite (parsed_same p2 q I4) in Hz'.
    rewrite Hc2 in Hc'.
    assert (Hold : In (u', w') (GLL.gss_children p1 v') ->
                   in_U g nl q X' n' d' u' (snd z')).
    { intros Hin. apply (in_U_grown p1 q).
      - eapply grown_trans; eauto.
      - eapply Hret1; eauto. }
    destruct (GLL.gss_label_eqb v' v) eqn:E; [|now apply Hold].
    apply gss_label_eqb_eq in E. subst v'.
    apply in_app_or in Hc'. destruct Hc' as [Hc' | [Heq | []]];
      [now apply Hold|].
    inversion Heq; subst u' w'. simpl in Hv'. inversion Hv'; subst X' n' d'.
    apply (HR z'). exact Hz'.
  - rewrite (children_same p2 q I3), Hc2.
    rewrite (proj2 (gss_label_eqb_eq v v) eq_refl).
    apply in_or_app. right. now left.
  - intros v' Hne. rewrite (children_same p2 q I3), Hc2.
    destruct (GLL.gss_label_eqb v' v) eqn:E.
    + apply gss_label_eqb_eq in E. contradiction.
    + apply children_gss_get.
Qed.

Lemma add_alt_threads_key key u i :
  called_from g start key u -> i = snd u ->
  forall alts n p,
    (forall k a, nth_error alts k = Some a -> rule_at g key (n + k) = Some a) ->
    kcore g start text nl p ->
    ensures (GLL.add_alt_threads p key n alts u i)
            (fun p' => kcore g start text nl p' /\ grown p p' /\
                       (forall k, k < List.length alts ->
                                  in_U g nl p' key (n + k) 0 u i) /\
                       GLL.graph p' = GLL.graph p /\ GLL.P p' = GLL.P p).
Proof.
  intros Hcall Hi. induction alts as [|a alts IH]; intros n p Hnth Hp; simpl.
  - apply Ok_ensures. split; [exact Hp|]. split; [apply grown_refl|].
    split; [intros k Hk; lia | auto].
  - intros p' Hres.
    destruct (GLL.add_thread p (GLL.LSlot key n 0) u i GLL.end_rule) as [p1|e]
      eqn:E1; cbn [bind] in Hres; [|discriminate].
    assert (Hkd : kdesc g start nl p (GLL.LSlot key n 0) u i GLL.end_rule).
    { exists key, n, 0, a. split; [reflexivity|]. split.
      - specialize (Hnth 0 a eq_refl). now rewrite Nat.add_0_r in Hnth.
      - split; [lia|]. split; [exact Hcall|]. split; [reflexivity|].
        split; [auto | intros; lia]. }
    destruct (add_thread_key p (GLL.LSlot key n 0) u i GLL.end_rule Hp Hkd p1 E1)
      as (A1 & A2 & A3 & A4 & A5 & A6).
    assert (Hn' : forall k a0, nth_error alts k = Some a0 ->
                    rule_at g key (S n + k) = Some a0).
    { intros k a0 Hk. specialize (Hnth (S k) a0 Hk).
      now replace (S n + k) with (n + S k) by lia. }
    destruct (IH (S n) p1 Hn' A1 p' Hres) as (B1 & B2 & B3 & B4 & B5).
    split; [exact B1|]. split; [eapply grown_trans; eauto|].
    split; [|split; congruence].
    intros k Hk. destruct k as [|k].
    + rewrite Nat.add_0_r. apply (in_U_grown p1 p'); [exact B2|].
      exact A3.
    + replace (n + S k) with (S n + k) by lia. apply B3. lia.
Qed.

End GLLClosureOps.


(** ** Completeness of the GLL recognizer: the driver *)

Lemma graph_find_or_create p k :
  GLL.graph (GLL.sppf_find_or_create p k) = GLL.graph p /\
  GLL.P (GLL.sppf_find_or_create p k) = GLL.P p /\
  GLL.U (GLL.sppf_find_or_create p k) = GLL.U p /\
  GLL.threads (GLL.sppf_find_or_create p k) = GLL.threads p.
Proof.
  unfold GLL.sppf_find_or_create.
  destruct (GLL.assoc GLL.sppf_key_eqb (GLL.SPPF_nodes p) k); simpl; auto.
Qed.

Section GLLComplete.

Variable g : grammar.
Variable start : symbol.
Variable text : string.
Variable nl : list symbol.

Hypothesis Hwf : wf_grammar g.
Hypothesis Hsym : symbols_ok g.
Hypothesis Hfree : dollar_free g.

#[warnings="-notation-for-abbreviation"]
Local Notation inp := (tokens_of (text ++ "$")).

Lemma scans_head X n d0 i0 d i :
  scans g text X n d0 i0 d i ->
  (d = d0 /\ i = i0) \/
  (exists rule t,
      rule_at g X n = Some rule /\ nth_error rule d0 = Some t /\
      is_nt t = Ok false /\ nth_error inp i0 = Some t /\
      scans g text X n (S d0) (S i0) d i).
Proof.
  induction 1 as [d i | d0 i0 d i rule t Hs IH Hr Ht Hnt Hi].
  - now left.
  - right. destruct IH as [[-> ->] | (rule' & t' & H1 & H2 & H3 & H4 & H5)].
    + exists rule, t. repeat (split; [assumption|]). apply scans_refl.
    + exists rule', t'. repeat (split; [assumption|]).
      apply (scans_step g text X n (S d0) (S i0) d i rule t); assumption.
Qed.

Lemma key_not_label Y alts :
  lookup g Y = Some alts ->
  String.eqb Y "L0" = false /\ String.eqb Y "L_" = false.
Proof.
  intros H. apply nonterminal_not_label. eapply key_is_nt; eauto.
Qed.

Lemma find_or_create_key p k :
  kcore g start text nl p ->
  kcore g start text nl (GLL.sppf_find_or_create p k) /\
  grown p (GLL.sppf_find_or_create p k).
Proof.
  intros Hp. destruct (find_or_create_with_sppf p k) as (ns & c & Heq).
  assert (Hns : forall k0, in_store p k0 ->
                  GLL.assoc GLL.sppf_key_eqb ns k0 <> None).
  { intros k0 Hk0. apply (in_store_find_or_create p k) in Hk0.
    unfold in_store in Hk0. rewrite Heq in Hk0. exact Hk0. }
  rewrite Heq. split.
  - now apply kcore_with_sppf.
  - now apply grown_with_sppf.
Qed.

(** What a turn of the loop has to show for the slots that the driver
    was on its way to. *)
Lemma all_handled_step c c' :
  all_handled g text nl c ->
  grown (GLL.c_parser c) (GLL.c_parser c') ->
  (forall X n d u i,
     current g text c X n d u i ->
     current g text c' X n d u i \/ handled g nl (GLL.c_parser c') X n d u i) ->
  all_handled g text nl c'.
Proof.
  intros H Hg Hcur X n d u i Hv.
  destruct (visited_grown_inv g text nl _ _ X n d u i Hg Hv) as [Hv0 | Hw];
    [|now left].
  destruct (H X n d u i Hv0) as [Hw | [Hc | Hh]].
  - left. eapply waiting_grown; eauto.
  - destruct (Hcur X n d u i Hc); auto.
  - right. right. eapply handled_grown; eauto.
Qed.

Lemma calls_done_same c c' :
  calls_done g start nl c ->
  grown (GLL.c_parser c) (GLL.c_parser c') ->
  (forall v, GLL.gss_children (GLL.c_parser c') v
             = GLL.gss_children (GLL.c_parser c) v) ->
  (forall Y v alts k,
     GLL.cL c = GLL.LStr Y -> GLL.c_stack_top c = v ->
     lookup g Y = Some alts -> k < List.length alts ->
     in_U g nl (GLL.c_parser c') Y k 0 v (snd v)) ->
  calls_done g start nl c'.
Proof.
  intros H Hg Hsame Hex Y v alts k Hcall Hv Hl Hk. right.
  rewrite Hsame in Hv.
  destruct (H Y v alts k Hcall Hv Hl Hk) as [[E1 E2] | HU].
  - eapply Hex; eauto.
  - eapply in_U_grown; eauto.
Qed.

Lemma handled_inside X n d u i rule t p :
  rule_at g X n = Some rule -> nth_error rule d = Some t ->
  is_nt t = Ok false -> handled g nl p X n d u i.
Proof.
  intros Hr Ht Hnt rule' Hr'. rewrite Hr in Hr'. inversion Hr'; subst rule'.
  split.
  - intros Hd. exfalso. subst d.
    assert (nth_error rule (List.length rule) = None)
      by (apply nth_error_None; lia).
    congruence.
  - intros Y HY HntY. congruence.
Qed.

(** One turn of the loop keeps the invariant of the driver. *)
Lemma step_cinv c :
  cinv g start text nl c ->
  ensures (GLL.step g start c)
          (fun r => match r with
                    | inl c' => cinv g start text nl c'
                    | inr _ => True
                    end).
Proof.
  intros (Hk & Hret & Hconf & Hcalls & Hall).
  pose proof Hk as (H1 & H2 & H3 & H4 & H5 & H6 & H7 & H8).
  unfold GLL.step. unfold kconf in Hconf.
  destruct (GLL.cL c) as [s | X n pos] eqn:EL.
  - destruct (String.eqb s "L0") eqn:E0.
    + destruct (GLL.threads (GLL.c_parser c)) as [|[[[L u] i] w] ts] eqn:Et.
      * destruct (GLL.assoc GLL.sppf_key_eqb (GLL.SPPF_nodes (GLL.c_parser c))
                    (GLL.TStr start, 0, GLL.m (GLL.c_parser c)));
          apply Ok_ensures; exact I.
      * apply Ok_ensures.
        destruct (H6 L u i w) as (us & Hn & Hus); [try rewrite Et; now left|].
        pose proof (H5 i us L u w Hn Hus) as Hd.
        pose proof Hd as (X & n & d & rule & -> & Hr & Hle & Hcall & Hw & Hz & Hst).
        apply String.eqb_eq in E0. subst s.
        unfold cinv. cbn [GLL.c_parser].
        split; [|split; [exact Hret | split; [|split]]].
        -- unfold kcore. cbn.
           split; [exact H1|]. split; [exact H2|]. split; [exact H3|].
           split; [exact H4|]. split; [exact H5|]. split; [|auto].
           intros L' u' i' w' Hin'. apply H6. try rewrite Et. now right.
        -- unfold kconf. cbn. exact Hd.
        -- intros Y v alts k Hc Hv Hl Hlt. right.
           destruct (Hcalls Y v alts k Hc Hv Hl Hlt) as [[E1 E2] | HU];
             [|exact HU].
           rewrite EL in E1. inversion E1; subst Y.
           destruct (key_not_label "L0" alts Hl) as [E _]. discriminate.
        -- intros X' n' d' u' i' Hv.
           destruct (Hall X' n' d' u' i' Hv) as [Hw' | [Hc | Hh]].
           ++ destruct Hw' as (d0 & i0 & Hin0 & Hs). try rewrite Et in Hin0.
              destruct Hin0 as [Heq | Hin0].
              ** inversion Heq; subst X' n' d0 u' i0.
                 right. left. unfold current. cbn. auto.
              ** left. exists d0, i0. cbn. auto.
           ++ unfold current in Hc. rewrite EL in Hc.
              destruct Hc as (Hc & _). discriminate.
           ++ right. right. exact Hh.
    + destruct (String.eqb s "L_") eqn:E1.
      * (* pop *)
        destruct Hconf as (Y & Hcall & Hcur & Hstore).
        apply bind_ensures
          with (Q1 := fun p' =>
                        kcore g start text nl p' /\ returns_done g nl p' /\
                        grown (GLL.c_parser c) p' /\
                        (GLL.c_stack_top c <> GLL.stack_bottom ->
                         In (GLL.c_cur_sppf_node c)
                            (GLL.parsed_indexes p' (GLL.c_stack_top c))) /\
                        GLL.graph p' = GLL.graph (GLL.c_parser c)).
        -- apply (fn_return_key g start text nl Hwf Hsym Hfree); auto. eauto.
        -- intros p1 (A1 & A2 & A3 & A4 & A5). apply Ok_ensures.
           unfold cinv. cbn [GLL.c_parser].
           split; [exact A1|]. split; [exact A2|]. split; [|split].
           ++ unfold kconf. cbn. exact I.
           ++ apply (calls_done_same c); cbn [GLL.c_parser]; auto.
              ** now apply children_same.
              ** intros Y' v alts k E _ Hl _. rewrite EL in E.
                 inversion E; subst Y'.
                 destruct (key_not_label s alts Hl) as [_ E']. congruence.
           ++ apply (all_handled_step c); cbn [GLL.c_parser]; auto.
              intros X n d u i Hc. right. unfold current in Hc.
              rewrite EL in Hc.
              destruct Hc as (_ & Hu & Hi & Hz & rule & Hr & Hd).
              intros rule' Hr'. rewrite Hr in Hr'. inversion Hr'; subst rule'.
              split.
              ** intros _. rewrite <- Hz. split.
                 { destruct A3 as (_ & _ & _ & _ & A & _). now apply A. }
                 { intros Hne. rewrite <- Hu. apply A4. now rewrite Hu. }
              ** intros Y' HY' _. exfalso. subst d.
                 assert (nth_error rule (List.length rule) = None)
                   by (apply nth_error_None; lia).
                 congruence.
      * (* the label of a nonterminal *)
        destruct Hconf as (Hcall & Hidx).
        destruct (lookup g s) as [alts|] eqn:El; [|apply Raise_ensures].
        apply bind_ensures
          with (Q1 := fun p' =>
                        kcore g start text nl p' /\
                        grown (GLL.c_parser c) p' /\
                        (forall k, k < List.length alts ->
                           in_U g nl p' s (0 + k) 0 (GLL.c_stack_top c)
                                (GLL.c_cur_idx c)) /\
                        GLL.graph p' = GLL.graph (GLL.c_parser c) /\
                        GLL.P p' = GLL.P (GLL.c_parser c)).
        -- apply (add_alt_threads_key g start text nl Hwf Hsym Hfree); auto.
           intros k a Hka. unfold rule_at. rewrite El. exact Hka.
        -- intros p1 (B1 & B2 & B3 & B4 & B5). apply Ok_ensures.
           unfold cinv. cbn [GLL.c_parser].
           split; [exact B1|]. split; [|split; [|split]].
           ++ eapply returns_done_same; eauto.
           ++ unfold kconf. cbn. exact I.
           ++ apply (calls_done_same c); cbn [GLL.c_parser]; auto.
              ** now apply children_same.
              ** intros Y' v alts' k E Hv Hl Hlt. rewrite EL in E.
                 inversion E; subst Y'. rewrite El in Hl.
                 inversion Hl; subst alts'. subst v. rewrite <- Hidx.
                 apply (B3 k Hlt).
           ++ apply (all_handled_step c); cbn [GLL.c_parser]; auto.
              intros X n d u i Hc. unfold current in Hc. rewrite EL in Hc.
              destruct Hc as (-> & _). discriminate.
  - destruct Hconf as (X' & n' & d' & rule & Heq & Hr & Hle & Hcall & Hw & Hz & Hst).
    inversion Heq; subst X' n' d'. clear Heq.
    destruct (rule_at_entry g X n rule Hr) as (alts & Hin & Hl & Hn).
    rewrite Hl, Hn.
    assert (Hcur_scan : forall X' n' d u i,
              current g text c X' n' d u i ->
              X' = X /\ n' = n /\ u = GLL.c_stack_top c /\
              scans g text X n pos (GLL.c_cur_idx c) d i).
    { intros X' n' d u i Hc. unfold current in Hc. rewrite EL in Hc.
      destruct Hc as (-> & -> & -> & Hs). auto. }
    assert (Hnoex : forall c',
              grown (GLL.c_parser c) (GLL.c_parser c') ->
              (forall v, GLL.gss_children (GLL.c_parser c') v
                         = GLL.gss_children (GLL.c_parser c) v) ->
              calls_done g start nl c').
    { intros c' Hg Hsame. apply (calls_done_same c); auto.
      intros Y v alts' k E. rewrite EL in E. discriminate. }
    destruct rule as [|t0 rule'].
    + (* an empty alternative *)
      destruct pos as [|pos]; [|apply Raise_ensures].
      unfold GLL.getNodeT.
      set (p0 := GLL.sppf_find_or_create (GLL.c_parser c)
                   (GLL.TNone, GLL.c_cur_idx c, GLL.c_cur_idx c)).
      destruct (find_or_create_key (GLL.c_parser c)
                  (GLL.TNone, GLL.c_cur_idx c, GLL.c_cur_idx c) Hk)
        as [Hk0 Hg0].
      fold p0 in Hk0, Hg0.
      destruct (graph_find_or_create (GLL.c_parser c)
                  (GLL.TNone, GLL.c_cur_idx c, GLL.c_cur_idx c))
        as (G1 & G2 & G3 & G4).
      fold p0 in G1, G2, G3, G4.
      intros r0 Hres0.
      destruct (GLL.getNodeP p0 X n 0 (GLL.c_cur_sppf_node c)
                  (GLL.TNone, GLL.c_cur_idx c, GLL.c_cur_idx c)) as [r|e] eqn:Er;
        cbn [bind] in Hres0; [|discriminate].
      inversion Hres0; subst r0. clear Hres0.
      destruct (getNodeP_key g start text nl Hwf Hfree p0 X n 0 []
                  (GLL.c_cur_sppf_node c)
                  (GLL.TNone, GLL.c_cur_idx c, GLL.c_cur_idx c)
                  (GLL.c_cur_idx c) (GLL.c_cur_idx c) Hk0 Hr (Nat.le_refl 0))
        with (a := r) as ((ns & cn & Hsnd & Hns) & _ & Hc2 & Hc3);
        [|exact Er|].
      { right. rewrite Hw. unfold canon. auto 10. }
      assert (Hk1 : kcore g start text nl (snd r)).
      { rewrite Hsnd. now apply kcore_with_sppf. }
      assert (Hg1 : grown (GLL.c_parser c) (snd r)).
      { eapply grown_trans; [exact Hg0|]. rewrite Hsnd.
        now apply grown_with_sppf. }
      assert (Hgr : GLL.graph (snd r) = GLL.graph (GLL.c_parser c)).
      { rewrite Hsnd. cbn. exact G1. }
      assert (HP : GLL.P (snd r) = GLL.P (GLL.c_parser c)).
      { rewrite Hsnd. cbn. exact G2. }
      specialize (Hz eq_refl).
      unfold cinv. cbn [GLL.c_parser].
      split; [exact Hk1|]. split; [|split; [|split]].
      * eapply returns_done_same; eauto.
      * unfold kconf. cbn. exists X. split; [exact Hcall|].
        rewrite (Hc2 eq_refl). split; [now rewrite <- Hz|].
        rewrite <- (Hc2 eq_refl). now apply Hc3.
      * apply Hnoex; cbn [GLL.c_parser]; auto. now apply children_same.
      * apply (all_handled_step c); cbn [GLL.c_parser]; auto.
        intros X' n' d u i Hc.
        destruct (Hcur_scan X' n' d u i Hc) as (-> & -> & -> & Hs).
        destruct (scans_head X n 0 (GLL.c_cur_idx c) d i Hs)
          as [[-> ->] | (rule2 & t & R1 & R2 & _)].
        -- left. unfold current. cbn.
           split; [reflexivity|]. split; [reflexivity|]. split; [reflexivity|].
           split; [rewrite (Hc2 eq_refl); now rewrite <- Hz|].
           exists []. auto.
        -- rewrite Hr in R1. inversion R1; subst rule2. discriminate.
    + destruct (nth_error (t0 :: rule') pos) as [t|] eqn:Et.
      * assert (Hpos : pos < List.length (t0 :: rule')).
        { apply (proj1 (nth_error_Some (t0 :: rule') pos)). rewrite Et.
          discriminate. }
        apply bind_ensures with (Q1 := fun b => GLL.is_nonterminal t = Ok b);
          [intros b Hb; exact Hb|].
        intros nt Hnt. unfold GLL.is_nonterminal in Hnt.
        assert (Hw1 : GLL.c_cur_sppf_node c
                      = canon g nl X n (pos + 1 - 1)
                              (snd (GLL.c_stack_top c)) (GLL.c_cur_idx c)).
        { now replace (pos + 1 - 1) with pos by lia. }
        assert (Hn1 : nth_error (t0 :: rule') (pos + 1 - 1) = Some t).
        { now replace (pos + 1 - 1) with pos by lia. }
        assert (Hone : pos + 1 = 1 ->
                       GLL.c_cur_idx c = snd (GLL.c_stack_top c)).
        { intros H. apply Hz. lia. }
        destruct nt.
        -- (* a nonterminal: call *)
           apply bind_ensures
             with (Q1 := fun r =>
                           fst r = (GLL.LSlot X n (pos + 1), GLL.c_cur_idx c) /\
                           kcore g start text nl (snd r) /\
                           returns_done g nl (snd r) /\
                           grown (GLL.c_parser c) (snd r) /\
                           In (GLL.c_stack_top c, GLL.c_cur_sppf_node c)
                              (GLL.gss_children (snd r)
                                 (GLL.LSlot X n (pos + 1), GLL.c_cur_idx c)) /\
                           (forall v',
                              v' <> (GLL.LSlot X n (pos + 1), GLL.c_cur_idx c) ->
                              GLL.gss_children (snd r) v'
                              = GLL.gss_children (GLL.c_parser c) v')).
           ++ apply (register_return_key g start text nl Hwf Hsym Hfree)
                with (rule := t0 :: rule'); auto; lia.
           ++ intros [v q] (R1 & R2 & R3 & R4 & R5 & R6).
              cbn [fst snd] in R1, R2, R3, R4, R5, R6. subst v.
              apply Ok_ensures. cbn [fst snd].
              assert (Hcv : called_from g start t
                              (GLL.LSlot X n (pos + 1), GLL.c_cur_idx c)).
              { right. exists X, n, (pos + 1), (t0 :: rule'). cbn [fst].
                split; [reflexivity|]. split; [exact Hr|]. split; [lia|].
                exact Hn1. }
              unfold cinv. cbn [GLL.c_parser].
              split; [exact R2|]. split; [exact R3|]. split; [|split].
              ** unfold kconf. cbn.
                 destruct (nonterminal_not_label t Hnt) as [-> ->]. auto.
              ** intros Y v alts' k Hc Hv Hl' Hk'.
                 destruct (GLL.gss_label_eqb v
                             (GLL.LSlot X n (pos + 1), GLL.c_cur_idx c)) eqn:Ev.
                 { apply gss_label_eqb_eq in Ev. subst v. left. cbn.
                   split; [|reflexivity]. f_equal.
                   destruct (called_from_slot g start Y _ X n (pos + 1)
                               (t0 :: rule') Hc eq_refl Hr) as [_ HY].
                   congruence. }
                 { right. cbn [GLL.c_parser] in Hv |- *.
                   assert (Hne : v <> (GLL.LSlot X n (pos + 1), GLL.c_cur_idx c)).
                   { intros ->.
                     rewrite (proj2 (gss_label_eqb_eq _ _) eq_refl) in Ev.
                     discriminate. }
                   rewrite (R6 v Hne) in Hv.
                   destruct (Hcalls Y v alts' k Hc Hv Hl' Hk') as [[E _] | HU].
                   - rewrite EL in E. discriminate.
                   - eapply in_U_grown; eauto. }
              ** apply (all_handled_step c); cbn [GLL.c_parser]; auto.
                 intros X' n' d u i Hc.
                 destruct (Hcur_scan X' n' d u i Hc) as (-> & -> & -> & Hs).
                 destruct (scans_head X n pos (GLL.c_cur_idx c) d i Hs)
                   as [[-> ->] | (rule2 & t' & S1 & S2 & S3 & _)].
                 { right. intros rule2 Hr2. rewrite Hr in Hr2.
                   inversion Hr2; subst rule2. split.
                   - intros Hd. lia.
                   - intros Y HY _. rewrite <- Hw. exact R5. }
                 { rewrite Hr in S1. inversion S1; subst rule2. congruence. }
        -- (* a terminal: scan *)
           destruct (GLL.input_at (GLL.c_parser c) (GLL.c_cur_idx c)) as [ch|] eqn:Ei;
             [|apply Raise_ensures].
           assert (Hin_tok : nth_error inp (GLL.c_cur_idx c) = Some ch).
           { apply input_at_token in Ei. now rewrite H2 in Ei. }
           destruct (String.eqb ch t) eqn:Ech.
           ++ apply String.eqb_eq in Ech. subst ch.
              unfold GLL.getNodeT.
              set (zk := (GLL.TStr t, GLL.c_cur_idx c, GLL.c_cur_idx c + 1)).
              set (p0 := GLL.sppf_find_or_create (GLL.c_parser c) zk).
              destruct (find_or_create_key (GLL.c_parser c) zk Hk) as [Hk0 Hg0].
              fold p0 in Hk0, Hg0.
              destruct (graph_find_or_create (GLL.c_parser c) zk)
                as (G1 & G2 & G3 & G4).
              fold p0 in G1, G2, G3, G4.
              intros r0 Hres0.
              destruct (GLL.getNodeP p0 X n (pos + 1) (GLL.c_cur_sppf_node c) zk)
                as [r|e] eqn:Er; cbn [bind] in Hres0; [|discriminate].
              inversion Hres0; subst r0. clear Hres0.
              assert (Hle1 : pos + 1 <= List.length (t0 :: rule')) by lia.
              destruct (getNodeP_key g start text nl Hwf Hfree p0 X n (pos + 1)
                          (t0 :: rule') (GLL.c_cur_sppf_node c) zk
                          (snd (GLL.c_stack_top c)) (GLL.c_cur_idx c + 1)
                          Hk0 Hr Hle1)
                with (a := r) as ((ns & cn & Hsnd & Hns) & Hc1 & _ & Hc3);
                [|exact Er|].
              { left. split; [lia|]. exists t, (GLL.c_cur_idx c).
                split; [exact Hn1|]. split; [exact Hw1|].
                split; [exact Hone | reflexivity]. }
              assert (Hk1 : kcore g start text nl (snd r)).
              { rewrite Hsnd. now apply kcore_with_sppf. }
              assert (Hg1 : grown (GLL.c_parser c) (snd r)).
              { eapply grown_trans; [exact Hg0|]. rewrite Hsnd.
                now apply grown_with_sppf. }
              assert (Hgr : GLL.graph (snd r) = GLL.graph (GLL.c_parser c)).
              { rewrite Hsnd. cbn. exact G1. }
              assert (HP : GLL.P (snd r) = GLL.P (GLL.c_parser c)).
              { rewrite Hsnd. cbn. exact G2. }
              unfold cinv. cbn [GLL.c_parser].
              split; [exact Hk1|]. split; [|split; [|split]].
              ** eapply returns_done_same; eauto.
              ** unfold kconf. cbn.
                 exists X, n, (pos + 1), (t0 :: rule').
                 split; [reflexivity|]. split; [exact Hr|].
                 split; [exact Hle1|]. split; [exact Hcall|].
                 split; [apply Hc1; lia|]. split; [lia|].
                 intros Hl' _. now apply Hc3.
              ** apply Hnoex; cbn [GLL.c_parser]; auto.
                 now apply children_same.
              ** apply (all_handled_step c); cbn [GLL.c_parser]; auto.
                 intros X' n' d u i Hc.
                 destruct (Hcur_scan X' n' d u i Hc) as (-> & -> & -> & Hs).
                 destruct (scans_head X n pos (GLL.c_cur_idx c) d i Hs)
                   as [[-> ->] | (rule2 & t' & S1 & S2 & S3 & S4 & S5)].
                 { right. eapply handled_inside; eauto. }
                 { left. unfold current. cbn.
                   split; [reflexivity|]. split; [reflexivity|].
                   split; [reflexivity|].
                   now rewrite !Nat.add_1_r. }
           ++ apply Ok_ensures.
              unfold cinv. cbn [GLL.c_parser].
              split; [exact Hk|]. split; [exact Hret|]. split; [|split].
              ** unfold kconf. cbn. exact I.
              ** apply Hnoex; cbn [GLL.c_parser]; auto. apply grown_refl.
              ** apply (all_handled_step c); cbn [GLL.c_parser];
                   [exact Hall | apply grown_refl |].
                 intros X' n' d u i Hc.
                 destruct (Hcur_scan X' n' d u i Hc) as (-> & -> & -> & Hs).
                 destruct (scans_head X n pos (GLL.c_cur_idx c) d i Hs)
                   as [[-> ->] | (rule2 & t' & S1 & S2 & S3 & S4 & S5)].
                 { right. eapply handled_inside; eauto. }
                 { exfalso. rewrite Hr in S1. inversion S1; subst rule2.
                   rewrite Et in S2. inversion S2; subst t'.
                   rewrite Hin_tok in S4. inversion S4; subst ch.
                   rewrite String.eqb_refl in Ech. discriminate. }
      * (* the end of the alternative *)
        destruct (Nat.eqb pos (List.length (t0 :: rule'))) eqn:Ep;
          [|apply Raise_ensures].
        apply Nat.eqb_eq in Ep. apply Ok_ensures.
        assert (Hcan : GLL.c_cur_sppf_node c
                       = (GLL.TStr X, snd (GLL.c_stack_top c), GLL.c_cur_idx c)).
        { rewrite Hw, Ep. apply (canon_end g nl); [exact Hr|]. simpl. lia. }
        unfold cinv. cbn [GLL.c_parser].
        split; [exact Hk|]. split; [exact Hret|]. split; [|split].
        -- unfold kconf. cbn. exists X. split; [exact Hcall|].
           split; [exact Hcan|]. apply Hst; [exact Ep|]. rewrite Ep. simpl. lia.
        -- apply Hnoex; cbn [GLL.c_parser]; auto. apply grown_refl.
        -- apply (all_handled_step c); cbn [GLL.c_parser];
             [exact Hall | apply grown_refl |].
           intros X' n' d u i Hc.
           destruct (Hcur_scan X' n' d u i Hc) as (-> & -> & -> & Hs).
           destruct (scans_head X n pos (GLL.c_cur_idx c) d i Hs)
             as [[-> ->] | (rule2 & t' & S1 & S2 & _)].
           ++ left. unfold current. cbn.
              split; [reflexivity|]. split; [reflexivity|].
              split; [reflexivity|]. split; [exact Hcan|].
              exists (t0 :: rule'). auto.
           ++ exfalso. rewrite Hr in S1. inversion S1; subst rule2. congruence.
Qed.

(** *** When the loop ends *)

Section AtEnd.

Variable c : GLL.config.
Hypothesis Hc : cinv g start text nl c.
Hypothesis HL : GLL.cL c = GLL.LStr "L0".
Hypothesis Hts : GLL.threads (GLL.c_parser c) = [].

Lemma end_handled X n d u i :
  visited g text nl (GLL.c_parser c) X n d u i ->
  handled g nl (GLL.c_parser c) X n d u i.
Proof.
  intros Hv. destruct Hc as (_ & _ & _ & _ & Hall).
  destruct (Hall X n d u i Hv) as [Hw | [Hcur | Hh]]; [| |exact Hh].
  - destruct Hw as (d0 & i0 & Hin & _). rewrite Hts in Hin. destruct Hin.
  - unfold current in Hcur. rewrite HL in Hcur.
    destruct Hcur as (E & _). discriminate.
Qed.

Lemma end_called Y v alts k :
  called_from g start Y v ->
  (v = GLL.stack_bottom \/ GLL.gss_children (GLL.c_parser c) v <> []) ->
  lookup g Y = Some alts -> k < List.length alts ->
  in_U g nl (GLL.c_parser c) Y k 0 v (snd v).
Proof.
  intros Hcall Hv Hl Hk. destruct Hc as (_ & _ & _ & Hcalls & _).
  destruct (Hcalls Y v alts k Hcall Hv Hl Hk) as [[E _] | HU]; [|exact HU].
  rewrite HL in E. inversion E; subst Y.
  destruct (key_not_label "L0" alts Hl) as [E' _]. discriminate.
Qed.

(** From a slot that the driver got to, it got to the end of every
    part of the input that the rest of the alternative derives. *)
Lemma gll_advances :
  forall beta w,
    derives g beta w ->
    forall X n rule d u i j,
      rule_at g X n = Some rule ->
      firstn (List.length beta) (skipn d rule) = beta ->
      i <= j -> j <= List.length inp ->
      w = seg inp i j ->
      visited g text nl (GLL.c_parser c) X n d u i ->
      visited g text nl (GLL.c_parser c) X n (d + List.length beta) u j.
Proof.
  pose proof Hc as (_ & Hret & _).
  induction 1 as [| t rest w Hl Hd IH
                  | Y altsY alt rest w1 w2 Hl Ha Hd1 IH1 Hd2 IH2];
    intros X n rule d u i j Hr Hf Hij Hj Hw Hv.
  - assert (Hlen : List.length (seg inp i j) = j - i) by now apply seg_length.
    rewrite <- Hw in Hlen. simpl in Hlen.
    assert (j = i) by lia. subst j. simpl. now rewrite Nat.add_0_r.
  - simpl List.length in Hf |- *.
    destruct (firstn_skipn_cons rule d _ t rest Hf) as [Hn Hf'].
    destruct (seg_cons_inv inp i j t w (eq_sym Hw) Hij Hj) as (Hlt & Hi & Hw').
    assert (Hnt : is_nt t = Ok false).
    { assert (Htin : In t rule) by (eapply nth_error_In; eauto).
      destruct (rule_symbol g Hsym X n rule t Hr Htin) as (Hne & _ & Hkey).
      destruct (is_nt_total t Hne) as [[|] Hb]; [|exact Hb].
      exfalso. apply (Hkey Hb). exact Hl. }
    assert (Hv1 : visited g text nl (GLL.c_parser c) X n (d + 1) u (i + 1)).
    { destruct Hv as (d0 & i0 & HU & Hs). exists d0, i0. split; [exact HU|].
      rewrite !Nat.add_1_r.
      apply (scans_step g text X n d0 i0 d i rule t); assumption. }
    replace (d + S (List.length rest)) with (d + 1 + List.length rest) by lia.
    apply (IH X n rule (d + 1) u (i + 1) j); auto. lia.
  - simpl List.length in Hf |- *.
    destruct (firstn_skipn_cons rule d _ Y rest Hf) as [Hn Hf'].
    destruct (seg_app_inv inp i j w1 w2 (eq_sym Hw) Hij Hj) as (S1 & S2 & S3).
    set (i' := i + List.length w1) in *.
    assert (HntY : is_nt Y = Ok true) by (eapply key_is_nt; eauto).
    destruct (end_handled X n d u i Hv rule Hr) as [_ Hedge].
    specialize (Hedge Y Hn HntY).
    set (v := (GLL.LSlot X n (d + 1), i)) in *.
    assert (Hcv : called_from g start Y v).
    { right. exists X, n, (d + 1), rule. cbn [fst].
      split; [reflexivity|]. split; [exact Hr|]. split; [lia|].
      now replace (d + 1 - 1) with d by lia. }
    destruct (In_nth_error altsY alt Ha) as [k Hk].
    assert (Hklt : k < List.length altsY).
    { apply (proj1 (nth_error_Some altsY k)). rewrite Hk. discriminate. }
    assert (Hne : GLL.gss_children (GLL.c_parser c) v <> []).
    { intros E. rewrite E in Hedge. destruct Hedge. }
    pose proof (end_called Y v altsY k Hcv (or_intror Hne) Hl Hklt) as HU.
    cbn [snd] in HU.
    assert (Hrk : rule_at g Y k = Some alt).
    { unfold rule_at. now rewrite Hl. }
    assert (Hv1 : visited g text nl (GLL.c_parser c) Y k (0 + List.length alt)
                          v i').
    { apply (IH1 Y k alt 0 v i i'); auto; try lia.
      - simpl. apply firstn_all.
      - exists 0, i. split; [exact HU | apply scans_refl]. }
    destruct (end_handled Y k _ v i' Hv1 alt Hrk) as [Hpop _].
    destruct (Hpop eq_refl) as [_ HP].
    assert (Hvb : v <> GLL.stack_bottom) by discriminate.
    specialize (HP Hvb). cbn [snd] in HP.
    pose proof (Hret v u _ _ X n (d + 1) Hedge HP eq_refl) as HU2.
    cbn [snd] in HU2.
    replace (d + S (List.length rest)) with (d + 1 + List.length rest) by lia.
    apply (IH2 X n rule (d + 1) u i' j); auto.
    exists (d + 1), i'. split; [exact HU2 | apply scans_refl].
Qed.

Lemma end_root :
  generates g start (tokens_of text) ->
  in_store (GLL.c_parser c) (GLL.TStr start, 0, String.length text).
Proof.
  intros (alts & alt & Hl & Ha & Hd).
  destruct (In_nth_error alts alt Ha) as [k Hk].
  assert (Hklt : k < List.length alts).
  { apply (proj1 (nth_error_Some alts k)). rewrite Hk. discriminate. }
  assert (Hcb : called_from g start start GLL.stack_bottom) by (left; auto).
  pose proof (end_called start GLL.stack_bottom alts k Hcb (or_introl eq_refl)
                Hl Hklt) as HU.
  cbn [snd GLL.stack_bottom] in HU.
  assert (Hrk : rule_at g start k = Some alt).
  { unfold rule_at. now rewrite Hl. }
  assert (Hlen : List.length inp = String.length text + 1).
  { rewrite tokens_of_app, length_app, tokens_of_length. reflexivity. }
  assert (Hv : visited g text nl (GLL.c_parser c) start k (0 + List.length alt)
                       GLL.stack_bottom (String.length text)).
  { apply (gll_advances alt (tokens_of text) Hd start k alt 0
             GLL.stack_bottom 0 (String.length text)); auto; try lia.
    - simpl. apply firstn_all.
    - symmetry. apply seg_input_text.
    - exists 0, 0. split; [exact HU | apply scans_refl]. }
  destruct (end_handled start k _ GLL.stack_bottom _ Hv alt Hrk) as [Hpop _].
  now destruct (Hpop eq_refl) as [Hst _].
Qed.

End AtEnd.

(** The loop ends with the parser object when the text is a sentence. *)
Lemma step_accepts c o :
  cinv g start text nl c -> generates g start (tokens_of text) ->
  GLL.step g start c = Ok (inr o) -> exists p, o = GLL.ReturnParser p.
Proof.
  intros Hc Hgen H. pose proof Hc as ((_ & _ & Hm & _) & _).
  unfold GLL.step in H.
  destruct (GLL.cL c) as [s | X n pos] eqn:EL.
  - destruct (String.eqb s "L0") eqn:E0.
    + apply String.eqb_eq in E0. subst s.
      destruct (GLL.threads (GLL.c_parser c)) as [|[[[L u] i] w] ts] eqn:Et;
        [|discriminate].
      pose proof (end_root c Hc EL Et Hgen) as Hroot. unfold in_store in Hroot.
      rewrite Hm in H.
      destruct (GLL.assoc GLL.sppf_key_eqb (GLL.SPPF_nodes (GLL.c_parser c))
                  (GLL.TStr start, 0, String.length text)); [|congruence].
      inversion H. eauto.
    + destruct (String.eqb s "L_").
      * destruct (GLL.fn_return _ _ _ _); cbn [bind] in H; discriminate.
      * destruct (lookup g s); [|discriminate].
        destruct (GLL.add_alt_threads _ _ _ _ _ _); cbn [bind] in H;
          discriminate.
  - destruct (lookup g X) as [alts|]; [|discriminate].
    destruct (nth_error alts n) as [rule|]; [|discriminate].
    destruct rule as [|t0 rule'].
    + destruct pos; [|discriminate]. unfold GLL.getNodeT in H.
      destruct (GLL.getNodeP _ _ _ _ _ _); cbn [bind] in H; discriminate.
    + destruct (nth_error (t0 :: rule') pos) as [t|].
      * destruct (GLL.is_nonterminal t) as [[|]|]; cbn [bind] in H;
          [| |discriminate].
        -- destruct (GLL.register_return _ _ _ _ _ _ _); cbn [bind] in H;
             discriminate.
        -- destruct (GLL.input_at _ _); [|discriminate].
           destruct (String.eqb _ t); [|discriminate].
           unfold GLL.getNodeT in H.
           destruct (GLL.getNodeP _ _ _ _ _ _); cbn [bind] in H; discriminate.
      * destruct (Nat.eqb pos _); discriminate.
Qed.

Lemma run_accepts :
  generates g start (tokens_of text) ->
  forall fuel c o,
    cinv g start text nl c ->
    GLL.run fuel g start c = Some (Ok o) -> exists p, o = GLL.ReturnParser p.
Proof.
  intros Hgen. induction fuel as [|fuel IH]; intros c o Hc H; simpl in H;
    [discriminate|].
  destruct (GLL.step g start c) as [[c'|o']|e] eqn:E; [| |discriminate].
  - apply (IH c' o); [|exact H]. exact (step_cinv c Hc (inl c') E).
  - inversion H; subst o'. eapply step_accepts; eauto.
Qed.

Lemma initial_cinv alts :
  GLL.get_nullable g = Ok nl -> lookup g start = Some alts ->
  ensures (GLL.initial_config g text start) (cinv g start text nl).
Proof.
  intros Hnl Hstart. unfold GLL.initial_config, GLL.set_grammar.
  rewrite Hnl. cbn [bind]. apply Ok_ensures.
  set (p0 := GLL.mkP _ _ _ _ _ _ _ _ _ _ _).
  assert (Hch0 : forall v, GLL.gss_children p0 v = []).
  { intros v. unfold GLL.gss_children, p0, GLL.initialize. simpl.
    destruct (GLL.gss_label_eqb v GLL.stack_bottom); reflexivity. }
  assert (Hpi0 : forall v, GLL.parsed_indexes p0 v = []).
  { intros v. unfold GLL.parsed_indexes, p0, GLL.initialize. simpl.
    destruct (GLL.gss_label_eqb v GLL.stack_bottom); reflexivity. }
  assert (HU0 : forall i us, nth_error (GLL.U p0) i = Some us -> us = []).
  { intros i us Hn. unfold p0, GLL.initialize in Hn. simpl in Hn.
    now apply nth_error_repeat_nil in Hn. }
  assert (Hp0 : kcore g start text nl p0).
  { unfold kcore.
    split; [reflexivity|]. split; [reflexivity|]. split; [reflexivity|].
    split; [reflexivity|]. split.
    { intros i us L u w Hn Hin. apply HU0 in Hn. subst us. destruct Hin. }
    split; [intros L u i w []|]. split.
    { intros v u w Hin. rewrite Hch0 in Hin. destruct Hin. }
    intros v z Hin. rewrite Hpi0 in Hin. destruct Hin. }
  destruct (find_or_create_key p0 GLL.end_rule Hp0) as [Hp1 Hg1].
  destruct (graph_find_or_create p0 GLL.end_rule) as (G1 & G2 & G3 & G4).
  set (p1 := GLL.sppf_find_or_create p0 GLL.end_rule) in *.
  assert (Hch1 : forall v, GLL.gss_children p1 v = []).
  { intros v. rewrite (children_same p0 p1 G1). apply Hch0. }
  unfold cinv. cbn [GLL.c_parser].
  split; [exact Hp1|]. split; [|split; [|split]].
  - intros v u w z X n d Hin. rewrite Hch1 in Hin. destruct Hin.
  - unfold kconf. cbn.
    destruct (key_not_label start alts Hstart) as [-> ->].
    split; [left; auto | reflexivity].
  - intros Y v alts' k Hcall Hv Hl Hk. left. cbn.
    destruct Hv as [-> | Hv]; [|rewrite Hch1 in Hv; congruence].
    split; [|reflexivity]. f_equal.
    destruct Hcall as [(_ & ->) | (X' & n' & d' & rule' & Hfu & _)];
      [reflexivity | discriminate].
  - intros X n d u i (d0 & i0 & (us & Hn & Hin) & _). exfalso.
    cbn [GLL.c_parser] in Hn. rewrite G3 in Hn. apply HU0 in Hn. subst us. destruct Hin.
Qed.

End GLLComplete.

(** X14.  The compiled GLL recognizer is complete.  For a grammar whose
    keys are distinct nonterminals [<...>], whose symbols are non-empty
    strings with every symbol of the form [<...>] a key, in which no
    alternative uses the end marker [$], and that [exec] compiles as
    meant ([GLL.source_ok]: symbols of printable ASCII characters,
    without the backslash and the quotes that end their literals, and at
    most 400 branches in the generated chain): when [text] is a sentence
    of [start], [recognize_on(text, start)] returns the parser object
    (not the empty list), after at most [gll_budget g text] turns of its
    loop. *)
Theorem gll_recognizer_complete
    (g : grammar) (start : symbol) (text : string) :
  wf_grammar g -> symbols_ok g -> dollar_free g ->
  GLL.source_ok g = true ->
  generates g start (tokens_of text) ->
  exists p, forall fuel,
    gll_budget g text <= fuel ->
    GLL.recognize_on fuel g text start = Some (Ok (GLL.ReturnParser p)).
Proof.
  intros Hwf Hsym Hfree Hsrc Hgen.
  pose proof Hgen as (alts & alt & Hl & _).
  assert (Hstart : lookup g start <> None) by congruence.
  destruct (get_nullable_total g Hsym) as [nl Hnl].
  pose proof (initial_config_safe g start text Hsym Hstart) as Hinit.
  pose proof (initial_cinv g start text nl Hwf alts Hnl Hl) as Hcinv.
  unfold GLL.recognize_on. rewrite Hsrc. unfold GLL.generated_recognize_on.
  destruct (GLL.initial_config g text start) as [c|e]; simpl in Hinit;
    [|destruct Hinit].
  destruct Hinit as [Hc Hlt].
  destruct (run_terminates g start text Hsym Hfree (gll_budget g text) c Hc Hlt)
    as [o Ho].
  destruct (run_accepts g start text nl Hwf Hsym Hfree Hgen
              (gll_budget g text) c o (Hcinv c eq_refl) Ho) as [p ->].
  exists p. intros fuel Hle.
  replace fuel with (gll_budget g text + (fuel - gll_budget g text)) by lia.
  now apply gll_run_more_fuel.
Qed.

Lemma dup_grammar_generates : generates dup_grammar "<S>" (tokens_of "a").
Proof.
  exists [["a"]; ["a"]], ["a"]. split; [reflexivity|]. split; [now left|].
  simpl. apply derives_terminal; [reflexivity | constructor].
Qed.

Lemma gll_recognizer_complete_witness :
  exists p, forall fuel,
    gll_budget dup_grammar "a" <= fuel ->
    GLL.recognize_on fuel dup_grammar "a" "<S>"
    = Some (Ok (GLL.ReturnParser p)).
Proof.
  apply (gll_recognizer_complete dup_grammar "<S>" "a").
  - exact dup_grammar_wf.
  - exact dup_grammar_symbols_ok.
  - exact dup_grammar_dollar_free.
  - reflexivity.
  - exact dup_grammar_generates.
Defined.

(** X15.  Whatever the Earley recognizer accepts, the GLL recognizer
    accepts.  Under the same conditions on the grammar (distinct keys
    [<...>], non-empty symbols with every symbol [<...>] a key, no [$]
    in an alternative, [GLL.source_ok]), when
    [EarleyParser(g).recognize_on(text, start)] returns (instead of
    raising [SyntaxError]), the compiled GLL [recognize_on(text, start)]
    returns the parser object. *)
Theorem earley_accepts_gll_accepts
    (g : grammar) (ep : Parser) (start : symbol) (text : string)
    (table : chart) (starts : list State) :
  wf_grammar g -> symbols_ok g -> dollar_free g ->
  GLL.source_ok g = true ->
  EarleyParser g true = Ok ep ->
  Parser_recognize_on ep text start = Ok (table, starts) ->
  exists p, forall fuel,
    gll_budget g text <= fuel ->
    GLL.recognize_on fuel g text start = Some (Ok (GLL.ReturnParser p)).
Proof.
  intros Hwf Hsym Hfree Hsrc Hep Hr.
  assert (Hgen : generates g start (tokens_of text)).
  { unfold EarleyParser in Hep.
    destruct (nullable g) as [eps|e] eqn:Heps; cbn [bind] in Hep;
      [|discriminate].
    inversion Hep; subst ep. clear Hep. unfold Parser_recognize_on in Hr.
    cbn [p_grammar p_epsilon p_parse_exceptions] in Hr.
    destruct (recognize_on_starts g eps true text start table starts Hwf Heps Hr)
      as (alts & i & Hl & Ht & Hi & Hpe & Hall).
    destruct (Hpe eq_refl) as [Hne Hilen].
    destruct starts as [|st starts']; [congruence|].
    destruct (recognize_on_derives g eps true text start table (st :: starts') st
                Hwf Heps Hr (or_introl eq_refl))
      as (i' & _ & _ & Hi' & Hg).
    rewrite (Hi' eq_refl), <- tokens_of_length, firstn_all in Hg. exact Hg. }
  destruct (get_nullable_total g Hsym) as [nl Hnl].
  pose proof Hgen as (alts & alt & Hl & _).
  assert (Hstart : lookup g start <> None) by congruence.
  pose proof (initial_config_safe g start text Hsym Hstart) as Hinit.
  pose proof (initial_cinv g start text nl Hwf alts Hnl Hl) as Hcinv.
  unfold GLL.recognize_on. rewrite Hsrc. unfold GLL.generated_recognize_on.
  destruct (GLL.initial_config g text start) as [c|e]; simpl in Hinit;
    [|destruct Hinit].
  destruct Hinit as [Hc Hlt].
  destruct (run_terminates g start text Hsym Hfree (gll_budget g text) c Hc Hlt)
    as [o Ho].
  destruct (run_accepts g start text nl Hwf Hsym Hfree Hgen
              (gll_budget g text) c o (Hcinv c eq_refl) Ho) as [p ->].
  exists p. intros fuel Hle.
  replace fuel with (gll_budget g text + (fuel - gll_budget g text)) by lia.
  now apply gll_run_more_fuel.
Qed.

Lemma earley_accepts_gll_accepts_witness :
  exists p, forall fuel,
    gll_budget dup_grammar "a" <= fuel ->
    GLL.recognize_on fuel dup_grammar "a" "<S>"
    = Some (Ok (GLL.ReturnParser p)).
Proof.
  destruct (Parser_recognize_on (mkParser dup_grammar [] true) "a" "<S>")
    as [[table starts]|e] eqn:E; [|vm_compute in E; discriminate].
  apply (earley_accepts_gll_accepts dup_grammar (mkParser dup_grammar [] true)
           "<S>" "a" table starts).
  - exact dup_grammar_wf.
  - exact dup_grammar_symbols_ok.
  - exact dup_grammar_dollar_free.
  - reflexivity.
  - reflexivity.
  - exact E.
Defined.


(** ** The SPPF that the GLL driver builds *)

Lemma find_or_create_node p y :
  exists ny,
    GLL.assoc GLL.sppf_key_eqb (GLL.SPPF_nodes (GLL.sppf_find_or_create p y)) y
    = Some ny /\
    (GLL.assoc GLL.sppf_key_eqb (GLL.SPPF_nodes p) y = Some ny \/
     (GLL.assoc GLL.sppf_key_eqb (GLL.SPPF_nodes p) y = None /\
      GLL.children ny = [])).
Proof.
  unfold GLL.sppf_find_or_create.
  destruct (GLL.assoc GLL.sppf_key_eqb (GLL.SPPF_nodes p) y) as [ny|] eqn:E.
  - exists ny. auto.
  - exists (GLL.mkNode (GLL.N_ID p + 1) []). simpl.
    rewrite assoc_app_one, E, sppf_key_eqb_refl. auto.
Qed.

Lemma find_or_create_other p y k :
  GLL.sppf_key_eqb k y = false ->
  GLL.assoc GLL.sppf_key_eqb (GLL.SPPF_nodes (GLL.sppf_find_or_create p y)) k
  = GLL.assoc GLL.sppf_key_eqb (GLL.SPPF_nodes p) k.
Proof.
  intros Hk. unfold GLL.sppf_find_or_create.
  destruct (GLL.assoc GLL.sppf_key_eqb (GLL.SPPF_nodes p) y); [reflexivity|].
  simpl. rewrite assoc_app_one, Hk.
  destruct (GLL.assoc GLL.sppf_key_eqb (GLL.SPPF_nodes p) k); reflexivity.
Qed.

Lemma refs_stored_with_sppf p ns c :
  refs_stored p ->
  (forall k, in_store p k -> GLL.assoc GLL.sppf_key_eqb ns k <> None) ->
  refs_stored (GLL.with_sppf p ns c).
Proof.
  intros (R0 & R1 & R2 & R3 & R4) Hns. unfold refs_stored, in_store. simpl.
  split; [now apply Hns|]. split; [|split; [|split]].
  - intros i us L u w Hn Hin. apply Hns. eapply R1; eauto.
  - intros L u i w Hin. apply Hns. eapply R2; eauto.
  - intros v u w Hin. apply Hns. eapply R3; eauto.
  - intros v z Hin. apply Hns. eapply R4; eauto.
Qed.

Section GLLShapeOps.

Variable g : grammar.
Variable start : symbol.
Variable text : string.
Variable nl : list symbol.

Hypothesis Hwf : wf_grammar g.
Hypothesis Hsym : symbols_ok g.
Hypothesis Hfree : dollar_free g.

#[warnings="-notation-for-abbreviation"]
Local Notation inp := (tokens_of (text ++ "$")).

Lemma packed_child_mono p p' t j i c :
  (forall k, in_store p k -> in_store p' k) ->
  packed_child g p t j i c -> packed_child g p' t j i c.
Proof.
  intros Hm (X & n & d & k & H1 & H2 & H3). exists X, n, d, k. auto.
Qed.

Lemma packed_children_mono p p' X n d k j i chs :
  (forall k, in_store p k -> in_store p' k) ->
  packed_children g nl p X n d k j i chs ->
  packed_children g nl p' X n d k j i chs.
Proof.
  intros Hm (rule & H1 & H2 & H3). exists rule.
  split; [exact H1|]. split; [exact H2|].
  destruct H3 as [(H3 & H4 & H5 & H6 & H7 & H8)
                 | (Y & A1 & A2 & A3 & A4 & A5 & A6)];
    [left; auto 10|].
  right. exists Y. repeat (split; [auto|]).
  destruct A6 as [A6 | (B1 & B2 & B3 & B4)]; [now left|].
  right. auto.
Qed.

Lemma node_shape_mono p p' key chs :
  (forall k, in_store p k -> in_store p' k) ->
  node_shape g nl inp p key chs -> node_shape g nl inp p' key chs.
Proof.
  intros Hm. destruct key as [[t j] i]. unfold node_shape.
  intros [Hji H]. split; [exact Hji|].
  destruct t as [|x|X n d|X n d k].
  - exact H.
  - destruct H as [H | [H | (H1 & H2 & H3 & H4)]];
      [now left | right; now left|].
    right. right. split; [exact H1|]. split; [exact H2|]. split; [exact H3|].
    eapply Forall_impl; [|exact H4]. intros c. now apply packed_child_mono.
  - destruct H as (H1 & H2 & H3). split; [exact H1|]. split; [exact H2|].
    eapply Forall_impl; [|exact H3]. intros c. now apply packed_child_mono.
  - now apply (packed_children_mono p).
Qed.

Lemma canon_extents X n d rule j k :
  rule_at g X n = Some rule -> 0 < d ->
  exists t, canon g nl X n d j k = (t, j, k).
Proof.
  intros Hr Hd. unfold canon. destruct d as [|d']; [lia|]. rewrite Hr.
  destruct (nn_alpha nl (firstn (S d') rule)) as [[|]|]; eauto.
  destruct (skipn (S d') rule); eauto.
Qed.

Lemma stored_extents p t j i :
  sppf_shape g nl inp p -> in_store p (t, j, i) -> j <= i.
Proof.
  intros Hs Hin. unfold in_store in Hin.
  destruct (GLL.assoc GLL.sppf_key_eqb (GLL.SPPF_nodes p) (t, j, i)) as [nd|] eqn:E;
    [|congruence].
  specialize (Hs _ _ E). unfold node_shape in Hs. tauto.
Qed.

(** [getNodeP] keeps the shape of the SPPF. *)
Lemma getNodeP_shape p X n d rule w z j i :
  sppf_ok g nl inp p ->
  rule_at g X n = Some rule -> d <= List.length rule ->
  in_store p w -> in_store p z ->
  ((0 < d /\ exists Y k, nth_error rule (d - 1) = Some Y /\
                         w = canon g nl X n (d - 1) j k /\ (d = 1 -> k = j) /\
                         z = (GLL.TStr Y, k, i))
   \/
   (d = 0 /\ rule = [] /\ w = GLL.end_rule /\ z = (GLL.TNone, i, i) /\ j = i)) ->
  ensures (GLL.getNodeP p X n d w z)
          (fun r => sppf_ok g nl inp (snd r) /\ in_store (snd r) (fst r) /\
                    forall k, in_store p k -> in_store (snd r) k).
Proof.
  intros Hok Hr Hd Hw Hz Hcase r Hres.
  pose proof Hok as (Hg & Hnl & Hshape & Hrefs).
  destruct (rule_at_entry g X n rule Hr) as (alts & Hin & Hl & Hn).
  unfold GLL.getNodeP in Hres. rewrite Hg, Hl, Hn in Hres.
  rewrite nn_alpha_parser, Hnl in Hres.
  destruct (nn_alpha nl (firstn d rule)) as [nn|e] eqn:Enn;
    cbn [bind] in Hres; [|discriminate].
  destruct (nn && match skipn d rule with [] => false | _ :: _ => true end)
    eqn:Eb.
  { inversion Hres; subst r. simpl. auto. }
  assert (HX : is_nt X = Ok true) by (eapply key_is_nt; eauto).
  assert (Hnd : GLL.not_dummy w = Ok (1 <? d) /\
                (if 1 <? d then snd (fst w) else snd (fst z)) = j /\
                snd z = i /\ j <= i /\
                forall p', (forall k, in_store p k -> in_store p' k) ->
                  packed_children g nl p' X n d (snd (fst z)) j i
                    (if 1 <? d then [w; z] else [z])).
  { destruct Hcase as [(Hd0 & Y & k & HY & Hw' & Hk & Hz')
                      | (-> & -> & -> & -> & ->)].
    - assert (Hki : k <= i).
      { subst z. eapply stored_extents; eauto. }
      assert (HYd : Y <> "$").
      { intros ->. apply (Hfree X n rule Hr). eapply nth_error_In; eauto. }
      destruct (Nat.eq_dec d 1) as [-> | Hne].
      + simpl in Hw'. unfold canon in Hw'. subst w z. simpl.
        rewrite (Hk eq_refl) in *.
        split; [reflexivity|]. split; [reflexivity|]. split; [reflexivity|].
        split; [exact Hki|]. intros p' Hm.
        exists rule. split; [exact Hr|]. split; [exact Hd|]. right.
        exists Y. split; [lia|]. split; [exact HY|]. split; [exact HYd|].
        split; [now apply Hm|]. split; [exact Hki|]. left. auto.
      + destruct (canon_not_dummy g nl Hwf Hfree X n (d - 1) rule j k Hr)
          as [C1 C2]; [lia|].
        destruct (canon_extents X n (d - 1) rule j k Hr) as [t' Ht']; [lia|].
        assert (Hjk : j <= k).
        { rewrite Hw', Ht' in Hw. eapply stored_extents; eauto. }
        assert (Hb : (1 <? d) = true) by (apply Nat.ltb_lt; lia).
        rewrite Hb. rewrite <- Hw' in C1, C2. subst z. simpl.
        split; [exact C1|]. split; [exact C2|]. split; [reflexivity|].
        split; [lia|]. intros p' Hm.
        exists rule. split; [exact Hr|]. split; [exact Hd|]. right.
        exists Y. split; [lia|]. split; [exact HY|]. split; [exact HYd|].
        split; [now apply Hm|]. split; [exact Hki|]. right.
        split; [lia|]. split; [exact Hjk|]. rewrite <- Hw'.
        split; [now apply Hm | reflexivity].
    - simpl. split; [reflexivity|]. split; [reflexivity|].
      split; [reflexivity|]. split; [lia|]. intros p' Hm.
      exists []. split; [exact Hr|]. split; [simpl; lia|]. left.
      split; [reflexivity|]. split; [reflexivity|]. split; [reflexivity|].
      split; [reflexivity|]. split; [now apply Hm | reflexivity]. }
  destruct Hnd as (Hb & Hj & Hzi & Hji & Hpk).
  destruct z as [[tz kz] iz]. simpl in Hzi, Hj, Hpk. subst iz.
  rewrite Hb in Hres. cbn [bind] in Hres.
  replace (if 1 <? d then snd (fst w) else kz) with j in Hres.
  set (t := match skipn d rule with
            | [] => GLL.TStr X
            | _ :: _ => GLL.TSlot X n d
            end) in *.
  assert (Htag : slot_tag g X n d = t).
  { unfold slot_tag, t. now rewrite Hr. }
  assert (Hty : forall p' chs0,
             chs0 <> [] -> NoDup chs0 ->
             Forall (packed_child g p' t j i) chs0 ->
             node_shape g nl inp p' (t, j, i) chs0).
  { intros p' chs0 Hne Hnd Hall. unfold node_shape. split; [exact Hji|].
    unfold t in *. destruct (skipn d rule); auto 6. }
  assert (Hold : forall ny,
             GLL.assoc GLL.sppf_key_eqb (GLL.SPPF_nodes p) (t, j, i) = Some ny ->
             NoDup (GLL.children ny) /\
             Forall (packed_child g p t j i) (GLL.children ny)).
  { intros ny Hny. specialize (Hshape _ _ Hny). unfold node_shape in Hshape.
    destruct Hshape as [_ Hs]. unfold t in *.
    destruct (skipn d rule).
    - destruct Hs as [(Hs & _) | [(Hs & _) | (_ & _ & Hs)]]; [| |exact Hs].
      + exfalso. eapply key_not_dollar; eauto.
      + congruence.
    - tauto. }
  set (y := (t, j, i)) in *.
  destruct (find_or_create_node p y) as (ny & Hny & Hny').
  assert (Hg1 : forall k0, in_store p k0 ->
                           in_store (GLL.sppf_find_or_create p y) k0).
  { intros k0. apply in_store_find_or_create. }
  destruct (find_or_create_with_sppf p y) as (ns1 & c1 & Hp1).
  set (p1 := GLL.sppf_find_or_create p y) in *.
  destruct (existsb (GLL.child_has_label X n d kz) (GLL.node_children p1 y))
    eqn:Eex.
  - inversion Hres; subst r. simpl fst. simpl snd.
    assert (Hsame : p1 = p).
    { destruct Hny' as [Hy | [Hy Hch]].
      - unfold p1, GLL.sppf_find_or_create. now rewrite Hy.
      - unfold GLL.node_children in Eex. rewrite Hny, Hch in Eex.
        discriminate. }
    rewrite Hsame. split; [exact Hok|]. split; [|auto].
    rewrite <- Hsame. apply in_store_created.
  - destruct (GLL.assoc GLL.sppf_key_eqb (GLL.SPPF_nodes p1)
                (GLL.TPacked X n d kz, j, i)) eqn:Ek; [discriminate|].
    inversion Hres; subst r. simpl fst. simpl snd.
    set (key := (GLL.TPacked X n d kz, j, i)) in *.
    set (chs := if 1 <? d then [w; (tz, kz, i)] else [(tz, kz, i)]) in *.
    set (p2 := GLL.with_sppf p1 _ _).
    assert (Hky : GLL.sppf_key_eqb y key = false).
    { unfold y, key, t. simpl.
      destruct (skipn d rule); reflexivity. }
    assert (Hy2 : GLL.assoc GLL.sppf_key_eqb (GLL.SPPF_nodes p2) y = Some ny).
    { unfold p2. simpl. rewrite assoc_app_one. now rewrite Hny. }
    set (pf := GLL.add_child p2 y key).
    assert (Hpf : pf = GLL.with_sppf p
                         (GLL.assoc_set GLL.sppf_key_eqb (GLL.SPPF_nodes p2) y
                            (GLL.mkNode (GLL.nid ny) (GLL.children ny ++ [key])))
                         (GLL.N_ID p2)).
    { unfold pf, GLL.add_child. rewrite Hy2. unfold p2. rewrite Hp1.
      reflexivity. }
    assert (Hlook : forall k0,
               GLL.assoc GLL.sppf_key_eqb (GLL.SPPF_nodes pf) k0 =
               if GLL.sppf_key_eqb k0 y
               then Some (GLL.mkNode (GLL.nid ny) (GLL.children ny ++ [key]))
               else match GLL.assoc GLL.sppf_key_eqb (GLL.SPPF_nodes p) k0 with
                    | Some x => Some x
                    | None => if GLL.sppf_key_eqb k0 key
                              then Some (GLL.mkNode (GLL.N_ID p1 + 1) chs)
                              else None
                    end).
    { intros k0. rewrite Hpf. cbn [GLL.SPPF_nodes GLL.with_sppf].
      rewrite assoc_assoc_set.
      destruct (GLL.sppf_key_eqb k0 y) eqn:E0; [reflexivity|].
      unfold p2. cbn [GLL.SPPF_nodes GLL.with_sppf]. rewrite assoc_app_one.
      unfold p1. rewrite (find_or_create_other p y k0 E0). reflexivity. }
    assert (Hadd : forall k0, in_store p k0 -> in_store pf k0).
    { intros k0 Hk0. unfold in_store in *. rewrite Hlook.
      destruct (GLL.sppf_key_eqb k0 y); [discriminate|].
      destruct (GLL.assoc GLL.sppf_key_eqb (GLL.SPPF_nodes p) k0);
        congruence. }
    assert (Hiy : in_store pf y).
    { unfold in_store. rewrite Hlook, sppf_key_eqb_refl. discriminate. }
    assert (Hik : in_store pf key).
    { unfold in_store. rewrite Hlook.
      assert (E : GLL.sppf_key_eqb key y = false).
      { destruct (GLL.sppf_key_eqb key y) eqn:E; [|reflexivity].
        apply sppf_key_eqb_eq in E. rewrite <- E, sppf_key_eqb_refl in Hky.
        discriminate. }
      rewrite E, sppf_key_eqb_refl.
      destruct (GLL.assoc GLL.sppf_key_eqb (GLL.SPPF_nodes p) key); discriminate. }
    split; [|split; [exact Hiy | exact Hadd]].
    unfold sppf_ok. split; [rewrite Hpf; exact Hg|].
    split; [rewrite Hpf; exact Hnl|]. split.
    + intros k0 nd0 H0. rewrite Hlook in H0.
      destruct (GLL.sppf_key_eqb k0 y) eqn:E0.
      * apply sppf_key_eqb_eq in E0. subst k0. inversion H0; subst nd0.
        cbn [GLL.children]. apply Hty.
        -- destruct (GLL.children ny); discriminate.
        -- apply NoDup_snoc.
           ++ destruct Hny' as [Hy | [Hy Hch]].
              ** exact (proj1 (Hold ny Hy)).
              ** rewrite Hch. constructor.
           ++ intros Hkin. unfold GLL.node_children in Eex.
              rewrite Hny in Eex.
              assert (Ht : existsb (GLL.child_has_label X n d kz)
                             (GLL.children ny) = true).
              { apply existsb_exists. exists key. split; [exact Hkin|].
                unfold GLL.child_has_label, key. cbn [fst].
                now apply sppf_tag_eqb_eq. }
              congruence.
        -- apply Forall_app. split.
           ++ destruct Hny' as [Hy | [Hy Hch]].
              ** eapply Forall_impl; [|exact (proj2 (Hold ny Hy))].
                 intros c. now apply packed_child_mono.
              ** rewrite Hch. constructor.
           ++ constructor; [|constructor].
              exists X, n, d, kz. auto.
      * destruct (GLL.assoc GLL.sppf_key_eqb (GLL.SPPF_nodes p) k0) as [x|] eqn:E1.
        -- inversion H0; subst x.
           apply (node_shape_mono p); [exact Hadd|]. now apply Hshape.
        -- destruct (GLL.sppf_key_eqb k0 key) eqn:E2; [|discriminate].
           apply sppf_key_eqb_eq in E2. subst k0. inversion H0; subst nd0.
           cbn [GLL.children]. unfold key, node_shape. split; [exact Hji|].
           apply Hpk. exact Hadd.
    + rewrite Hpf. apply refs_stored_with_sppf; [exact Hrefs|].
      intros k0 Hk0. apply Hadd in Hk0. unfold in_store in Hk0.
      rewrite Hpf in Hk0. exact Hk0.
Qed.

Lemma sppf_ok_same p p' :
  GLL.SPPF_nodes p' = GLL.SPPF_nodes p -> GLL.p_gram p' = GLL.p_gram p ->
  GLL.p_nullable p' = GLL.p_nullable p ->
  refs_stored p' -> sppf_ok g nl inp p -> sppf_ok g nl inp p'.
Proof.
  intros Hs Hg Hn Hrefs (A1 & A2 & A3 & _).
  split; [congruence|]. split; [congruence|]. split; [|exact Hrefs].
  intros key nd H. rewrite Hs in H. apply (node_shape_mono p).
  - intros k. unfold in_store. now rewrite Hs.
  - now apply A3.
Qed.

Lemma add_thread_shape p L u i w :
  sppf_ok g nl inp p -> in_store p w ->
  ensures (GLL.add_thread p L u i w)
          (fun p' => sppf_ok g nl inp p' /\
                     GLL.SPPF_nodes p' = GLL.SPPF_nodes p).
Proof.
  intros Hok Hw. unfold GLL.add_thread.
  destruct (nth_error (GLL.U p) i) as [us|] eqn:En; [|apply Raise_ensures].
  destruct (existsb (GLL.triple_eqb (L, u, w)) us); apply Ok_ensures;
    [auto|].
  split; [|reflexivity].
  apply (sppf_ok_same p); try reflexivity; [|exact Hok].
  destruct Hok as (_ & _ & _ & (R0 & R1 & R2 & R3 & R4)).
  split; [exact R0|]. split; [|split; [|split; [exact R3 | exact R4]]].
  - intros i' us' L' u' w' Hn Hin. cbn [GLL.U GLL.with_threads] in Hn.
    destruct (Nat.eq_dec i' i) as [-> | Hne].
    + apply list_set_nth_same in Hn. subst us'.
      apply in_app_or in Hin. destruct Hin as [Hin | [Heq | []]].
      * exact (R1 i us L' u' w' En Hin).
      * inversion Heq; subst. exact Hw.
    + rewrite list_set_nth_other in Hn by exact Hne.
      exact (R1 i' us' L' u' w' Hn Hin).
  - intros L' u' i' w' Hin. cbn [GLL.threads GLL.with_threads] in Hin.
    apply in_app_or in Hin. destruct Hin as [Hin | [Heq | []]].
    + exact (R2 L' u' i' w' Hin).
    + inversion Heq; subst. exact Hw.
Qed.

Lemma gss_get_shape p v :
  sppf_ok g nl inp p -> sppf_ok g nl inp (GLL.gss_get p v).
Proof.
  intros Hok. pose proof Hok as (_ & _ & _ & (R0 & R1 & R2 & R3 & R4)).
  assert (Hc := children_gss_get p v). assert (Hz := parsed_gss_get p v).
  unfold GLL.gss_get in *.
  destruct (GLL.assoc GLL.gss_label_eqb (GLL.graph p) v); [exact Hok|].
  apply (sppf_ok_same p); try reflexivity; [|exact Hok].
  split; [exact R0|]. split; [exact R1|]. split; [exact R2|]. split.
  - intros v' u w Hin. rewrite Hc in Hin. eapply R3; eauto.
  - intros v' z Hin. rewrite Hz in Hin. eapply R4; eauto.
Qed.

Lemma add_parsed_index_shape p v z :
  sppf_ok g nl inp p -> in_store p z ->
  sppf_ok g nl inp (GLL.add_parsed_index p v z).
Proof.
  intros Hok Hz. pose proof Hok as (_ & _ & _ & (R0 & R1 & R2 & R3 & R4)).
  apply (sppf_ok_same p); try reflexivity; [|exact Hok].
  split; [exact R0|]. split; [exact R1|]. split; [exact R2|].
  split; [exact R3|].
  intros v' z' Hin. rewrite parsed_add in Hin.
  destruct (GLL.gss_label_eqb v' v); [|eapply R4; eauto].
  apply in_app_or in Hin. destruct Hin as [Hin | [<- | []]];
    [eapply R4; eauto | exact Hz].
Qed.

(** [fn_return] keeps the shape of the SPPF. *)
Lemma fn_return_shape p u i z :
  kcore g start text nl p -> sppf_ok g nl inp p -> in_store p z ->
  (exists Y, called_from g start Y u /\ z = (GLL.TStr Y, snd u, i)) ->
  ensures (GLL.fn_return p u i z)
          (fun p' => sppf_ok g nl inp p' /\
                     forall k, in_store p k -> in_store p' k).
Proof.
  intros Hp Hok Hz (Y & Hcall & Hzeq). unfold GLL.fn_return.
  destruct (GLL.gss_label_eqb u GLL.stack_bottom) eqn:Eu.
  { apply Ok_ensures. auto. }
  destruct (fst u) as [s | X n d] eqn:Efu; [apply Raise_ensures|].
  pose proof Hp as (H1 & H2 & H3 & H4 & H5 & H6 & H7 & H8).
  destruct Hcall as [(-> & _) | (X' & n' & d' & rule & Hfu & Hr & Hd & Hnth)];
    [discriminate|].
  rewrite Efu in Hfu. inversion Hfu; subst X' n' d'. clear Hfu.
  set (p1 := GLL.add_parsed_index p u z).
  assert (Hok1 : sppf_ok g nl inp p1) by (now apply add_parsed_index_shape).
  pose proof Hok as (_ & _ & _ & (R0 & R1 & R2 & R3 & R4)).
  apply fold_ensures_In
    with (Q := fun q => sppf_ok g nl inp q /\
                        forall k, in_store p k -> in_store q k).
  - reflexivity.
  - intros q [u2 we] Hin (Hq & Hm). cbn [bind fst snd].
    assert (He : kedge g start nl u u2 we) by (now apply H7).
    assert (Hwe : in_store p we) by (eapply R3; eauto).
    destruct He as (X' & n' & d' & rule2 & Hfu & Hr2 & Hd2 & Hle2 & Hcall2
                    & Hw2 & Hone).
    rewrite Efu in Hfu. inversion Hfu; subst X' n' d'. clear Hfu.
    rewrite Hr in Hr2. inversion Hr2; subst rule2. clear Hr2.
    apply bind_ensures
      with (Q1 := fun r => sppf_ok g nl inp (snd r) /\
                           in_store (snd r) (fst r) /\
                           forall k, in_store q k -> in_store (snd r) k).
    + apply (getNodeP_shape q X n d rule we z (snd u2) i); auto.
      left. split; [exact Hd2|]. exists Y, (snd u). auto.
    + intros r (B1 & B2 & B3) q' Hq'.
      destruct (add_thread_shape (snd r) _ _ _ _ B1 B2 q' Hq') as [C1 C2].
      split; [exact C1|]. intros k Hk. unfold in_store. rewrite C2.
      apply B3, Hm, Hk.
  - apply Ok_ensures. split; [exact Hok1 | auto].
Qed.

(** [register_return] keeps the shape of the SPPF. *)
Lemma register_return_shape p X n d rule u i w :
  kcore g start text nl p -> sppf_ok g nl inp p ->
  rule_at g X n = Some rule -> 0 < d -> d <= List.length rule ->
  w = canon g nl X n (d - 1) (snd u) i -> (d = 1 -> i = snd u) ->
  in_store p w ->
  ensures (GLL.register_return p X n d u i w)
          (fun r => sppf_ok g nl inp (snd r) /\
                    forall k, in_store p k -> in_store (snd r) k).
Proof.
  intros Hp Hok Hr Hd Hle Hw Hone Hws. unfold GLL.register_return.
  set (v := (GLL.LSlot X n d, i)).
  pose proof (gss_get_shape p v Hok) as Hok1.
  assert (Hc1 := children_gss_get p v). assert (Hz1 := parsed_gss_get p v).
  assert (Hs1 : GLL.SPPF_nodes (GLL.gss_get p v) = GLL.SPPF_nodes p).
  { unfold GLL.gss_get.
    destruct (GLL.assoc GLL.gss_label_eqb (GLL.graph p) v); reflexivity. }
  set (p1 := GLL.gss_get p v) in *.
  destruct (existsb (fun e => GLL.gss_label_eqb (fst e) u
                              && GLL.sppf_key_eqb (snd e) w)
              (GLL.gss_children p1 v)).
  { apply Ok_ensures. simpl. split; [exact Hok1|].
    intros k Hk. unfold in_store. now rewrite Hs1. }
  set (p2 := GLL.with_gss p1
               (GLL.assoc_set GLL.gss_label_eqb (GLL.graph p1) v
                  (GLL.gss_children p1 v ++ [(u, w)]))
               (GLL.P p1)).
  assert (Hc2 : forall v', GLL.gss_children p2 v'
                           = if GLL.gss_label_eqb v' v
                             then GLL.gss_children p1 v ++ [(u, w)]
                             else GLL.gss_children p1 v').
  { intros v'. apply children_set. }
  pose proof Hp as (H1 & H2 & H3 & H4 & H5 & H6 & H7 & H8).
  pose proof Hok1 as (_ & _ & _ & (R0 & R1 & R2 & R3 & R4)).
  assert (Hws1 : in_store p1 w) by (unfold in_store; now rewrite Hs1).
  assert (Hok2 : sppf_ok g nl inp p2).
  { apply (sppf_ok_same p1); try reflexivity; [|exact Hok1].
    split; [exact R0|]. split; [exact R1|]. split; [exact R2|].
    split; [|exact R4].
    intros v' u' w' Hin. fold p2 in Hin. rewrite Hc2 in Hin.
    destruct (GLL.gss_label_eqb v' v); [|eapply R3; eauto].
    apply in_app_or in Hin. destruct Hin as [Hin | [Heq | []]];
      [eapply R3; eauto|].
    inversion Heq; subst. exact Hws1. }
  apply bind_ensures
    with (Q1 := fun q => sppf_ok g nl inp q /\
                         forall k, in_store p k -> in_store q k).
  - apply fold_ensures_In
      with (Q := fun q => sppf_ok g nl inp q /\
                          forall k, in_store p k -> in_store q k).
    + reflexivity.
    + intros q z Hin (Hq & Hm). cbn [bind].
      assert (Hin1 : In z (GLL.parsed_indexes p v)).
      { rewrite <- Hz1. exact Hin. }
      assert (Hz : kpop g v z) by (now apply H8).
      assert (Hzs : in_store p z).
      { unfold in_store. rewrite <- Hs1. eapply R4. rewrite Hz1. eauto. }
      destruct Hz as (X' & n' & d' & rule2 & Y & Hfv & Hr2 & Hd2 & Hn2 & Hz).
      simpl in Hfv. inversion Hfv; subst X' n' d'. clear Hfv.
      rewrite Hr in Hr2. inversion Hr2; subst rule2. clear Hr2.
      simpl in Hz.
      apply bind_ensures
        with (Q1 := fun r => sppf_ok g nl inp (snd r) /\
                             in_store (snd r) (fst r) /\
                             forall k, in_store q k -> in_store (snd r) k).
      * apply (getNodeP_shape q X n d rule w z (snd u) (snd z)); auto;
          try (apply Hm; unfold in_store; rewrite <- Hs1; exact Hws1).
        left. split; [exact Hd|]. exists Y, i. auto.
      * intros r (B1 & B2 & B3) q' Hq'.
        destruct (add_thread_shape (snd r) _ _ _ _ B1 B2 q' Hq') as [C1 C2].
        split; [exact C1|]. intros k Hk. unfold in_store. rewrite C2.
        apply B3, Hm, Hk.
    + apply Ok_ensures. split; [exact Hok2|].
      intros k Hk. unfold in_store. cbn. rewrite Hs1. exact Hk.
  - intros q Hq. apply Ok_ensures. exact Hq.
Qed.

Lemma add_alt_threads_shape key u i :
  forall alts n p,
    sppf_ok g nl inp p ->
    ensures (GLL.add_alt_threads p key n alts u i)
            (fun p' => sppf_ok g nl inp p' /\
                       GLL.SPPF_nodes p' = GLL.SPPF_nodes p).
Proof.
  induction alts as [|a alts IH]; intros n p Hok; simpl.
  - apply Ok_ensures. auto.
  - intros p' Hres.
    destruct (GLL.add_thread p (GLL.LSlot key n 0) u i GLL.end_rule) as [p1|e]
      eqn:E1; cbn [bind] in Hres; [|discriminate].
    assert (He : in_store p GLL.end_rule).
    { destruct Hok as (_ & _ & _ & (R0 & _)). exact R0. }
    destruct (add_thread_shape p _ _ _ _ Hok He p1 E1) as [A1 A2].
    destruct (IH (S n) p1 A1 p' Hres) as [B1 B2].
    split; [exact B1 | congruence].
Qed.

Lemma find_or_create_shape p k :
  sppf_ok g nl inp p ->
  (forall p', node_shape g nl inp p' k []) ->
  sppf_ok g nl inp (GLL.sppf_find_or_create p k) /\
  in_store (GLL.sppf_find_or_create p k) k /\
  forall k0, in_store p k0 -> in_store (GLL.sppf_find_or_create p k) k0.
Proof.
  intros Hok Hk. split; [|split; [apply in_store_created|]].
  2: { intros k0. apply in_store_find_or_create. }
  pose proof Hok as (Hg & Hnl & Hshape & Hrefs).
  assert (Hm : forall k0, in_store p k0 ->
                          in_store (GLL.sppf_find_or_create p k) k0).
  { intros k0. apply in_store_find_or_create. }
  destruct (find_or_create_with_sppf p k) as (ns & c & Heq).
  split; [rewrite Heq; exact Hg|]. split; [rewrite Heq; exact Hnl|]. split.
  - intros k0 nd0 H0.
    destruct (GLL.sppf_key_eqb k0 k) eqn:E.
    + apply sppf_key_eqb_eq in E. subst k0.
      destruct (find_or_create_node p k) as (ny & Hny & [Hy | [Hy Hch]]).
      * rewrite Hny in H0. inversion H0; subst nd0.
        apply (node_shape_mono p); [exact Hm|]. now apply Hshape.
      * rewrite Hny in H0. inversion H0; subst nd0. rewrite Hch. apply Hk.
    + rewrite (find_or_create_other p k k0 E) in H0.
      apply (node_shape_mono p); [exact Hm|]. now apply Hshape.
  - rewrite Heq. apply refs_stored_with_sppf; [exact Hrefs|].
    intros k0 Hk0. apply Hm in Hk0. unfold in_store in Hk0.
    rewrite Heq in Hk0. exact Hk0.
Qed.

(** One turn of the loop keeps the shape of the SPPF; the parser object
    that the loop returns has the node of the start symbol as its root. *)
Lemma step_shape c :
  cinv g start text nl c -> config_sppf_ok g nl inp c ->
  ensures (GLL.step g start c)
          (fun r => match r with
                    | inl c' => config_sppf_ok g nl inp c'
                    | inr (GLL.ReturnParser p) =>
                        sppf_shape g nl inp p /\
                        GLL.root p = Some (GLL.TStr start, 0, String.length text) /\
                        in_store p (GLL.TStr start, 0, String.length text)
                    | inr GLL.ReturnEmptyList => True
                    end).
Proof.
  intros (Hk & Hret & Hconf & Hcalls & Hall) (Hok & Hcur).
  pose proof Hk as (H1 & H2 & H3 & H4 & H5 & H6 & H7 & H8).
  pose proof Hok as (_ & _ & Hshape & (R0 & R1 & R2 & R3 & R4)).
  unfold GLL.step. unfold kconf in Hconf.
  destruct (GLL.cL c) as [s | X n pos] eqn:EL.
  - destruct (String.eqb s "L0") eqn:E0.
    + destruct (GLL.threads (GLL.c_parser c)) as [|[[[L u] i] w] ts] eqn:Et.
      * rewrite H3.
        destruct (GLL.assoc GLL.sppf_key_eqb (GLL.SPPF_nodes (GLL.c_parser c))
                    (GLL.TStr start, 0, String.length text)) eqn:Er;
          apply Ok_ensures; [|exact I].
        split; [|split; [reflexivity|]].
        -- intros key nd H. apply (node_shape_mono (GLL.c_parser c)); [auto|].
           now apply Hshape.
        -- unfold in_store. cbn. congruence.
      * apply Ok_ensures. split; cbn [GLL.c_parser GLL.c_cur_sppf_node].
        -- apply (sppf_ok_same (GLL.c_parser c)); try reflexivity; [|exact Hok].
           split; [exact R0|]. split; [exact R1|].
           split; [|split; [exact R3 | exact R4]].
           intros L' u' i' w' Hin. apply (R2 L' u' i' w').
           try rewrite Et. now right.
        -- apply (R2 L u i w). try rewrite Et. now left.
    + destruct (String.eqb s "L_") eqn:E1.
      * destruct Hconf as (Y & Hcall & Hcn & Hstore).
        apply bind_ensures
          with (Q1 := fun p' => sppf_ok g nl inp p' /\
                                forall k, in_store (GLL.c_parser c) k ->
                                          in_store p' k).
        -- apply fn_return_shape; auto. exists Y. auto.
        -- intros p1 (A1 & A2). apply Ok_ensures.
           split; cbn [GLL.c_parser GLL.c_cur_sppf_node]; auto.
      * destruct (lookup g s) as [alts|] eqn:El; [|apply Raise_ensures].
        apply bind_ensures
          with (Q1 := fun p' => sppf_ok g nl inp p' /\
                                GLL.SPPF_nodes p' = GLL.SPPF_nodes (GLL.c_parser c)).
        -- now apply add_alt_threads_shape.
        -- intros p1 (A1 & A2). apply Ok_ensures.
           split; cbn [GLL.c_parser GLL.c_cur_sppf_node]; [exact A1|].
           unfold in_store. rewrite A2. exact Hcur.
  - destruct Hconf as (X' & n' & d' & rule & Heq & Hr & Hle & Hcall & Hw & Hz & Hst).
    inversion Heq; subst X' n' d'. clear Heq.
    destruct (rule_at_entry g X n rule Hr) as (alts & Hin & Hl & Hn).
    rewrite Hl, Hn.
    destruct rule as [|t0 rule'].
    + destruct pos as [|pos]; [|apply Raise_ensures].
      unfold GLL.getNodeT.
      set (zk := (GLL.TNone, GLL.c_cur_idx c, GLL.c_cur_idx c)).
      destruct (find_or_create_shape (GLL.c_parser c) zk Hok)
        as (Hok0 & Hin0 & Hm0).
      { intros p'. unfold zk, node_shape. auto. }
      set (p0 := GLL.sppf_find_or_create (GLL.c_parser c) zk) in *.
      apply bind_ensures
        with (Q1 := fun r => sppf_ok g nl inp (snd r) /\
                             in_store (snd r) (fst r) /\
                             forall k, in_store p0 k -> in_store (snd r) k).
      * apply (getNodeP_shape p0 X n 0 [] (GLL.c_cur_sppf_node c) zk
                 (GLL.c_cur_idx c) (GLL.c_cur_idx c)); auto.
        right. rewrite Hw. unfold canon. auto 10.
      * intros r (B1 & B2 & B3). apply Ok_ensures.
        split; cbn [GLL.c_parser GLL.c_cur_sppf_node]; auto.
    + destruct (nth_error (t0 :: rule') pos) as [t|] eqn:Et.
      * assert (Hpos : pos < List.length (t0 :: rule')).
        { apply (proj1 (nth_error_Some (t0 :: rule') pos)). rewrite Et.
          discriminate. }
        apply bind_ensures with (Q1 := fun b => GLL.is_nonterminal t = Ok b);
          [intros b Hb; exact Hb|].
        intros nt Hnt. unfold GLL.is_nonterminal in Hnt.
        assert (Hw1 : GLL.c_cur_sppf_node c
                      = canon g nl X n (pos + 1 - 1)
                              (snd (GLL.c_stack_top c)) (GLL.c_cur_idx c)).
        { now replace (pos + 1 - 1) with pos by lia. }
        assert (Hn1 : nth_error (t0 :: rule') (pos + 1 - 1) = Some t).
        { now replace (pos + 1 - 1) with pos by lia. }
        assert (Hone : pos + 1 = 1 ->
                       GLL.c_cur_idx c = snd (GLL.c_stack_top c)).
        { intros H. apply Hz. lia. }
        destruct nt.
        -- apply bind_ensures
             with (Q1 := fun r => sppf_ok g nl inp (snd r) /\
                                  forall k, in_store (GLL.c_parser c) k ->
                                            in_store (snd r) k).
           ++ apply register_return_shape with (rule := t0 :: rule'); auto; lia.
           ++ intros [v q] (B1 & B2). apply Ok_ensures.
              split; cbn [GLL.c_parser GLL.c_cur_sppf_node fst snd] in *; auto.
        -- destruct (GLL.input_at (GLL.c_parser c) (GLL.c_cur_idx c)) as [ch|] eqn:Ei;
             [|apply Raise_ensures].
           assert (Hin_tok : nth_error inp (GLL.c_cur_idx c) = Some ch).
           { apply input_at_token in Ei. now rewrite H2 in Ei. }
           destruct (String.eqb ch t) eqn:Ech; [|apply Ok_ensures; split; auto].
           apply String.eqb_eq in Ech. subst ch.
           unfold GLL.getNodeT.
           set (zk := (GLL.TStr t, GLL.c_cur_idx c, GLL.c_cur_idx c + 1)).
           destruct (find_or_create_shape (GLL.c_parser c) zk Hok)
             as (Hok0 & Hin0 & Hm0).
           { intros p'. unfold zk, node_shape. split; [lia|].
             right. left. auto. }
           set (p0 := GLL.sppf_find_or_create (GLL.c_parser c) zk) in *.
           apply bind_ensures
             with (Q1 := fun r => sppf_ok g nl inp (snd r) /\
                                  in_store (snd r) (fst r) /\
                                  forall k, in_store p0 k -> in_store (snd r) k).
           ++ apply (getNodeP_shape p0 X n (pos + 1) (t0 :: rule')
                       (GLL.c_cur_sppf_node c) zk
                       (snd (GLL.c_stack_top c)) (GLL.c_cur_idx c + 1));
                auto; [lia|].
              left. split; [lia|]. exists t, (GLL.c_cur_idx c).
              split; [exact Hn1|]. split; [exact Hw1|].
              split; [exact Hone | reflexivity].
           ++ intros r (B1 & B2 & B3). apply Ok_ensures.
              split; cbn [GLL.c_parser GLL.c_cur_sppf_node]; auto.
      * destruct (Nat.eqb pos (List.length (t0 :: rule'))) eqn:Ep;
          [|apply Raise_ensures].
        apply Ok_ensures. split; auto.
Qed.

Lemma initial_shape :
  GLL.get_nullable g = Ok nl ->
  ensures (GLL.initial_config g text start) (config_sppf_ok g nl inp).
Proof.
  intros Hnl. unfold GLL.initial_config, GLL.set_grammar.
  rewrite Hnl. cbn [bind]. apply Ok_ensures.
  set (p0 := GLL.mkP _ _ _ _ _ _ _ _ _ _ _).
  assert (Hlook : forall k,
             GLL.assoc GLL.sppf_key_eqb
               (GLL.SPPF_nodes (GLL.sppf_find_or_create p0 GLL.end_rule)) k
             = if GLL.sppf_key_eqb k GLL.end_rule
               then Some (GLL.mkNode 1 []) else None).
  { intros k. reflexivity. }
  assert (He : in_store (GLL.sppf_find_or_create p0 GLL.end_rule) GLL.end_rule).
  { apply in_store_created. }
  split; [|exact He]. cbn [GLL.c_parser].
  split; [reflexivity|]. split; [reflexivity|]. split.
  - intros k nd H. rewrite Hlook in H.
    destruct (GLL.sppf_key_eqb k GLL.end_rule) eqn:E; [|discriminate].
    apply sppf_key_eqb_eq in E. subst k. inversion H; subst nd.
    unfold GLL.end_rule, node_shape. split; [lia | left; auto].
  - split; [exact He|]. split; [|split; [|split]].
    + intros i us L u w Hn Hin. exfalso.
      unfold p0, GLL.initialize in Hn. simpl in Hn.
      apply nth_error_repeat_nil in Hn. subst us. destruct Hin.
    + intros L u i w [].
    + intros v u w Hin. exfalso. revert Hin.
      unfold GLL.gss_children, p0, GLL.initialize. simpl.
      destruct (GLL.gss_label_eqb v GLL.stack_bottom); intros [].
    + intros v z Hin. exfalso. revert Hin.
      unfold GLL.parsed_indexes, p0, GLL.initialize. simpl.
      destruct (GLL.gss_label_eqb v GLL.stack_bottom); intros [].
Qed.

Lemma run_shape :
  forall fuel c p,
    cinv g start text nl c -> config_sppf_ok g nl inp c ->
    GLL.run fuel g start c = Some (Ok (GLL.ReturnParser p)) ->
    sppf_shape g nl inp p /\
    GLL.root p = Some (GLL.TStr start, 0, String.length text) /\
    in_store p (GLL.TStr start, 0, String.length text).
Proof.
  induction fuel as [|fuel IH]; intros c p Hc Hs H; simpl in H;
    [discriminate|].
  destruct (GLL.step g start c) as [[c'|o']|e] eqn:E; [| |discriminate].
  - apply (IH c' p); [| |exact H].
    + exact (step_cinv g start text nl Hwf Hsym Hfree c Hc (inl c') E).
    + exact (step_shape c Hc Hs (inl c') E).
  - inversion H; subst o'. exact (step_shape c Hc Hs _ E).
Qed.

(** The SPPF of the parser object that [recognize_on] returns. *)
Lemma recognize_shape fuel alts p :
  GLL.get_nullable g = Ok nl -> lookup g start = Some alts ->
  GLL.recognize_on fuel g text start = Some (Ok (GLL.ReturnParser p)) ->
  sppf_shape g nl inp p /\
  GLL.root p = Some (GLL.TStr start, 0, String.length text) /\
  in_store p (GLL.TStr start, 0, String.length text).
Proof.
  intros Hnl Hstart H. apply gll_recognize_on_source in H.
  destruct H as [_ H]. unfold GLL.generated_recognize_on in H.
  destruct (GLL.initial_config g text start) as [c|e] eqn:Ec; [|discriminate].
  apply (run_shape fuel c p); [| |exact H].
  - exact (initial_cinv g start text nl Hwf alts Hnl Hstart c Ec).
  - exact (initial_shape Hnl c Ec).
Qed.

End GLLShapeOps.


(** ** The trees of [EnhancedExtractor] ([GLL.py]) *)

Lemma seg_cat (toks : list string) a b c :
  a <= b -> b <= c -> seg toks a b ++ seg toks b c = seg toks a c.
Proof.
  intros Hab Hbc. unfold seg.
  replace (c - a) with ((b - a) + (c - b)) by lia.
  rewrite firstn_plus. f_equal. rewrite skipn_skipn.
  now replace (b - a + a) with b by lia.
Qed.

Lemma inner_nonempty_node g key cs :
  inner_nonempty g (Node key cs) <->
  (lookup g key <> None -> cs <> []) /\ Forall (inner_nonempty g) cs.
Proof.
  simpl.
  assert (H : (fix all (l : list tree) : Prop :=
                 match l with
                 | [] => True
                 | c :: l' => inner_nonempty g c /\ all l'
                 end) cs <-> Forall (inner_nonempty g) cs).
  { induction cs as [|c cs IH].
    - split; [constructor | auto].
    - split.
      + intros [H1 H2]. constructor; [exact H1 | now apply IH].
      + intros H. inversion H; subst. split; [assumption | now apply IH]. }
  tauto.
Qed.

Lemma trees_cover_app g inp ts1 ts2 alpha beta j k i :
  trees_cover g inp ts1 alpha j k -> trees_cover g inp ts2 beta k i ->
  j <= k -> k <= i ->
  trees_cover g inp (ts1 ++ ts2) (alpha ++ beta) j i.
Proof.
  intros (A1 & A2 & A3 & A4 & A5) (B1 & B2 & B3 & B4 & B5) Hjk Hki.
  unfold trees_cover. rewrite map_app, flat_map_app, A1, B1, A5, B5.
  repeat (split; [try reflexivity; apply Forall_app; auto|]).
  now apply seg_cat.
Qed.

Lemma slot_tag_cases g X n d rule :
  rule_at g X n = Some rule -> d <= List.length rule ->
  (d = List.length rule /\ slot_tag g X n d = GLL.TStr X) \/
  (d < List.length rule /\ slot_tag g X n d = GLL.TSlot X n d).
Proof.
  intros Hr Hd. unfold slot_tag. rewrite Hr.
  destruct (skipn d rule) as [|b beta] eqn:Es.
  - left. split; [|reflexivity].
    assert (H : List.length (skipn d rule) = 0) by (now rewrite Es).
    rewrite length_skipn in H. lia.
  - right. split; [|reflexivity].
    destruct (Nat.lt_ge_cases d (List.length rule)); [assumption|].
    rewrite skipn_all2 in Es by lia. discriminate.
Qed.

Section GLLExtract.

Variable g : grammar.
Variable text : string.
Variable nl : list symbol.
Variable p : GLL.GLLStructuredStackP.

Hypothesis Hwf : wf_grammar g.
Hypothesis Hfree : dollar_free g.

#[warnings="-notation-for-abbreviation"]
Local Notation inp := (tokens_of (text ++ "$")).

Hypothesis Hshape : sppf_shape g nl inp p.

Lemma canon_cases X n d rule j k :
  rule_at g X n = Some rule -> 0 < d -> d < List.length rule ->
  (exists a, canon g nl X n d j k = (GLL.TStr a, j, k) /\
             firstn d rule = [a] /\ a <> "$") \/
  canon g nl X n d j k = (GLL.TSlot X n d, j, k).
Proof.
  intros Hr Hd Hlt.
  assert (Hslot : slot_tag g X n d = GLL.TSlot X n d).
  { destruct (slot_tag_cases g X n d rule Hr) as [[H _] | [_ H]]; [lia|lia|auto]. }
  unfold canon. destruct d as [|d']; [lia|]. rewrite Hr, Hslot.
  destruct (nn_alpha nl (firstn (S d') rule)) as [[|]|] eqn:Enn; auto.
  destruct (skipn (S d') rule) eqn:Es; auto.
  left. destruct (nn_alpha_singleton _ _ Enn) as [a Ha].
  destruct rule as [|a0 rule']; [discriminate|].
  exists a0. simpl nth. split; [reflexivity|].
  assert (a = a0) by (simpl in Ha; now inversion Ha). subst a.
  split; [exact Ha|]. intros ->.
  apply (Hfree X n ("$" :: rule') Hr). now left.
Qed.

Lemma cover_leaf x j :
  is_nt x = Ok false -> nth_error inp j = Some x ->
  trees_cover g inp [Node x []] [x] j (j + 1).
Proof.
  intros Hnt Htok. unfold trees_cover.
  split; [reflexivity|]. split.
  { constructor; [|constructor]. simpl.
    now rewrite (terminal_not_key g Hwf x Hnt). }
  split.
  { constructor; [|constructor]. simpl. now rewrite Hnt. }
  split.
  { constructor; [|constructor]. apply inner_nonempty_node.
    split; [|constructor]. intros H. exfalso. apply H.
    now apply (terminal_not_key g Hwf). }
  simpl. rewrite Hnt. simpl. symmetry. now apply seg_one.
Qed.

Lemma cover_node x n rule ts j i :
  rule_at g x n = Some rule -> rule <> [] ->
  trees_cover g inp ts rule j i ->
  trees_cover g inp [Node x ts] [x] j i.
Proof.
  intros Hr Hne (A1 & A2 & A3 & A4 & A5).
  destruct (rule_at_In g x n rule Hr) as (alts & Hl & Hin).
  assert (Hnt : is_nt x = Ok true) by (eapply key_is_nt; eauto).
  unfold trees_cover.
  split; [reflexivity|]. split.
  { constructor; [|constructor].
    apply (tree_derivation_node g x alts ts Hl). now rewrite A1. }
  split.
  { constructor; [|constructor]. now apply tree_ok_node. }
  split.
  { constructor; [|constructor]. apply inner_nonempty_node.
    split; [|exact A4]. intros _ ->. simpl in A1. congruence. }
  simpl. rewrite app_nil_r. rewrite <- A5.
  change (leaves (Node x ts) = flat_map leaves ts). now apply leaves_node.
Qed.

(** What [extract_a_node] returns for a node of the SPPF. *)
Lemma gll_extract_a_node_sound :
  forall depth cs key seen choices v c' cs',
    in_store p key ->
    GLLExtractor.extract_a_node p depth cs key seen choices
    = Ok (Some v, c', cs') ->
    extracted g inp key v.
Proof.
  induction depth as [|depth IH]; intros cs key seen choices v c' cs' Hin H;
    [discriminate|].
  cbn [GLLExtractor.extract_a_node] in H.
  destruct key as [[t j] i].
  assert (Hnode : exists nd,
             GLL.assoc GLL.sppf_key_eqb (GLL.SPPF_nodes p) (t, j, i) = Some nd).
  { unfold in_store in Hin.
    destruct (GLL.assoc GLL.sppf_key_eqb (GLL.SPPF_nodes p) (t, j, i)) as [nd|];
      [eauto | congruence]. }
  destruct Hnode as [nd Hnd].
  pose proof (Hshape _ _ Hnd) as Hs.
  assert (Hch : GLL.node_children p (t, j, i) = GLL.children nd).
  { unfold GLL.node_children. now rewrite Hnd. }
  rewrite Hch in H. unfold node_shape in Hs. destruct Hs as [Hji Hs].
  assert (Hdesc : forall X n d k cur nc cs1 (kk : GLLExtractor.partial -> result GLLExtractor.partial),
             in_store p (GLL.TPacked X n d k, j, i) ->
             cur = (GLL.TPacked X n d k, j, i) ->
             match GLLExtractor.node_nid p cur with
             | Some id =>
                 if existsb (Nat.eqb id) seen
                 then Ok (None, nc, cs1)
                 else
                   r0 <- GLLExtractor.extract_a_node p depth cs1 cur
                           (id :: seen) nc;;
                   match r0 with
                   | (Some n0, newer_choices, cs2) =>
                       n' <- kk n0;; Ok (Some n', newer_choices, cs2)
                   | (None, newer_choices, cs2) =>
                       Ok (None, newer_choices, cs2)
                   end
             | None => Raise KeyError
             end = Ok (Some v, c', cs') ->
             exists n0 rule,
               kk n0 = Ok v /\ fst n0 = None /\
               rule_at g X n = Some rule /\ 0 < d /\ d <= List.length rule /\
               j < i /\
               trees_cover g inp (snd n0) (firstn d rule) j i).
  { intros X n d k cur nc cs1 kk Hst -> Hres.
    destruct (GLLExtractor.node_nid p (GLL.TPacked X n d k, j, i)) as [id|];
      [|discriminate].
    destruct (existsb (Nat.eqb id) seen); [discriminate|].
    destruct (GLLExtractor.extract_a_node p depth cs1 (GLL.TPacked X n d k, j, i)
                (id :: seen) nc) as [[[n0 nc2] cs2]|e] eqn:En;
      cbn [bind] in Hres; [|discriminate].
    destruct n0 as [n0|]; [|discriminate].
    pose proof (IH _ _ _ _ _ _ _ Hst En) as Hex. unfold extracted in Hex.
    destruct Hex as (Hfst & rule & Hr & Hd0 & Hdle & Hlt & Hcov).
    destruct (kk n0) as [v0|e] eqn:Ek; cbn [bind] in Hres; [|discriminate].
    inversion Hres; subst v0. exists n0, rule. auto 10. }
  destruct t as [|x|X n d|X n d k].
  - (* the epsilon node *)
    cbn in H. inversion H; subst v. reflexivity.
  - unfold GLL.class_of in H. cbn [fst] in H. unfold extracted.
    destruct (String.eqb x "$") eqn:Ex.
    + apply String.eqb_eq in Ex. inversion H; subst v. left. auto.
    + assert (Hx : x <> "$").
      { intros ->. rewrite String.eqb_refl in Ex. discriminate. }
      right. split; [exact Hx|].
      destruct Hs as [(Hs & _) | [(Hnt & Hnil & Htok & Hi)
                                 | (Hnt & Hne & Hnodup & Hall)]];
        [contradiction| |].
      * rewrite Hnil in H. inversion H; subst v. cbn [fst snd].
        split; [reflexivity|]. subst i. split; [lia|]. now apply cover_leaf.
      * destruct (GLL.children nd) as [|s l] eqn:Ech; [congruence|].
        destruct (choose_path false (s :: l) cs choices)
          as [[[cur nc] cs1]|e] eqn:Ecp; cbn [bind] in H; [|discriminate].
        destruct cur as [cur|]; [|discriminate].
        assert (Hcur : In cur (s :: l)) by (eapply choose_path_In; eauto).
        rewrite Forall_forall in Hall.
        destruct (Hall cur Hcur) as (X & n & d & k & Hceq & Htag & Hst).
        rewrite Hceq in Hst.
        destruct (Hdesc X n d k cur nc cs1 _ Hst Hceq H)
          as (n0 & rule & Hk & Hfst & Hr & Hd0 & Hdle & Hlt & Hcov).
        rewrite Hfst in Hk. inversion Hk; subst v. cbn [fst snd].
        split; [reflexivity|]. split; [exact Hlt|].
        destruct (slot_tag_cases g X n d rule Hr Hdle) as [[Hd Ht] | [Hd Ht]];
          rewrite Ht in Htag; [|discriminate].
        inversion Htag; subst X. rewrite Hd, firstn_all in Hcov.
        apply (cover_node x n rule); auto.
        intros ->. simpl in Hd. lia.
  - (* an intermediate node *)
    cbn [GLL.class_of fst] in H. destruct Hs as (Hne & Hnodup & Hall).
    destruct (GLL.children nd) as [|s l] eqn:Ech; [congruence|].
    destruct (choose_path false (s :: l) cs choices)
      as [[[cur nc] cs1]|e] eqn:Ecp; cbn [bind] in H; [|discriminate].
    destruct cur as [cur|]; [|discriminate].
    assert (Hcur : In cur (s :: l)) by (eapply choose_path_In; eauto).
    rewrite Forall_forall in Hall.
    destruct (Hall cur Hcur) as (X' & n' & d' & k & Hceq & Htag & Hst).
    rewrite Hceq in Hst.
    destruct (Hdesc X' n' d' k cur nc cs1 (fun n0 => Ok (None, snd n0))
                Hst Hceq H)
      as (n0 & rule & Hk & Hfst & Hr & Hd0 & Hdle & Hlt & Hcov).
    inversion Hk; subst v. unfold extracted. cbn [fst snd].
    split; [reflexivity|].
    destruct (slot_tag_cases g X' n' d' rule Hr Hdle) as [[Hd Ht] | [Hd Ht]];
      rewrite Ht in Htag; [discriminate|].
    inversion Htag; subst X' n' d'. exists rule. auto.
  - (* a packed node *)
    cbn [GLL.class_of fst] in H.
    assert (Hgen : forall ns ret ch cs0,
              (forall n0, In n0 ns -> in_store p n0) ->
              (fix over_children
                   (ns : list GLL.sppf_key) (ret : list tree)
                   (choices : nat) (cs : cstore) {struct ns} :
                 result (option GLLExtractor.partial * nat * cstore) :=
                 match ns with
                 | [] => Ok (Some (None, ret), choices, cs)
                 | n :: ns' =>
                     r <- GLLExtractor.extract_a_node p depth cs n seen choices;;
                     match r with
                     | (Some (key, chs), new_choices, cs') =>
                         match GLL.class_of n with
                         | GLL.SPPF_symbol_node =>
                             match key with
                             | Some x =>
                                 over_children ns' (ret ++ [Node x chs])
                                               new_choices cs'
                             | None => Raise AssertionError
                             end
                         | _ =>
                             match key with
                             | Some _ => Raise AssertionError
                             | None =>
                                 over_children ns' (ret ++ chs) new_choices cs'
                             end
                         end
                     | (None, new_choices, cs') => Ok (None, new_choices, cs')
                     end
                 end) ns ret ch cs0 = Ok (Some v, c', cs') ->
              exists parts,
                v = (None, ret ++ List.concat parts) /\
                Forall2
                  (fun n0 part =>
                     exists kv,
                       extracted g inp n0 kv /\
                       match GLL.class_of n0 with
                       | GLL.SPPF_symbol_node =>
                           exists x, fst kv = Some x /\ part = [Node x (snd kv)]
                       | _ => fst kv = None /\ part = snd kv
                       end) ns parts).
    { induction ns as [|n0 ns IHns]; intros ret ch cs0 Hst Hres.
      - inversion Hres; subst v. exists []. simpl. rewrite app_nil_r.
        split; [reflexivity | constructor].
      - destruct (GLLExtractor.extract_a_node p depth cs0 n0 seen ch)
          as [[[r nc] cs1]|e] eqn:En; cbn [bind] in Hres; [|discriminate].
        destruct r as [[key chs]|]; [|discriminate].
        pose proof (IH _ _ _ _ _ _ _ (Hst n0 (or_introl eq_refl)) En) as Hex.
        assert (Hst' : forall n1, In n1 ns -> in_store p n1).
        { intros n1 Hn1. apply Hst. now right. }
        destruct (GLL.class_of n0) eqn:Ecl; destruct key as [x|];
          try discriminate;
          destruct (IHns _ _ _ Hst' Hres) as (parts & Hv & Hf2).
        + exists (chs :: parts). simpl. rewrite Hv, <- app_assoc.
          split; [reflexivity|]. constructor; [|exact Hf2].
          exists (None, chs). rewrite Ecl. auto.
        + exists ([Node x chs] :: parts). simpl. rewrite Hv, <- app_assoc.
          split; [reflexivity|]. constructor; [|exact Hf2].
          exists (Some x, chs). rewrite Ecl. split; [exact Hex|].
          exists x. auto.
        + exists (chs :: parts). simpl. rewrite Hv, <- app_assoc.
          split; [reflexivity|]. constructor; [|exact Hf2].
          exists (None, chs). rewrite Ecl. auto.
        + exists (chs :: parts). simpl. rewrite Hv, <- app_assoc.
          split; [reflexivity|]. constructor; [|exact Hf2].
          exists (None, chs). rewrite Ecl. auto. }
    destruct Hs as (rule & Hr & Hdle & Hs).
    assert (Hsym : forall Y a b (kv : GLLExtractor.partial) part,
               Y <> "$" ->
               extracted g inp (GLL.TStr Y, a, b) kv ->
               match GLL.class_of (GLL.TStr Y, a, b) with
               | GLL.SPPF_symbol_node =>
                   exists x, fst kv = Some x /\ part = [Node x (snd kv)]
               | _ => fst kv = None /\ part = snd kv
               end ->
               a < b /\ trees_cover g inp part [Y] a b).
    { intros Y a b kv part HY Hex Hc. unfold GLL.class_of in Hc. cbn [fst] in Hc.
      destruct (String.eqb Y "$") eqn:E.
      { apply String.eqb_eq in E. contradiction. }
      destruct Hc as (x & Hx & ->). unfold extracted in Hex.
      destruct Hex as [(Hex & _) | (_ & Hf & Hlt & Hcov)]; [contradiction|].
      rewrite Hf in Hx. inversion Hx; subst x. auto. }
    assert (Hstc : forall n0, In n0 (GLL.children nd) -> in_store p n0).
    { destruct Hs as [(Hd0 & Hrnil & Hki0 & Hji0 & Hest & Hchs)
                     | (Y & Hd0 & HY & HYd & Hzst & Hki
                        & [(Hd1 & Hjk & Hchs) | (Hd1 & Hjk & Hwst & Hchs)])];
        rewrite Hchs.
      - intros n0 [<- | []]. exact Hest.
      - intros n0 [<- | []]. exact Hzst.
      - intros n0 [<- | [<- | []]]; assumption. }
    apply Hgen in H; [|exact Hstc]. destruct H as (parts & Hv & Hf2).
    destruct Hs as [(Hd0 & Hrnil & Hki0 & Hji0 & Hest & Hchs)
                   | (Y & Hd0 & HY & HYd & Hzst & Hki
                      & [(Hd1 & Hjk & Hchs) | (Hd1 & Hjk & Hwst & Hchs)])];
      rewrite Hchs in Hf2.
    + inversion Hf2 as [|n0 part ns ps (kv & Hex & Hc) Hrest]; subst.
      unfold extracted in Hex. cbn in Hc. destruct Hc as [Hc _]. congruence.
    + inversion Hf2 as [|n0 part ns ps (kv & Hex & Hc) Hrest]; subst.
      inversion Hrest; subst.
      pose proof (Hsym Y k i kv part HYd Hex Hc) as [Hlt Hcov].
      unfold extracted. simpl in HY. cbn [fst snd]. split; [reflexivity|].
      exists rule. split; [exact Hr|]. split; [lia|]. split; [exact Hdle|].
      split; [exact Hlt|].
      cbn [app List.concat]. rewrite app_nil_r.
      rewrite (firstn_pred_nth rule 1 Y) by (auto; lia). exact Hcov.
    + inversion Hf2 as [|n0 pw ns ps (kvw & Hexw & Hcw) Hrest]; subst.
      inversion Hrest as [|n1 pz ns1 ps1 (kvz & Hexz & Hcz) Hrest']; subst.
      inversion Hrest'; subst.
      pose proof (Hsym Y k i kvz pz HYd Hexz Hcz) as [Hltz Hcovz].
      assert (Hcovw : trees_cover g inp pw (firstn (d - 1) rule) j k).
      { destruct (canon_cases X n (d - 1) rule j k Hr) as [(a & Hc & Hf & Ha) | Hc];
          [lia | lia | |]; rewrite Hc in Hexw, Hcw.
        - rewrite Hf. exact (proj2 (Hsym a j k kvw pw Ha Hexw Hcw)).
        - cbn in Hcw. destruct Hcw as [_ ->]. unfold extracted in Hexw.
          destruct Hexw as (_ & rule' & Hr' & _ & _ & _ & Hcov).
          rewrite Hr in Hr'. inversion Hr'; subst rule'. exact Hcov. }
      unfold extracted. cbn [fst snd]. split; [reflexivity|].
      exists rule. split; [exact Hr|]. split; [lia|]. split; [exact Hdle|].
      split; [lia|].
      cbn [app List.concat]. rewrite app_nil_r.
      rewrite (firstn_pred_nth rule d Y) by (auto; lia).
      now apply (trees_cover_app g inp pw pz _ _ j k i).
Qed.

Lemma gll_extract_a_tree_sound r :
  GLL.root p = Some r -> in_store p r ->
  forall fuel depth cs v cs',
    GLLExtractor.extract_a_tree p fuel depth cs = Some (Ok (Some v, cs')) ->
    extracted g inp r v.
Proof.
  intros Hroot Hin. induction fuel as [|fuel IH]; intros depth cs v cs' H;
    [discriminate|].
  cbn [GLLExtractor.extract_a_tree] in H.
  destruct (nth_error cs 0) as [rt|]; [|discriminate].
  destruct (c_finished rt); [discriminate|].
  rewrite Hroot in H.
  destruct (GLLExtractor.extract_a_node p depth cs r [] 0)
    as [[[pt ch] cs1]|e] eqn:En; [|discriminate].
  destruct pt as [t0|].
  - inversion H; subst. eapply gll_extract_a_node_sound; eauto.
  - eapply IH; eauto.
Qed.

End GLLExtract.

(** What [extract_a_tree] returns for the parser object of
    [recognize_on]. *)
Lemma gll_extract_root (g : grammar) (start : symbol) (text : string)
    (fuel : nat) (p : GLL.GLLStructuredStackP) (n depth : nat)
    (cs cs' : cstore) (v : GLLExtractor.partial) :
  wf_grammar g -> symbols_ok g -> dollar_free g -> lookup g start <> None ->
  GLL.recognize_on fuel g text start = Some (Ok (GLL.ReturnParser p)) ->
  GLLExtractor.extract_a_tree p n depth cs = Some (Ok (Some v, cs')) ->
  fst v = Some start /\ 0 < String.length text /\
  trees_cover g (tokens_of (text ++ "$")) [Node start (snd v)] [start]
              0 (String.length text).
Proof.
  intros Hwf Hsym Hfree Hstart Hrec Hex.
  destruct (lookup g start) as [alts|] eqn:Hl; [|congruence].
  assert (Hnl : exists nl, GLL.get_nullable g = Ok nl).
  { destruct (gll_recognize_on_source g fuel text start _ Hrec) as [_ Hgen].
    unfold GLL.generated_recognize_on, GLL.initial_config, GLL.set_grammar
      in Hgen.
    destruct (GLL.get_nullable g) as [nl|e]; [eauto|].
    cbn [bind] in Hgen. discriminate. }
  destruct Hnl as [nl Hnl].
  destruct (recognize_shape g start text nl Hwf Hsym Hfree fuel alts p Hnl Hl Hrec)
    as (Hshape & Hroot & Hin).
  pose proof (gll_extract_a_tree_sound g text nl p Hwf Hfree Hshape _ Hroot Hin
                n depth cs v cs' Hex) as He.
  unfold extracted in He.
  destruct He as [(He & _) | (_ & Hf & Hlt & Hcov)]; [|auto].
  exfalso. eapply key_not_dollar; eauto.
Qed.

(** X16.  The trees of the GLL [EnhancedExtractor] are derivation trees
    of the input.  For a grammar whose keys are distinct nonterminals,
    whose alternatives use non-empty symbols other than ['$'], every
    nonterminal among them being a key, and that [exec] compiles as
    meant ([GLL.source_ok]: symbols of printable ASCII characters,
    without the backslash and the quotes that end their literals, and at
    most 400 branches in the generated chain): when [recognize_on(text,
    start)] has returned the parser object, a tree that
    [extract_a_tree()] returns for it, whatever the state of the choice
    records, has the start symbol at its root, expands every nonterminal
    by one of its alternatives, and is flattened by [tree_to_str] to
    [text]. *)
Theorem gll_extractor_sound
    (g : grammar) (start : symbol) (text : string) (fuel : nat)
    (p : GLL.GLLStructuredStackP) (n depth : nat) (cs cs' : cstore)
    (v : GLLExtractor.partial) :
  wf_grammar g -> symbols_ok g -> dollar_free g ->
  GLL.source_ok g = true -> lookup g start <> None ->
  GLL.recognize_on fuel g text start = Some (Ok (GLL.ReturnParser p)) ->
  GLLExtractor.extract_a_tree p n depth cs = Some (Ok (Some v, cs')) ->
  exists children,
    v = (Some start, children) /\
    tree_derivation g (Node start children) /\
    tree_to_str (Node start children) = Ok text.
Proof.
  intros Hwf Hsym Hfree Hsrc Hstart Hrec Hex.
  destruct (gll_extract_root g start text fuel p n depth cs cs' v
              Hwf Hsym Hfree Hstart Hrec Hex)
    as (Hf & _ & (_ & A2 & A3 & _ & A5)).
  destruct v as [key children]. cbn [fst snd] in Hf, A2, A3, A5. subst key.
  exists children. split; [reflexivity|].
  inversion A2; subst. inversion A3; subst.
  split; [assumption|].
  rewrite (tree_to_str_leaves (Node start children)) by assumption.
  f_equal. cbn [flat_map] in A5. rewrite app_nil_r in A5. rewrite A5.
  rewrite seg_input_text. apply concat_tokens_of.
Qed.

Lemma gll_extractor_sound_witness :
  exists children,
    (Some "<S>", [Node "a" []]) = (Some "<S>", children) /\
    tree_derivation dup_grammar (Node "<S>" children) /\
    tree_to_str (Node "<S>" children) = Ok "a".
Proof.
  eapply (gll_extractor_sound dup_grammar "<S>" "a" 60 _ 5 10
            GLLExtractor.new_extractor _ (Some "<S>", [Node "a" []])).
  - exact dup_grammar_wf.
  - exact dup_grammar_symbols_ok.
  - exact dup_grammar_dollar_free.
  - reflexivity.
  - discriminate.
  - vm_compute. reflexivity.
  - vm_compute. reflexivity.
Defined.

(** X17.  The GLL [EnhancedExtractor] returns no tree that uses an empty
    alternative.  Under the same conditions, no node of a tree that
    [extract_a_tree()] returns is labelled with a key of the grammar and
    without children, and a tree is returned for a non-empty [text]
    only: a packed node over the epsilon node ends [extract_a_node]
    with [AssertionError]. *)
Theorem gll_extractor_skips_empty_alternatives
    (g : grammar) (start : symbol) (text : string) (fuel : nat)
    (p : GLL.GLLStructuredStackP) (n depth : nat) (cs cs' : cstore)
    (v : GLLExtractor.partial) :
  wf_grammar g -> symbols_ok g -> dollar_free g -> lookup g start <> None ->
  GLL.recognize_on fuel g text start = Some (Ok (GLL.ReturnParser p)) ->
  GLLExtractor.extract_a_tree p n depth cs = Some (Ok (Some v, cs')) ->
  inner_nonempty g (Node start (snd v)) /\ text <> "".
Proof.
  intros Hwf Hsym Hfree Hstart Hrec Hex.
  destruct (gll_extract_root g start text fuel p n depth cs cs' v
              Hwf Hsym Hfree Hstart Hrec Hex)
    as (_ & Hlen & (_ & _ & _ & A4 & _)).
  split.
  - inversion A4; subst. assumption.
  - intros ->. simpl in Hlen. lia.
Qed.

Lemma gll_extractor_skips_empty_alternatives_witness :
  inner_nonempty dup_grammar (Node "<S>" [Node "a" []]) /\ "a" <> "".
Proof.
  eapply (gll_extractor_skips_empty_alternatives dup_grammar "<S>" "a" 60 _ 5 10
            GLLExtractor.new_extractor _ (Some "<S>", [Node "a" []])).
  - exact dup_grammar_wf.
  - exact dup_grammar_symbols_ok.
  - exact dup_grammar_dollar_free.
  - discriminate.
  - vm_compute. reflexivity.
  - vm_compute. reflexivity.
Defined.


(** ** The tree of [to_tree] ([GLL.py]) *)

Lemma choice_In {A : Type} (arr : list A) rnd n rnd' :
  GLLTree.choice arr rnd = (Some n, rnd') -> In n arr.
Proof.
  unfold GLLTree.choice. destruct rnd as [|r rnd0]; intros H.
  - assert (H1 : nth_error arr 0 = Some n) by congruence.
    eapply nth_error_In; exact H1.
  - assert (H1 : nth_error arr (r mod List.length arr) = Some n) by congruence.
    eapply nth_error_In; exact H1.
Qed.

Lemma trees_span_app g inp ts1 ts2 alpha beta j k i :
  trees_span g inp ts1 alpha j k -> trees_span g inp ts2 beta k i ->
  j <= k -> k <= i ->
  trees_span g inp (ts1 ++ ts2) (alpha ++ beta) j i.
Proof.
  intros (A1 & A2 & A3 & A5) (B1 & B2 & B3 & B5) Hjk Hki.
  unfold trees_span. rewrite map_app, flat_map_app, A1, B1, A5, B5.
  repeat (split; [try reflexivity; apply Forall_app; auto|]).
  now apply seg_cat.
Qed.

Section GLLToTree.

Variable g : grammar.
Variable text : string.
Variable nl : list symbol.
Variable p : GLL.GLLStructuredStackP.

Hypothesis Hwf : wf_grammar g.
Hypothesis Hfree : dollar_free g.

#[warnings="-notation-for-abbreviation"]
Local Notation inp := (tokens_of (text ++ "$")).

Hypothesis Hshape : sppf_shape g nl inp p.

Lemma span_leaf x j :
  is_nt x = Ok false -> nth_error inp j = Some x ->
  trees_span g inp [Node x []] [x] j (j + 1).
Proof.
  intros Hnt Htok. unfold trees_span.
  split; [reflexivity|]. split.
  { constructor; [|constructor]. simpl.
    now rewrite (terminal_not_key g Hwf x Hnt). }
  split.
  { constructor; [|constructor]. simpl. now rewrite Hnt. }
  simpl. rewrite Hnt. simpl. symmetry. now apply seg_one.
Qed.

Lemma span_node x n rule ts j i :
  rule_at g x n = Some rule ->
  trees_span g inp ts rule j i ->
  trees_span g inp [Node x ts] [x] j i.
Proof.
  intros Hr (A1 & A2 & A3 & A5).
  destruct (rule_at_In g x n rule Hr) as (alts & Hl & Hin).
  assert (Hnt : is_nt x = Ok true) by (eapply key_is_nt; eauto).
  unfold trees_span.
  split; [reflexivity|]. split.
  { constructor; [|constructor].
    apply (tree_derivation_node g x alts ts Hl). now rewrite A1. }
  split.
  { constructor; [|constructor]. now apply tree_ok_node. }
  simpl. rewrite app_nil_r. rewrite <- A5.
  change (leaves (Node x ts) = flat_map leaves ts). now apply leaves_node.
Qed.

Lemma stored_shape key :
  in_store p key ->
  exists nd,
    GLL.node_children p key = GLL.children nd /\
    node_shape g nl inp p key (GLL.children nd).
Proof.
  intros Hin. unfold in_store in Hin. unfold GLL.node_children.
  destruct (GLL.assoc GLL.sppf_key_eqb (GLL.SPPF_nodes p) key) as [nd|] eqn:E;
    [|congruence].
  exists nd. split; [reflexivity|]. now apply Hshape.
Qed.

Lemma packed_child_slot t j i c :
  packed_child g p t j i c ->
  exists X n d k rule,
    c = (GLL.TPacked X n d k, j, i) /\ in_store p c /\
    rule_at g X n = Some rule /\ d <= List.length rule /\
    ((d = List.length rule /\ t = GLL.TStr X) \/
     (d < List.length rule /\ t = GLL.TSlot X n d)).
Proof.
  intros (X & n & d & k & -> & Htag & Hst).
  destruct (stored_shape _ Hst) as (nd & _ & Hs).
  unfold node_shape in Hs. destruct Hs as [_ (rule & Hr & Hd & _)].
  exists X, n, d, k, rule. repeat (split; [auto|]).
  rewrite <- Htag. now apply slot_tag_cases.
Qed.

Hypothesis Hsingle : single_packed p.

(** What [to_tree_] returns for a node of the SPPF. *)
Lemma to_tree__sound :
  forall depth key rnd ts rnd',
    in_store p key ->
    GLLTree.to_tree_ p depth key rnd = Ok (ts, rnd') ->
    tree_listed g inp key ts.
Proof.
  induction depth as [|depth IH]; intros key rnd ts rnd' Hin H;
    [discriminate|].
  cbn [GLLTree.to_tree_] in H.
  destruct (stored_shape key Hin) as (nd & Hch & Hs).
  rewrite Hch in H.
  destruct key as [[t j] i]. unfold node_shape in Hs. destruct Hs as [Hji Hs].
  destruct t as [|x|X n d|X n d k].
  - (* the epsilon node *)
    cbn [GLL.class_of fst] in H. rewrite Hs in H. simpl in H.
    inversion H. reflexivity.
  - unfold GLL.class_of in H. cbn [fst] in H. unfold tree_listed.
    destruct (String.eqb x "$") eqn:Ex.
    + apply String.eqb_eq in Ex. subst x. left. split; [reflexivity|].
      assert (Hnil : GLL.children nd = []).
      { destruct Hs as [(_ & Hs) | [(_ & Hs & _) | (Hs & _)]];
          [exact Hs | exact Hs | discriminate]. }
      rewrite Hnil in H. simpl in H. now inversion H.
    + assert (Hx : x <> "$").
      { intros ->. rewrite String.eqb_refl in Ex. discriminate. }
      right. split; [exact Hx|].
      destruct Hs as [(Hs & _) | [(Hnt & Hnil & Htok & Hi)
                                 | (Hnt & Hne & Hnodup & Hall)]];
        [contradiction| |].
      * rewrite Hnil in H. inversion H; subst. now apply span_leaf.
      * destruct (GLL.children nd) as [|s l] eqn:Ech; [congruence|].
        destruct (GLLTree.choice (s :: l) rnd) as [[c|] rnd1] eqn:Ec;
          [|discriminate].
        apply choice_In in Ec. rewrite Forall_forall in Hall.
        destruct (packed_child_slot _ _ _ _ (Hall c Ec))
          as (X & n & d & k & rule & -> & Hst & Hr & Hd & Hcase).
        destruct (GLLTree.to_tree_ p depth (GLL.TPacked X n d k, j, i) rnd1)
          as [[tc r1]|e] eqn:Et; cbn [bind] in H; [|discriminate].
        inversion H; subst. cbn [GLLExtractor.symbol_of fst].
        pose proof (IH _ _ _ _ Hst Et) as Hc. unfold tree_listed in Hc.
        destruct Hc as (rule' & Hr' & Hcov).
        rewrite Hr in Hr'. inversion Hr'; subst rule'.
        destruct Hcase as [[Hdl Ht] | [_ Ht]]; [|discriminate].
        inversion Ht; subst X. rewrite Hdl, firstn_all in Hcov.
        now apply (span_node x n rule).
  - (* an intermediate node *)
    cbn [GLL.class_of fst] in H. destruct Hs as (Hne & Hnodup & Hall).
    assert (Hone : exists c, GLL.children nd = [c]).
    { unfold in_store in Hin.
      destruct (GLL.assoc GLL.sppf_key_eqb (GLL.SPPF_nodes p)
                  (GLL.TSlot X n d, j, i)) as [nd0|] eqn:E; [|congruence].
      pose proof (Hsingle _ _ _ _ _ _ E) as Hlen.
      unfold GLL.node_children in Hch. rewrite E in Hch. rewrite Hch in Hlen.
      destruct (GLL.children nd) as [|c [|c' l]]; [congruence | eauto |].
      simpl in Hlen. lia. }
    destruct Hone as [c Hc]. rewrite Hc in H, Hall.
    cbn [fold_left bind fst snd] in H.
    rewrite Forall_forall in Hall.
    destruct (packed_child_slot _ _ _ _ (Hall c (or_introl eq_refl)))
      as (X' & n' & d' & k & rule & -> & Hst & Hr & Hd & Hcase).
    destruct (GLLTree.to_tree_ p depth (GLL.TPacked X' n' d' k, j, i) rnd)
      as [[tc r1]|e] eqn:Et; cbn [bind] in H; [|discriminate].
    inversion H; subst. cbn [fst app].
    pose proof (IH _ _ _ _ Hst Et) as Hcov. unfold tree_listed in Hcov.
    destruct Hcase as [[_ Ht] | [_ Ht]]; [discriminate|].
    inversion Ht; subst X' n' d'. exact Hcov.
  - (* a packed node *)
    cbn [GLL.class_of fst] in H.
    destruct Hs as (rule & Hr & Hdle & Hs).
    assert (Hsym : forall Y a b r0 tz r1,
               Y <> "$" -> in_store p (GLL.TStr Y, a, b) ->
               GLLTree.to_tree_ p depth (GLL.TStr Y, a, b) r0 = Ok (tz, r1) ->
               trees_span g inp tz [Y] a b).
    { intros Y a b r0 tz r1 HY Hst Ht.
      pose proof (IH _ _ _ _ Hst Ht) as Hc. unfold tree_listed in Hc.
      destruct Hc as [(Hc & _) | (_ & Hc)]; [contradiction | exact Hc]. }
    unfold tree_listed. exists rule. split; [exact Hr|].
    destruct Hs as [(Hd0 & Hrnil & Hki0 & Hji0 & Hest & Hchs)
                   | (Y & Hd0 & HY & HYd & Hzst & Hki
                      & [(Hd1 & Hjk & Hchs) | (Hd1 & Hjk & Hwst & Hchs)])];
      rewrite Hchs in H; cbn [fold_left bind fst snd] in H.
    + destruct (GLLTree.to_tree_ p depth (GLL.TNone, i, i) rnd)
        as [[te r1]|e] eqn:Et; cbn [bind] in H; [|discriminate].
      inversion H; subst. cbn [fst app].
      pose proof (IH _ _ _ _ Hest Et) as Hc. unfold tree_listed in Hc.
      rewrite Hc. unfold trees_span. simpl. rewrite seg_same. auto.
    + destruct (GLLTree.to_tree_ p depth (GLL.TStr Y, k, i) rnd)
        as [[tz r1]|e] eqn:Et; cbn [bind] in H; [|discriminate].
      pose proof (Hsym Y k i rnd tz r1 HYd Hzst Et) as Hcovz.
      inversion H; subst. cbn [fst app].
      rewrite (firstn_pred_nth rule 1 Y) by (auto; lia).
      exact Hcovz.
    + destruct (GLLTree.to_tree_ p depth (canon g nl X n (d - 1) j k) rnd)
        as [[tw r1]|e] eqn:Ew; cbn [bind fst snd] in H; [|discriminate].
      destruct (GLLTree.to_tree_ p depth (GLL.TStr Y, k, i) r1)
        as [[tz r2]|e] eqn:Et; cbn [bind] in H; [|discriminate].
      pose proof (Hsym Y k i r1 tz r2 HYd Hzst Et) as Hcovz.
      assert (Hcovw : trees_span g inp tw (firstn (d - 1) rule) j k).
      { pose proof (IH _ _ _ _ Hwst Ew) as Hc.
        destruct (canon_cases g nl Hfree X n (d - 1) rule j k Hr)
          as [(a & Hca & Hf & Ha) | Hca]; [lia | lia | |];
          rewrite Hca in Hc, Hwst, Ew.
        - rewrite Hf. exact (Hsym a j k rnd tw r1 Ha Hwst Ew).
        - unfold tree_listed in Hc. destruct Hc as (rule' & Hr' & Hcov).
          rewrite Hr in Hr'. inversion Hr'; subst rule'. exact Hcov. }
      inversion H; subst. cbn [fst app].
      rewrite (firstn_pred_nth rule d Y) by (auto; lia).
      now apply (trees_span_app g inp tw tz _ _ j k i).
Qed.

End GLLToTree.

(** [to_tree_] ends with the recursion limit, if it raises. *)
Lemma to_tree__raises p :
  forall depth key rnd e,
    GLLTree.to_tree_ p depth key rnd = Raise e ->
    e = RecursionError \/ e = IndexError.
Proof.
  induction depth as [|depth IH]; intros key rnd e H.
  - inversion H. now left.
  - cbn [GLLTree.to_tree_] in H.
    assert (Hfold : forall l acc,
              (forall e0, acc = Raise e0 ->
                          e0 = RecursionError \/ e0 = IndexError) ->
              fold_left
                (fun (acc : result (list tree * list nat)) (n : GLL.sppf_key) =>
                   a <- acc ;;
                   v <- GLLTree.to_tree_ p depth n (snd a) ;;
                   Ok (fst a ++ fst v, snd v)) l acc = Raise e ->
              e = RecursionError \/ e = IndexError).
    { induction l as [|n l IHl]; intros acc Hacc Hf; simpl in Hf.
      - now apply Hacc.
      - apply (fun Hq => IHl _ Hq Hf). intros e0 He0.
        destruct acc as [a|ea]; cbn [bind] in He0.
        + destruct (GLLTree.to_tree_ p depth n (snd a)) eqn:Et;
            cbn [bind] in He0; [discriminate|].
          inversion He0; subst. eapply IH; eauto.
        + inversion He0; subst. now apply Hacc. }
    assert (Hnil : forall e0, Ok (@nil tree, rnd) = Raise e0 ->
                              e0 = RecursionError \/ e0 = IndexError)
      by (intros e0 He0; discriminate).
    destruct (GLL.class_of key); try (exact (Hfold _ _ Hnil H)).
    destruct (GLL.node_children p key) as [|s l]; [discriminate|].
    destruct (GLLTree.choice (s :: l) rnd) as [[c|] r1];
      [|inversion H; now right].
    destruct (GLLTree.to_tree_ p depth c r1) eqn:Et; cbn [bind] in H;
      [discriminate|].
    inversion H; subst. eapply IH; eauto.
Qed.

(** The tree that [to_tree] returns for the root. *)
Lemma to_tree_root g text nl p start depth rnd t rnd' :
  wf_grammar g -> dollar_free g ->
  sppf_shape g nl (tokens_of (text ++ "$")) p -> single_packed p ->
  GLL.root p = Some (GLL.TStr start, 0, String.length text) ->
  in_store p (GLL.TStr start, 0, String.length text) ->
  lookup g start <> None ->
  GLLTree.to_tree p depth rnd = inl (t, rnd') ->
  tree_root t = start /\ tree_derivation g t /\ tree_to_str t = Ok text.
Proof.
  intros Hwf Hfree Hshape Hsingle Hroot Hin Hstart H.
  unfold GLLTree.to_tree in H. rewrite Hroot in H.
  destruct (GLL.assoc GLL.sppf_key_eqb (GLL.SPPF_nodes p)
              (GLL.TStr start, 0, String.length text)); [|discriminate].
  destruct (GLL.class_of (GLL.TStr start, 0, String.length text));
    try discriminate.
  destruct (GLLTree.to_tree_ p depth (GLL.TStr start, 0, String.length text) rnd)
    as [[ts r1]|e] eqn:Et; [|discriminate].
  destruct ts as [|t0 ts]; [discriminate|]. inversion H; subst t0 r1.
  pose proof (to_tree__sound g text nl p Hwf Hfree Hshape Hsingle
                depth _ rnd _ _ Hin Et) as Hc.
  unfold tree_listed in Hc.
  destruct Hc as [(Hc & _) | (_ & (A1 & A2 & A3 & A5))].
  { exfalso. subst start. destruct (lookup g "$") as [alts|] eqn:El;
      [|congruence].
    eapply key_not_dollar; eauto. }
  destruct ts as [|t1 ts]; [|discriminate].
  simpl in A1. inversion A1. inversion A2; subst. inversion A3; subst.
  split; [reflexivity|]. split; [assumption|].
  rewrite (tree_to_str_leaves t) by assumption.
  f_equal. cbn [flat_map] in A5. rewrite app_nil_r in A5. rewrite A5.
  rewrite seg_input_text. apply concat_tokens_of.
Qed.

(** With at most two symbols in every alternative, an intermediate
    node has one packed node. *)
Lemma binary_single_packed g text nl p :
  sppf_shape g nl (tokens_of (text ++ "$")) p ->
  (forall X alts alt, In (X, alts) g -> In alt alts -> List.length alt <= 2) ->
  single_packed p.
Proof.
  intros Hshape Hbin X n d j i node E.
  pose proof (Hshape _ _ E) as Hs. unfold node_shape in Hs.
  destruct Hs as (_ & _ & Hnodup & Hall).
  assert (Heq : forall c, In c (GLL.children node) ->
                          c = (GLL.TPacked X n 1 j, j, i)).
  { intros c Hc. rewrite Forall_forall in Hall.
    destruct (packed_child_slot g text nl p Hshape _ _ _ _ (Hall c Hc))
      as (X' & n' & d' & k & rule & -> & Hst & Hr & Hd & Hcase).
    destruct Hcase as [[_ Ht] | [Hlt Ht]]; [discriminate|].
    inversion Ht; subst X' n' d'.
    assert (Hlen : List.length rule <= 2).
    { destruct (rule_at_entry g X n rule Hr) as (alts & Hin & Hl & Hn).
      apply (Hbin X alts rule Hin). eapply nth_error_In; eauto. }
    destruct (stored_shape g text nl p Hshape _ Hst) as (nd & _ & Hs).
    unfold node_shape in Hs. destruct Hs as (_ & rule' & Hr' & _ & Hs).
    rewrite Hr in Hr'. inversion Hr'; subst rule'.
    destruct Hs as [(Hd0 & Hrnil & _)
                   | (Y & Hd0 & _ & _ & _ & _
                      & [(Hd1 & Hjk & _) | (Hd1 & _)])].
    - subst rule. simpl in Hlt. lia.
    - subst d k. reflexivity.
    - lia. }
  destruct (GLL.children node) as [|c1 [|c2 l]]; simpl; try lia.
  exfalso. inversion Hnodup as [|? ? Hnin _]; subst. apply Hnin.
  rewrite (Heq c1) by (now left). rewrite (Heq c2) by (right; now left).
  now left.
Qed.

(** [recognize_on] decides whether [text] is a sentence of [start]. *)
Lemma recognize_on_decides g start text :
  wf_grammar g -> symbols_ok g -> dollar_free g -> GLL.source_ok g = true ->
  lookup g start <> None ->
  (generates g start (tokens_of text) /\
   exists p, forall fuel,
       gll_budget g text <= fuel ->
       GLL.recognize_on fuel g text start = Some (Ok (GLL.ReturnParser p)))
  \/
  (~ generates g start (tokens_of text) /\
   forall fuel,
     gll_budget g text <= fuel ->
     GLL.recognize_on fuel g text start = Some (Ok GLL.ReturnEmptyList)).
Proof.
  intros Hwf Hsym Hfree Hsrc Hstart.
  destruct (lookup g start) as [alts|] eqn:Hl; [|congruence].
  destruct (get_nullable_total g Hsym) as [nl Hnl].
  pose proof (initial_config_safe g start text Hsym) as Hinit.
  rewrite Hl in Hinit. specialize (Hinit Hstart).
  pose proof (initial_cinv g start text nl Hwf alts Hnl Hl) as Hcinv.
  pose proof (initial_config_sound g start text Hwf alts Hl) as Hsound.
  unfold GLL.recognize_on. rewrite Hsrc. unfold GLL.generated_recognize_on.
  destruct (GLL.initial_config g text start) as [c|e] eqn:Ec; simpl in Hinit;
    [|destruct Hinit].
  destruct Hinit as [Hc Hlt].
  destruct (run_terminates g start text Hsym Hfree (gll_budget g text) c Hc Hlt)
    as [o Ho].
  assert (Hmore : forall fuel, gll_budget g text <= fuel ->
                    GLL.run fuel g start c = Some (Ok o)).
  { intros fuel Hle.
    replace fuel with (gll_budget g text + (fuel - gll_budget g text)) by lia.
    now apply gll_run_more_fuel. }
  destruct o as [p|].
  - left. split; [|eauto].
    destruct (Hsound c eq_refl) as [Hp Hco].
    destruct (run_sound g start text Hwf Hfree alts Hl _ c p Hp Hco Ho)
      as [_ Hd].
    eapply derives_start_generates; eauto.
  - right. split; [|exact Hmore]. intros Hgen.
    destruct (run_accepts g start text nl Hwf Hsym Hfree Hgen
                (gll_budget g text) c _ (Hcinv c eq_refl) Ho) as [p Hp].
    discriminate.
Qed.

(** ** C5: how a text outside the language is rejected *)







(** X18.  The GLL [parse_on] rejects with [AttributeError], and only
    then.  For a grammar whose keys are distinct nonterminals [<...>],
    whose symbols are non-empty strings with every symbol of the form
    [<...>] a key, in which no alternative uses the end marker [$], and
    that [exec] compiles as meant ([GLL.source_ok]: symbols of printable
    ASCII characters, without the backslash and the quotes that end
    their literals, and at most 400 branches in the generated chain):
    [parse_on(text, start)] with [start] a key ends with
    [AttributeError] (the empty list of [recognize_on] has no [to_tree])
    exactly when [text] is not a sentence of [start], whatever
    [random.choice] draws. *)
Theorem gll_parse_on_rejects
    (g : grammar) (start : symbol) (text : string) (fuel depth : nat)
    (rnd : list nat) :
  wf_grammar g -> symbols_ok g -> dollar_free g -> GLL.source_ok g = true ->
  lookup g start <> None ->
  gll_budget g text <= fuel ->
  (GLLTree.parse_on fuel depth g text start rnd
   = Some (inr (GLLTree.Exn AttributeError))
   <-> ~ generates g start (tokens_of text)).
Proof.
  intros Hwf Hsym Hfree Hsrc Hstart Hfuel. unfold GLLTree.parse_on.
  destruct (recognize_on_decides g start text Hwf Hsym Hfree Hsrc Hstart)
    as [(Hgen & p & Hrec) | (Hno & Hrec)]; rewrite (Hrec fuel Hfuel).
  - split; [|intros Hno; contradiction].
    intros H. exfalso.
    destruct (lookup g start) as [alts|] eqn:Hl; [|congruence].
    destruct (get_nullable_total g Hsym) as [nl Hnl].
    destruct (recognize_shape g start text nl Hwf Hsym Hfree fuel alts p Hnl Hl
                (Hrec fuel Hfuel)) as (_ & Hroot & _).
    unfold GLLTree.to_tree in H. rewrite Hroot in H.
    destruct (GLL.assoc GLL.sppf_key_eqb (GLL.SPPF_nodes p)
                (GLL.TStr start, 0, String.length text)); [|discriminate].
    destruct (GLL.class_of (GLL.TStr start, 0, String.length text));
      try discriminate.
    destruct (GLLTree.to_tree_ p depth (GLL.TStr start, 0, String.length text) rnd)
      as [[ts r1]|e] eqn:Et.
    + destruct ts; discriminate.
    + apply to_tree__raises in Et. destruct Et; subst; discriminate.
  - split; [intros _; exact Hno | reflexivity].
Qed.

Lemma gll_parse_on_rejects_witness :
  GLLTree.parse_on (gll_budget dup_grammar "b") 10 dup_grammar "b" "<S>" [3; 1]
  = Some (inr (GLLTree.Exn AttributeError))
  <-> ~ generates dup_grammar "<S>" (tokens_of "b").
Proof.
  apply (gll_parse_on_rejects dup_grammar "<S>" "b"
           (gll_budget dup_grammar "b") 10 [3; 1]).
  - exact dup_grammar_wf.
  - exact dup_grammar_symbols_ok.
  - exact dup_grammar_dollar_free.
  - reflexivity.
  - discriminate.
  - apply Nat.le_refl.
Defined.

Lemma abc_grammar_wf : wf_grammar abc_grammar.
Proof.
  split.
  - simpl. constructor; [intros [H | []]; discriminate|].
    constructor; [intros [] | constructor].
  - intros k [<- | [<- | []]]; reflexivity.
Qed.

Lemma abc_grammar_dollar_free : dollar_free abc_grammar.
Proof.
  apply dollar_free_intro. intros k alts alt [Heq | [Heq | []]] Ha;
    inversion Heq; subst; destruct Ha as [<- | []]; simpl;
    intros H; repeat (destruct H as [H | H]; [discriminate|]); exact H.
Qed.

Lemma abc_grammar_symbols_ok : symbols_ok abc_grammar.
Proof.
  intros X alts alt t [Heq | [Heq | []]] Ha Ht; inversion Heq; subst;
    destruct Ha as [<- | []]; simpl in Ht;
    repeat (destruct Ht as [<- | Ht];
            [split; [discriminate
                    | intros H; first [discriminate H | simpl; discriminate]]|]);
    destruct Ht.
Qed.

(** X19.  When no intermediate node of the SPPF has two packed nodes,
    [to_tree] returns a derivation tree of the input.  Under the same
    conditions on the grammar (distinct keys [<...>], non-empty symbols
    with every symbol [<...>] a key, no [$] in an alternative,
    [GLL.source_ok]), for the parser object that [recognize_on(text,
    start)] has returned: if every intermediate node in [SPPF_nodes] has
    one child, the tree that [to_tree()] returns, whatever
    [random.choice] draws, has the start symbol at its root, expands
    every nonterminal by one of its alternatives and is flattened by
    [tree_to_str] to [text]. *)
Theorem gll_to_tree_sound
    (g : grammar) (start : symbol) (text : string) (fuel : nat)
    (p : GLL.GLLStructuredStackP) (depth : nat) (rnd rnd' : list nat)
    (t : tree) :
  wf_grammar g -> symbols_ok g -> dollar_free g -> GLL.source_ok g = true ->
  lookup g start <> None ->
  GLL.recognize_on fuel g text start = Some (Ok (GLL.ReturnParser p)) ->
  single_packed p ->
  GLLTree.to_tree p depth rnd = inl (t, rnd') ->
  tree_root t = start /\ tree_derivation g t /\ tree_to_str t = Ok text.
Proof.
  intros Hwf Hsym Hfree Hsrc Hstart Hrec Hsingle H.
  destruct (lookup g start) as [alts|] eqn:Hl; [|congruence].
  assert (Hnl : exists nl, GLL.get_nullable g = Ok nl)
    by (now apply get_nullable_total).
  destruct Hnl as [nl Hnl].
  destruct (recognize_shape g start text nl Hwf Hsym Hfree fuel alts p Hnl Hl Hrec)
    as (Hshape & Hroot & Hin).
  apply (to_tree_root g text nl p start depth rnd t rnd'); auto.
  congruence.
Qed.

Lemma gll_to_tree_sound_witness :
  tree_root (Node "<S>" [Node "a" []; Node "<B>" [Node "b" []]; Node "c" []])
  = "<S>" /\
  tree_derivation abc_grammar
    (Node "<S>" [Node "a" []; Node "<B>" [Node "b" []]; Node "c" []]) /\
  tree_to_str (Node "<S>" [Node "a" []; Node "<B>" [Node "b" []]; Node "c" []])
  = Ok "abc".
Proof.
  eapply (gll_to_tree_sound abc_grammar "<S>" "abc" 100 _ 20 [2; 0; 1] _).
  - exact abc_grammar_wf.
  - exact abc_grammar_symbols_ok.
  - exact abc_grammar_dollar_free.
  - reflexivity.
  - discriminate.
  - vm_compute. reflexivity.
  - intros X n d j i node H. vm_compute in H.
    repeat match type of H with
           | (if ?b then _ else _) = _ => destruct b
           end;
      try discriminate; inversion H; simpl; lia.
  - vm_compute. reflexivity.
Defined.

(** X20.  For a grammar with at most two symbols in every alternative,
    [parse_on] returns a derivation tree of the input.  Under the same
    conditions on the grammar (distinct keys [<...>], non-empty symbols
    with every symbol [<...>] a key, no [$] in an alternative,
    [GLL.source_ok]), what [parse_on(text, start)] returns is a list of
    one tree, which has the start symbol at its root, expands every
    nonterminal by one of its alternatives and is flattened by
    [tree_to_str] to [text], whatever [random.choice] draws. *)
Theorem gll_parse_on_binary
    (g : grammar) (start : symbol) (text : string) (fuel depth : nat)
    (rnd rnd' : list nat) (ts : list tree) :
  wf_grammar g -> symbols_ok g -> dollar_free g -> GLL.source_ok g = true ->
  lookup g start <> None ->
  (forall X alts alt, In (X, alts) g -> In alt alts -> List.length alt <= 2) ->
  GLLTree.parse_on fuel depth g text start rnd = Some (inl (ts, rnd')) ->
  exists t,
    ts = [t] /\
    tree_root t = start /\ tree_derivation g t /\ tree_to_str t = Ok text.
Proof.
  intros Hwf Hsym Hfree Hsrc Hstart Hbin H. unfold GLLTree.parse_on in H.
  destruct (GLL.recognize_on fuel g text start) as [[[p|]|e]|] eqn:Hrec;
    try discriminate.
  destruct (GLLTree.to_tree p depth rnd) as [[t r1]|e] eqn:Et;
    [|discriminate].
  inversion H; subst ts r1. exists t. split; [reflexivity|].
  destruct (lookup g start) as [alts|] eqn:Hl; [|congruence].
  assert (Hnl : exists nl, GLL.get_nullable g = Ok nl)
    by (now apply get_nullable_total).
  destruct Hnl as [nl Hnl].
  destruct (recognize_shape g start text nl Hwf Hsym Hfree fuel alts p Hnl Hl Hrec)
    as (Hshape & Hroot & Hin).
  apply (to_tree_root g text nl p start depth rnd t rnd'); auto.
  - eapply binary_single_packed; eauto.
  - congruence.
Qed.

Lemma gll_parse_on_binary_witness :
  exists t,
    [Node "<S>" [Node "a" []]] = [t] /\
    tree_root t = "<S>" /\ tree_derivation dup_grammar t /\
    tree_to_str t = Ok "a".
Proof.
  eapply (gll_parse_on_binary dup_grammar "<S>" "a" 60 10 [1] _).
  - exact dup_grammar_wf.
  - exact dup_grammar_symbols_ok.
  - exact dup_grammar_dollar_free.
  - reflexivity.
  - discriminate.
  - intros X alts alt [Heq | []] Ha. inversion Heq; subst.
    destruct Ha as [<- | [<- | []]]; simpl; lia.
  - vm_compute. reflexivity.
Defined.


(** ** The trees of [SimpleExtractor] ([Earley.py]) *)

Lemma simple_choose_path_In {A : Type} (arr : list A) rnd x rnd' :
  SimpleExtractor.choose_path arr rnd = Ok (x, rnd') -> In x arr.
Proof.
  unfold SimpleExtractor.choose_path.
  destruct (SimpleExtractor.randrange (List.length arr) rnd) as [i r1].
  destruct (nth_error arr i) as [y|] eqn:E; [|discriminate].
  intros H. inversion H; subst. eapply nth_error_In; eauto.
Qed.

Section SimpleExtractorSound.

Variable g : grammar.
Variable eps : list symbol.
Variable text : string.
Variable start : symbol.
Variable alts : list alternative.

Hypothesis Hwf : wf_grammar g.
Hypothesis Heps : nullable g = Ok eps.
Hypothesis Hstart : lookup g start = Some alts.

#[warnings="-notation-for-abbreviation"]
Local Notation F := (chart_parse g eps text start alts).
#[warnings="-notation-for-abbreviation"]
Local Notation toks := (tokens_of text).

Lemma simple_extract_a_node_sound :
  forall depth fn rnd t rnd' frm til,
    fnode_ok F toks fn frm til -> fnode_rule g fn ->
    til <= List.length toks ->
    SimpleExtractor.extract_a_node g F depth fn rnd = Ok (t, rnd') ->
    tree_root t = fst fn /\ tree_derivation g t /\
    tree_ok t /\ leaves t = seg toks frm til.
Proof.
  induction depth as [|depth IH];
    intros fn rnd t rnd' frm til Hfn Hrule Htil H; [discriminate|].
  destruct fn as [nm paths]. destruct Hfn as (Hnt & Hle & Hnil & Hpaths).
  destruct Hrule as (al & Hl & Hr0 & Hr).
  simpl in Hnt, Hnil, Hpaths, Hl, Hr0, Hr.
  cbn [SimpleExtractor.extract_a_node] in H.
  destruct paths as [|p0 paths0] eqn:Ep.
  - inversion H; subst. split; [reflexivity|]. split.
    + apply (tree_derivation_node g nm al [] Hl).
      split; [now apply Hr0 | constructor].
    + split; [apply tree_ok_node; [exact Hnt | constructor]|].
      rewrite leaves_node by exact Hnt. simpl.
      rewrite (Hnil eq_refl). now rewrite seg_same.
  - rewrite <- Ep in *. clear Ep p0 paths0.
    destruct (SimpleExtractor.choose_path paths rnd) as [[path r1]|e] eqn:Ec;
      cbn [bind fst snd] in H; [|discriminate].
    assert (Hin : In path paths) by (eapply simple_choose_path_In; eauto).
    assert (Hlp : lpath_ok F toks path frm til).
    { rewrite <- (rev_involutive path).
      apply (rpath_lpath g eps text start alts). now apply Hpaths. }
    assert (Hsyms : In (map node_sym path) al) by (now apply Hr).
    assert (Hgen : forall ps acc r0 mid,
              lpath_ok F toks ps mid til ->
              Forall tree_ok acc -> Forall (tree_derivation g) acc ->
              flat_map leaves acc = seg toks frm mid -> frm <= mid ->
              map tree_root acc ++ map node_sym ps = map node_sym path ->
              (fix over_path (ps : list pnode) (child_nodes : list tree)
                   (rnd : list nat) : result (tree * list nat) :=
                 match ps with
                 | [] => Ok (Node nm child_nodes, rnd)
                 | nd :: ps' =>
                     f <- forest g F nd ;;
                     r' <- SimpleExtractor.extract_a_node g F depth f rnd ;;
                     over_path ps' (child_nodes ++ [fst r']) (snd r')
                 end) ps acc r0 = Ok (t, rnd') ->
              exists children,
                t = Node nm children /\ Forall tree_ok children /\
                Forall (tree_derivation g) children /\
                flat_map leaves children = seg toks frm til /\
                map tree_root children = map node_sym path).
    { induction ps as [|nd ps IHps];
        intros acc r0 mid Hps Hok Hder Hlv Hmid Hroots Hres.
      - inversion Hres; subst t. exists acc. simpl in Hps. subst mid.
        rewrite app_nil_r in Hroots. auto.
      - simpl in Hps. destruct Hps as (m & Hn & Hps).
        assert (Hm : mid <= m /\ m <= til).
        { split; [|eapply lpath_ok_le; eauto].
          destruct nd as [v | s]; simpl in Hn.
          - destruct Hn as (-> & _). lia.
          - now destruct Hn as (_ & _ & _ & Hx). }
        destruct (forest g F nd) as [f|err] eqn:Ef; cbn [bind] in Hres;
          [|discriminate].
        destruct (SimpleExtractor.extract_a_node g F depth f r0)
          as [[t' r2]|err] eqn:En; cbn [bind fst snd] in Hres; [|discriminate].
        destruct nd as [v | s].
        + simpl in Hn. destruct Hn as (-> & Htok & Hv).
          simpl in Ef. inversion Ef; subst f.
          assert (Ht' : t' = Node v []).
          { destruct depth; [discriminate|].
            cbn [SimpleExtractor.extract_a_node] in En. now inversion En. }
          subst t'.
          apply (IHps (acc ++ [Node v []]) r2 (mid + 1) Hps); auto.
          * apply Forall_app. split; [exact Hok|].
            constructor; [simpl; now rewrite Hv | constructor].
          * apply Forall_app. split; [exact Hder|].
            constructor; [|constructor].
            simpl. now rewrite (terminal_not_key g Hwf v Hv).
          * rewrite flat_map_app, Hlv. simpl. rewrite Hv, app_nil_r.
            assert (Hlt : mid < List.length (tokens_of text))
              by (apply nth_error_Some; congruence).
            rewrite <- (seg_app (tokens_of text) frm mid (mid + 1)) by lia.
            f_equal. symmetry. now apply seg_one.
          * lia.
          * rewrite map_app, <- app_assoc. exact Hroots.
        + simpl in Hn. destruct Hn as (Hs1 & Hs2 & Hs3 & Hs4).
          simpl in Ef.
          destruct (parse_forest_ok g eps text start alts Hwf Heps Hstart
                      mid m (name s) [s] f) as [Hfst Hk];
            [discriminate | | exact Ef |].
          { intros s' [<- | []]. auto. }
          destruct (parse_forest_rule g eps text start alts Hwf Heps Hstart
                      m (name s) [s] f) as [_ Hrl];
            [discriminate | | exact Ef |].
          { intros s' [<- | []]. auto. }
          destruct (IH f r0 t' r2 mid m Hk Hrl ltac:(lia) En)
            as (T1 & T2 & T3 & T4).
          apply (IHps (acc ++ [t']) r2 m Hps); auto.
          * apply Forall_app. split; [exact Hok | constructor; auto].
          * apply Forall_app. split; [exact Hder | constructor; auto].
          * rewrite flat_map_app, Hlv. simpl. rewrite T4, app_nil_r.
            apply seg_app; lia.
          * lia.
          * rewrite map_app, <- app_assoc. simpl. rewrite T1, Hfst.
            exact Hroots. }
    destruct (Hgen path [] r1 frm Hlp) as (children & -> & C1 & C2 & C3 & C4);
      auto.
    + now rewrite seg_same.
    + split; [reflexivity|]. split.
      * apply (tree_derivation_node g nm al children Hl).
        split; [now rewrite C4 | exact C2].
      * split; [now apply tree_ok_node | now rewrite leaves_node].
Qed.

End SimpleExtractorSound.

(** X21.  [SimpleExtractor] returns derivation trees of the input only.
    For a grammar whose keys are distinct nonterminals, whatever
    [random.randrange] draws, the tree that [extract_a_tree()] returns
    has the start symbol at its root, expands every nonterminal by one
    of its alternatives, and is flattened by [tree_to_str] to the text
    the extractor was built for. *)
Theorem simple_extractor_sound
    (g : grammar) (pe : bool) (p : Parser) (text : string) (start : symbol)
    (table : chart) (f : forest_node) (depth : nat) (rnd rnd' : list nat)
    (t : tree) :
  wf_grammar g ->
  EarleyParser g pe = Ok p ->
  SimpleExtractor.new_extractor p text start = Ok (table, f) ->
  SimpleExtractor.extract_a_tree g table depth f rnd = Ok (t, rnd') ->
  tree_root t = start /\ tree_derivation g t /\ tree_to_str t = Ok text.
Proof.
  intros Hwf Hp Hnew Hex. unfold EarleyParser in Hp.
  destruct (nullable g) as [eps|e] eqn:Heps; cbn [bind] in Hp; [|discriminate].
  inversion Hp; subst p. clear Hp.
  unfold SimpleExtractor.new_extractor in Hnew.
  cbn [p_grammar p_epsilon] in Hnew.
  assert (Hrec : exists starts,
            recognize_on g eps true text start = Ok (table, starts) /\
            parse_forest g table starts = Ok f).
  { unfold recognize_on.
    destruct (parse_prefix g eps text start) as [[tb [cursor sts]]|e] eqn:Epp;
      cbn [bind] in Hnew |- *; [|discriminate].
    destruct ((cursor <? Z.of_nat (String.length text))%Z
              || match filter finished sts with [] => true | _ :: _ => false end)
      eqn:Ec; [discriminate|].
    destruct (parse_forest g tb (filter finished sts)) as [f0|e] eqn:Ef;
      cbn [bind] in Hnew; [|discriminate].
    inversion Hnew; subst. exists (filter finished sts). simpl. auto. }
  destruct Hrec as (starts & Hr & Hf).
  destruct (recognize_on_starts g eps true text start table starts Hwf Heps Hr)
    as (alts & i & Hl & Ht & Hi & Hpe & Hall).
  destruct (Hpe eq_refl) as [Hne Hilen]. subst i table.
  destruct (parse_forest_ok g eps text start alts Hwf Heps Hl
              0 (String.length text) start starts f) as [Hfst Hok];
    [exact Hne | | exact Hf |].
  { intros s Hs. destruct (Hall s Hs) as (H1 & H2 & H3 & _ & H5). auto. }
  destruct (parse_forest_rule g eps text start alts Hwf Heps Hl
              (String.length text) start starts f) as [_ Hrule];
    [exact Hne | | exact Hf |].
  { intros s Hs. destruct (Hall s Hs) as (H1 & H2 & H3 & _). auto. }
  assert (Htil : String.length text <= List.length (tokens_of text))
    by (now rewrite tokens_of_length).
  destruct (simple_extract_a_node_sound g eps text start alts Hwf Heps Hl
              depth f rnd t rnd' 0 (String.length text) Hok Hrule Htil Hex)
    as (T1 & T2 & T3 & T4).
  split; [congruence|]. split; [exact T2|].
  rewrite (tree_to_str_leaves t T3), T4. f_equal.
  rewrite <- (tokens_of_length text), seg_all. apply concat_tokens_of.
Qed.

Lemma simple_extractor_sound_witness :
  tree_root (Node "<S>" [Node "<E>" [Node "<E>" [Node "1" []]; Node "+" [];
                                     Node "<E>" [Node "1" []]]]) = "<S>" /\
  tree_derivation sum_grammar
    (Node "<S>" [Node "<E>" [Node "<E>" [Node "1" []]; Node "+" [];
                             Node "<E>" [Node "1" []]]]) /\
  tree_to_str (Node "<S>" [Node "<E>" [Node "<E>" [Node "1" []]; Node "+" [];
                                       Node "<E>" [Node "1" []]]]) = Ok "1+1".
Proof.
  eapply (simple_extractor_sound sum_grammar true (mkParser sum_grammar [] true)
            "1+1" "<S>" _ _ 10 [4; 7; 1; 0; 2] _).
  - exact sum_grammar_wf.
  - reflexivity.
  - vm_compute. reflexivity.
  - vm_compute. reflexivity.
Defined.


(** ** When the constructor of an extractor raises [SyntaxError]
    ([Earley.py]) *)

Lemma parse_forest_returns g eps text start alts b nm sts :
  wf_grammar g -> nullable g = Ok eps -> lookup g start = Some alts ->
  sts <> [] ->
  (forall s, In s sts ->
             In s (col_states (chart_parse g eps text start alts) b) /\
             name s = nm) ->
  exists f, parse_forest g (chart_parse g eps text start alts) sts = Ok f.
Proof.
  intros Hwf Heps Hstart Hne Hall. unfold parse_forest.
  rewrite (dedup_const (map name sts) nm).
  - assert (Hmap : exists fo,
               map_result (parse_forest_state g (chart_parse g eps text start alts))
                          sts = Ok fo).
    { clear Hne. induction sts as [|s sts IH]; simpl; [eauto|].
      destruct (Hall s (or_introl eq_refl)) as [Hin _].
      assert (Hs : exists f,
                 parse_forest_state g (chart_parse g eps text start alts) s
                 = Ok f).
      { unfold parse_forest_state.
        rewrite (final_e_col g eps text start alts Hwf Heps Hstart b s Hin).
        destruct (expr s); eauto. }
      destruct Hs as [f ->]. cbn [bind].
      destruct IH as [fo ->]; [intros s' Hs'; apply Hall; now right|].
      cbn [bind]. eauto. }
    destruct Hmap as [fo ->]. cbn [bind]. eauto.
  - destruct sts; [congruence | discriminate].
  - intros x Hx. apply in_map_iff in Hx. destruct Hx as (s & <- & Hs).
    now destruct (Hall s Hs).
Qed.

Lemma enhanced_new_extractor_simple p text start :
  EarleyExtractor.new_extractor p text start =
  r <- SimpleExtractor.new_extractor p text start ;;
  Ok (fst r, snd r, [mkChoice None 0 1 None]).
Proof.
  unfold EarleyExtractor.new_extractor, SimpleExtractor.new_extractor.
  destruct (parse_prefix (p_grammar p) (p_epsilon p) text start)
    as [[table [cursor sts]]|e]; cbn [bind]; [|reflexivity].
  destruct ((cursor <? Z.of_nat (String.length text))%Z
            || match filter finished sts with [] => true | _ :: _ => false end);
    [reflexivity|].
  destruct (parse_forest (p_grammar p) table (filter finished sts));
    reflexivity.
Qed.

(** X22.  The constructors of the extractors raise [SyntaxError] exactly
    for the texts that are not sentences.  For a grammar whose keys are
    distinct nonterminals, a parser built with either setting of
    [parse_exceptions] and a start symbol of the grammar:
    [SimpleExtractor(parser, text, start)] raises [SyntaxError] exactly
    when [text] is not a sentence of [start], and returns only when it
    is one; so does [EnhancedExtractor(parser, text, start)], which
    runs the same constructor.  (For a sentence the constructor goes on
    to [parse_forest].) *)
Theorem extractor_syntax_error_iff_not_sentence
    (g : grammar) (pe : bool) (p : Parser) (text : string) (start : symbol) :
  wf_grammar g ->
  EarleyParser g pe = Ok p ->
  lookup g start <> None ->
  ((exists at_,
       SimpleExtractor.new_extractor p text start = Raise (SyntaxError at_))
   <-> ~ generates g start (tokens_of text)) /\
  ((exists at_,
       EarleyExtractor.new_extractor p text start = Raise (SyntaxError at_))
   <-> ~ generates g start (tokens_of text)) /\
  (forall table f,
      SimpleExtractor.new_extractor p text start = Ok (table, f) ->
      generates g start (tokens_of text)) /\
  (forall table f cs,
      EarleyExtractor.new_extractor p text start = Ok (table, f, cs) ->
      generates g start (tokens_of text)).
Proof.
  intros Hwf Hp Hstart. unfold EarleyParser in Hp.
  destruct (nullable g) as [eps|e] eqn:Heps; cbn [bind] in Hp; [|discriminate].
  inversion Hp; subst p. clear Hp.
  assert (Hsimple :
            ((exists at_,
                 SimpleExtractor.new_extractor (mkParser g eps pe) text start
                 = Raise (SyntaxError at_))
             <-> ~ generates g start (tokens_of text)) /\
            (forall table f,
                SimpleExtractor.new_extractor (mkParser g eps pe) text start
                = Ok (table, f) ->
                generates g start (tokens_of text))).
  { unfold SimpleExtractor.new_extractor. cbn [p_grammar p_epsilon].
    pose proof (recognize_on_cases g eps text start) as Hcases.
    destruct (parse_prefix g eps text start) as [[tb [cursor sts]]|e] eqn:Epp;
      cbn [bind].
    - destruct ((cursor <? Z.of_nat (String.length text))%Z
                || match filter finished sts with [] => true | _ :: _ => false end)
        eqn:Ec.
      + split; [|discriminate]. split; [|eauto].
        intros _ (alts & alt & Hl & Ha & Hd).
        destruct (recognize_on_accepts g eps text start alts alt Hwf Heps Hl Ha Hd)
          as (starts & Hr & _).
        rewrite Hcases in Hr. discriminate.
      + assert (Hgen : generates g start (tokens_of text)).
        { destruct (recognize_on_starts g eps true text start tb
                      (filter finished sts) Hwf Heps Hcases)
            as (alts & i & Hl & Ht & Hi & Hpe & Hall).
          destruct (Hpe eq_refl) as [Hne Hilen].
          destruct (filter finished sts) as [|st starts'] eqn:Ef; [congruence|].
          destruct (recognize_on_derives g eps true text start tb (st :: starts')
                      st Hwf Heps Hcases (or_introl eq_refl))
            as (i' & _ & _ & Hi' & Hg).
          rewrite (Hi' eq_refl), <- tokens_of_length, firstn_all in Hg.
          exact Hg. }
        split; [|intros; exact Hgen]. split; [|intros Hno; contradiction].
        intros (at_ & H). exfalso.
        destruct (recognize_on_starts g eps true text start tb
                    (filter finished sts) Hwf Heps Hcases)
          as (alts & i & Hl & Ht & Hi & Hpe & Hall).
        destruct (Hpe eq_refl) as [Hne Hilen]. subst tb.
        destruct (parse_forest_returns g eps text start alts i start
                    (filter finished sts) Hwf Heps Hl Hne) as [f Hf].
        { intros s Hs. destruct (Hall s Hs) as (H1 & _ & H3 & _). auto. }
        rewrite Hf in H. discriminate.
    - exfalso. unfold parse_prefix in Epp.
      destruct (lookup g start); [discriminate | congruence]. }
  destruct Hsimple as [Hraise Hok].
  split; [exact Hraise|]. split; [|split; [exact Hok|]].
  - rewrite <- Hraise. rewrite enhanced_new_extractor_simple. split.
    + intros (at_ & H).
      destruct (SimpleExtractor.new_extractor (mkParser g eps pe) text start)
        as [[tb f0]|e]; cbn [bind] in H; [discriminate|].
      exists at_. inversion H. reflexivity.
    + intros (at_ & ->). cbn [bind]. exists at_. reflexivity.
  - intros table f cs H. rewrite enhanced_new_extractor_simple in H.
    destruct (SimpleExtractor.new_extractor (mkParser g eps pe) text start)
      as [[tb f0]|e] eqn:E; cbn [bind] in H; [|discriminate].
    exact (Hok tb f0 eq_refl).
Qed.

Lemma extractor_syntax_error_iff_not_sentence_witness :
  ((exists at_,
       SimpleExtractor.new_extractor (mkParser sum_grammar [] false) "1+" "<S>"
       = Raise (SyntaxError at_))
   <-> ~ generates sum_grammar "<S>" (tokens_of "1+")) /\
  ((exists at_,
       EarleyExtractor.new_extractor (mkParser sum_grammar [] false) "1+" "<S>"
       = Raise (SyntaxError at_))
   <-> ~ generates sum_grammar "<S>" (tokens_of "1+")) /\
  (forall table f,
      SimpleExtractor.new_extractor (mkParser sum_grammar [] false) "1+" "<S>"
      = Ok (table, f) ->
      generates sum_grammar "<S>" (tokens_of "1+")) /\
  (forall table f cs,
      EarleyExtractor.new_extractor (mkParser sum_grammar [] false) "1+" "<S>"
      = Ok (table, f, cs) ->
      generates sum_grammar "<S>" (tokens_of "1+")).
Proof.
  apply (extractor_syntax_error_iff_not_sentence sum_grammar false).
  - exact sum_grammar_wf.
  - reflexivity.
  - discriminate.
Defined.


(** ** Every derivation tree is extracted ([Earley.py]) *)

Lemma tree_forall_ind (P : tree -> Prop) :
  (forall key cs, Forall P cs -> P (Node key cs)) -> forall t, P t.
Proof.
  intros H. fix IH 1. intros [key cs]. apply H.
  induction cs as [|c cs IHcs]; constructor; [apply IH | exact IHcs].
Qed.

(** *** Derivation trees and derivations *)

Lemma alt_symbol_terminal g X alts alt t :
  wf_grammar g -> symbols_ok g ->
  lookup g X = Some alts -> In alt alts -> In t alt ->
  lookup g t = None -> is_nt t = Ok false.
Proof.
  intros Hwf Hsym Hl Ha Ht Hn.
  destruct (Hsym X alts alt t (lookup_In g X alts Hl) Ha Ht) as [Hne Hk].
  destruct (is_nt_total t Hne) as [[|] Hb]; [|exact Hb].
  exfalso. now apply Hk.
Qed.

Lemma derivation_tree_ok g :
  wf_grammar g -> symbols_ok g ->
  forall t, tree_derivation g t ->
            (lookup g (tree_root t) = None -> tree_root t <> "") ->
            tree_ok t.
Proof.
  intros Hwf Hsym. induction t as [key cs IH] using tree_forall_ind.
  intros Hd Hroot. simpl in Hroot.
  destruct (lookup g key) as [alts|] eqn:Hl.
  - assert (Hnt : is_nt key = Ok true) by (eapply key_is_nt; eauto).
    apply (tree_derivation_node g key alts cs Hl) in Hd.
    destruct Hd as [Ha Hcs]. apply (tree_ok_node key cs Hnt).
    rewrite Forall_forall in *. intros c Hc. apply (IH c Hc (Hcs c Hc)).
    intros _.
    assert (Hin : In (tree_root c) (map tree_root cs)) by (now apply in_map).
    now destruct (Hsym key alts _ _ (lookup_In g key alts Hl) Ha Hin).
  - simpl in Hd. rewrite Hl in Hd. subst cs.
    destruct (is_nt_total key (Hroot eq_refl)) as [b Hb].
    simpl. rewrite Hb. destruct b; auto.
Qed.

Lemma children_derive g :
  forall cs,
    Forall (fun c => derives g [tree_root c] (leaves c)) cs ->
    derives g (map tree_root cs) (flat_map leaves cs).
Proof.
  induction cs as [|c cs IH]; intros H; simpl; [constructor|].
  inversion H; subst.
  change (tree_root c :: map tree_root cs)
    with ([tree_root c] ++ map tree_root cs).
  apply derives_app; auto.
Qed.

Lemma tree_derives g :
  wf_grammar g ->  symbols_ok g ->
  forall t, tree_derivation g t -> tree_ok t ->
            (lookup g (tree_root t) = None -> is_nt (tree_root t) = Ok false) ->
            derives g [tree_root t] (leaves t).
Proof.
  intros Hwf Hsym. induction t as [key cs IH] using tree_forall_ind.
  intros Hd Hok Hroot. simpl in Hroot. simpl tree_root.
  destruct (lookup g key) as [alts|] eqn:Hl.
  - assert (Hnt : is_nt key = Ok true) by (eapply key_is_nt; eauto).
    apply (tree_derivation_node g key alts cs Hl) in Hd.
    destruct Hd as [Ha Hcs]. apply (tree_ok_node key cs Hnt) in Hok.
    rewrite (leaves_node key cs Hnt).
    apply (derives_symbol g key alts (map tree_root cs) _ Hl Ha).
    apply children_derive.
    rewrite Forall_forall in *. intros c Hc.
    apply (IH c Hc (Hcs c Hc) (Hok c Hc)).
    apply (alt_symbol_terminal g key alts (map tree_root cs)); auto.
    now apply in_map.
  - simpl. rewrite (Hroot eq_refl).
    apply derives_terminal; [exact Hl | constructor].
Qed.

Lemma alt_children_derive g X alts cs :
  wf_grammar g -> symbols_ok g ->
  lookup g X = Some alts -> In (map tree_root cs) alts ->
  Forall (tree_derivation g) cs -> Forall tree_ok cs ->
  derives g (map tree_root cs) (flat_map leaves cs).
Proof.
  intros Hwf Hsym Hl Ha Hd Hok. apply children_derive.
  rewrite Forall_forall in *. intros c Hc.
  apply (tree_derives g Hwf Hsym c (Hd c Hc) (Hok c Hc)).
  apply (alt_symbol_terminal g X alts (map tree_root cs)); auto.
  now apply in_map.
Qed.

(** *** The generators of [extract_trees] that end without an exception *)

Lemma exhaust_pools_Ok {A : Type} (gens : list (yields A)) :
  forall pools,
    exhaust_pools gens = Ok pools ->
    pools = map fst gens /\ Forall (fun y => snd y = None) gens.
Proof.
  induction gens as [|[ys [e|]] gens IH]; intros pools H; simpl in H.
  - inversion H. auto.
  - discriminate.
  - destruct (exhaust_pools gens) as [r|e] eqn:E; cbn [bind] in H;
      [|discriminate].
    inversion H; subst. destruct (IH r eq_refl) as [-> Hall].
    split; [reflexivity | constructor; auto].
Qed.

Lemma product_In {A : Type} (xs : list A) :
  forall pools, Forall2 (fun x pool => In x pool) xs pools ->
                In xs (product pools).
Proof.
  induction xs as [|x xs IH]; intros pools H; inversion H; subst; simpl.
  - now left.
  - apply in_flat_map. exists x. split; [assumption|].
    apply in_map. now apply IH.
Qed.

Lemma over_paths_None g rec ch nm paths :
  snd (over_paths g rec ch nm paths) = None ->
  forall p, In p paths ->
    exists ts, path_trees g rec ch nm p = Ok ts /\
               forall t, In t ts -> In t (fst (over_paths g rec ch nm paths)).
Proof.
  induction paths as [|q paths IH]; simpl; intros Hn p Hp; [destruct Hp|].
  destruct (path_trees g rec ch nm q) as [ts|e] eqn:E; [|discriminate].
  destruct (over_paths g rec ch nm paths) as [ys e] eqn:Eo.
  simpl in Hn. subst e. simpl in IH. destruct Hp as [<- | Hp].
  - exists ts. split; [exact E|]. intros t Ht. simpl. apply in_or_app. now left.
  - destruct (IH eq_refl p Hp) as (ts' & H1 & H2).
    exists ts'. split; [exact H1|]. intros t Ht. simpl. apply in_or_app.
    right. now apply H2.
Qed.

Lemma path_trees_Ok g rec ch nm p ts :
  path_trees g rec ch nm p = Ok ts ->
  exists fs,
    map_result (forest g ch) p = Ok fs /\
    Forall (fun f => snd (rec f) = None) fs /\
    ts = map (Node nm) (product (map (fun f => fst (rec f)) fs)).
Proof.
  unfold path_trees. intros H.
  destruct (map_result (forest g ch) p) as [fs|e]; cbn [bind] in H;
    [|discriminate].
  destruct (exhaust_pools (map rec fs)) as [pools|e] eqn:E; cbn [bind] in H;
    [|discriminate].
  inversion H; subst. exists fs. split; [reflexivity|].
  destruct (exhaust_pools_Ok _ _ E) as [-> Hall]. split.
  - rewrite Forall_forall in *. intros f Hf. apply (Hall (rec f)).
    now apply in_map.
  - now rewrite map_map.
Qed.

Lemma map_result_In_l {A B : Type} (f : A -> result B) (l : list A) :
  forall r a, map_result f l = Ok r -> In a l ->
              exists b, f a = Ok b /\ In b r.
Proof.
  intros r a H Ha. apply map_result_Forall2 in H.
  induction H as [|a' b' l' r' Hab Hrest IH]; [destruct Ha|].
  destruct Ha as [<- | Ha].
  - exists b'. split; [exact Hab | now left].
  - destruct (IH Ha) as (b & H1 & H2). exists b. split; [exact H1 | now right].
Qed.

Lemma parse_forest_paths g ch sts f s f0 :
  parse_forest g ch sts = Ok f -> In s sts ->
  parse_forest_state g ch s = Ok f0 ->
  forall p, In p (snd f0) -> In p (snd f).
Proof.
  unfold parse_forest. intros H Hs Hf0 p Hp.
  destruct (dedup (map name sts)) as [|nm [|x l]]; try discriminate.
  destruct (map_result (parse_forest_state g ch) sts) as [fo|e] eqn:E;
    cbn [bind] in H; [|discriminate].
  inversion H; subst f. simpl.
  destruct (map_result_In_l _ _ _ s E Hs) as (b & Hb & Hin).
  rewrite Hf0 in Hb. inversion Hb; subst b.
  apply in_concat. exists (snd f0). split; [now apply in_map | exact Hp].
Qed.

Lemma skipn_cons_inv {A : Type} (e : list A) : forall d x r,
  skipn d e = x :: r -> nth_error e d = Some x /\ skipn (d + 1) e = r.
Proof.
  induction e as [|y e IH]; intros d x r H.
  - destruct d; discriminate.
  - destruct d as [|d]; simpl in H.
    + inversion H; subst. auto.
    + simpl. now apply IH.
Qed.

Lemma node_tree_syms g ch toks p cs :
  Forall2 (node_tree g ch toks) p cs -> map node_sym p = map tree_root cs.
Proof.
  induction 1 as [|nd c p cs Hn Hrest IH]; [reflexivity|].
  simpl. f_equal; [|exact IH].
  destruct nd as [v|s]; simpl in Hn.
  - now subst c.
  - destruct Hn as (b & cs' & -> & _). reflexivity.
Qed.

Lemma tokens_of_nonempty text : text <> "" -> tokens_of text <> [].
Proof. destruct text; [congruence | discriminate]. Qed.

(** *** The paths and the trees of the final chart *)

Section CompleteForest.

Variable g : grammar.
Variable eps : list symbol.
Variable text : string.
Variable start : symbol.
Variable alts : list alternative.

Hypothesis Hwf : wf_grammar g.
Hypothesis Hsym : symbols_ok g.
Hypothesis Heps : nullable g = Ok eps.
Hypothesis Hstart : lookup g start = Some alts.

#[warnings="-notation-for-abbreviation"]
Local Notation F := (chart_parse g eps text start alts).
#[warnings="-notation-for-abbreviation"]
Local Notation toks := (tokens_of text).

(** An item of the chart was predicted in its start column. *)
Lemma item_origin :
  forall d j st, In st (col_states F j) -> dot st = d ->
    has_item F (s_col st) (name st, expr st, 0, s_col st).
Proof.
  induction d as [|d IH]; intros j st Hin Hd.
  - destruct (final_valid g eps text start alts Hwf Heps Hstart) as (_ & V2 & _).
    destruct (V2 _ _ Hin) as (_ & _ & _ & _ & Hz).
    exists st. split; [rewrite (Hz Hd); exact Hin|].
    unfold State_t. now rewrite Hd.
  - destruct (final_justified g eps text start alts Hwf Heps Hstart j st Hin)
      as [H0 | (sym & Hpos & Hnth &
                [(_ & _ & _ & Hprev) | (_ & child & _ & _ & _ & Hprev)])];
      [lia | |];
      destruct Hprev as [st' [Hin' Hk]]; injection Hk as K1 K2 K3 K4;
      rewrite <- K1, <- K2, <- K4; apply (IH _ st' Hin'); lia.
Qed.

Lemma rpath_ok_snoc rp : forall frm mid til nd,
  node_ok F toks nd frm mid -> rpath_ok F toks rp mid til ->
  rpath_ok F toks (rp ++ [nd]) frm til.
Proof.
  induction rp as [|x rest IH]; intros frm mid til nd Hn H; [destruct H|].
  assert (Hle : frm <= mid).
  { destruct nd as [v|s]; simpl in Hn.
    - destruct Hn as (-> & _). lia.
    - now destruct Hn as (_ & _ & _ & Hx). }
  simpl in H. destruct H as (st & Hx & Hms & Hrest).
  cbn [app rpath_ok]. exists st. split; [exact Hx|]. split; [lia|].
  destruct rest as [|r rs].
  - subst st. simpl. exists frm. auto.
  - cbn [app]. apply (IH frm mid st nd Hn Hrest).
Qed.

Lemma lpath_rpath p : forall frm til,
  lpath_ok F toks p frm til -> p <> [] -> rpath_ok F toks (rev p) frm til.
Proof.
  induction p as [|nd rest IH]; intros frm til H Hne; [congruence|].
  simpl in H. destruct H as (mid & Hn & Hrest).
  destruct rest as [|r rs].
  - simpl in Hrest. subst mid. simpl. exists frm. auto.
  - change (rev (nd :: r :: rs)) with (rev (r :: rs) ++ [nd]).
    apply (rpath_ok_snoc _ frm mid til nd Hn).
    apply IH; [exact Hrest | discriminate].
Qed.

Lemma parse_paths_rev_complete :
  forall rp frm til,
    rpath_ok F toks rp frm til ->
    In rp (parse_paths_rev g (map node_sym rp) F frm til).
Proof.
  destruct (final_valid g eps text start alts Hwf Heps Hstart) as (_ & V2 & _).
  induction rp as [|nd rest IH]; intros frm til H; [destruct H|].
  simpl in H. destruct H as (st & Hn & Hle & Hrest).
  cbn [map parse_paths_rev]. apply in_flat_map. exists (nd, st). split.
  - destruct nd as [v|s]; cbn [node_ok node_sym] in Hn |- *.
    + destruct Hn as (-> & Htok & Hv).
      unfold in_grammar. rewrite (terminal_not_key g Hwf v Hv).
      assert (Hl1 : String.length v = 1).
      { destruct (tokens_of_single _ _ _ Htok) as [c ->]. reflexivity. }
      assert (Hb : (0 <? st + 1) && letter_is F (st + 1) v = true).
      { apply andb_true_intro. split; [apply Nat.ltb_lt; lia|].
        unfold letter_is.
        rewrite (final_letter g eps text start alts Hwf Heps Hstart).
        replace (st + 1) with (S st) by lia. rewrite Htok.
        apply String.eqb_refl. }
      rewrite Hb. left. f_equal. rewrite Hl1. lia.
    + destruct Hn as (Hin & Hfin & Hs & Hab).
      destruct (V2 _ _ Hin) as ((al & Hl & _) & _).
      unfold in_grammar. rewrite Hl. apply in_map_iff. exists s.
      split; [now rewrite Hs|]. apply filter_In. split; [exact Hin|].
      rewrite Hfin, String.eqb_refl. reflexivity.
  - cbn [fst snd]. destruct rest as [|r rs].
    + simpl. subst st. rewrite Nat.eqb_refl. now left.
    + cbn [map]. apply in_map. exact (IH frm st Hrest).
Qed.

Lemma parse_forest_single b s :
  In s (col_states F b) ->
  parse_forest g F [s] =
  Ok (name s,
      match expr s with
      | [] => []
      | _ => map (fun p => rev p) (parse_paths g (expr s) F (s_col s) b)
      end).
Proof.
  intros Hin. unfold parse_forest, parse_forest_state. cbn [map dedup sym_in existsb].
  cbn [map_result].
  rewrite (final_e_col g eps text start alts Hwf Heps Hstart b s Hin).
  destruct (expr s); cbn [bind map snd List.concat]; [reflexivity|].
  now rewrite app_nil_r.
Qed.

(** The children of a node of a derivation tree have a path in the
    chart: from an item with the dot in front of their roots, the
    chart holds a completed item for every child that is a node and the
    token of every child that is a leaf. *)
Lemma children_path :
  forall cs X e d s k til,
    has_item F k (X, e, d, s) ->
    map tree_root cs = skipn d e ->
    Forall (tree_derivation g) cs -> Forall tree_ok cs ->
    flat_map leaves cs = seg toks k til ->
    k <= til -> til <= List.length toks ->
    exists p, lpath_ok F toks p k til /\ Forall2 (node_tree g F toks) p cs.
Proof.
  destruct (chart_parse_sound_closed g eps text start alts Hwf Heps Hstart)
    as ((V & Hlen & Hlet & Hsound) & Hext & Hclosed).
  pose proof V as (_ & V2 & _).
  induction cs as [|c cs IH]; intros X e d s k til Hh Hroots Hd Hok Hlv Hk Htil.
  - exists []. split; [|constructor]. simpl.
    assert (Hz : List.length (seg toks k til) = 0) by (now rewrite <- Hlv).
    rewrite seg_length in Hz by exact Htil. lia.
  - cbn [map] in Hroots. symmetry in Hroots.
    destruct (skipn_cons_inv e d _ _ Hroots) as [Hat Hrest].
    inversion Hd as [|? ? Hdc Hdcs]; subst.
    inversion Hok as [|? ? Hokc Hokcs]; subst.
    cbn [flat_map] in Hlv. symmetry in Hlv.
    destruct (seg_app_inv toks k til _ _ Hlv Hk Htil) as (Hw1 & Hw2 & Hm).
    destruct Hh as [st [Hin Hkk]]. injection Hkk as K1 K2 K3 K4. subst X e d s.
    destruct (V2 _ _ Hin) as ((al & Hl & Hal) & _).
    assert (Hterm : lookup g (tree_root c) = None ->
                    is_nt (tree_root c) = Ok false).
    { apply (alt_symbol_terminal g (name st) al (expr st)); auto.
      eapply nth_error_In; eauto. }
    assert (Hder : derives g [tree_root c] (leaves c))
      by (apply tree_derives; auto).
    assert (Hnext : has_item F (k + List.length (leaves c))
                      (name st, expr st, dot st + 1, s_col st)).
    { apply (derives_advances g eps text start alts Hwf Heps Hstart
               [tree_root c] _ Hder (name st) (expr st) (dot st) (s_col st)
               k (k + List.length (leaves c))).
      - exists st. split; [exact Hin | reflexivity].
      - rewrite Hroots. reflexivity.
      - lia.
      - lia.
      - exact Hw1. }
    destruct (IH (name st) (expr st) (dot st + 1) (s_col st)
                (k + List.length (leaves c)) til Hnext (eq_sym Hrest)
                Hdcs Hokcs Hw2 Hm Htil)
      as (p & Hp & Hf2).
    destruct c as [Y csc]. cbn [tree_root] in *.
    destruct (lookup g Y) as [altsY|] eqn:HlY.
    + apply (tree_derivation_node g Y altsY csc HlY) in Hdc.
      destruct Hdc as [HaY Hdcsc].
      assert (HntY : is_nt Y = Ok true) by (eapply key_is_nt; eauto).
      apply (tree_ok_node Y csc HntY) in Hokc.
      rewrite (leaves_node Y csc HntY) in *.
      assert (Hf : finished st = false).
      { unfold finished. apply Nat.leb_gt. apply nth_error_Some. congruence. }
      destruct (Hclosed k st Hin) as (Hpred & _ & _).
      destruct (Hpred Y altsY Hf Hat HlY) as [Hall _].
      assert (Hchild : has_item F (k + List.length (flat_map leaves csc))
                         (Y, map tree_root csc,
                          0 + List.length (map tree_root csc), k)).
      { apply (derives_advances g eps text start alts Hwf Heps Hstart
                 (map tree_root csc) _
                 (alt_children_derive g Y altsY csc Hwf Hsym HlY HaY Hdcsc Hokc)
                 Y (map tree_root csc) 0 k k
                 (k + List.length (flat_map leaves csc)) (Hall _ HaY)).
        - simpl. apply firstn_all.
        - lia.
        - lia.
        - exact Hw1. }
      destruct Hchild as [s' [Hin' Hk']]. injection Hk' as C1 C2 C3 C4.
      assert (Hfin' : finished s' = true).
      { unfold finished. apply Nat.leb_le. rewrite C2, C3. simpl. lia. }
      exists (PN s' :: p). split.
      * cbn [lpath_ok]. exists (k + List.length (flat_map leaves csc)).
        split; [|exact Hp]. simpl. repeat split; auto. lia.
      * constructor; [|exact Hf2]. simpl.
        exists (k + List.length (flat_map leaves csc)), csc.
        rewrite C1, C4. repeat split; auto.
    + pose proof (Hterm eq_refl) as Hv.
      assert (Hcs : csc = []) by (simpl in Hokc; now rewrite Hv in Hokc).
      subst csc.
      assert (Hlc : leaves (Node Y []) = [Y]) by (simpl; now rewrite Hv).
      rewrite Hlc in *. cbn [List.length] in *.
      destruct (seg_cons_inv toks k til Y _ Hlv Hk Htil) as (_ & Htok & _).
      exists (PT Y :: p). split.
      * cbn [lpath_ok]. exists (k + 1). split; [|exact Hp].
        simpl. auto.
      * constructor; [reflexivity | exact Hf2].
Qed.

(** A generator of [extract_trees] that ends without an exception has
    yielded every tree whose children spell the expression of a
    completed item behind the forest node and cover its tokens. *)
Lemma extract_trees_complete :
  forall depth fn s cs til,
    In s (col_states F til) -> finished s = true ->
    name s = fst fn -> expr s = map tree_root cs ->
    (cs = [] -> snd fn = []) ->
    (cs <> [] ->
     forall p, In p (map (fun p => rev p)
                         (parse_paths g (expr s) F (s_col s) til)) ->
               In p (snd fn)) ->
    Forall (tree_derivation g) cs -> Forall tree_ok cs ->
    flat_map leaves cs = seg toks (s_col s) til ->
    snd (extract_trees g depth F fn) = None ->
    In (Node (fst fn) cs) (fst (extract_trees g depth F fn)).
Proof.
  destruct (final_valid g eps text start alts Hwf Heps Hstart) as (_ & V2 & _).
  induction depth as [|depth IH];
    intros fn s cs til Hin Hfin Hnm Hex Hnil Hpaths Hd Hok Hlv Hnone;
    [discriminate|].
  destruct fn as [nm paths]. cbn [fst snd] in Hnm, Hnil, Hpaths |- *.
  assert (Hcase : cs = [] \/ cs <> [])
    by (destruct cs; [now left | right; discriminate]).
  destruct Hcase as [Hcs | Hne].
  - rewrite (Hnil Hcs), Hcs. cbn. now left.
  - pose proof (item_origin _ til s Hin eq_refl) as H0.
    pose proof (final_item_bound g eps text start alts Hwf Heps Hstart til s Hin)
      as Htil.
    destruct (V2 _ _ Hin) as (_ & _ & Hs & _).
    destruct (children_path cs (name s) (expr s) 0 (s_col s) (s_col s) til H0
                (eq_sym Hex) Hd Hok Hlv Hs Htil) as (p & Hp & Hf2).
    assert (Hpne : p <> []).
    { intros ->. inversion Hf2. congruence. }
    assert (Hinp : In p paths).
    { apply (Hpaths Hne). rewrite <- (rev_involutive p).
      apply (in_map (fun p => rev p)). unfold parse_paths.
      replace (rev (expr s)) with (map node_sym (rev p)).
      - apply parse_paths_rev_complete. now apply lpath_rpath.
      - rewrite map_rev. f_equal. rewrite Hex.
        exact (node_tree_syms g F toks p cs Hf2). }
    cbn [extract_trees] in Hnone |- *.
    destruct paths as [|p0 paths0] eqn:Ep; [destruct Hinp|].
    rewrite <- Ep in *. clear Ep p0 paths0.
    destruct (over_paths_None g _ F nm paths Hnone p Hinp) as (ts & Hts & Hincl).
    apply Hincl.
    destruct (path_trees_Ok g _ F nm p ts Hts) as (fs & Hfs & Hall & ->).
    apply in_map. apply product_In.
    apply map_result_Forall2 in Hfs.
    clear Hts Hincl Hinp Hpne Hp Hpaths Hnil Hnone Hlv Hok Hd Hex H0 Hne.
    revert fs Hfs Hall.
    induction Hf2 as [|nd c p cs Hnc Hrest IHf]; intros fs Hfs Hall;
      inversion Hfs as [|? f0 ? fs0 Hf0 Hfs0]; subst; [constructor|].
    inversion Hall as [|? ? Hn0 Hall0]; subst. cbn [map].
    constructor; [|apply IHf; auto].
    destruct nd as [v|s'].
    + simpl in Hnc. subst c. simpl in Hf0. inversion Hf0; subst f0.
      destruct depth; [discriminate|]. now left.
    + destruct Hnc as (b & csc & -> & Hin' & Hfin' & Hex' & Hd' & Hok' & Hlv').
      simpl in Hf0. rewrite (parse_forest_single b s' Hin') in Hf0.
      inversion Hf0; subst f0.
      apply (IH (name s', _) s' csc b); auto.
      * cbn [snd]. intros ->. simpl in Hex'. now rewrite Hex'.
      * cbn [snd]. intros Hc p' Hp'.
        destruct (expr s') as [|x l] eqn:E; [|exact Hp'].
        destruct csc; [congruence | discriminate].
Qed.

End CompleteForest.

Lemma sum_grammar_symbols_ok : symbols_ok sum_grammar.
Proof.
  intros X alts alt t [Heq | [Heq | []]] Ha Ht; inversion Heq; subst;
    repeat (destruct Ha as [<- | Ha]; [simpl in Ht;
      repeat (destruct Ht as [<- | Ht];
              [split; [discriminate
                      | intros H; first [discriminate H | simpl; discriminate]]|]);
      destruct Ht|]);
    destruct Ha.
Qed.

(** X23.  [parse_on] yields every derivation tree of a non-empty text.
    For a grammar whose keys are distinct nonterminals and whose
    symbols of the form [<...>] are all keys, a parser built with
    either setting of [parse_exceptions] and a text that is not empty:
    when the generator [parse_on(text, start)] ends without an
    exception, it has yielded every tree that has [start] at its root,
    expands every nonterminal by one of its alternatives and has the
    characters of [text] as its leaves. *)
Theorem earley_parse_on_complete
    (g : grammar) (pe : bool) (p : Parser) (depth : nat) (text : string)
    (start : symbol) (t : tree) :
  wf_grammar g -> symbols_ok g ->
  EarleyParser g pe = Ok p ->
  text <> "" ->
  snd (parse_on p depth text start) = None ->
  tree_root t = start -> tree_derivation g t ->
  leaves t = tokens_of text ->
  In t (fst (parse_on p depth text start)).
Proof.
  intros Hwf Hsym Hp Htext Hnone Hroot Hd Hlv. unfold EarleyParser in Hp.
  destruct (nullable g) as [eps|e] eqn:Heps; cbn [bind] in Hp; [|discriminate].
  inversion Hp; subst p. clear Hp.
  unfold parse_on in *. cbn [p_grammar p_epsilon p_parse_exceptions] in *.
  destruct (recognize_on g eps pe text start) as [[table starts]|e] eqn:Er;
    [|discriminate].
  destruct (parse_forest g table starts) as [f|e] eqn:Ef; [|discriminate].
  destruct (recognize_on_Ok _ _ _ _ _ _ _ Er)
    as (alts & cursor & sts & Hl & Ht & Hls & Hst & Hcond).
  destruct (recognize_on_starts g eps pe text start table starts Hwf Heps Er)
    as (alts' & i & Hl' & _ & _ & _ & Hall).
  rewrite Hl in Hl'. inversion Hl'; subst alts'. clear Hl'. subst table.
  destruct (chart_parse_sound_closed g eps text start alts Hwf Heps Hl)
    as ((V & Hlen & _) & Hext & _).
  pose proof V as (V1 & V2 & V3).
  destruct t as [key cs]. simpl in Hroot. subst key.
  assert (Hnt : is_nt start = Ok true) by (eapply key_is_nt; eauto).
  assert (Hok : tree_ok (Node start cs)).
  { apply (derivation_tree_ok g Hwf Hsym _ Hd). simpl. congruence. }
  apply (tree_derivation_node g start alts cs Hl) in Hd.
  destruct Hd as [Ha Hdcs]. apply (tree_ok_node start cs Hnt) in Hok.
  rewrite (leaves_node start cs Hnt) in Hlv.
  assert (Hne : cs <> []).
  { intros ->. simpl in Hlv. symmetry in Hlv.
    now apply (tokens_of_nonempty text Htext). }
  set (n := List.length (tokens_of text)).
  assert (Hseed : has_item (chart_parse g eps text start alts) 0
                    (start, map tree_root cs, 0, 0)).
  { eapply chart_ext_has_item; [exact Hext|]. now apply seed_chart_has. }
  assert (Hfin : has_item (chart_parse g eps text start alts) n
                   (start, map tree_root cs,
                    0 + List.length (map tree_root cs), 0)).
  { apply (derives_advances g eps text start alts Hwf Heps Hl
             (map tree_root cs) _
             (alt_children_derive g start alts cs Hwf Hsym Hl Ha Hdcs Hok)
             start (map tree_root cs) 0 0 0 n Hseed).
    - simpl. apply firstn_all.
    - lia.
    - unfold n. lia.
    - unfold n. now rewrite seg_all. }
  destruct Hfin as [s0 [Hin Hk]]. injection Hk as K1 K2 K3 K4.
  assert (Hfs : finished s0 = true).
  { unfold finished. apply Nat.leb_le. rewrite K2, K3. simpl. lia. }
  destruct (col_states_In_nth _ _ _ Hin) as [c [Hc Hinc]].
  assert (Hss : In s0 (start_states start alts c)).
  { apply start_state_in_column; auto. now rewrite K2. }
  assert (Hs0 : In s0 starts).
  { rewrite Hst. apply filter_In. split; [|exact Hfs].
    rewrite (rev_last_column _ n c Hlen Hc) in Hls. cbn [latest_start] in Hls.
    destruct (start_states start alts c) as [|x l] eqn:Es; [destruct Hss|].
    inversion Hls; subst. exact Hss. }
  assert (Hfst : fst f = start).
  { apply (parse_forest_ok g eps text start alts Hwf Heps Hl 0 i start starts f);
      [intros ->; destruct Hs0 | | exact Ef].
    intros s Hs. destruct (Hall s Hs) as (H1 & H2 & H3 & _ & H5). auto. }
  assert (Hexpr : expr s0 <> []).
  { rewrite K2. destruct cs; [congruence | discriminate]. }
  assert (Hf0 : parse_forest_state g (chart_parse g eps text start alts) s0
                = Ok (name s0,
                      map (fun p => rev p)
                          (parse_paths g (expr s0)
                             (chart_parse g eps text start alts) (s_col s0) n))).
  { unfold parse_forest_state.
    rewrite (final_e_col g eps text start alts Hwf Heps Hl n s0 Hin).
    destruct (expr s0); [congruence | reflexivity]. }
  replace (Node start cs) with (Node (fst f) cs) by (now rewrite Hfst).
  apply (extract_trees_complete g eps text start alts Hwf Hsym Heps Hl
           depth f s0 cs n); auto.
  - congruence.
  - congruence.
  - intros _ p Hp.
    exact (parse_forest_paths g _ starts f s0 _ Ef Hs0 Hf0 p Hp).
  - rewrite K4. unfold n. now rewrite seg_all.
Qed.

Lemma earley_parse_on_complete_witness :
  In (Node "<S>" [Node "<E>" [Node "<E>" [Node "1" []]; Node "+" [];
                              Node "<E>" [Node "1" []]]])
     (fst (parse_on (mkParser sum_grammar [] false) 6 "1+1" "<S>")).
Proof.
  apply (earley_parse_on_complete sum_grammar false).
  - exact sum_grammar_wf.
  - exact sum_grammar_symbols_ok.
  - reflexivity.
  - discriminate.
  - vm_compute. reflexivity.
  - reflexivity.
  - simpl. repeat split; auto.
  - reflexivity.
Defined.
